(** * samtools fixmate (bam_mate.c): a shallow embedding and its properties

    The development follows [bam_mate.c] function by function.

    Representation choices.
    - [hts_pos_t] (int64) coordinates, [int32] reference ids and the
      [uint16] flag word are values of [Z]; flag updates are written with
      [Z.lor] / [Z.land] / [Z.lnot] exactly as in the C text.  CIGAR words
      are [uint32]: every store into a CIGAR slot is wrapped by [u32].
    - A [bam1_t] owns one packed buffer
        qname | cigar (4 bytes per op) | seq | qual | aux
      whose regions never interleave.  The record type keeps the five
      regions as five lists; [n_cigar], [l_qseq] and [l_data] are the
      derived sizes, and [m_data] is the capacity of the buffer.  A
      [memmove] that shifts the tail of the buffer after the CIGAR changes
      size is therefore the identity on the tail regions.  The auxiliary
      region is kept at byte level, since the sanitizer compacts it with raw
      pointers.
    - The heap is unbounded: [malloc]/[realloc] never return NULL, so the
      [-1]/[-2] returns that only report allocation failure are absent.  A
      [realloc] ends the lifetime of the old buffer, whatever address the
      new one has: pointers into it may not be read through afterwards.
      The host is little-endian, and [assert] is compiled in.
    - Behaviour that C leaves undefined (a store through [new_cigar[-1]],
      a store through a NULL [pre], a [strcmp] through a pointer into a
      buffer that [realloc] has released) and a failed [assert] are explicit
      outcomes of type [result].
    - [bam_mate.c] is written against htslib.  The htslib types, macros and
      functions it uses are not part of the source file; they are written
      here after the record model of the specification and htslib's
      behaviour, and marked where they appear.
    - Outside the model: the command line of [bam_mating] (of the option
      handling only the keyword parser [bam_sanitize_options] is modelled),
      the header checks and the PG header line of [bam_mating_core], thread
      pools, and write failures (the output stream accepts every record). *)

From Stdlib Require Import ZArith List Lia Bool.
From Stdlib Require Import Strings.String Strings.Ascii Strings.Byte DecimalString.
From stdpp Require Import base list.
Import ListNotations.

Local Open Scope Z_scope.

(** ** Outcomes of a call *)

Inductive result (A : Type) : Type :=
| Ok (a : A)            (* normal return *)
| Err (code : Z)        (* negative return code *)
| Undef                 (* undefined behaviour reached *)
| Aborted               (* assert() failed *)
| NoFuel.               (* the bound given to a loop of the model ran out;
                           never an outcome of the program *)
Arguments Ok {A} a.
Arguments Err {A} code.
Arguments Undef {A}.
Arguments Aborted {A}.
Arguments NoFuel {A}.

Definition rbind {A B} (r : result A) (k : A -> result B) : result B :=
  match r with
  | Ok a => k a
  | Err c => Err c
  | Undef => Undef
  | Aborted => Aborted
  | NoFuel => NoFuel
  end.

Notation "'do' x <- r ; k" := (rbind r (fun x => k))
  (at level 10, x name, r at level 100, k at level 200).

(** ** The record model (htslib/sam.h) *)

(** Modelled from the spec: [bam1_core_t] and [bam1_t] are declared in
    htslib/sam.h.  The fixed attributes are those the specification lists
    (reference id, position, flag bitmask, mapping quality, mate reference
    id, mate position, insert size); the variable attributes are the qname
    and the three regions "CIGAR operation list, packed sequence+quality,
    auxiliary-tag stream", stored contiguously in this order "inside one
    resizable buffer".  [m_data] is the capacity of that buffer, which
    [bam_trim] compares with the size it needs before it reallocates. *)
Record bam1_core_t : Type := mk_core {
  pos   : Z;   (* 0-based leftmost coordinate, -1 unset *)
  tid   : Z;   (* reference id, -1 unset *)
  qual  : Z;   (* mapping quality *)
  flag  : Z;   (* bitwise flag *)
  mtid  : Z;   (* mate reference id *)
  mpos  : Z;   (* mate position *)
  isize : Z    (* observed template length *)
}.

Record bam1_t : Type := mk_bam {
  core    : bam1_core_t;
  d_qname : list byte;   (* NUL terminated and padded, l_qname bytes *)
  d_cigar : list Z;      (* n_cigar uint32 words *)
  d_seq   : list byte;   (* packed bases *)
  d_qual  : list byte;   (* l_qseq base qualities *)
  d_aux   : list byte;   (* auxiliary tag stream *)
  m_data  : Z            (* bytes allocated for the buffer *)
}.

Definition n_cigar (b : bam1_t) : Z := Z.of_nat (length (d_cigar b)).
Definition l_qseq (b : bam1_t) : Z := Z.of_nat (length (d_qual b)).
Definition l_data (b : bam1_t) : Z :=
  Z.of_nat (length (d_qname b)) + 4 * n_cigar b + Z.of_nat (length (d_seq b))
  + Z.of_nat (length (d_qual b)) + Z.of_nat (length (d_aux b)).

Definition with_core (b : bam1_t) (c : bam1_core_t) : bam1_t :=
  mk_bam c (d_qname b) (d_cigar b) (d_seq b) (d_qual b) (d_aux b) (m_data b).
Definition with_cigar (b : bam1_t) (cg : list Z) : bam1_t :=
  mk_bam (core b) (d_qname b) cg (d_seq b) (d_qual b) (d_aux b) (m_data b).
Definition with_aux (b : bam1_t) (a : list byte) : bam1_t :=
  mk_bam (core b) (d_qname b) (d_cigar b) (d_seq b) (d_qual b) a (m_data b).
Definition with_m_data (b : bam1_t) (m : Z) : bam1_t :=
  mk_bam (core b) (d_qname b) (d_cigar b) (d_seq b) (d_qual b) (d_aux b) m.

Definition set_pos (b : bam1_t) (v : Z) : bam1_t :=
  let c := core b in
  with_core b (mk_core v (tid c) (qual c) (flag c) (mtid c) (mpos c) (isize c)).
Definition set_tid (b : bam1_t) (v : Z) : bam1_t :=
  let c := core b in
  with_core b (mk_core (pos c) v (qual c) (flag c) (mtid c) (mpos c) (isize c)).
Definition set_qual (b : bam1_t) (v : Z) : bam1_t :=
  let c := core b in
  with_core b (mk_core (pos c) (tid c) v (flag c) (mtid c) (mpos c) (isize c)).
Definition set_flag (b : bam1_t) (v : Z) : bam1_t :=
  let c := core b in
  with_core b (mk_core (pos c) (tid c) (qual c) v (mtid c) (mpos c) (isize c)).
Definition set_mtid (b : bam1_t) (v : Z) : bam1_t :=
  let c := core b in
  with_core b (mk_core (pos c) (tid c) (qual c) (flag c) v (mpos c) (isize c)).
Definition set_mpos (b : bam1_t) (v : Z) : bam1_t :=
  let c := core b in
  with_core b (mk_core (pos c) (tid c) (qual c) (flag c) (mtid c) v (isize c)).
Definition set_isize (b : bam1_t) (v : Z) : bam1_t :=
  let c := core b in
  with_core b (mk_core (pos c) (tid c) (qual c) (flag c) (mtid c) (mpos c) v).

(** Modelled from the spec: the flag bits (paired, proper-pair, unmapped,
    mate-unmapped, reverse-strand, mate-reverse, segment-1, secondary,
    supplementary) are macros of htslib/sam.h, with the values of the SAM
    format. *)
Definition BAM_FPAIRED        : Z := 1.
Definition BAM_FPROPER_PAIR   : Z := 2.
Definition BAM_FUNMAP         : Z := 4.
Definition BAM_FMUNMAP        : Z := 8.
Definition BAM_FREVERSE       : Z := 16.
Definition BAM_FMREVERSE      : Z := 32.
Definition BAM_FREAD1         : Z := 64.
Definition BAM_FSECONDARY     : Z := 256.
Definition BAM_FSUPPLEMENTARY : Z := 2048.

(** [x & m] used as a C truth value. *)
Definition tst (x m : Z) : bool := negb (Z.land x m =? 0).

Definition fl (b : bam1_t) : Z := flag (core b).
Definition flag_or (b : bam1_t) (m : Z) : bam1_t := set_flag b (Z.lor (fl b) m).
Definition flag_clear (b : bam1_t) (m : Z) : bam1_t :=
  set_flag b (Z.land (fl b) (Z.lnot m)).

(** Modelled from the spec: a CIGAR operation is an (operation-length,
    operation-kind) pair; htslib/sam.h packs it in a [uint32_t], kind in
    the low 4 bits (match 0, soft-clip 4, hard-clip 5), and
    [BAM_CIGAR_TYPE] tells which kinds consume query and reference. *)
Definition BAM_CMATCH     : Z := 0.
Definition BAM_CSOFT_CLIP : Z := 4.
Definition BAM_CHARD_CLIP : Z := 5.
Definition BAM_CIGAR_TYPE : Z := 0x3C1A7.

Definition u32 (x : Z) : Z := x mod 2 ^ 32.

Definition bam_cigar_op (c : Z) : Z := Z.land c 15.
Definition bam_cigar_oplen (c : Z) : Z := Z.shiftr c 4.
Definition bam_cigar_gen (l o : Z) : Z := Z.lor (Z.shiftl l 4) o.
Definition bam_cigar_type (o : Z) : Z :=
  Z.land (Z.shiftr BAM_CIGAR_TYPE (Z.shiftl o 1)) 3.

(** bit 2 of the type: the operation consumes the reference *)
Definition consumes_ref (c : Z) : bool := tst (bam_cigar_type (bam_cigar_op c)) 2.

(** Modelled from the spec: [bam_cigar2rlen] and [bam_endpos] of htslib,
    the reference length of a CIGAR and the alignment's end coordinate
    (position + 1 for an unmapped record or an empty reference span). *)
Fixpoint bam_cigar2rlen (cigar : list Z) : Z :=
  match cigar with
  | [] => 0
  | c :: rest =>
      (if consumes_ref c then bam_cigar_oplen c else 0) + bam_cigar2rlen rest
  end.

Definition bam_endpos (b : bam1_t) : Z :=
  let rlen := if tst (fl b) BAM_FUNMAP then 0 else bam_cigar2rlen (d_cigar b) in
  let rlen := if rlen =? 0 then 1 else rlen in
  pos (core b) + rlen.

(** Modelled from the spec: [reference_length(reference_id) -> integer],
    htslib's [sam_hdr_tid2len], 0 for an id outside the header.  The
    header is the list of reference lengths, indexed by reference id. *)
Definition sam_hdr_t : Type := list Z.

Definition sam_hdr_tid2len (h : sam_hdr_t) (t : Z) : Z :=
  if t <? 0 then 0 else nth (Z.to_nat t) h 0.

(** ** clear_cigar and bam_trim *)

(** The bytes after the CIGAR move down; only the CIGAR region disappears. *)
Definition clear_cigar (b : bam1_t) : bam1_t := with_cigar b [].

(** First loop of [bam_trim]: scan for the operation at which the running
    reference position first exceeds [end_].  [None] is loop exit with
    [i == n_cigar]; [Some (i, pos)] is the [break], with [pos] already
    advanced over operation [i]. *)
Fixpoint trim_find (cigar : list Z) (i : nat) (p end_ : Z) : option (nat * Z) :=
  match cigar with
  | [] => None
  | c :: rest =>
      if negb (consumes_ref c) then trim_find rest (S i) p end_
      else
        let p := p + bam_cigar_oplen c in
        if p >? end_ then Some (i, p) else trim_find rest (S i) p end_
  end.

(** Third loop: rebuild the trailing part in [new_cigar] (its length is [j]).
    A hard clip is appended; anything else is added to slot [j-1], which
    does not exist when [j = 0]. *)
Fixpoint trim_tail (rest : list Z) (new_cigar : list Z) : result (list Z) :=
  match rest with
  | [] => Ok new_cigar
  | c :: rest' =>
      if bam_cigar_op c =? BAM_CHARD_CLIP then trim_tail rest' (new_cigar ++ [c])
      else
        match rev new_cigar with
        | [] => Undef
        | x :: front =>
            trim_tail rest'
              (rev front ++
               [u32 (bam_cigar_gen (bam_cigar_oplen x + bam_cigar_oplen c)
                                   BAM_CSOFT_CLIP)])
        end
  end.

(** The end of [bam_trim]: the CIGAR region takes its new size and the
    bytes behind it are shifted.  Only when the region grows and the data
    would no longer fit, the buffer is reallocated, and the capacity becomes
    the new length of the data. *)
Definition trim_resize (b : bam1_t) (cg : list Z) : bam1_t :=
  let nshift := 4 * (Z.of_nat (length cg) - n_cigar b) in
  let b :=
    if (0 <? nshift) && (l_data b + nshift >? m_data b)
    then with_m_data b (l_data b + nshift)
    else b in
  with_cigar b cg.

Definition bam_trim (b : bam1_t) (end_ : Z) : result bam1_t :=
  let cigar := d_cigar b in
  match trim_find cigar 0 (pos (core b)) end_ with
  | None => Ok b                                   (* looks fine already *)
  | Some (i, p) =>
      let c := nth i cigar 0 in
      let op := bam_cigar_op c in
      let oplen := bam_cigar_oplen c in
      (* (b, cigar[0..old_i-1], new_cigar[0..j-1]) *)
      let '(b1, kept, new_cigar) :=
        if p - oplen <? end_ then
          (b,
           take i cigar ++ [u32 (bam_cigar_gen (end_ - (p - oplen)) op)],
           [u32 (bam_cigar_gen (p - end_) BAM_CSOFT_CLIP)])
        else if p >? end_ then
          (flag_clear (flag_or b BAM_FUNMAP) BAM_FPROPER_PAIR, take i cigar, [])
        else
          (b, take i cigar, [u32 (bam_cigar_gen oplen BAM_CSOFT_CLIP)]) in
      do new_cigar <- trim_tail (drop (S i) cigar) new_cigar;
      Ok (trim_resize b1 (kept ++ new_cigar))
  end.

(** ** Auxiliary tag stream (htslib sam.c)

    Offsets are relative to [bam_get_aux(b)]; the end of the record,
    [b->data + b->l_data], is offset [length d]. *)

Definition byteZ (x : byte) : Z := Z.of_N (Byte.to_N x).

(** Modelled from the spec: "each entry = 2-byte key + 1-byte type code +
    type-dependent payload".  The tag iterator of htslib ([aux_type2size],
    [skip_aux], [bam_aux_first], [bam_aux_next], [bam_aux_get],
    [bam_aux_del], [bam_aux_append]) is not part of the source file; the
    definitions below follow htslib's sam.c: the payload is 1, 2, 4 or 8
    bytes for the fixed-width types, runs to the NUL for Z and H, and is a
    subtype byte, a 32-bit count and the elements for B. *)
Definition aux_type2size (t : byte) : Z :=
  match t with
  | "A" | "c" | "C" => 1
  | "s" | "S" => 2
  | "i" | "I" | "f" => 4
  | "d" => 8
  | "Z" | "H" | "B" => byteZ t
  | _ => 0
  end%byte.

Definition le_to_u32 (d : list byte) (s : nat) : Z :=
  byteZ (nth s d x00) + 2 ^ 8 * byteZ (nth (s + 1) d x00)
  + 2 ^ 16 * byteZ (nth (s + 2) d x00) + 2 ^ 24 * byteZ (nth (s + 3) d x00).

(** distance to the first NUL, if any *)
Fixpoint nul_index (l : list byte) : option nat :=
  match l with
  | [] => None
  | x :: r => if Byte.eqb x x00 then Some O else option_map S (nul_index r)
  end.

(** [skip_aux(s, end)]: [s] points at the type byte; the result is the
    position just after the value, [None] for NULL. *)
Definition skip_aux (d : list byte) (s : nat) : option nat :=
  let end_ := length d in
  if (end_ <=? s)%nat then Some end_
  else
    let size := aux_type2size (nth s d x00) in
    let s := S s in
    if (size =? byteZ "Z"%byte) || (size =? byteZ "H"%byte) then
      match nul_index (drop s d) with
      | Some k => Some (s + k + 1)%nat
      | None => Some end_
      end
    else if size =? byteZ "B"%byte then
      if Z.of_nat end_ - Z.of_nat s <? 5 then None
      else
        let size := aux_type2size (nth s d x00) in
        let s := S s in
        let n := le_to_u32 d s in
        let s := (s + 4)%nat in
        if (size =? 0) || (Z.of_nat end_ - Z.of_nat s <? u32 (size * n)) then None
        else Some (s + Z.to_nat (u32 (size * n)))%nat
    else if size =? 0 then None
    else if Z.of_nat end_ - Z.of_nat s <? size then None
    else Some (s + Z.to_nat size)%nat.

(** A tag iterator: a pointer just after a key, or NULL with its errno. *)
Inductive aux_iter : Type :=
| AuxAt (s : nat)
| AuxEnd      (* NULL, errno = ENOENT *)
| AuxBad.     (* NULL, errno = EINVAL *)

Definition bam_aux_first (d : list byte) : aux_iter :=
  if (length d <=? 2)%nat then AuxEnd else AuxAt 2.

Definition bam_aux_next (d : list byte) (s : nat) : aux_iter :=
  match skip_aux d s with
  | None => AuxBad
  | Some next =>
      if Z.of_nat (length d) - Z.of_nat next <=? 2 then AuxEnd
      else AuxAt (next + 2)
  end.

(** [bam_aux_get]: the first tag with the given key, checked for a complete
    value; the iteration is bounded by the length of the stream. *)
Fixpoint aux_get_from (fuel : nat) (d : list byte) (k0 k1 : byte) (it : aux_iter)
  : option nat :=
  match fuel, it with
  | S fuel, AuxAt s =>
      if Byte.eqb (nth (s - 2) d x00) k0 && Byte.eqb (nth (s - 1) d x00) k1 then
        match skip_aux d s with
        | None => None
        | Some e =>
            let t := nth s d x00 in
            if (Byte.eqb t "Z"%byte || Byte.eqb t "H"%byte)
               && negb (Byte.eqb (nth (e - 1) d x00) x00)
            then None else Some s
        end
      else aux_get_from fuel d k0 k1 (bam_aux_next d s)
  | _, _ => None
  end.

Definition bam_aux_get (d : list byte) (k0 k1 : byte) : option nat :=
  aux_get_from (length d) d k0 k1 (bam_aux_first d).

(** [bam_aux_del]: cut the entry out, key included. *)
Definition bam_aux_del (d : list byte) (s : nat) : list byte :=
  match skip_aux d s with
  | None => d
  | Some e => take (s - 2) d ++ drop e d
  end.

Definition INT32_MAX : Z := 2 ^ 31 - 1.

(** [bam_aux_append]: refuses (returning -1, record untouched) when the
    record would exceed INT32_MAX bytes.  When the entry does not fit in
    the buffer htslib enlarges it, to a size that it rounds up by a rule of
    its own; the model records the least capacity that holds the data.
    ([bam_mate.c] reads the capacity only in [bam_trim], that is in the
    sanitizer, which runs on a record before any tag is appended to it.) *)
Definition bam_aux_append (b : bam1_t) (k0 k1 t : byte) (data : list byte)
  : bam1_t * Z :=
  let new_len := l_data b + 3 + Z.of_nat (length data) in
  if INT32_MAX <? new_len then (b, -1)
  else
    (with_m_data (with_aux b (d_aux b ++ k0 :: k1 :: t :: data))
                 (Z.max (m_data b) new_len), 0).

(** ** bam_sanitize *)

(** Modelled from the spec: the sanitizer categories [FIX_POS], [FIX_MQUAL],
    [FIX_UNMAP], [FIX_CIGAR], [FIX_AUX] and [FIX_ALL] are macros declared
    outside [bam_mate.c].  The spec gives a bitmask of five categories
    {Position, MappingQuality, Unmap, Cigar, AuxTags} and a pseudo-category
    All enabling all five; they are taken as five distinct bits and a mask
    covering them. *)
Definition FIX_POS   : Z := 2.
Definition FIX_MQUAL : Z := 4.
Definition FIX_UNMAP : Z := 8.
Definition FIX_CIGAR : Z := 16.
Definition FIX_AUX   : Z := 32.
Definition FIX_ALL   : Z := 255.

Definition XTAG (k0 k1 : byte) : Z := Z.shiftl (byteZ k0) 8 + byteZ k1.

(** [memmove(d + dst, d + src, len)] inside one buffer *)
Definition memmove (d : list byte) (dst src len : nat) : list byte :=
  take dst d ++ take len (drop src d) ++ drop (dst + len) d.

(** The [while (from)] loop that drops NM, MD, CG and SM.  [from] points
    after a key, [to] at the next tag start to write.  Every turn moves
    [from] forward, so [length d] turns are enough. *)
Fixpoint aux_filter_loop (fuel : nat) (d : list byte) (from to : nat)
  : result (list byte * nat) :=
  match fuel with
  | O => NoFuel
  | S fuel =>
      let next := bam_aux_next d from in
      match next with
      | AuxBad => Err (-1)
      | _ =>
          let from := (from - 2)%nat in
          let key := Z.lor (Z.shiftl (byteZ (nth from d x00)) 8)
                           (byteZ (nth (from + 1) d x00)) in
          let '(d, to) :=
            if negb (key =? XTAG "N" "M") && negb (key =? XTAG "M" "D")
               && negb (key =? XTAG "C" "G") && negb (key =? XTAG "S" "M")
            then
              let stop := match next with AuxAt nx => (nx - 2)%nat | _ => length d end in
              let len := (stop - from)%nat in
              ((if (from =? to)%nat then d else memmove d to from len),
               (to + len)%nat)
            else (d, to) in
          match next with
          | AuxAt nx => aux_filter_loop fuel d nx to
          | _ => Ok (d, to)
          end
      end
  end.

(** The block guarded by [flags & FIX_AUX]; [b->l_data = to - b->data]
    cuts the stream at [to]. *)
Definition sanitize_aux (b : bam1_t) : result bam1_t :=
  let d := d_aux b in
  match bam_aux_first d with
  | AuxAt from =>
      do r <- aux_filter_loop (length d) d from (from - 2);
      Ok (with_aux b (take (snd r) (fst r)))
  | _ => Ok b
  end.

(** [bam_sanitize] is three consecutive [if] blocks. *)

(** first block: RNAME * => pos 0 *)
Definition sanitize_pos (b : bam1_t) (flags : Z) : bam1_t :=
  if tst flags FIX_POS && (tid (core b) <? 0) then
    let b := set_pos b (-1) in
    if tst flags FIX_UNMAP then flag_or b BAM_FUNMAP else b
  else b.

(** second block: mapped => unmapped correction, CIGAR trim *)
Definition sanitize_mapped (h : sam_hdr_t) (b : bam1_t) (flags : Z)
  : result bam1_t :=
  if tst flags FIX_CIGAR && negb (tst (fl b) BAM_FUNMAP) then
    if (pos (core b) <? 0) && tst flags FIX_UNMAP then
      Ok (flag_or b BAM_FUNMAP)
    else
      let rlen := sam_hdr_tid2len h (tid (core b)) in
      if (pos (core b) >=? rlen) && tst flags FIX_UNMAP then
        let b := flag_or b BAM_FUNMAP in
        if tst flags FIX_POS then Ok (set_tid (set_pos b (-1)) (-1)) else Ok b
      else if bam_endpos b >? rlen then bam_trim b rlen
      else Ok b
  else Ok b.

(** third block, before the tag pass: CIGAR and mapping quality of an
    unmapped record *)
Definition sanitize_cigar_qual (b : bam1_t) (flags : Z) : bam1_t :=
  let b := if tst flags FIX_CIGAR && (n_cigar b >? 0) then clear_cigar b else b in
  if tst flags FIX_MQUAL then set_qual b 0 else b.

Definition sanitize_unmapped (b : bam1_t) (flags : Z) : result bam1_t :=
  if tst (fl b) BAM_FUNMAP then
    let b := sanitize_cigar_qual b flags in
    if tst flags FIX_AUX then sanitize_aux b else Ok b
  else Ok b.

Definition bam_sanitize (h : sam_hdr_t) (b : bam1_t) (flags : Z) : result bam1_t :=
  let b := sanitize_pos b flags in
  do b <- sanitize_mapped h b flags;
  sanitize_unmapped b flags.

(** ** Formatting (htslib kstring.h, sam.h) *)

(** Modelled from the spec: the formatted CIGAR is each operation's
    length in decimal followed by its letter; [kputw] and
    [bam_cigar_opchr] are htslib's. *)
Definition sint32 (z : Z) : Z := (z + 2 ^ 31) mod 2 ^ 32 - 2 ^ 31.

(** [kputw]: a C [int] in decimal *)
Definition kputw (c : Z) : list byte :=
  list_byte_of_string (NilZero.string_of_int (Z.to_int (sint32 c))).

(** [BAM_CIGAR_STR_PADDED] = "MIDNSHP=XB??????" *)
Definition bam_cigar_opchr (c : Z) : byte :=
  nth (Z.to_nat (bam_cigar_op c)) (list_byte_of_string "MIDNSHP=XB??????") "?"%byte.

Definition cigar_text (cigar : list Z) : list byte :=
  flat_map (fun c => kputw (bam_cigar_oplen c) ++ [bam_cigar_opchr c]) cigar.

Definition bam_format_cigar (b : bam1_t) : list byte :=
  if n_cigar b =? 0 then ["*"%byte] else cigar_text (d_cigar b).

(** the four bytes of a [uint32_t] object on a little-endian host *)
Definition u32_bytes (v : Z) : list byte :=
  map (fun k => match Byte.of_N (Z.to_N (Z.shiftr v (8 * k) mod 256)) with
                | Some x => x
                | None => x00
                end) [0; 1; 2; 3].

(** ** Mate synchronisation *)

Definition sync_unmapped_pos_inner (src dest : bam1_t) : bam1_t :=
  if tst (fl dest) BAM_FUNMAP && negb (tst (fl src) BAM_FUNMAP) then
    set_pos (set_tid dest (tid (core src))) (pos (core src))
  else dest.

Definition sync_mate_inner (src dest : bam1_t) : bam1_t :=
  let dest := set_mpos (set_mtid dest (tid (core src))) (pos (core src)) in
  let dest :=
    if tst (fl src) BAM_FREVERSE then flag_or dest BAM_FMREVERSE
    else flag_clear dest BAM_FMREVERSE in
  if tst (fl src) BAM_FUNMAP then flag_or dest BAM_FMUNMAP else dest.

Definition plausibly_properly_paired (a b : bam1_t) : result bool :=
  if tst (fl a) BAM_FUNMAP || tst (fl b) BAM_FUNMAP then Ok false
  else if negb (tid (core a) >=? 0) then Aborted
  else if negb (tid (core a) =? tid (core b)) then Ok false
  else
    let a_pos := if tst (fl a) BAM_FREVERSE then bam_endpos a else pos (core a) in
    let b_pos := if tst (fl b) BAM_FREVERSE then bam_endpos b else pos (core b) in
    let '(first, second) := if a_pos >? b_pos then (b, a) else (a, b) in
    if negb (tst (fl first) BAM_FREVERSE) && tst (fl second) BAM_FREVERSE
    then Ok true else Ok false.

(** delete the tag [k0 k1] when [bam_aux_get] finds it *)
Definition aux_drop (b : bam1_t) (k0 k1 : byte) : bam1_t :=
  match bam_aux_get (d_aux b) k0 k1 with
  | Some s => with_aux b (bam_aux_del (d_aux b) s)
  | None => b
  end.

Definition sync_mq_mc (src dest : bam1_t) : bam1_t :=
  let dest :=
    if negb (tst (fl src) BAM_FUNMAP) then
      let mq := qual (core src) in
      let dest := aux_drop dest "M" "Q" in
      fst (bam_aux_append dest "M" "Q" "i" (u32_bytes mq))
    else dest in
  if negb (tst (fl src) BAM_FUNMAP) || negb (tst (fl dest) BAM_FUNMAP) then
    let dest := aux_drop dest "M" "C" in
    let mc := bam_format_cigar src in
    fst (bam_aux_append dest "M" "C" "Z" (mc ++ [x00]))
  else dest.

Definition sync_mate (a b : bam1_t) : bam1_t * bam1_t :=
  let b := sync_unmapped_pos_inner a b in
  let a := sync_unmapped_pos_inner b a in
  let b := sync_mate_inner a b in
  let a := sync_mate_inner b a in
  let b := sync_mq_mc a b in
  let a := sync_mq_mc b a in
  (a, b).

Definition MD_MIN_QUALITY : Z := 15.

Definition calc_mate_score (b : bam1_t) : Z :=
  fold_left (fun score q => if byteZ q >=? MD_MIN_QUALITY then u32 (score + byteZ q)
                            else score)
            (d_qual b) 0.

Definition add_mate_score (src dest : bam1_t) : result bam1_t :=
  let mate_score := calc_mate_score src in
  let dest := aux_drop dest "m" "s" in
  let '(dest, rc) := bam_aux_append dest "m" "s" "i" (u32_bytes mate_score) in
  if rc =? -1 then Err (-1) else Ok dest.

(** [bam_template_cigar]: the pair comes back in the order it was given. *)
Definition ct_side (b : bam1_t) : list byte :=
  [if tst (fl b) BAM_FREAD1 then "1"%byte else "2"%byte;
   if tst (fl b) BAM_FREVERSE then "R"%byte else "F"%byte]
  ++ cigar_text (d_cigar b).

Definition ct_write (b1 b2 : bam1_t) : bam1_t * bam1_t :=
  let str := ct_side b1 ++ kputw (pos (core b2) - bam_endpos b1) ++ ["T"%byte]
             ++ ct_side b2 in
  let b1 := aux_drop b1 "c" "t" in
  let b2 := aux_drop b2 "c" "t" in
  (fst (bam_aux_append b1 "c" "t" "Z" (str ++ [x00])), b2).

Definition bam_template_cigar (b1 b2 : bam1_t) : bam1_t * bam1_t :=
  if negb (tid (core b1) =? tid (core b2)) || (tid (core b1) <? 0)
     || (pos (core b1) <? 0) || (pos (core b2) <? 0)
     || tst (fl b1) BAM_FUNMAP || tst (fl b2) BAM_FUNMAP
  then (b1, b2)
  else if pos (core b1) >? pos (core b2) then
    let '(lo, hi) := ct_write b2 b1 in (hi, lo)
  else ct_write b1 b2.

(** ** Template batch reader *)

(** The input stream, as [sam_read1] will deliver it: a record, or a
    decode failure with return code [-2 - k]; the end of the list is the
    clean end of stream (return code -1).  A record comes with the capacity
    [m_data] that [sam_read1] has left its buffer with. *)
Inductive rd_event : Type :=
| RdRec (r : bam1_t)
| RdErr (k : nat).

Definition samFile : Type := list rd_event.

(** [bam_init1]-style zeroed record *)
Definition bam_zero : bam1_t := mk_bam (mk_core 0 0 0 0 0 0 0) [] [] [] [] [] 0.

(** [b] holds the [ba] initialised slots, so [ba] is its length;
    [b_next] is [None] for -1. *)
Record bam_set : Type := mk_set {
  bs_b    : list bam1_t;
  bs_n    : nat;
  bs_next : option nat;
  bs_eof  : bool
}.

Definition grow_b_array (b : list bam1_t) (n : nat) : list bam1_t :=
  if (n <? length b)%nat then b else b ++ replicate (n - length b) bam_zero.

(** [bam_get_qname] as a C string: the bytes before the first NUL *)
Fixpoint cstr (l : list byte) : list byte :=
  match l with
  | [] => []
  | x :: r => if Byte.eqb x x00 then [] else x :: cstr r
  end.

Fixpoint bytes_eqb (s1 s2 : list byte) : bool :=
  match s1, s2 with
  | [], [] => true
  | x :: r1, y :: r2 => Byte.eqb x y && bytes_eqb r1 r2
  | _, _ => false
  end.

(** [strcmp(s1, s2) != 0] *)
Definition strcmp_ne (s1 s2 : list byte) : bool :=
  negb (bytes_eqb (cstr s1) (cstr s2)).

(** a failing [bam_sanitize] makes [next_template] return -2 *)
Definition or_minus2 {A} (r : result A) : result A :=
  match r with
  | Err _ => Err (-2)
  | _ => r
  end.

Definition slot (b : list bam1_t) (i : nat) : bam1_t := nth i b bam_zero.

(** [bam_sanitize] has turned [b] into [b'] and has passed through the
    [realloc] of [bam_trim] on the way.  The capacity is written in that
    branch and nowhere else in the sanitizer, and it grows there, so the
    buffer was reallocated exactly when the capacity differs. *)
Definition reallocated (b b' : bam1_t) : bool := negb (m_data b' =? m_data b).

(** The [for (;;)] loop of [next_template].  Each turn either consumes one
    event of the stream or meets its end, so the stream itself bounds it.
    [name] is a pointer into the buffer of [b[0]], taken before the loop:
    [strcmp] reads the query name of [b[0]] through it.  Once [bam_sanitize]
    has reallocated that buffer the pointer refers to freed memory, and the
    [strcmp] that follows is undefined. *)
Fixpoint read_group (h : sam_hdr_t) (sanitize_flags : Z)
    (inp : samFile) (b : list bam1_t) (n : nat) : result (bam_set * samFile) :=
  let b := grow_b_array b (n + 1) in
  match inp with
  | RdErr k :: _ =>                      (* result < -1 *)
      Err (-2 - Z.of_nat k)
  | [] =>                                (* result = -1, b[n] untouched *)
      do b0 <- or_minus2 (bam_sanitize h (slot b 0) sanitize_flags);
      Ok (mk_set (<[O := b0]> b) n None true, [])
  | RdRec r :: rest =>                   (* result >= 0, b[n] = r *)
      let b := <[n := r]> b in
      let old := slot b 0 in
      do b0 <- or_minus2 (bam_sanitize h old sanitize_flags);
      let b := <[O := b0]> b in
      if reallocated old b0 then Undef   (* strcmp(name, ...) after realloc *)
      else if strcmp_ne (d_qname (slot b 0)) (d_qname (slot b n)) then
        Ok (mk_set b n (Some n) false, rest)
      else read_group h sanitize_flags rest b (S n)
  end.

Definition next_template (h : sam_hdr_t) (sanitize_flags : Z)
    (bs : bam_set) (inp : samFile) : result (bam_set * samFile) :=
  if bs_eof bs then Err (-1)
  else
    do st <-
      match bs_next bs with
      | None =>                          (* first time through *)
          let b := grow_b_array (bs_b bs) 1 in
          match inp with
          | [] => Err (-1)
          | RdErr k :: _ => Err (-2 - Z.of_nat k)
          | RdRec r :: rest =>
              do b0 <- or_minus2 (bam_sanitize h r sanitize_flags);
              Ok (<[O := b0]> b, rest)
          end
      | Some nx =>                       (* swap b[0] and b[b_next] *)
          let b := bs_b bs in
          let btmp := slot b 0 in
          let b := <[O := slot b nx]> b in
          Ok (<[nx := btmp]> b, inp)
      end;
    let '(b, inp) := st in
    read_group h sanitize_flags inp b 1.

(** ** Template orchestrator *)

Record config : Type := mk_config {
  remove_reads      : bool;
  proper_pair_check : bool;
  add_ct            : bool;
  do_mate_scoring   : bool;
  sanitize_flags    : Z
}.

(** "If safe set TLEN/ISIZE" *)
Definition set_tlen (pre cur : bam1_t) (pre_end cur_end : Z) : bam1_t * bam1_t :=
  if (tid (core pre) =? tid (core cur))
     && negb (tst (fl cur) (Z.lor BAM_FUNMAP BAM_FMUNMAP))
     && negb (tst (fl pre) (Z.lor BAM_FUNMAP BAM_FMUNMAP))
  then
    let cur5 := if tst (fl cur) BAM_FREVERSE then cur_end else pos (core cur) in
    let pre5 := if tst (fl pre) BAM_FREVERSE then pre_end else pos (core pre) in
    (set_isize pre (cur5 - pre5), set_isize cur (pre5 - cur5))
  else (set_isize pre 0, set_isize cur 0).

Definition PAIR_FLAGS : Z :=
  Z.lor (Z.lor BAM_FPAIRED BAM_FMREVERSE) BAM_FPROPER_PAIR.

(** from the two [|= BAM_FPAIRED] up to and including the TLEN update *)
Definition pair_sync (pre cur : bam1_t) (pre_end cur_end : Z) : bam1_t * bam1_t :=
  let pre := flag_or pre BAM_FPAIRED in
  let cur := flag_or cur BAM_FPAIRED in
  let '(pre, cur) := sync_mate pre cur in
  set_tlen pre cur pre_end cur_end.

(** the rest of the loop body: ct tag, proper-pair check, mate score,
    removal fix-up *)
Definition pair_finish (cfg : config) (pre cur : bam1_t) : result (bam1_t * bam1_t) :=
  let '(pre, cur) := if add_ct cfg then bam_template_cigar pre cur else (pre, cur) in
  do pc <-
    (if proper_pair_check cfg then
       do ok <- plausibly_properly_paired pre cur;
       if negb ok then
         Ok (flag_clear pre BAM_FPROPER_PAIR, flag_clear cur BAM_FPROPER_PAIR)
       else Ok (pre, cur)
     else Ok (pre, cur));
  do pc <-
    (if do_mate_scoring cfg then
       do cur' <- add_mate_score (fst pc) (snd pc);
       do pre' <- add_mate_score cur' (fst pc);
       Ok (pre', cur')
     else Ok pc);
  let '(pre, cur) := pc in
  if remove_reads cfg then
    let cur := if tst (fl pre) BAM_FUNMAP then flag_clear cur PAIR_FLAGS else cur in
    let pre := if tst (fl cur) BAM_FUNMAP then flag_clear pre PAIR_FLAGS else pre in
    Ok (pre, cur)
  else Ok (pre, cur).

Definition fix_pair (cfg : config) (pre cur : bam1_t) (pre_end cur_end : Z)
  : result (bam1_t * bam1_t) :=
  let '(pre, cur) := pair_sync pre cur pre_end cur_end in
  pair_finish cfg pre cur.

(** State of the "find and fix up primary alignments" loop: the array and
    the indices behind the pointers [pre] and [cur] ([None] for NULL). *)
Record scan : Type := mk_scan {
  sc_b       : list bam1_t;
  sc_prev    : option nat;
  sc_curr    : option nat;
  sc_pre_end : Z
}.

Definition end_if_mapped (r : bam1_t) : Z :=
  if negb (tst (fl r) BAM_FUNMAP) then bam_endpos r else 0.

Definition scan_step (cfg : config) (st : scan) (n : nat) : result scan :=
  let b := sc_b st in
  if tst (fl (slot b n)) (Z.lor BAM_FSECONDARY BAM_FSUPPLEMENTARY) then Ok st
  else
    match sc_prev st with
    | None =>
        Ok (mk_scan b (Some n) (sc_curr st) (end_if_mapped (slot b n)))
    | Some prev =>
        let cur_end := end_if_mapped (slot b n) in
        do pc <- fix_pair cfg (slot b prev) (slot b n) (sc_pre_end st) cur_end;
        Ok (mk_scan (<[n := snd pc]> (<[prev := fst pc]> b))
                    (Some prev) (Some n) (sc_pre_end st))
    end.

Fixpoint scan_primaries (cfg : config) (ns : list nat) (st : scan) : result scan :=
  match ns with
  | [] => Ok st
  | n :: ns' => do st' <- scan_step cfg st n; scan_primaries cfg ns' st'
  end.

(** "Handle unpaired primary data": [if (!cur)] then stores through [pre] *)
Definition unpaired_cleanup (st : scan) : result (list bam1_t) :=
  match sc_curr st with
  | Some _ => Ok (sc_b st)
  | None =>
      match sc_prev st with
      | None => Undef
      | Some prev =>
          let pre := slot (sc_b st) prev in
          let pre := set_mtid pre (-1) in
          let pre := set_mpos pre (-1) in
          let pre := set_isize pre 0 in
          let pre := flag_clear pre PAIR_FLAGS in
          Ok (<[prev := pre]> (sc_b st))
      end
  end.

(** All fix-ups of one template [b[0..n-1]]. *)
Definition fix_template (cfg : config) (b : list bam1_t) (n : nat)
  : result (list bam1_t) :=
  do st <- scan_primaries cfg (seq 0 n) (mk_scan b None None 0);
  unpaired_cleanup st.

(** The write loop: the records handed to [sam_write1], in order. *)
Definition written (cfg : config) (b : list bam1_t) (n : nat) : list bam1_t :=
  List.filter (fun r => negb (remove_reads cfg
                         && tst (fl r) (Z.lor BAM_FSECONDARY BAM_FUNMAP)))
         (take n b).

(** The [while] loop of [bam_mating_core]: the records written so far and
    how the loop ended ([Ok tt] for return 0, [Err _] for return 1).  The
    output stream accepts every record. *)
Fixpoint mating_loop (fuel : nat) (cfg : config) (h : sam_hdr_t)
    (inp : samFile) (bs : bam_set) (out : list bam1_t)
  : list bam1_t * result unit :=
  match fuel with
  | O => (out, NoFuel)
  | S fuel =>
      match next_template h (sanitize_flags cfg) bs inp with
      | Ok (bs, inp) =>
          match fix_template cfg (bs_b bs) (bs_n bs) with
          | Ok b =>
              mating_loop fuel cfg h inp
                (mk_set b (bs_n bs) (bs_next bs) (bs_eof bs))
                (out ++ written cfg b (bs_n bs))
          | Err c => (out, Err c)
          | Undef => (out, Undef)
          | Aborted => (out, Aborted)
          | NoFuel => (out, NoFuel)
          end
      | Err c => (out, if c <? -1 then Err c else Ok tt)
      | Undef => (out, Undef)
      | Aborted => (out, Aborted)
      | NoFuel => (out, NoFuel)
      end
  end.

Definition bam_mating_core (cfg : config) (h : sam_hdr_t) (inp : samFile)
  : list bam1_t * result unit :=
  mating_loop (length inp + 2) cfg h inp (mk_set [] 0 None false) [].

(** ** bam_sanitize_options *)

(** the inner [while]: step over commas *)
Fixpoint skip_commas (str : list byte) : list byte :=
  match str with
  | x :: r => if Byte.eqb x ","%byte then skip_commas r else str
  | [] => []
  end.

(** the [for] scan from [str_start] to the next comma or the end *)
Fixpoint skip_word (str : list byte) : list byte :=
  match str with
  | x :: r => if Byte.eqb x ","%byte then str else skip_word r
  | [] => []
  end.

(** [strncmp(s, kw, strlen(kw)) == 0] for a literal [kw]: the text at [s]
    starts with [kw].  The end of the list is the terminating NUL. *)
Definition strncmp_eq (s : list byte) (kw : string) : bool :=
  bytes_eqb (take (String.length kw) s) (list_byte_of_string kw).

(** the [if] chain on one keyword; [None] is the unrecognised keyword *)
Definition sanitize_keyword (opt : Z) (str_start : list byte) : option Z :=
  if strncmp_eq str_start "all"
     || match str_start with x :: _ => Byte.eqb x "*"%byte | [] => false end
  then Some FIX_ALL
  else if strncmp_eq str_start "none" || strncmp_eq str_start "off" then Some 0
  else if strncmp_eq str_start "on" then
    Some (Z.lor (Z.lor (Z.lor FIX_MQUAL FIX_UNMAP) FIX_CIGAR) FIX_AUX)
  else if strncmp_eq str_start "pos" then Some (Z.lor opt FIX_POS)
  else if strncmp_eq str_start "mqual" then Some (Z.lor opt FIX_MQUAL)
  else if strncmp_eq str_start "unmap" then Some (Z.lor opt FIX_UNMAP)
  else if strncmp_eq str_start "cigar" then Some (Z.lor opt FIX_CIGAR)
  else if strncmp_eq str_start "aux" then Some (Z.lor opt FIX_AUX)
  else None.

(** The outer [while] loop.  Every turn that does not return
    consumes at least one character, so the length of the text bounds it. *)
Fixpoint sanitize_options_loop (fuel : nat) (opt : Z) (str : list byte)
  : result Z :=
  match fuel with
  | O => NoFuel
  | S fuel =>
      match str with
      | [] => Ok opt
      | _ :: _ =>
          let str_start := skip_commas str in
          let str := skip_word str_start in
          match sanitize_keyword opt str_start with
          | Some opt => sanitize_options_loop fuel opt str
          | None => Err (-1)
          end
      end
  end.

(** the loop entered with [opt] on the text [str] *)
Definition sanitize_options_from (opt : Z) (str : list byte) : result Z :=
  sanitize_options_loop (S (length str)) opt str.

(** [str] is [None] for a NULL pointer, else the bytes at the pointer; the
    C string is what precedes the first NUL. *)
Definition bam_sanitize_options (str : option (list byte)) : result Z :=
  match str with
  | None => Ok 0
  | Some s => sanitize_options_from 0 (cstr s)
  end.

(** ** Sample records *)

Definition cigar_op (l o : Z) : Z := u32 (bam_cigar_gen l o).

(** a read with 100 bases of quality 30 and mapping quality 30, in a buffer
    of 1024 bytes *)
Definition sample_read (name : string) (f t p : Z) (cigar : list Z)
    (aux : list byte) : bam1_t :=
  mk_bam (mk_core p t 30 f (-1) (-1) 0)
         (list_byte_of_string name ++ [x00]) cigar
         (replicate 50 x11) (replicate 100 x1e) aux 1024.

Definition default_config : config := mk_config false true false false FIX_ALL.

(** ** Notions used in the statements *)

(** primary: neither secondary nor supplementary *)
Definition is_primary (r : bam1_t) : bool :=
  negb (tst (fl r) (Z.lor BAM_FSECONDARY BAM_FSUPPLEMENTARY)).

(** what the unpaired clean-up stores through [pre] *)
Definition unpaired_fix (r : bam1_t) : bam1_t :=
  flag_clear (set_isize (set_mpos (set_mtid r (-1)) (-1)) 0) PAIR_FLAGS.

(** 5' reference coordinate: alignment start on the forward strand,
    alignment end on the reverse strand *)
Definition five_prime (r : bam1_t) : Z :=
  if tst (fl r) BAM_FREVERSE then bam_endpos r else pos (core r).

(** closes [b = (x ?? y)] for a Boolean constant [b] and an integer test *)
Ltac zbool :=
  symmetry;
  first [ apply Z.ltb_ge | apply Z.ltb_lt | apply Z.leb_le | apply Z.leb_gt
        | apply Z.eqb_eq | apply Z.eqb_neq
        | rewrite Z.geb_leb; first [apply Z.leb_le | apply Z.leb_gt]
        | rewrite Z.gtb_ltb; first [apply Z.ltb_lt | apply Z.ltb_ge] ];
  lia.

(** The insert-size relation of a synchronised pair, as the code
    establishes it. *)
Definition tlen_synced (a b : bam1_t) : Prop :=
  (tst (fl a) BAM_FUNMAP = false -> tst (fl b) BAM_FUNMAP = false ->
   tid (core a) = tid (core b) ->
   tst (fl a) BAM_FMUNMAP = false -> tst (fl b) BAM_FMUNMAP = false ->
   isize (core a) = five_prime b - five_prime a
   /\ isize (core b) = five_prime a - five_prime b
   /\ isize (core a) = - isize (core b))
  /\ (tid (core a) <> tid (core b)
      \/ tst (fl a) BAM_FUNMAP = true \/ tst (fl b) BAM_FUNMAP = true
      \/ tst (fl a) BAM_FMUNMAP = true \/ tst (fl b) BAM_FMUNMAP = true ->
      isize (core a) = 0 /\ isize (core b) = 0).


(** [y] is aligned as [x] was: same unmapped bit and strand, and the same
    alignment end when mapped *)
Definition keeps_aln (x y : bam1_t) : Prop :=
  tst (fl y) BAM_FUNMAP = tst (fl x) BAM_FUNMAP
  /\ (tst (fl x) BAM_FUNMAP = false -> bam_endpos y = bam_endpos x).

(** [y] is [x] up to tags and the three pairing flag bits, which may only
    have been cleared *)
Definition fixed_from (x y : bam1_t) : Prop :=
  pos (core y) = pos (core x) /\ tid (core y) = tid (core x)
  /\ isize (core y) = isize (core x) /\ d_cigar y = d_cigar x
  /\ tst (fl y) BAM_FUNMAP = tst (fl x) BAM_FUNMAP
  /\ tst (fl y) BAM_FMUNMAP = tst (fl x) BAM_FMUNMAP
  /\ tst (fl y) BAM_FREVERSE = tst (fl x) BAM_FREVERSE
  /\ (tst (fl y) BAM_FPROPER_PAIR = true -> tst (fl x) BAM_FPROPER_PAIR = true).


(** *** Well-formed auxiliary tag entries *)

(** value types of fixed width: A c C s S i I f d *)
Definition is_fixed_type (t : byte) : bool :=
  match t with
  | "A" | "c" | "C" | "s" | "S" | "i" | "I" | "f" | "d" => true
  | _ => false
  end%byte.

(** element types of a B array: c C s S i I f *)
Definition is_array_subtype (t : byte) : bool :=
  match t with
  | "c" | "C" | "s" | "S" | "i" | "I" | "f" => true
  | _ => false
  end%byte.

(** A well-formed tag entry: two key bytes, a type byte and a value of the
    size the type announces. *)
Inductive aux_entry : list byte -> Prop :=
| aux_fixed k0 k1 t v :
    is_fixed_type t = true ->
    Z.of_nat (length v) = aux_type2size t ->
    aux_entry (k0 :: k1 :: t :: v)
| aux_string k0 k1 t s :
    t = "Z"%byte \/ t = "H"%byte ->
    Forall (fun x => x <> x00) s ->
    aux_entry (k0 :: k1 :: t :: s ++ [x00])
| aux_array k0 k1 t st n cnt v :
    t = "B"%byte ->
    is_array_subtype st = true ->
    cnt = u32_bytes n ->
    0 <= n < 2 ^ 32 ->
    aux_type2size st * n < 2 ^ 32 ->
    Z.of_nat (length v) = aux_type2size st * n ->
    aux_entry (k0 :: k1 :: t :: st :: cnt ++ v).

Definition entry_has_key (k0 k1 : byte) (e : list byte) : bool :=
  match e with
  | a :: b :: _ => Byte.eqb a k0 && Byte.eqb b k1
  | _ => false
  end.

(** the tags the sanitizer removes from an unmapped record *)
Definition sanitized_away (e : list byte) : bool :=
  entry_has_key "N" "M" e || entry_has_key "M" "D" e
  || entry_has_key "C" "G" e || entry_has_key "S" "M" e.

Definition kept_entries (es : list (list byte)) : list (list byte) :=
  List.filter (fun e => negb (sanitized_away e)) es.


(** offset of the first entry with the given key in a sequence of entries *)
Fixpoint key_offset (k0 k1 : byte) (es : list (list byte)) : option nat :=
  match es with
  | [] => None
  | e :: es' =>
      if entry_has_key k0 k1 e then Some O
      else option_map (fun n => (length e + n)%nat) (key_offset k0 k1 es')
  end.

(** the sequence without its first entry with the given key *)
Fixpoint remove_first_key (k0 k1 : byte) (es : list (list byte))
  : list (list byte) :=
  match es with
  | [] => []
  | e :: es' =>
      if entry_has_key k0 k1 e then es' else e :: remove_first_key k0 k1 es'
  end.

(** the bytes of the tag that [bam_aux_get] finds, key and type included *)
Definition aux_tag (d : list byte) (k0 k1 : byte) : option (list byte) :=
  match bam_aux_get d k0 k1 with
  | Some s =>
      match skip_aux d s with
      | Some e => Some (take (e - (s - 2)) (drop (s - 2) d))
      | None => None
      end
  | None => None
  end.


(** *** Provenance of written records *)

Definition proper (r : bam1_t) : bool := tst (fl r) BAM_FPROPER_PAIR.

(** [y] is the record [x] after some of the program's fix-ups: same name,
    bases and qualities, and proper-pair set only if it was set in [x] *)
Definition derived (x y : bam1_t) : Prop :=
  d_qname y = d_qname x /\ d_seq y = d_seq x /\ d_qual y = d_qual x
  /\ (proper y = true -> proper x = true).

(** the records that the stream delivers, in order *)
Fixpoint stream_records (inp : samFile) : list bam1_t :=
  match inp with
  | [] => []
  | RdRec r :: rest => r :: stream_records rest
  | RdErr _ :: rest => stream_records rest
  end.

(** the record read ahead for the next template, and where it came from *)
Definition carry_inv (bs : bam_set) (carry : list bam1_t) : Prop :=
  match bs_next bs with
  | None => carry = []
  | Some k =>
      (1 <= k < length (bs_b bs))%nat
      /\ exists c, carry = [c] /\ derived c (slot (bs_b bs) k)
  end.


(** the bound given to a loop was enough: the outcome is a program outcome *)
Definition fueled {A} (r : result A) : Prop := r <> NoFuel.

(** *** Option masks *)

(** the five category bits *)
Definition FIX_CATEGORIES : Z :=
  Z.lor (Z.lor (Z.lor (Z.lor FIX_POS FIX_MQUAL) FIX_UNMAP) FIX_CIGAR) FIX_AUX.

(** a byte that can stand inside a keyword: neither NUL nor a comma *)
Definition word_byte (x : byte) : Prop := x <> x00 /\ x <> ","%byte.

(** the mask a keyword chain can build *)
Definition option_mask (v : Z) : Prop := v = FIX_ALL \/ Z.land v FIX_CATEGORIES = v.

(** *** CIGAR words and the query length *)

(** a CIGAR word as stored: a [uint32_t] *)
Definition cigar_word (c : Z) : Prop := 0 <= c < 2 ^ 32.

(** bit 1 of the type: the operation consumes the query *)
Definition consumes_query (c : Z) : bool := tst (bam_cigar_type (bam_cigar_op c)) 1.

(** the number of query bases a CIGAR accounts for (htslib's
    [bam_cigar2qlen]) *)
Fixpoint bam_cigar2qlen (cigar : list Z) : Z :=
  match cigar with
  | [] => 0
  | c :: rest =>
      (if consumes_query c then bam_cigar_oplen c else 0) + bam_cigar2qlen rest
  end.

(** *** Records as the sanitizer leaves them *)

(** [y] is [x] as the sanitizer may leave it: name, bases, qualities and
    mate fields kept; mapping quality kept or zeroed; position kept or
    unset; reference kept, or unset together with the position on a record
    flagged unmapped; the unmapped flag only ever set; no flag bit other
    than unmapped and proper-pair touched *)
Definition sanitized_from (x y : bam1_t) : Prop :=
  d_qname y = d_qname x /\ d_seq y = d_seq x /\ d_qual y = d_qual x
  /\ mtid (core y) = mtid (core x) /\ mpos (core y) = mpos (core x)
  /\ isize (core y) = isize (core x)
  /\ (qual (core y) = qual (core x) \/ qual (core y) = 0)
  /\ (pos (core y) = pos (core x) \/ pos (core y) = -1)
  /\ (tid (core y) = tid (core x)
      \/ (tid (core y) = -1 /\ pos (core y) = -1
          /\ tst (fl y) BAM_FUNMAP = true))
  /\ (tst (fl x) BAM_FUNMAP = true -> tst (fl y) BAM_FUNMAP = true)
  /\ (forall n, 0 <= n -> n <> 1 -> n <> 2 ->
        Z.testbit (fl y) n = Z.testbit (fl x) n).

(** *** Quality sums and tag counts *)

(** the sum of the base qualities that reach [MD_MIN_QUALITY] *)
Definition good_quality_sum (quals : list byte) : Z :=
  fold_right Z.add 0
    (map byteZ (List.filter (fun q => byteZ q >=? MD_MIN_QUALITY) quals)).

(** the number of tags with the given key *)
Definition key_count (k0 k1 : byte) (es : list (list byte)) : nat :=
  length (List.filter (entry_has_key k0 k1) es).

(** *** Records of a synchronised pair *)

(** [y] is [x] up to tags and flag bits *)
Definition same_alignment (x y : bam1_t) : Prop :=
  pos (core y) = pos (core x) /\ tid (core y) = tid (core x)
  /\ qual (core y) = qual (core x)
  /\ mtid (core y) = mtid (core x) /\ mpos (core y) = mpos (core x)
  /\ isize (core y) = isize (core x)
  /\ d_qname y = d_qname x /\ d_cigar y = d_cigar x
  /\ d_seq y = d_seq x /\ d_qual y = d_qual x.

(** [y] is [x] as the end of the pair fix-up may leave it: tags apart, only
    the bits paired, proper-pair and mate-reverse may differ, and no bit is
    set *)
Definition pair_kept (x y : bam1_t) : Prop :=
  same_alignment x y
  /\ (forall n, 0 <= n -> Z.testbit (fl y) n = true -> Z.testbit (fl x) n = true)
  /\ (forall n, 0 <= n -> n <> 0 -> n <> 1 -> n <> 5 ->
        Z.testbit (fl y) n = Z.testbit (fl x) n).

(** the reference and position a record has after the pair is synchronised:
    its own, or its mate's when it is unmapped and the mate is not *)
Definition placed_tid (r mate : bam1_t) : Z :=
  if tst (fl r) BAM_FUNMAP && negb (tst (fl mate) BAM_FUNMAP)
  then tid (core mate) else tid (core r).

Definition placed_pos (r mate : bam1_t) : Z :=
  if tst (fl r) BAM_FUNMAP && negb (tst (fl mate) BAM_FUNMAP)
  then pos (core mate) else pos (core r).

(** *** Arrays across the primary scan *)

(** what the primary scan keeps of the array [b0] it started from, [N]
    being the number of records of the template *)
Definition scan_keeps (b0 : list bam1_t) (N : nat) (b : list bam1_t) : Prop :=
  length b = length b0
  /\ (forall i, is_primary (slot b i) = is_primary (slot b0 i))
  /\ (forall i, is_primary (slot b0 i) = false -> slot b i = slot b0 i)
  /\ (forall i, (N <= i)%nat -> slot b i = slot b0 i).

(** *** Streams and batches *)

(** the stream holds records only: no read fails before its end *)
Definition readable (inp : samFile) : Prop :=
  inp = map RdRec (stream_records inp).

(** the batch [bs'] holds [r0] followed by the records [rs] as they were
    read; [tail] is what the stream held after them *)
Definition batch_as_read (bs' : bam_set) (r0 : bam1_t) (rs : list bam1_t)
    (tail : samFile) : Prop :=
  bs_n bs' = S (length rs)
  /\ slot (bs_b bs') 0 = r0
  /\ (forall j, (j < length rs)%nat -> slot (bs_b bs') (S j) = nth j rs bam_zero)
  /\ match tail with
     | RdRec r' :: _ =>
         bs_next bs' = Some (S (length rs)) /\ bs_eof bs' = false
         /\ slot (bs_b bs') (S (length rs)) = r'
     | _ => bs_next bs' = None /\ bs_eof bs' = true
     end.

(** the stream after the records of one batch: its end, or a record with
    another name *)
Definition batch_end (name : list byte) (tail : samFile) : Prop :=
  tail = []
  \/ exists r' t, tail = RdRec r' :: t /\ cstr (d_qname r') <> cstr name.

(** * Properties *)

(** ** Flag words *)

Lemma land_pow2 x k :
  0 <= k -> Z.land x (2 ^ k) = if Z.testbit x k then 2 ^ k else 0.
Proof.
  intros Hk. apply Z.bits_inj'. intros n Hn.
  rewrite Z.land_spec, Z.pow2_bits_eqb by lia.
  destruct (Z.eqb_spec k n) as [->|Hne].
  - destruct (Z.testbit x n); simpl.
    + rewrite Z.pow2_bits_eqb by lia. now rewrite Z.eqb_refl.
    + now rewrite Z.bits_0.
  - rewrite andb_false_r. destruct (Z.testbit x k).
    + rewrite Z.pow2_bits_eqb by lia. symmetry. now apply Z.eqb_neq.
    + now rewrite Z.bits_0.
Qed.

Lemma tst_bit x k : 0 <= k -> tst x (2 ^ k) = Z.testbit x k.
Proof.
  intros Hk. unfold tst. rewrite land_pow2 by lia.
  destruct (Z.testbit x k); [|reflexivity].
  assert (0 < 2 ^ k) by (apply Z.pow_pos_nonneg; lia).
  destruct (Z.eqb_spec (2 ^ k) 0); [lia|reflexivity].
Qed.

Lemma tst_lor x m1 m2 : tst x (Z.lor m1 m2) = tst x m1 || tst x m2.
Proof.
  unfold tst. rewrite Z.land_lor_distr_r.
  destruct (Z.eqb_spec (Z.land x m1) 0) as [E1|E1];
    destruct (Z.eqb_spec (Z.land x m2) 0) as [E2|E2]; simpl.
  - rewrite E1, E2. reflexivity.
  - rewrite E1, Z.lor_0_l. destruct (Z.eqb_spec (Z.land x m2) 0); [lia|reflexivity].
  - rewrite E2, Z.lor_0_r. destruct (Z.eqb_spec (Z.land x m1) 0); [lia|reflexivity].
  - destruct (Z.eqb_spec (Z.lor (Z.land x m1) (Z.land x m2)) 0) as [E|E];
      [|reflexivity].
    apply Z.lor_eq_0_iff in E. lia.
Qed.

(** the five single-bit tests used below, as bit tests *)
Lemma tst_paired x : tst x BAM_FPAIRED = Z.testbit x 0.
Proof. exact (tst_bit x 0 ltac:(lia)). Qed.
Lemma tst_proper x : tst x BAM_FPROPER_PAIR = Z.testbit x 1.
Proof. exact (tst_bit x 1 ltac:(lia)). Qed.
Lemma tst_unmap x : tst x BAM_FUNMAP = Z.testbit x 2.
Proof. exact (tst_bit x 2 ltac:(lia)). Qed.
Lemma tst_munmap x : tst x BAM_FMUNMAP = Z.testbit x 3.
Proof. exact (tst_bit x 3 ltac:(lia)). Qed.
Lemma tst_reverse x : tst x BAM_FREVERSE = Z.testbit x 4.
Proof. exact (tst_bit x 4 ltac:(lia)). Qed.
Lemma tst_mreverse x : tst x BAM_FMREVERSE = Z.testbit x 5.
Proof. exact (tst_bit x 5 ltac:(lia)). Qed.

Lemma testbit_or_bit x k n :
  0 <= k -> 0 <= n -> Z.testbit (Z.lor x (2 ^ k)) n = Z.testbit x n || (k =? n).
Proof. intros. now rewrite Z.lor_spec, Z.pow2_bits_eqb. Qed.

Lemma testbit_clear_bit x k n :
  0 <= k -> 0 <= n ->
  Z.testbit (Z.land x (Z.lnot (2 ^ k))) n = Z.testbit x n && negb (k =? n).
Proof. intros. now rewrite Z.land_spec, Z.lnot_spec, Z.pow2_bits_eqb. Qed.

Lemma testbit_clear_pair_flags x n :
  0 <= n ->
  Z.testbit (Z.land x (Z.lnot PAIR_FLAGS)) n
  = Z.testbit x n && negb ((n =? 0) || (n =? 1) || (n =? 5)).
Proof.
  intros Hn. rewrite Z.land_spec, Z.lnot_spec by lia. f_equal. f_equal.
  change PAIR_FLAGS with (Z.lor (Z.lor (2 ^ 0) (2 ^ 5)) (2 ^ 1)).
  rewrite !Z.lor_spec, !Z.pow2_bits_eqb by lia.
  rewrite (Z.eqb_sym 0 n), (Z.eqb_sym 1 n), (Z.eqb_sym 5 n).
  destruct (n =? 0), (n =? 1), (n =? 5); reflexivity.
Qed.

(** the core projections commute with the setters *)
Lemma fl_flag_or b m : fl (flag_or b m) = Z.lor (fl b) m.
Proof. reflexivity. Qed.
Lemma fl_flag_clear b m : fl (flag_clear b m) = Z.land (fl b) (Z.lnot m).
Proof. reflexivity. Qed.

(** the resize at the end of [bam_trim] writes the CIGAR and the capacity *)
Lemma trim_resize_core b cg : core (trim_resize b cg) = core b.
Proof. unfold trim_resize. destruct (_ && _); reflexivity. Qed.
Lemma trim_resize_fl b cg : fl (trim_resize b cg) = fl b.
Proof. unfold fl. now rewrite trim_resize_core. Qed.
Lemma trim_resize_cigar b cg : d_cigar (trim_resize b cg) = cg.
Proof. unfold trim_resize. destruct (_ && _); reflexivity. Qed.
Lemma trim_resize_qname b cg : d_qname (trim_resize b cg) = d_qname b.
Proof. unfold trim_resize. destruct (_ && _); reflexivity. Qed.
Lemma trim_resize_seq b cg : d_seq (trim_resize b cg) = d_seq b.
Proof. unfold trim_resize. destruct (_ && _); reflexivity. Qed.
Lemma trim_resize_qual b cg : d_qual (trim_resize b cg) = d_qual b.
Proof. unfold trim_resize. destruct (_ && _); reflexivity. Qed.
Lemma trim_resize_aux b cg : d_aux (trim_resize b cg) = d_aux b.
Proof. unfold trim_resize. destruct (_ && _); reflexivity. Qed.

(** ** C6: the sanitizer on a valid in-bounds mapped record *)

Lemma sanitize_valid_any_flags (h : sam_hdr_t) (b : bam1_t) (flags : Z) :
  tst (fl b) BAM_FUNMAP = false ->
  0 <= tid (core b) ->
  0 <= pos (core b) < sam_hdr_tid2len h (tid (core b)) ->
  bam_endpos b <= sam_hdr_tid2len h (tid (core b)) ->
  bam_sanitize h b flags = Ok b.
Proof.
  intros Hmap Htid [Hp0 Hp1] Hend.
  unfold bam_sanitize, sanitize_pos, sanitize_mapped, sanitize_unmapped.
  replace (tid (core b) <? 0) with false by zbool.
  rewrite andb_false_r, Hmap. cbn [negb].
  replace (pos (core b) <? 0) with false by zbool.
  replace (pos (core b) >=? sam_hdr_tid2len h (tid (core b))) with false
    by zbool.
  replace (bam_endpos b >? sam_hdr_tid2len h (tid (core b))) with false
    by zbool.
  cbn [andb]. destruct (tst flags FIX_CIGAR); cbn [andb rbind]; now rewrite Hmap.
Qed.

(** C6.  A mapped record with a set reference id, [0 <= pos < reference
    length] and an alignment end not beyond the reference length is
    returned unchanged by the sanitizer with all categories enabled (and
    with any other choice of categories), so sanitizing it twice is
    sanitizing it once. *)
Theorem sanitize_valid_noop (h : sam_hdr_t) (b : bam1_t) :
  tst (fl b) BAM_FUNMAP = false ->
  0 <= tid (core b) ->
  0 <= pos (core b) < sam_hdr_tid2len h (tid (core b)) ->
  bam_endpos b <= sam_hdr_tid2len h (tid (core b)) ->
  bam_sanitize h b FIX_ALL = Ok b
  /\ (do b1 <- bam_sanitize h b FIX_ALL; bam_sanitize h b1 FIX_ALL) = Ok b
  /\ (forall flags, bam_sanitize h b flags = Ok b).
Proof.
  intros Hmap Htid Hpos Hend.
  pose proof (sanitize_valid_any_flags h b FIX_ALL Hmap Htid Hpos Hend) as H.
  split; [exact H|]. split.
  - rewrite H. cbn [rbind]. exact H.
  - intros flags. now apply sanitize_valid_any_flags.
Qed.

(** ** C7, C8: the primary scan and the unpaired clean-up *)

Lemma scan_primaries_app cfg ns1 ns2 st :
  scan_primaries cfg (ns1 ++ ns2) st
  = do st' <- scan_primaries cfg ns1 st; scan_primaries cfg ns2 st'.
Proof.
  revert st. induction ns1 as [|n ns1 IH]; intros st; simpl; [reflexivity|].
  destruct (scan_step cfg st n); simpl; auto.
Qed.

(** Indices that hold secondary or supplementary records are stepped over. *)
Lemma scan_primaries_skip cfg ns st :
  (forall n, In n ns -> is_primary (slot (sc_b st) n) = false) ->
  scan_primaries cfg ns st = Ok st.
Proof.
  induction ns as [|n ns IH]; intros H; simpl; [reflexivity|].
  unfold scan_step.
  pose proof (H n (or_introl eq_refl)) as Hn. unfold is_primary in Hn.
  apply negb_false_iff in Hn. rewrite Hn. simpl.
  apply IH. intros m Hm. apply H. now right.
Qed.

Lemma slot_app_l (l1 l2 : list bam1_t) n :
  (n < length l1)%nat -> slot (l1 ++ l2) n = slot l1 n.
Proof. intros. unfold slot. now apply app_nth1. Qed.

Lemma slot_app_r (l1 l2 : list bam1_t) n :
  (length l1 <= n)%nat -> slot (l1 ++ l2) n = slot l2 (n - length l1).
Proof. intros. unfold slot. now apply app_nth2. Qed.

Lemma slot_Forall (P : bam1_t -> Prop) l n :
  Forall P l -> (n < length l)%nat -> P (slot l n).
Proof.
  intros HF Hn. rewrite Forall_forall in HF. apply HF.
  apply list_elem_of_In. unfold slot. now apply nth_In.
Qed.

Lemma fix_template_one_primary cfg l1 r l2 extra :
  Forall (fun x => is_primary x = false) l1 ->
  is_primary r = true ->
  Forall (fun x => is_primary x = false) l2 ->
  fix_template cfg (l1 ++ r :: l2 ++ extra) (length (l1 ++ r :: l2))
  = Ok (l1 ++ unpaired_fix r :: l2 ++ extra).
Proof.
  intros H1 Hr H2. unfold fix_template.
  rewrite length_app. cbn [length].
  replace (length l1 + S (length l2))%nat
    with (length l1 + (1 + length l2))%nat by lia.
  rewrite seq_app, seq_app, !scan_primaries_app. cbn [seq].
  rewrite scan_primaries_skip.
  2:{ intros n Hn. apply in_seq in Hn. cbn [sc_b].
      rewrite slot_app_l by lia.
      apply (slot_Forall (fun x => is_primary x = false)); [assumption|lia]. }
  cbn [rbind app scan_primaries]. unfold scan_step at 1.
  cbn [sc_b sc_prev sc_curr].
  rewrite slot_app_r by lia. rewrite Nat.add_0_l, Nat.sub_diag.
  unfold slot at 1. cbn [nth].
  unfold is_primary in Hr. apply negb_true_iff in Hr. rewrite Hr.
  cbn [rbind].
  rewrite scan_primaries_skip.
  2:{ intros n Hn. apply in_seq in Hn. cbn [sc_b].
      rewrite slot_app_r by lia.
      destruct (n - length l1)%nat as [|k] eqn:Ek; [lia|].
      unfold slot. cbn [nth]. fold (slot (l2 ++ extra) k).
      rewrite slot_app_l by lia.
      apply (slot_Forall (fun x => is_primary x = false)); [assumption|lia]. }
  cbn [rbind]. unfold unpaired_cleanup. cbn [sc_curr sc_prev sc_b].
  rewrite slot_app_r by lia. rewrite Nat.sub_diag. unfold slot. cbn [nth].
  f_equal. rewrite insert_app_r_alt by lia. rewrite Nat.sub_diag. reflexivity.
Qed.

(** C7.  In a template with exactly one primary record [r], that record
    leaves the fix-up stage (and so reaches the write loop) with mate
    reference id -1, mate position -1, insert size 0 and the paired,
    mate-reverse and proper-pair flags clear; the other records and the
    slots behind the template are untouched. *)
Theorem single_primary_unpaired cfg l1 r l2 extra :
  Forall (fun x => is_primary x = false) l1 ->
  is_primary r = true ->
  Forall (fun x => is_primary x = false) l2 ->
  exists r',
    fix_template cfg (l1 ++ r :: l2 ++ extra) (length (l1 ++ r :: l2))
    = Ok (l1 ++ r' :: l2 ++ extra)
    /\ mtid (core r') = -1 /\ mpos (core r') = -1 /\ isize (core r') = 0
    /\ tst (fl r') BAM_FPAIRED = false
    /\ tst (fl r') BAM_FMREVERSE = false
    /\ tst (fl r') BAM_FPROPER_PAIR = false.
Proof.
  intros H1 Hr H2. exists (unpaired_fix r).
  split; [now apply fix_template_one_primary|].
  repeat split; try reflexivity.
  - rewrite tst_paired. unfold unpaired_fix. rewrite fl_flag_clear.
    rewrite testbit_clear_pair_flags by lia. simpl. apply andb_false_r.
  - rewrite tst_mreverse. unfold unpaired_fix. rewrite fl_flag_clear.
    rewrite testbit_clear_pair_flags by lia. simpl. apply andb_false_r.
  - rewrite tst_proper. unfold unpaired_fix. rewrite fl_flag_clear.
    rewrite testbit_clear_pair_flags by lia. simpl. apply andb_false_r.
Qed.

(** With no primary record at all, the clean-up stores through the NULL
    [pre]. *)
Lemma fix_template_no_primary cfg b n :
  Forall (fun x => is_primary x = false) (take n b) ->
  (n <= length b)%nat ->
  fix_template cfg b n = Undef.
Proof.
  intros H Hn. unfold fix_template.
  rewrite scan_primaries_skip; [reflexivity|].
  intros k Hk. apply in_seq in Hk. cbn [sc_b].
  assert (Hs : slot b k = slot (take n b) k).
  { unfold slot. rewrite <- (take_drop n b) at 1.
    apply app_nth1. rewrite length_take. lia. }
  rewrite Hs. apply (slot_Forall (fun x => is_primary x = false)); [assumption|].
  rewrite length_take. lia.
Qed.

(** C8.  A template that holds a single secondary record: no primary is
    ever selected, [cur] and [pre] are both NULL after the scan, and the
    clean-up guarded only by [!cur] stores through [pre]. *)
Theorem all_secondary_template_null_pre :
  let r := sample_read "R1" BAM_FSECONDARY 0 100 [cigar_op 50 BAM_CMATCH] [] in
  is_primary r = false
  /\ fix_template default_config [r] 1 = Undef
  /\ bam_mating_core default_config [1000] [RdRec r] = ([], Undef).
Proof. vm_compute. repeat split. Qed.

(** ** C2, C4: bam_trim *)

(** The first loop only breaks after the position has passed [end_]. *)
Lemma trim_find_gt cigar i0 p0 end_ i p :
  trim_find cigar i0 p0 end_ = Some (i, p) -> end_ < p.
Proof.
  revert i0 p0. induction cigar as [|c rest IH]; intros i0 p0 H; simpl in H.
  - discriminate.
  - destruct (consumes_ref c); simpl in H; [|eauto].
    destruct (Z.gtb_spec (p0 + bam_cigar_oplen c) end_) as [Hgt|Hle].
    + inversion H; subst. lia.
    + eauto.
Qed.

(** Hence the branch "CIGAR op started on the trim junction" is dead: when
    the breaking operation starts at or after [end_], the record is marked
    unmapped (or the third loop runs into [new_cigar[-1]]). *)
Lemma bam_trim_junction_unmaps b end_ i p b' :
  trim_find (d_cigar b) 0 (pos (core b)) end_ = Some (i, p) ->
  end_ <= p - bam_cigar_oplen (nth i (d_cigar b) 0) ->
  bam_trim b end_ = Ok b' ->
  tst (fl b') BAM_FUNMAP = true /\ tst (fl b') BAM_FPROPER_PAIR = false.
Proof.
  intros Hf Hstart Hok. unfold bam_trim in Hok. rewrite Hf in Hok.
  pose proof (trim_find_gt _ _ _ _ _ _ Hf) as Hgt.
  replace (p - bam_cigar_oplen (nth i (d_cigar b) 0) <? end_) with false in Hok
    by zbool.
  replace (p >? end_) with true in Hok by zbool.
  destruct (trim_tail (drop (S i) (d_cigar b)) []) as [nc| | | |]; try discriminate.
  cbn [rbind] in Hok. inversion Hok; subst b'. clear Hok.
  rewrite trim_resize_fl.
  rewrite fl_flag_clear, fl_flag_or, tst_unmap, tst_proper.
  change BAM_FPROPER_PAIR with (2 ^ 1). change BAM_FUNMAP with (2 ^ 2).
  rewrite !testbit_clear_bit, !testbit_or_bit by lia. simpl.
  rewrite orb_true_r, andb_false_r. split; reflexivity.
Qed.

(** C2.  Position 0, CIGAR 70M30M, cutoff 70: the second operation starts
    exactly on the cutoff.  It is not turned into a soft clip; it is
    dropped, the record is flagged unmapped and loses proper-pair. *)
Theorem trim_on_boundary_unmaps :
  let b := sample_read "r" BAM_FPROPER_PAIR 0 0
             [cigar_op 70 BAM_CMATCH; cigar_op 30 BAM_CMATCH] [] in
  trim_find (d_cigar b) 0 (pos (core b)) 70 = Some (1%nat, 100)
  /\ 100 - bam_cigar_oplen (nth 1 (d_cigar b) 0) = 70
  /\ bam_trim b 70
     = Ok (sample_read "r" BAM_FUNMAP 0 0 [cigar_op 70 BAM_CMATCH] [])
  /\ bam_trim b 70
     <> Ok (with_cigar b [cigar_op 70 BAM_CMATCH; cigar_op 30 BAM_CSOFT_CLIP]).
Proof. vm_compute. repeat split. discriminate. Qed.

Lemma trim_find_skip pre rest i0 p0 end_ :
  Forall (fun x => consumes_ref x = false) pre ->
  trim_find (pre ++ rest) i0 p0 end_
  = trim_find rest (i0 + length pre) p0 end_.
Proof.
  revert i0. induction pre as [|c pre IH]; intros i0 H; simpl.
  - now rewrite Nat.add_0_r.
  - inversion H as [|? ? Hc Hpre]; subst. rewrite Hc. simpl.
    rewrite IH by assumption. f_equal. lia.
Qed.

Lemma trim_tail_hard_clips post acc :
  Forall (fun x => bam_cigar_op x = BAM_CHARD_CLIP) post ->
  trim_tail post acc = Ok (acc ++ post).
Proof.
  revert acc. induction post as [|c post IH]; intros acc H; simpl.
  - now rewrite app_nil_r.
  - inversion H as [|? ? Hc Hpost]; subst. rewrite Hc, Z.eqb_refl.
    rewrite IH by assumption. now rewrite <- app_assoc.
Qed.

Lemma trim_find_none cigar i0 p0 end_ :
  Forall (fun x => consumes_ref x = false) cigar ->
  trim_find cigar i0 p0 end_ = None.
Proof.
  intros H. rewrite <- (app_nil_r cigar). now rewrite trim_find_skip.
Qed.

(** A mapped record at position 100 whose CIGAR is 50S consumes no
    reference base.  Against cutoff 70 its start is beyond the cutoff, yet
    the first loop of the trim ends with [i == n_cigar] and the record is
    returned as it came: still mapped.  The sanitizer reaches this call
    when only CIGAR fixing is enabled. *)
Lemma trim_start_beyond_cutoff_kept :
  let b := sample_read "r" BAM_FPROPER_PAIR 0 100
             [cigar_op 50 BAM_CSOFT_CLIP] [] in
  70 < pos (core b)
  /\ bam_trim b 70 = Ok b
  /\ bam_sanitize [70] b FIX_CIGAR = Ok b
  /\ tst (fl b) BAM_FUNMAP = false
  /\ tst (fl b) BAM_FPROPER_PAIR = true.
Proof. vm_compute. repeat split. Qed.

(** Once [new_cigar] holds an operation the third loop always has a slot
    [j-1] to add to. *)
Lemma trim_tail_defined rest :
  forall acc, acc <> [] -> exists nc, trim_tail rest acc = Ok nc.
Proof.
  induction rest as [|c rest IH]; intros acc Hne; cbn [trim_tail].
  - now exists acc.
  - destruct (bam_cigar_op c =? BAM_CHARD_CLIP).
    + apply IH. now destruct acc.
    + destruct (rev acc) as [|x front] eqn:R.
      * exfalso. apply Hne. rewrite <- (rev_involutive acc), R. reflexivity.
      * apply IH. now destruct (rev front).
Qed.

(** When the breaking operation starts beyond the cutoff, [new_cigar] is
    empty on entry to the third loop: an operation other than a hard clip
    right behind it is added to [new_cigar[-1]]. *)
Lemma bam_trim_beyond b end_ pre c post :
  d_cigar b = pre ++ c :: post ->
  Forall (fun x => consumes_ref x = false) pre ->
  consumes_ref c = true ->
  0 <= bam_cigar_oplen c ->
  end_ < pos (core b) ->
  bam_trim b end_
  = (do nc <- trim_tail post [];
     Ok (trim_resize (flag_clear (flag_or b BAM_FUNMAP) BAM_FPROPER_PAIR)
           (pre ++ nc))).
Proof.
  intros Hcg Hpre Hc Hlen Hbeyond.
  unfold bam_trim. rewrite Hcg, trim_find_skip by assumption.
  cbn [trim_find]. rewrite Hc. cbn [negb].
  replace (pos (core b) + bam_cigar_oplen c >? end_) with true by zbool.
  rewrite Nat.add_0_l.
  replace (nth (length pre) (pre ++ c :: post) 0) with c
    by (rewrite app_nth2, Nat.sub_diag by lia; reflexivity).
  replace (pos (core b) + bam_cigar_oplen c - bam_cigar_oplen c <? end_)
    with false by zbool.
  replace (pos (core b) + bam_cigar_oplen c >? end_) with true by zbool.
  replace (drop (S (length pre)) (pre ++ c :: post)) with post.
  2:{ rewrite drop_app_ge by lia.
      replace (S (length pre) - length pre)%nat with 1%nat by lia.
      reflexivity. }
  rewrite take_app_length. reflexivity.
Qed.

(** C4 (amended).  (1) Sanitizing any mapped record at position 0 with
    CIGAR 100M against a reference of length 70, CIGAR fixing enabled,
    yields the same record with CIGAR 70M30S, flags untouched, in a buffer
    that is enlarged to the new length if it had no room for the extra
    operation.  For a record whose alignment start lies beyond the cutoff
    (its CIGAR words being 32-bit values): (2) when no operation of the
    CIGAR consumes the reference, the trim returns the record as it is;
    (3) when the first reference-consuming operation is the last operation
    or has a hard clip right behind it, the trim returns 0 with the
    unmapped flag set and proper-pair clear; (4) when an operation other
    than a hard clip is right behind it, the trim stores through
    [new_cigar[-1]]: its behaviour is undefined. *)
Theorem trim_100M_and_start_beyond_cutoff :
  (forall h c qn sq ql ax m flags,
      tst flags FIX_CIGAR = true ->
      tst (flag c) BAM_FUNMAP = false ->
      pos c = 0 ->
      sam_hdr_tid2len h (tid c) = 70 ->
      let b := mk_bam c qn [cigar_op 100 BAM_CMATCH] sq ql ax m in
      exists b',
        bam_sanitize h b flags = Ok b'
        /\ b' = with_cigar
                  (with_m_data b (if l_data b + 4 >? m then l_data b + 4 else m))
                  [cigar_op 70 BAM_CMATCH; cigar_op 30 BAM_CSOFT_CLIP]
        /\ tst (fl b') BAM_FUNMAP = false)
  /\ (forall b end_,
      end_ < pos (core b) ->
      Forall (fun x => consumes_ref x = false) (d_cigar b) ->
      bam_trim b end_ = Ok b)
  /\ (forall b end_ pre c post,
      end_ < pos (core b) ->
      Forall cigar_word (d_cigar b) ->
      d_cigar b = pre ++ c :: post ->
      Forall (fun x => consumes_ref x = false) pre ->
      consumes_ref c = true ->
      (post = []
       \/ (exists x post', post = x :: post' /\ bam_cigar_op x = BAM_CHARD_CLIP) ->
       exists b',
         bam_trim b end_ = Ok b'
         /\ tst (fl b') BAM_FUNMAP = true
         /\ tst (fl b') BAM_FPROPER_PAIR = false)
      /\ ((exists x post', post = x :: post' /\ bam_cigar_op x <> BAM_CHARD_CLIP) ->
          bam_trim b end_ = Undef)).
Proof.
  split; [|split].
  - intros h c qn sq ql ax m flags Hcig Hmap Hpos Hlen b.
    exists (with_cigar
              (with_m_data b (if l_data b + 4 >? m then l_data b + 4 else m))
              [cigar_op 70 BAM_CMATCH; cigar_op 30 BAM_CSOFT_CLIP]).
    split; [|split; [reflexivity|exact Hmap]].
    assert (Htid : (tid c <? 0) = false).
    { unfold sam_hdr_tid2len in Hlen. destruct (tid c <? 0); [discriminate|reflexivity]. }
    unfold bam_sanitize, sanitize_pos, sanitize_mapped, sanitize_unmapped.
    subst b. cbn [core]. rewrite Htid, andb_false_r.
    rewrite Hcig. unfold fl at 1. cbn [core]. rewrite Hmap. cbn [negb andb].
    rewrite Hpos. cbn [Z.ltb Z.compare andb]. rewrite Hlen.
    cbn [Z.geb Z.compare andb].
    destruct c as [p t q f mt mp isz]. cbn in Hpos, Hmap. subst p.
    unfold bam_endpos, fl. cbn [core flag pos d_cigar]. rewrite Hmap.
    change (bam_cigar2rlen [cigar_op 100 BAM_CMATCH]) with 100.
    cbn [Z.eqb Z.add Z.gtb Z.compare Pos.compare Pos.compare_cont].
    unfold bam_trim. cbn [d_cigar core pos].
    change (trim_find [cigar_op 100 BAM_CMATCH] 0 0 70) with (Some (O, 100)).
    cbv beta iota.
    change (nth 0 [cigar_op 100 BAM_CMATCH] 0) with (cigar_op 100 BAM_CMATCH).
    change (bam_cigar_oplen (cigar_op 100 BAM_CMATCH)) with 100.
    change (bam_cigar_op (cigar_op 100 BAM_CMATCH)) with 0.
    change (100 - 100 <? 70) with true. cbv beta iota.
    change (drop 1 [cigar_op 100 BAM_CMATCH]) with (@nil Z).
    cbn [trim_tail rbind take app].
    change (0 + 100 >? 70) with true. cbv beta iota. cbn [rbind].
    rewrite trim_resize_core. cbn [core flag]. rewrite Hmap.
    f_equal. unfold trim_resize.
    match goal with
    | |- context [4 * (Z.of_nat (length ?l) - n_cigar ?r)] =>
        change (4 * (Z.of_nat (length l) - n_cigar r)) with 4
    end.
    change (0 <? 4) with true. cbn [andb m_data].
    destruct (_ >? m); reflexivity.
  - intros b end_ _ H. unfold bam_trim. now rewrite trim_find_none.
  - intros b end_ pre c post Hbeyond Hw Hcg Hpre Hc.
    assert (0 <= bam_cigar_oplen c) as Hlen.
    { rewrite Hcg in Hw. apply Forall_app in Hw. destruct Hw as [_ Hw].
      apply Forall_cons in Hw. destruct Hw as [Hw _].
      unfold bam_cigar_oplen. apply Z.shiftr_nonneg. unfold cigar_word in Hw. lia. }
    rewrite (bam_trim_beyond b end_ pre c post Hcg Hpre Hc Hlen Hbeyond).
    split.
    + intros Hpost.
      assert (exists nc, trim_tail post [] = Ok nc) as [nc Hnc].
      { destruct Hpost as [->|(x & post' & -> & Hx)].
        - now exists [].
        - cbn [trim_tail]. rewrite Hx, Z.eqb_refl. cbn [app].
          apply trim_tail_defined. discriminate. }
      rewrite Hnc. cbn [rbind]. eexists. split; [reflexivity|].
      rewrite trim_resize_fl.
      rewrite fl_flag_clear, fl_flag_or, tst_unmap, tst_proper.
      change BAM_FPROPER_PAIR with (2 ^ 1). change BAM_FUNMAP with (2 ^ 2).
      rewrite !testbit_clear_bit, !testbit_or_bit by lia. simpl.
      rewrite orb_true_r, andb_false_r. split; reflexivity.
    + intros (x & post' & -> & Hx). cbn [trim_tail].
      apply Z.eqb_neq in Hx. rewrite Hx. reflexivity.
Qed.

Lemma trim_100M_and_start_beyond_cutoff_witness :
  (exists b',
      bam_sanitize [70]
        (sample_read "r" 0 0 0 [cigar_op 100 BAM_CMATCH] []) FIX_ALL = Ok b'
      /\ b' = sample_read "r" 0 0 0
                [cigar_op 70 BAM_CMATCH; cigar_op 30 BAM_CSOFT_CLIP] []
      /\ tst (fl b') BAM_FUNMAP = false)
  /\ bam_trim (sample_read "r" 0 0 100 [cigar_op 50 BAM_CSOFT_CLIP] []) 70
     = Ok (sample_read "r" 0 0 100 [cigar_op 50 BAM_CSOFT_CLIP] [])
  /\ (exists b',
      bam_trim (sample_read "r" BAM_FPROPER_PAIR 0 100
                  [cigar_op 5 BAM_CSOFT_CLIP; cigar_op 50 BAM_CMATCH;
                   cigar_op 7 BAM_CHARD_CLIP; cigar_op 3 BAM_CMATCH] []) 70
      = Ok b'
      /\ tst (fl b') BAM_FUNMAP = true
      /\ tst (fl b') BAM_FPROPER_PAIR = false)
  /\ bam_trim (sample_read "r" BAM_FPROPER_PAIR 0 100
                 [cigar_op 50 BAM_CMATCH; cigar_op 5 BAM_CSOFT_CLIP] []) 70
     = Undef.
Proof.
  destruct trim_100M_and_start_beyond_cutoff as [H1 [H2 H3]].
  split; [|split; [|split]].
  - apply (H1 [70] (mk_core 0 0 30 0 (-1) (-1) 0)); reflexivity.
  - apply H2; [reflexivity|repeat constructor].
  - destruct (H3 (sample_read "r" BAM_FPROPER_PAIR 0 100
                    [cigar_op 5 BAM_CSOFT_CLIP; cigar_op 50 BAM_CMATCH;
                     cigar_op 7 BAM_CHARD_CLIP; cigar_op 3 BAM_CMATCH] [])
                 70 [cigar_op 5 BAM_CSOFT_CLIP] (cigar_op 50 BAM_CMATCH)
                 [cigar_op 7 BAM_CHARD_CLIP; cigar_op 3 BAM_CMATCH])
      as [Ha _].
    + reflexivity.
    + repeat apply List.Forall_cons; try apply List.Forall_nil;
        vm_compute; split; congruence.
    + reflexivity.
    + repeat constructor.
    + reflexivity.
    + apply Ha. right. eexists. eexists. split; reflexivity.
  - destruct (H3 (sample_read "r" BAM_FPROPER_PAIR 0 100
                    [cigar_op 50 BAM_CMATCH; cigar_op 5 BAM_CSOFT_CLIP] [])
                 70 [] (cigar_op 50 BAM_CMATCH) [cigar_op 5 BAM_CSOFT_CLIP])
      as [_ Hb].
    + reflexivity.
    + repeat apply List.Forall_cons; try apply List.Forall_nil;
        vm_compute; split; congruence.
    + reflexivity.
    + constructor.
    + reflexivity.
    + apply Hb. eexists. eexists. split; [reflexivity|]. vm_compute. discriminate.
Defined.

(** ** C1: the batch reader and the sanitizer *)

(** C1.  Two records named R1; the second has no reference id but is not
    flagged unmapped, so sanitizing it changes it.  [next_template] returns
    a group of 2 whose second record is the decoded record as it came: the
    loop sanitizes [b[0]] once more instead of [b[n]]. *)
Theorem next_template_leaves_second_record :
  let r1 := sample_read "R1" 0 0 100 [cigar_op 50 BAM_CMATCH] [] in
  let r2 := sample_read "R1" 0 (-1) 5 [cigar_op 50 BAM_CMATCH] [] in
  exists bs r2',
    next_template [1000] FIX_ALL (mk_set [] 0 None false) [RdRec r1; RdRec r2]
    = Ok (bs, [])
    /\ bs_n bs = 2%nat
    /\ slot (bs_b bs) 1 = r2
    /\ bam_sanitize [1000] r2 FIX_ALL = Ok r2'
    /\ r2' <> r2
    /\ tst (fl r2') BAM_FUNMAP = true
    /\ tst (fl (slot (bs_b bs) 1)) BAM_FUNMAP = false.
Proof.
  eexists. eexists. vm_compute.
  repeat split; try reflexivity. discriminate.
Qed.

Lemma sanitize_valid_noop_witness :
  bam_sanitize [1000] (sample_read "r" 0 0 100 [cigar_op 50 BAM_CMATCH] []) FIX_ALL
  = Ok (sample_read "r" 0 0 100 [cigar_op 50 BAM_CMATCH] []).
Proof.
  apply sanitize_valid_noop.
  - reflexivity.
  - simpl. lia.
  - vm_compute. split; [discriminate|reflexivity].
  - vm_compute. discriminate.
Defined.

Lemma single_primary_unpaired_witness :
  exists r',
    fix_template default_config
      ([sample_read "R1" BAM_FSECONDARY 0 7 [] []]
       ++ sample_read "R1" (Z.lor BAM_FPAIRED BAM_FPROPER_PAIR) 0 100
            [cigar_op 50 BAM_CMATCH] []
       :: [sample_read "R1" BAM_FSUPPLEMENTARY 0 900 [] []] ++ [bam_zero])
      (length ([sample_read "R1" BAM_FSECONDARY 0 7 [] []]
               ++ sample_read "R1" (Z.lor BAM_FPAIRED BAM_FPROPER_PAIR) 0 100
                    [cigar_op 50 BAM_CMATCH] []
               :: [sample_read "R1" BAM_FSUPPLEMENTARY 0 900 [] []]))
    = Ok ([sample_read "R1" BAM_FSECONDARY 0 7 [] []]
          ++ r' :: [sample_read "R1" BAM_FSUPPLEMENTARY 0 900 [] []] ++ [bam_zero])
    /\ mtid (core r') = -1 /\ mpos (core r') = -1 /\ isize (core r') = 0
    /\ tst (fl r') BAM_FPAIRED = false
    /\ tst (fl r') BAM_FMREVERSE = false
    /\ tst (fl r') BAM_FPROPER_PAIR = false.
Proof.
  apply single_primary_unpaired.
  - repeat constructor.
  - reflexivity.
  - repeat constructor.
Defined.

(** rewrites constant-mask bit tests to their value *)
Ltac mask_bits :=
  repeat match goal with
  | |- context [Z.testbit ?c ?n] =>
      is_const c;
      let v := eval vm_compute in (Z.testbit c n) in
      progress change (Z.testbit c n) with v
  end.

(** turns flag tests on updated flag words into bit tests on the
    original word *)
Ltac flag_bits :=
  rewrite ?fl_flag_or, ?fl_flag_clear;
  rewrite ?tst_lor;
  rewrite ?tst_paired, ?tst_proper, ?tst_unmap, ?tst_munmap, ?tst_reverse,
          ?tst_mreverse;
  repeat first [ rewrite Z.lor_spec | rewrite Z.land_spec
               | rewrite Z.lnot_spec by lia ];
  mask_bits;
  rewrite ?orb_false_r, ?andb_true_r, ?orb_true_r, ?andb_false_r.


(** ** C3: insert size after synchronisation *)

(** The tag helpers touch the auxiliary region only. *)
Lemma aux_drop_frame b k0 k1 :
  core (aux_drop b k0 k1) = core b /\ d_cigar (aux_drop b k0 k1) = d_cigar b.
Proof. unfold aux_drop. destruct (bam_aux_get _ _ _); split; reflexivity. Qed.

Lemma bam_aux_append_frame b k0 k1 t data :
  core (fst (bam_aux_append b k0 k1 t data)) = core b
  /\ d_cigar (fst (bam_aux_append b k0 k1 t data)) = d_cigar b.
Proof. unfold bam_aux_append. destruct (INT32_MAX <? _); split; reflexivity. Qed.

Lemma sync_mq_mc_frame src dest :
  core (sync_mq_mc src dest) = core dest
  /\ d_cigar (sync_mq_mc src dest) = d_cigar dest.
Proof.
  unfold sync_mq_mc.
  repeat match goal with
         | |- context [if ?c then _ else _] => destruct c
         end;
    repeat first [ rewrite (proj1 (bam_aux_append_frame _ _ _ _ _))
                 | rewrite (proj2 (bam_aux_append_frame _ _ _ _ _))
                 | rewrite (proj1 (aux_drop_frame _ _ _))
                 | rewrite (proj2 (aux_drop_frame _ _ _)) ];
    split; reflexivity.
Qed.

Lemma bam_endpos_ext a b :
  tst (fl a) BAM_FUNMAP = tst (fl b) BAM_FUNMAP ->
  pos (core a) = pos (core b) ->
  d_cigar a = d_cigar b ->
  bam_endpos a = bam_endpos b.
Proof. intros H1 H2 H3. unfold bam_endpos. now rewrite H1, H2, H3. Qed.

Lemma keeps_aln_refl x : keeps_aln x x.
Proof. split; auto. Qed.

Lemma keeps_aln_trans x y z : keeps_aln x y -> keeps_aln y z -> keeps_aln x z.
Proof.
  intros [A1 A2] [B1 B2]. split; [congruence|].
  intros H. rewrite B2, A2; congruence.
Qed.

Lemma keeps_aln_paired b : keeps_aln b (flag_or b BAM_FPAIRED).
Proof.
  assert (H : tst (fl (flag_or b BAM_FPAIRED)) BAM_FUNMAP = tst (fl b) BAM_FUNMAP)
    by (flag_bits; reflexivity).
  split; [exact H|]. intros _. now apply bam_endpos_ext.
Qed.

Lemma keeps_aln_unmapped_pos src dest :
  keeps_aln dest (sync_unmapped_pos_inner src dest).
Proof.
  unfold sync_unmapped_pos_inner.
  destruct (tst (fl dest) BAM_FUNMAP) eqn:E; simpl.
  - destruct (negb (tst (fl src) BAM_FUNMAP)); (split; [reflexivity|congruence]).
  - apply keeps_aln_refl.
Qed.

Lemma keeps_aln_mate_inner src dest : keeps_aln dest (sync_mate_inner src dest).
Proof.
  assert (H : tst (fl (sync_mate_inner src dest)) BAM_FUNMAP
              = tst (fl dest) BAM_FUNMAP).
  { unfold sync_mate_inner.
    destruct (tst (fl src) BAM_FREVERSE), (tst (fl src) BAM_FUNMAP);
      flag_bits; reflexivity. }
  split; [exact H|]. intros _. apply bam_endpos_ext; [exact H| |].
  - unfold sync_mate_inner.
    destruct (tst (fl src) BAM_FREVERSE), (tst (fl src) BAM_FUNMAP); reflexivity.
  - unfold sync_mate_inner.
    destruct (tst (fl src) BAM_FREVERSE), (tst (fl src) BAM_FUNMAP); reflexivity.
Qed.

Lemma keeps_aln_mq_mc src dest : keeps_aln dest (sync_mq_mc src dest).
Proof.
  destruct (sync_mq_mc_frame src dest) as [Hc Hg].
  assert (H : fl (sync_mq_mc src dest) = fl dest) by (unfold fl; now rewrite Hc).
  split; [now rewrite H|]. intros _.
  apply bam_endpos_ext; [now rewrite H|now rewrite Hc|exact Hg].
Qed.

Lemma sync_mate_keeps_aln a b :
  keeps_aln a (fst (sync_mate a b)) /\ keeps_aln b (snd (sync_mate a b)).
Proof.
  unfold sync_mate. cbn [fst snd]. split.
  - eapply keeps_aln_trans; [apply keeps_aln_unmapped_pos|].
    eapply keeps_aln_trans; [apply keeps_aln_mate_inner|].
    apply keeps_aln_mq_mc.
  - eapply keeps_aln_trans; [apply keeps_aln_unmapped_pos|].
    eapply keeps_aln_trans; [apply keeps_aln_mate_inner|].
    apply keeps_aln_mq_mc.
Qed.

Lemma five_prime_set_isize r v : five_prime (set_isize r v) = five_prime r.
Proof. reflexivity. Qed.

Lemma set_tlen_synced a b pe ce :
  (tst (fl a) BAM_FUNMAP = false -> pe = bam_endpos a) ->
  (tst (fl b) BAM_FUNMAP = false -> ce = bam_endpos b) ->
  tlen_synced (fst (set_tlen a b pe ce)) (snd (set_tlen a b pe ce)).
Proof.
  intros Ha Hb. unfold set_tlen.
  destruct (Z.eqb_spec (tid (core a)) (tid (core b))) as [Et|Et]; cbn [andb].
  2:{ cbn [fst snd]. split; [|intros _; split; reflexivity].
      intros _ _ Ht. cbn in Ht. contradiction. }
  rewrite !tst_lor.
  destruct (tst (fl a) BAM_FUNMAP) eqn:Ua, (tst (fl b) BAM_FUNMAP) eqn:Ub,
           (tst (fl a) BAM_FMUNMAP) eqn:Ma, (tst (fl b) BAM_FMUNMAP) eqn:Mb;
    cbn [negb andb orb fst snd];
    try (split; [|intros _; split; reflexivity];
         intros H1 H2 _ H3 H4;
         change (fl (set_isize ?x ?v)) with (fl x) in *; congruence).
  split.
  - intros _ _ _ _ _. rewrite !five_prime_set_isize. cbn [isize core set_isize with_core].
    unfold five_prime. rewrite Ha, Hb by reflexivity.
    destruct (tst (fl a) BAM_FREVERSE), (tst (fl b) BAM_FREVERSE); lia.
  - change (fl (set_isize ?x ?v)) with (fl x).
    change (tid (core (set_isize ?x ?v))) with (tid (core x)).
    intros [H|[H|[H|[H|H]]]]; congruence.
Qed.

Lemma pair_sync_tlen pre cur pre_end cur_end :
  (tst (fl pre) BAM_FUNMAP = false -> pre_end = bam_endpos pre) ->
  (tst (fl cur) BAM_FUNMAP = false -> cur_end = bam_endpos cur) ->
  tlen_synced (fst (pair_sync pre cur pre_end cur_end))
              (snd (pair_sync pre cur pre_end cur_end)).
Proof.
  intros Hp Hc. unfold pair_sync.
  destruct (sync_mate (flag_or pre BAM_FPAIRED) (flag_or cur BAM_FPAIRED))
    as [a b] eqn:E.
  pose proof (sync_mate_keeps_aln (flag_or pre BAM_FPAIRED) (flag_or cur BAM_FPAIRED))
    as [Ka Kb].
  rewrite E in Ka, Kb. cbn [fst snd] in Ka, Kb.
  pose proof (keeps_aln_trans _ _ _ (keeps_aln_paired pre) Ka) as [A1 A2].
  pose proof (keeps_aln_trans _ _ _ (keeps_aln_paired cur) Kb) as [B1 B2].
  apply set_tlen_synced.
  - intros H. rewrite A1 in H. rewrite A2 by exact H. auto.
  - intros H. rewrite B1 in H. rewrite B2 by exact H. auto.
Qed.

Lemma fixed_from_refl x : fixed_from x x.
Proof. unfold fixed_from. tauto. Qed.

Lemma fixed_from_trans x y z : fixed_from x y -> fixed_from y z -> fixed_from x z.
Proof.
  unfold fixed_from. intros (A1 & A2 & A3 & A4 & A5 & A6 & A7 & A8)
                            (B1 & B2 & B3 & B4 & B5 & B6 & B7 & B8).
  repeat split; try congruence. auto.
Qed.

Lemma fixed_from_aux x y :
  core y = core x -> d_cigar y = d_cigar x -> fixed_from x y.
Proof.
  intros Hc Hg. unfold fixed_from, fl. rewrite Hc. tauto.
Qed.

Lemma fixed_from_clear_proper x : fixed_from x (flag_clear x BAM_FPROPER_PAIR).
Proof.
  unfold fixed_from. repeat split; try reflexivity; flag_bits; try reflexivity.
  discriminate.
Qed.

Lemma fixed_from_clear_pair_flags x : fixed_from x (flag_clear x PAIR_FLAGS).
Proof.
  unfold fixed_from. repeat split; try reflexivity; flag_bits; try reflexivity.
  discriminate.
Qed.

Lemma add_mate_score_fixed src dest dest' :
  add_mate_score src dest = Ok dest' -> fixed_from dest dest'.
Proof.
  unfold add_mate_score. intros H.
  destruct (bam_aux_append (aux_drop dest "m" "s") "m" "s" "i"
              (u32_bytes (calc_mate_score src))) as [d rc] eqn:E.
  destruct (rc =? -1); [discriminate|]. inversion H; subst dest'.
  pose proof (bam_aux_append_frame (aux_drop dest "m" "s") "m" "s" "i"
                (u32_bytes (calc_mate_score src))) as [F1 F2].
  rewrite E in F1, F2. cbn [fst] in F1, F2.
  destruct (aux_drop_frame dest "m" "s") as [G1 G2].
  apply fixed_from_aux; congruence.
Qed.

Lemma ct_write_fixed b1 b2 :
  fixed_from b1 (fst (ct_write b1 b2)) /\ fixed_from b2 (snd (ct_write b1 b2)).
Proof.
  unfold ct_write. cbn [fst snd]. split.
  - apply fixed_from_aux.
    + rewrite (proj1 (bam_aux_append_frame _ _ _ _ _)). apply aux_drop_frame.
    + rewrite (proj2 (bam_aux_append_frame _ _ _ _ _)). apply aux_drop_frame.
  - apply fixed_from_aux; apply aux_drop_frame.
Qed.

Lemma bam_template_cigar_fixed b1 b2 :
  fixed_from b1 (fst (bam_template_cigar b1 b2))
  /\ fixed_from b2 (snd (bam_template_cigar b1 b2)).
Proof.
  unfold bam_template_cigar.
  destruct (_ || _); [split; apply fixed_from_refl|].
  destruct (pos (core b1) >? pos (core b2)).
  - destruct (ct_write b2 b1) as [lo hi] eqn:E.
    pose proof (ct_write_fixed b2 b1) as [H1 H2]. rewrite E in H1, H2.
    cbn [fst snd] in *. split; assumption.
  - apply ct_write_fixed.
Qed.

Lemma pair_finish_fixed cfg pre cur pre' cur' :
  pair_finish cfg pre cur = Ok (pre', cur') ->
  fixed_from pre pre' /\ fixed_from cur cur'.
Proof.
  unfold pair_finish. intros H.
  set (p1 := if add_ct cfg then bam_template_cigar pre cur else (pre, cur)) in H.
  assert (F1 : fixed_from pre (fst p1) /\ fixed_from cur (snd p1)).
  { subst p1. destruct (add_ct cfg); [apply bam_template_cigar_fixed|].
    split; apply fixed_from_refl. }
  destruct p1 as [a1 b1]. cbn [fst snd] in F1. destruct F1 as [Fa1 Fb1].
  match type of H with
  | rbind ?r _ = _ => destruct r as [[a2 b2]| | | |] eqn:E2; try discriminate
  end.
  assert (F2 : fixed_from a1 a2 /\ fixed_from b1 b2).
  { destruct (proper_pair_check cfg).
    - destruct (plausibly_properly_paired a1 b1) as [ok| | | |]; try discriminate.
      cbn [rbind] in E2. destruct ok; cbn [negb] in E2; inversion E2; subst.
      + split; apply fixed_from_refl.
      + split; apply fixed_from_clear_proper.
    - inversion E2; subst. split; apply fixed_from_refl. }
  destruct F2 as [Fa2 Fb2]. cbn [rbind] in H.
  match type of H with
  | rbind ?r _ = _ => destruct r as [[a3 b3]| | | |] eqn:E3; try discriminate
  end.
  assert (F3 : fixed_from a2 a3 /\ fixed_from b2 b3).
  { destruct (do_mate_scoring cfg).
    - cbn [fst snd] in E3.
      destruct (add_mate_score a2 b2) as [c'| | | |] eqn:S1; try discriminate.
      cbn [rbind] in E3.
      destruct (add_mate_score c' a2) as [p'| | | |] eqn:S2; try discriminate.
      cbn [rbind] in E3. inversion E3; subst.
      split; eauto using add_mate_score_fixed.
    - inversion E3; subst. split; apply fixed_from_refl. }
  destruct F3 as [Fa3 Fb3]. cbn [rbind] in H.
  assert (F4 : fixed_from a3 pre' /\ fixed_from b3 cur').
  { destruct (remove_reads cfg).
    - inversion H; subst. split.
      + destruct (tst (fl (if tst (fl a3) BAM_FUNMAP then _ else _)) BAM_FUNMAP);
          [apply fixed_from_clear_pair_flags|apply fixed_from_refl].
      + destruct (tst (fl a3) BAM_FUNMAP);
          [apply fixed_from_clear_pair_flags|apply fixed_from_refl].
    - inversion H; subst. split; apply fixed_from_refl. }
  destruct F4. split; eauto using fixed_from_trans.
Qed.

Lemma tlen_synced_fixed a b a' b' :
  fixed_from a a' -> fixed_from b b' -> tlen_synced a b -> tlen_synced a' b'.
Proof.
  unfold fixed_from, tlen_synced.
  intros (A1 & A2 & A3 & A4 & A5 & A6 & A7 & _)
         (B1 & B2 & B3 & B4 & B5 & B6 & B7 & _) [T1 T2].
  assert (Fa : five_prime a' = five_prime a).
  { unfold five_prime. rewrite A7, A1. now rewrite (bam_endpos_ext a' a). }
  assert (Fb : five_prime b' = five_prime b).
  { unfold five_prime. rewrite B7, B1. now rewrite (bam_endpos_ext b' b). }
  rewrite A2, A3, A5, A6, B2, B3, B5, B6, Fa, Fb. split; assumption.
Qed.

(** Both mapped, same reference, but the first record carries a stale
    mate-unmapped flag, which the synchroniser never clears: the TLEN guard
    fails and both insert sizes are 0, although the 5' coordinates (100 and
    350) differ. *)
Lemma tlen_zero_with_stale_mate_unmapped :
  let pre := sample_read "R1" BAM_FMUNMAP 0 100 [cigar_op 50 BAM_CMATCH] [] in
  let cur := sample_read "R1" BAM_FREVERSE 0 300 [cigar_op 50 BAM_CMATCH] [] in
  let ps := pair_sync pre cur (end_if_mapped pre) (end_if_mapped cur) in
  tst (fl (fst ps)) BAM_FUNMAP = false
  /\ tst (fl (snd ps)) BAM_FUNMAP = false
  /\ tid (core (fst ps)) = tid (core (snd ps))
  /\ five_prime (snd ps) - five_prime (fst ps) = 250
  /\ isize (core (fst ps)) = 0
  /\ isize (core (snd ps)) = 0
  /\ map (fun r => isize (core r))
         (fst (bam_mating_core default_config [1000] [RdRec pre; RdRec cur]))
     = [0; 0].
Proof. vm_compute. repeat split. Qed.

Lemma fix_pair_eq cfg pre cur pre_end cur_end :
  fix_pair cfg pre cur pre_end cur_end
  = pair_finish cfg (fst (pair_sync pre cur pre_end cur_end))
                    (snd (pair_sync pre cur pre_end cur_end)).
Proof.
  unfold fix_pair. generalize (pair_sync pre cur pre_end cur_end).
  intros [a b]. reflexivity.
Qed.

(** The insert sizes of a pair are consistent when the two ends handed to
    the pair fix-up are the alignment ends of the mapped records. *)
Lemma fix_pair_tlen cfg pre cur pre_end cur_end :
  (tst (fl pre) BAM_FUNMAP = false -> pre_end = bam_endpos pre) ->
  (tst (fl cur) BAM_FUNMAP = false -> cur_end = bam_endpos cur) ->
  tlen_synced (fst (pair_sync pre cur pre_end cur_end))
              (snd (pair_sync pre cur pre_end cur_end))
  /\ (forall pre' cur',
        fix_pair cfg pre cur pre_end cur_end = Ok (pre', cur') ->
        tlen_synced pre' cur').
Proof.
  intros Hp Hc. pose proof (pair_sync_tlen pre cur pre_end cur_end Hp Hc) as T.
  split; [exact T|].
  intros pre' cur' H. rewrite fix_pair_eq in H.
  apply pair_finish_fixed in H. destruct H as [Fa Fb].
  eapply tlen_synced_fixed; eassumption.
Qed.

(** ** C5: tag filtering of unmapped records *)

Lemma byteZ_range x : 0 <= byteZ x < 256.
Proof. unfold byteZ. pose proof (Byte.to_N_bounded x). lia. Qed.

Lemma byteZ_inj x y : byteZ x = byteZ y -> x = y.
Proof.
  unfold byteZ. intros H. apply N2Z.inj in H.
  pose proof (Byte.of_to_N x) as Hx. rewrite H, Byte.of_to_N in Hx. congruence.
Qed.

Lemma byteZ_of_N n :
  0 <= n < 256 ->
  byteZ (match Byte.of_N (Z.to_N n) with Some x => x | None => x00 end) = n.
Proof.
  intros Hn. destruct (Byte.of_N (Z.to_N n)) as [x|] eqn:E.
  - apply Byte.to_of_N in E. unfold byteZ. rewrite E. lia.
  - apply Byte.of_N_None_iff in E. lia.
Qed.

Lemma length_u32_bytes n : length (u32_bytes n) = 4%nat.
Proof. reflexivity. Qed.

Lemma le_to_u32_bytes pre n post :
  0 <= n < 2 ^ 32 ->
  le_to_u32 (pre ++ u32_bytes n ++ post) (length pre) = n.
Proof.
  intros Hn. unfold le_to_u32.
  rewrite <- (Nat.add_0_r (length pre)) at 1.
  rewrite !app_nth2_plus. unfold u32_bytes. cbn [map app nth].
  rewrite !byteZ_of_N by (apply Z.mod_pos_bound; lia).
  rewrite !Z.shiftr_div_pow2 by lia.
  change (2 ^ (8 * 0)) with 1. change (2 ^ (8 * 1)) with 256.
  change (2 ^ (8 * 2)) with 65536. change (2 ^ (8 * 3)) with 16777216.
  change (2 ^ 8) with 256. change (2 ^ 16) with 65536.
  change (2 ^ 24) with 16777216. change (2 ^ 32) with 4294967296 in Hn.
  rewrite Z.div_1_r.
  assert (E2 : n / 65536 = n / 256 / 256) by (rewrite Z.div_div by lia; reflexivity).
  assert (E3 : n / 16777216 = n / 256 / 256 / 256)
    by (rewrite !Z.div_div by lia; reflexivity).
  rewrite E2, E3.
  pose proof (Z.div_mod n 256 ltac:(lia)).
  pose proof (Z.div_mod (n / 256) 256 ltac:(lia)).
  pose proof (Z.div_mod (n / 256 / 256) 256 ltac:(lia)).
  assert (n / 256 / 256 / 256 < 256).
  { apply Z.div_lt_upper_bound; [lia|]. apply Z.div_lt_upper_bound; [lia|].
    apply Z.div_lt_upper_bound; lia. }
  assert (0 <= n / 256 / 256 / 256) by (repeat apply Z.div_pos; lia).
  rewrite (Z.mod_small (n / 256 / 256 / 256)) by lia.
  lia.
Qed.

Lemma nul_index_app s r :
  Forall (fun x => x <> x00) s ->
  nul_index (s ++ x00 :: r) = Some (length s).
Proof.
  induction 1 as [|x s Hx Hs IH]; simpl; [reflexivity|].
  destruct (Byte.eqb x x00) eqn:E.
  - apply Byte.byte_dec_bl in E. contradiction.
  - now rewrite IH.
Qed.

Lemma aux_entry_length e : aux_entry e -> (3 <= length e)%nat.
Proof. destruct 1; simpl; lia. Qed.

Lemma skip_aux_entry pre e post :
  aux_entry e ->
  skip_aux (pre ++ e ++ post) (length pre + 2) = Some (length pre + length e)%nat.
Proof.
  intros He. unfold skip_aux.
  pose proof (aux_entry_length e He) as Hlen.
  replace (length (pre ++ e ++ post) <=? length pre + 2)%nat with false
    by (symmetry; apply Nat.leb_gt; rewrite !length_app; lia).
  rewrite app_nth2_plus.
  destruct He as [k0 k1 t v Ht Hv | k0 k1 t s Ht Hs
                 | k0 k1 t st n cnt v -> Hst -> Hn Hsz Hv].
  - cbn [app nth].
    assert (Hsize : aux_type2size t = 1 \/ aux_type2size t = 2
                    \/ aux_type2size t = 4 \/ aux_type2size t = 8)
      by (destruct t; try discriminate Ht; cbn; tauto).
    assert (Hnot : (aux_type2size t =? byteZ "Z") || (aux_type2size t =? byteZ "H")
                   = false /\ (aux_type2size t =? byteZ "B") = false
                   /\ (aux_type2size t =? 0) = false)
      by (destruct Hsize as [E|[E|[E|E]]]; rewrite E; repeat split).
    destruct Hnot as (-> & -> & ->).
    rewrite !length_app. cbn [length]. rewrite ?length_app.
    replace (Z.of_nat (length pre + S (S (S (length v + length post))))
             - Z.of_nat (S (length pre + 2)) <? aux_type2size t) with false
      by zbool.
    f_equal. rewrite <- Hv. lia.
  - cbn [app nth].
    assert (Hsize : (aux_type2size t =? byteZ "Z") || (aux_type2size t =? byteZ "H")
                    = true) by (destruct Ht; subst t; reflexivity).
    rewrite Hsize.
    replace (S (length pre + 2)) with (length pre + 3)%nat by lia.
    rewrite drop_app_add. cbn [drop app]. rewrite <- app_assoc. cbn [app].
    rewrite drop_0, nul_index_app by assumption.
    f_equal. cbn [length]. rewrite length_app. cbn [length]. lia.
  - cbn [app nth].
    change ((aux_type2size "B" =? byteZ "Z") || (aux_type2size "B" =? byteZ "H"))
      with false.
    change (aux_type2size "B" =? byteZ "B") with true. cbv iota.
    assert (Hsz0 : aux_type2size st = 1 \/ aux_type2size st = 2
                   \/ aux_type2size st = 4)
      by (destruct st; try discriminate Hst; cbn; tauto).
    assert (Hall : length (pre ++ k0 :: k1 :: "B"%byte :: st :: (u32_bytes n ++ v) ++ post)
                   = (length pre + 8 + length v + length post)%nat)
      by (repeat first [rewrite length_app | rewrite length_u32_bytes
                       | progress cbn [length]]; lia).
    rewrite Hall.
    replace (Z.of_nat (length pre + 8 + length v + length post)
             - Z.of_nat (S (length pre + 2)) <? 5) with false by zbool.
    replace (S (length pre + 2)) with (length pre + 3)%nat by lia.
    rewrite app_nth2_plus. cbn [nth app].
    replace (pre ++ k0 :: k1 :: "B"%byte :: st :: (u32_bytes n ++ v) ++ post)
      with ((pre ++ [k0; k1; "B"%byte; st]) ++ u32_bytes n ++ (v ++ post))
      by (rewrite <- !app_assoc; reflexivity).
    replace (S (length pre + 3)) with (length (pre ++ [k0; k1; "B"%byte; st]))
      by (rewrite length_app; cbn [length]; lia).
    rewrite le_to_u32_bytes by assumption.
    assert (Hu : u32 (aux_type2size st * n) = aux_type2size st * n)
      by (unfold u32; apply Z.mod_small; lia).
    rewrite Hu.
    replace (aux_type2size st =? 0) with false by zbool. cbn [orb].
    rewrite length_app. cbn [length].
    replace (Z.of_nat (length pre + 8 + length v + length post)
             - Z.of_nat (length pre + 4 + 4) <? aux_type2size st * n) with false
      by zbool.
    f_equal. repeat first [rewrite length_app | rewrite length_u32_bytes
                          | progress cbn [length]]. rewrite <- Hv. lia.
Qed.

Lemma bam_aux_next_entry pre e post :
  aux_entry e ->
  bam_aux_next (pre ++ e ++ post) (length pre + 2)
  = if (length post <=? 2)%nat then AuxEnd
    else AuxAt (length pre + length e + 2).
Proof.
  intros He. unfold bam_aux_next. rewrite skip_aux_entry by assumption.
  rewrite !length_app.
  destruct (Nat.leb_spec (length post) 2).
  - replace (_ <=? 2) with true by zbool. reflexivity.
  - replace (_ <=? 2) with false by zbool. reflexivity.
Qed.

(** *** The key test *)

Lemma lor_shift8 a b :
  0 <= a -> 0 <= b < 256 -> Z.lor (Z.shiftl a 8) b = a * 256 + b.
Proof.
  intros Ha Hb.
  assert (Hl : Z.land (Z.shiftl a 8) b = 0).
  { apply Z.bits_inj'. intros n Hn. rewrite Z.land_spec, Z.bits_0.
    destruct (Z.lt_ge_cases n 8).
    - rewrite Z.shiftl_spec_low by lia. reflexivity.
    - destruct (Z.eq_dec b 0) as [->|Hb0].
      + rewrite Z.bits_0. apply andb_false_r.
      + assert (Hlog : Z.log2 b < 8) by (apply Z.log2_lt_pow2; lia).
        assert (Hbit : Z.testbit b n = false)
          by (apply Z.bits_above_log2; lia).
        rewrite Hbit. apply andb_false_r. }
  pose proof (Z.add_lor_land (Z.shiftl a 8) b) as H. rewrite Hl in H.
  rewrite Z.shiftl_mul_pow2 in * by lia. change (2 ^ 8) with 256 in *. lia.
Qed.

Lemma byte_eqb_byteZ x y : Byte.eqb x y = (byteZ x =? byteZ y).
Proof.
  destruct (Z.eqb_spec (byteZ x) (byteZ y)) as [E|E].
  - apply byteZ_inj in E. subst. now apply Byte.byte_dec_lb.
  - destruct (Byte.eqb x y) eqn:B; [|reflexivity].
    apply Byte.byte_dec_bl in B. subst. contradiction.
Qed.

Lemma key_test k0 k1 c0 c1 :
  (Z.lor (Z.shiftl (byteZ k0) 8) (byteZ k1) =? XTAG c0 c1)
  = Byte.eqb k0 c0 && Byte.eqb k1 c1.
Proof.
  pose proof (byteZ_range k0). pose proof (byteZ_range k1).
  pose proof (byteZ_range c0). pose proof (byteZ_range c1).
  rewrite lor_shift8 by lia. unfold XTAG.
  rewrite Z.shiftl_mul_pow2 by lia. change (2 ^ 8) with 256.
  rewrite !byte_eqb_byteZ.
  destruct (Z.eqb_spec (byteZ k0) (byteZ c0)), (Z.eqb_spec (byteZ k1) (byteZ c1));
    cbn [andb]; symmetry; zbool.
Qed.

(** *** The compacting pass *)

Lemma memmove_compact kept gap e post :
  memmove (kept ++ gap ++ e ++ post) (length kept) (length kept + length gap)
          (length e)
  = (kept ++ e) ++ drop (length e) (gap ++ e) ++ post.
Proof.
  unfold memmove. rewrite take_app_length.
  replace (kept ++ gap ++ e ++ post) with ((kept ++ gap) ++ e ++ post) at 1
    by (now rewrite <- app_assoc).
  rewrite <- length_app, drop_app_length, take_app_length.
  rewrite drop_app_add.
  rewrite (app_assoc gap e post).
  rewrite (drop_app_le (gap ++ e)) by (rewrite length_app; lia).
  now rewrite <- app_assoc.
Qed.

Lemma concat_entries_length es :
  Forall aux_entry es -> (3 * length es <= length (concat es))%nat.
Proof.
  induction 1 as [|e es He _ IH]; simpl; [lia|].
  rewrite length_app. pose proof (aux_entry_length e He). lia.
Qed.

(** One turn of the loop, standing on a well-formed entry [e]. *)
Lemma aux_filter_step fuel pre e post to :
  aux_entry e ->
  aux_filter_loop (S fuel) (pre ++ e ++ post) (length pre + 2) to
  = let d := pre ++ e ++ post in
    let last := (length post <=? 2)%nat in
    let len := if last then (length e + length post)%nat else length e in
    let d' := if negb (sanitized_away e)
              then if (length pre =? to)%nat then d
                   else memmove d to (length pre) len
              else d in
    let to' := if negb (sanitized_away e) then (to + len)%nat else to in
    if last then Ok (d', to')
    else aux_filter_loop fuel d' (length pre + length e + 2) to'.
Proof.
  intros He. cbn [aux_filter_loop].
  rewrite bam_aux_next_entry by assumption.
  rewrite Nat.add_sub.
  assert (N0 : nth (length pre) (pre ++ e ++ post) x00 = nth 0 (e ++ post) x00)
    by (rewrite <- (Nat.add_0_r (length pre)) at 1; apply app_nth2_plus).
  assert (N1 : nth (length pre + 1) (pre ++ e ++ post) x00 = nth 1 (e ++ post) x00)
    by apply app_nth2_plus.
  rewrite N0, N1. clear N0 N1.
  pose proof (aux_entry_length e He) as Hlen.
  destruct e as [|k0 [|k1 rest]]; cbn [length] in Hlen; try lia.
  cbn [app nth]. rewrite !key_test.
  unfold sanitized_away, entry_has_key. rewrite !negb_orb.
  cbv zeta.
  destruct (length post <=? 2)%nat eqn:Hlast.
  - replace (length (pre ++ k0 :: k1 :: rest ++ post) - length pre)%nat
      with (length (k0 :: k1 :: rest) + length post)%nat
      by (rewrite !length_app; cbn [length]; rewrite length_app; lia).
    destruct (negb _ && negb _ && negb _ && negb _); reflexivity.
  - rewrite Nat.add_sub.
    replace (length pre + length (k0 :: k1 :: rest) - length pre)%nat
      with (length (k0 :: k1 :: rest)) by lia.
    destruct (negb _ && negb _ && negb _ && negb _); reflexivity.
Qed.

Lemma kept_entries_cons e es :
  kept_entries (e :: es)
  = if negb (sanitized_away e) then e :: kept_entries es else kept_entries es.
Proof. reflexivity. Qed.

Lemma aux_filter_loop_entries es :
  forall e kept gap fuel,
    Forall aux_entry (e :: es) ->
    (length es < fuel)%nat ->
    exists d',
      aux_filter_loop fuel (kept ++ gap ++ concat (e :: es))
                      (length kept + length gap + 2) (length kept)
      = Ok (d', (length kept + length (concat (kept_entries (e :: es))))%nat)
      /\ take (length kept + length (concat (kept_entries (e :: es)))) d'
         = kept ++ concat (kept_entries (e :: es)).
Proof.
  induction es as [|e2 es IH]; intros e kept gap fuel Hwf Hfuel;
    (destruct fuel as [|fuel]; [simpl in Hfuel; lia|]);
    inversion Hwf as [|? ? He Hrest]; subst;
    rewrite (concat_cons e), (app_assoc kept gap), <- (length_app kept gap);
    rewrite aux_filter_step by assumption; cbv zeta;
    rewrite (kept_entries_cons e).
  - (* last entry *)
    change (kept_entries []) with (@nil (list byte)).
    cbn [concat length Nat.leb]. rewrite !app_nil_r, Nat.add_0_r.
    destruct (negb (sanitized_away e)).
    + cbn [concat]. rewrite app_nil_r.
      eexists. split; [reflexivity|].
      destruct (Nat.eqb_spec (length (kept ++ gap)) (length kept)) as [E|E].
      * assert (gap = [])
          by (destruct gap; [reflexivity|rewrite length_app in E; simpl in E; lia]).
        subst gap. rewrite app_nil_r. apply take_ge. rewrite length_app. lia.
      * replace (memmove ((kept ++ gap) ++ e) (length kept) (length (kept ++ gap))
                         (length e))
          with ((kept ++ e) ++ drop (length e) (gap ++ e) ++ [])
          by (rewrite <- memmove_compact, length_app, app_nil_r, <- app_assoc;
              reflexivity).
        rewrite <- length_app. apply take_app_length.
    + cbn [concat length]. rewrite Nat.add_0_r.
      eexists. split; [reflexivity|].
      rewrite app_nil_r, <- app_assoc. apply take_app_length.
  - (* an entry followed by another *)
    assert (Hpost : (2 < length (concat (e2 :: es)))%nat).
    { pose proof (concat_entries_length _ Hrest). cbn [length] in *. lia. }
    replace (length (concat (e2 :: es)) <=? 2)%nat with false
      by (symmetry; apply Nat.leb_gt; lia).
    destruct (negb (sanitized_away e)).
    + assert (Hd : (if (length (kept ++ gap) =? length kept)%nat
                    then (kept ++ gap) ++ e ++ concat (e2 :: es)
                    else memmove ((kept ++ gap) ++ e ++ concat (e2 :: es))
                                 (length kept) (length (kept ++ gap)) (length e))
                   = (kept ++ e) ++ drop (length e) (gap ++ e)
                     ++ concat (e2 :: es)).
      { destruct (Nat.eqb_spec (length (kept ++ gap)) (length kept)) as [E|E].
        - assert (gap = [])
            by (destruct gap; [reflexivity|rewrite length_app in E; simpl in E; lia]).
          subst gap. rewrite app_nil_r. cbn [app]. rewrite drop_all.
          now rewrite <- app_assoc.
        - rewrite <- (app_assoc kept gap), length_app.
          apply memmove_compact. }
      rewrite Hd. clear Hd.
      destruct (IH e2 (kept ++ e) (drop (length e) (gap ++ e)) fuel Hrest
                  ltac:(simpl in Hfuel; lia)) as [d' [Hrun Htake]].
      rewrite length_drop, !length_app in Hrun.
      replace (length gap + length e - length e)%nat with (length gap)
        in Hrun by lia.
      rewrite length_app.
      replace (length kept + length gap + length e + 2)%nat
        with (length kept + length e + length gap + 2)%nat by lia.
      rewrite (concat_cons e), length_app.
      rewrite length_app in Htake.
      exists d'. split.
      * rewrite Hrun. f_equal. f_equal. lia.
      * replace (length kept + (length e + length (concat (kept_entries (e2 :: es)))))%nat
          with (length kept + length e + length (concat (kept_entries (e2 :: es))))%nat
          by lia.
        rewrite Htake. now rewrite <- app_assoc.
    + destruct (IH e2 kept (gap ++ e) fuel Hrest ltac:(simpl in Hfuel; lia))
        as [d' [Hrun Htake]].
      rewrite length_app in Hrun.
      replace (length (kept ++ gap) + length e + 2)%nat
        with (length kept + (length gap + length e) + 2)%nat
        by (rewrite length_app; lia).
      rewrite <- !app_assoc in *.
      exists d'. split; assumption.
Qed.

Lemma with_aux_same b : with_aux b (d_aux b) = b.
Proof. destruct b; reflexivity. Qed.

Lemma sanitize_aux_entries b es :
  d_aux b = concat es ->
  Forall aux_entry es ->
  sanitize_aux b = Ok (with_aux b (concat (kept_entries es))).
Proof.
  intros Hd Hwf. unfold sanitize_aux. rewrite Hd.
  destruct es as [|e es].
  - destruct b. cbn in *. subst. reflexivity.
  - pose proof (concat_entries_length _ Hwf) as Hlen. cbn [length] in Hlen.
    unfold bam_aux_first.
    replace (length (concat (e :: es)) <=? 2)%nat with false
      by (symmetry; apply Nat.leb_gt; lia).
    destruct (aux_filter_loop_entries es e [] [] (length (concat (e :: es))) Hwf
                ltac:(lia)) as [d' [Hrun Htake]].
    cbn [app length Nat.add Nat.sub] in Hrun, Htake |- *.
    rewrite Hrun. cbn [rbind fst snd]. now rewrite Htake.
Qed.

Lemma length_concat_filter (f : list byte -> bool) es :
  length (concat es)
  = (length (concat (List.filter (fun e => negb (f e)) es))
     + length (concat (List.filter f es)))%nat.
Proof.
  induction es as [|e es IH]; [reflexivity|].
  cbn [List.filter concat]. destruct (f e); cbn [negb concat];
    rewrite !length_app, IH; lia.
Qed.

Lemma sanitize_pos_unmapped b flags :
  tst (fl b) BAM_FUNMAP = true ->
  tst (fl (sanitize_pos b flags)) BAM_FUNMAP = true
  /\ d_aux (sanitize_pos b flags) = d_aux b.
Proof.
  intros H. unfold sanitize_pos.
  destruct (tst flags FIX_POS && (tid (core b) <? 0)); [|now split].
  destruct (tst flags FIX_UNMAP); [|now split].
  split; [|reflexivity].
  change (fl (flag_or (set_pos b (-1)) BAM_FUNMAP)) with (Z.lor (fl b) BAM_FUNMAP).
  rewrite tst_unmap in *. change BAM_FUNMAP with (2 ^ 2).
  rewrite testbit_or_bit by lia. now rewrite H.
Qed.

Lemma sanitize_cigar_qual_frame b flags :
  d_aux (sanitize_cigar_qual b flags) = d_aux b
  /\ fl (sanitize_cigar_qual b flags) = fl b.
Proof.
  unfold sanitize_cigar_qual.
  destruct (tst flags FIX_CIGAR && (n_cigar b >? 0)), (tst flags FIX_MQUAL);
    split; reflexivity.
Qed.

Lemma sanitize_cigar_qual_length b flags :
  l_data (sanitize_cigar_qual (sanitize_pos b flags) flags)
  = l_data b - (if tst flags FIX_CIGAR then 4 * n_cigar b else 0).
Proof.
  assert (Hp : l_data (sanitize_pos b flags) = l_data b
               /\ n_cigar (sanitize_pos b flags) = n_cigar b).
  { unfold sanitize_pos.
    destruct (tst flags FIX_POS && (tid (core b) <? 0)); [|now split].
    destruct (tst flags FIX_UNMAP); now split. }
  destruct Hp as [Hl Hn].
  assert (Hc : forall x, l_data (clear_cigar x) = l_data x - 4 * n_cigar x)
    by (intros x; unfold l_data, n_cigar, clear_cigar; cbn; lia).
  assert (Hq : forall x v, l_data (set_qual x v) = l_data x) by reflexivity.
  unfold sanitize_cigar_qual. rewrite Hn.
  destruct (tst flags FIX_CIGAR); cbn [andb].
  - destruct (Z.gtb_spec (n_cigar b) 0) as [Hgt|Hle];
      destruct (tst flags FIX_MQUAL); rewrite ?Hq, ?Hc, ?Hl, ?Hn;
      try lia; unfold n_cigar in *; lia.
  - destruct (tst flags FIX_MQUAL); rewrite ?Hq, ?Hl; lia.
Qed.

(** C5.  For an unmapped record whose auxiliary stream is a sequence [es]
    of well-formed tag entries, sanitizing with tag fixing enabled runs the
    filtering pass on [b0], the record as the CIGAR and mapping-quality
    steps left it (its tags are still [es]).  The pass succeeds; the
    resulting stream is [es] without the entries keyed NM, MD, CG or SM,
    the others byte for byte and in their order; the data length is the
    length before the pass minus the bytes of the removed entries; nothing
    else in the record changes.  (Before the pass the length is that of
    the input, less the CIGAR bytes when CIGAR fixing is on as well.) *)
Theorem sanitize_unmapped_aux_filter h b flags es :
  tst (fl b) BAM_FUNMAP = true ->
  tst flags FIX_AUX = true ->
  d_aux b = concat es ->
  Forall aux_entry es ->
  let b0 := sanitize_cigar_qual (sanitize_pos b flags) flags in
  d_aux b0 = concat es
  /\ l_data b0 = l_data b - (if tst flags FIX_CIGAR then 4 * n_cigar b else 0)
  /\ exists b',
      bam_sanitize h b flags = Ok b'
      /\ sanitize_aux b0 = Ok b'
      /\ d_aux b' = concat (List.filter (fun e => negb (sanitized_away e)) es)
      /\ l_data b'
         = l_data b0 - Z.of_nat (length (concat (List.filter sanitized_away es)))
      /\ core b' = core b0 /\ d_qname b' = d_qname b0 /\ d_cigar b' = d_cigar b0
      /\ d_seq b' = d_seq b0 /\ d_qual b' = d_qual b0.
Proof.
  intros Hun Haux Hd Hwf b0.
  destruct (sanitize_pos_unmapped b flags Hun) as [Hun1 Hd1].
  destruct (sanitize_cigar_qual_frame (sanitize_pos b flags) flags) as [Hd2 Hf2].
  assert (Hd0 : d_aux b0 = concat es) by (subst b0; congruence).
  split; [exact Hd0|].
  split; [subst b0; apply sanitize_cigar_qual_length|].
  exists (with_aux b0 (concat (kept_entries es))).
  pose proof (sanitize_aux_entries b0 es Hd0 Hwf) as Hpass.
  split; [|split; [exact Hpass|]].
  - unfold bam_sanitize, sanitize_mapped. rewrite Hun1.
    rewrite andb_false_r. cbn [rbind]. unfold sanitize_unmapped.
    rewrite Hun1, Haux. exact Hpass.
  - split; [reflexivity|]. split; [|repeat split].
    unfold l_data, n_cigar. cbn [with_aux d_qname d_cigar d_seq d_qual d_aux].
    rewrite Hd0. rewrite (length_concat_filter sanitized_away es).
    unfold kept_entries. lia.
Qed.


Lemma sanitize_unmapped_aux_filter_witness :
  let es := [list_byte_of_string "NMC" ++ [x05];
             list_byte_of_string "XAZab" ++ [x00];
             list_byte_of_string "MDZ1" ++ [x00];
             list_byte_of_string "XBBs" ++ u32_bytes 2 ++ [x01; x00; x02; x00];
             list_byte_of_string "SMi" ++ u32_bytes 7;
             list_byte_of_string "RGZg" ++ [x00]] in
  let b := sample_read "r" BAM_FUNMAP (-1) 5 [cigar_op 100 BAM_CMATCH] (concat es) in
  exists b',
    bam_sanitize [1000] b FIX_ALL = Ok b'
    /\ d_aux b' = list_byte_of_string "XAZab" ++ [x00]
                  ++ list_byte_of_string "XBBs" ++ u32_bytes 2 ++ [x01; x00; x02; x00]
                  ++ list_byte_of_string "RGZg" ++ [x00]
    /\ l_data b' = l_data (sanitize_cigar_qual (sanitize_pos b FIX_ALL) FIX_ALL) - 16
    /\ l_data b' = l_data b - 4 - 16.
Proof.
  intros es b.
  destruct (sanitize_unmapped_aux_filter [1000] b FIX_ALL es) as [_ [_ [b' H]]].
  - reflexivity.
  - reflexivity.
  - reflexivity.
  - constructor 2.
    { apply (aux_fixed "N" "M" "C" [x05]); reflexivity. }
    constructor 2.
    { apply (aux_string "X" "A" "Z" (list_byte_of_string "ab")); [now left|].
      repeat (constructor 2; [discriminate|]). constructor 1. }
    constructor 2.
    { apply (aux_string "M" "D" "Z" (list_byte_of_string "1")); [now left|].
      repeat (constructor 2; [discriminate|]). constructor 1. }
    constructor 2.
    { apply (aux_array "X" "B" "B" "s" 2 (u32_bytes 2) [x01; x00; x02; x00]);
        [reflexivity | reflexivity | reflexivity
        | split; [discriminate|reflexivity] | reflexivity | reflexivity]. }
    constructor 2.
    { apply (aux_fixed "S" "M" "i" (u32_bytes 7)); reflexivity. }
    constructor 2.
    { apply (aux_string "R" "G" "Z" (list_byte_of_string "g")); [now left|].
      repeat (constructor 2; [discriminate|]). constructor 1. }
    constructor 1.
  - destruct H as (H1 & _ & H3 & H4 & _).
    exists b'. split; [exact H1|]. split; [exact H3|].
    split; [exact H4|]. rewrite H4. reflexivity.
Defined.

(** ** C10: the MQ tag when the source is unmapped *)

Lemma aux_entry_inv k0 k1 t v :
  aux_entry (k0 :: k1 :: t :: v) ->
  (is_fixed_type t = true /\ Z.of_nat (length v) = aux_type2size t)
  \/ ((t = "Z"%byte \/ t = "H"%byte)
      /\ exists s, v = s ++ [x00] /\ Forall (fun x => x <> x00) s)
  \/ (t = "B"%byte
      /\ exists st n w,
          v = st :: u32_bytes n ++ w /\ is_array_subtype st = true
          /\ 0 <= n < 2 ^ 32 /\ aux_type2size st * n < 2 ^ 32
          /\ Z.of_nat (length w) = aux_type2size st * n).
Proof.
  intros H. remember (k0 :: k1 :: t :: v) as e eqn:Ee.
  destruct H as [? ? ? ? Ht Hv | ? ? ? s Ht Hs | ? ? ? st n cnt w HB Hst Hc Hn Hsz Hw];
    injection Ee as -> -> -> Ev; subst.
  - left. now split.
  - right; left. split; [assumption|]. now exists s.
  - right; right. split; [reflexivity|]. exists st, n, w. repeat split; auto; lia.
Qed.

Lemma aux_entry_last_nul k0 k1 t v post :
  aux_entry (k0 :: k1 :: t :: v) ->
  (Byte.eqb t "Z" || Byte.eqb t "H")
  && negb (Byte.eqb (nth (2 + length v) (k0 :: k1 :: t :: v ++ post) x00) x00)
  = false.
Proof.
  intros H. destruct (aux_entry_inv _ _ _ _ H)
    as [[Ht Hv] | [[Ht (s & -> & Hs)] | [-> _]]].
  - assert (E : Byte.eqb t "Z" || Byte.eqb t "H" = false)
      by (destruct t; try discriminate Ht; reflexivity).
    now rewrite E.
  - rewrite length_app. cbn [length].
    replace (2 + (length s + 1))%nat with (S (S (S (length s)))) by lia.
    cbn [nth]. rewrite <- app_assoc.
    replace (nth (length s) (s ++ [x00] ++ post) x00) with x00.
    + change (Byte.eqb x00 x00) with true. apply andb_false_r.
    + rewrite <- (Nat.add_0_r (length s)). now rewrite app_nth2_plus.
  - reflexivity.
Qed.

Lemma key_offset_cons k0 k1 e es :
  key_offset k0 k1 (e :: es)
  = if entry_has_key k0 k1 e then Some O
    else option_map (fun n => (length e + n)%nat) (key_offset k0 k1 es).
Proof. reflexivity. Qed.

(** one look of [bam_aux_get] at a well-formed entry *)
Lemma aux_get_from_step fuel pre e post k0 k1 :
  aux_entry e ->
  aux_get_from (S fuel) (pre ++ e ++ post) k0 k1 (AuxAt (length pre + 2))
  = if entry_has_key k0 k1 e then Some (length pre + 2)%nat
    else aux_get_from fuel (pre ++ e ++ post) k0 k1
           (if (length post <=? 2)%nat then AuxEnd
            else AuxAt (length pre + length e + 2)).
Proof.
  intros He. cbn [aux_get_from].
  rewrite Nat.add_sub.
  replace (length pre + 2 - 1)%nat with (length pre + 1)%nat by lia.
  assert (N0 : nth (length pre) (pre ++ e ++ post) x00 = nth 0 (e ++ post) x00)
    by (rewrite <- (Nat.add_0_r (length pre)) at 1; apply app_nth2_plus).
  assert (N1 : nth (length pre + 1) (pre ++ e ++ post) x00 = nth 1 (e ++ post) x00)
    by apply app_nth2_plus.
  assert (N2 : nth (length pre + 2) (pre ++ e ++ post) x00 = nth 2 (e ++ post) x00)
    by apply app_nth2_plus.
  rewrite N0, N1, N2. clear N0 N1 N2.
  rewrite skip_aux_entry, bam_aux_next_entry by assumption.
  pose proof (aux_entry_length e He) as Hlen.
  destruct e as [|a0 [|a1 [|t v]]]; cbn [length] in Hlen; try lia.
  cbn [app nth entry_has_key].
  destruct (Byte.eqb a0 k0 && Byte.eqb a1 k1); [|reflexivity].
  replace (length pre + length (a0 :: a1 :: t :: v) - 1)%nat
    with (length pre + (2 + length v))%nat by (cbn [length]; lia).
  rewrite app_nth2_plus.
  now rewrite (aux_entry_last_nul a0 a1 t v post He).
Qed.

Lemma aux_get_from_entries k0 k1 es :
  forall pre fuel,
    Forall aux_entry es ->
    (length es <= fuel)%nat ->
    aux_get_from fuel (pre ++ concat es) k0 k1
      (if (length (concat es) <=? 2)%nat then AuxEnd else AuxAt (length pre + 2))
    = option_map (fun n => (length pre + n + 2)%nat) (key_offset k0 k1 es).
Proof.
  induction es as [|e es IH]; intros pre fuel Hwf Hfuel.
  - cbn. destruct fuel; reflexivity.
  - inversion Hwf as [|? ? He Hrest]; subst.
    pose proof (concat_entries_length _ Hwf) as Hlen. cbn [length] in Hlen.
    replace (length (concat (e :: es)) <=? 2)%nat with false
      by (symmetry; apply Nat.leb_gt; lia).
    destruct fuel as [|fuel]; [cbn [length] in Hfuel; lia|].
    rewrite concat_cons, aux_get_from_step, key_offset_cons by assumption.
    destruct (entry_has_key k0 k1 e).
    + cbn [option_map]. f_equal. lia.
    + specialize (IH (pre ++ e) fuel Hrest ltac:(cbn [length] in Hfuel; lia)).
      rewrite <- app_assoc, length_app in IH. rewrite IH.
      destruct (key_offset k0 k1 es); cbn [option_map]; [f_equal; lia|reflexivity].
Qed.

Lemma bam_aux_get_entries k0 k1 es :
  Forall aux_entry es ->
  bam_aux_get (concat es) k0 k1
  = option_map (fun n => (n + 2)%nat) (key_offset k0 k1 es).
Proof.
  intros Hwf. unfold bam_aux_get, bam_aux_first.
  pose proof (aux_get_from_entries k0 k1 es [] (length (concat es)) Hwf) as H.
  cbn [app length Nat.add] in H. rewrite H.
  - destruct (key_offset k0 k1 es); reflexivity.
  - pose proof (concat_entries_length _ Hwf). lia.
Qed.

(** where the key is found, the entries split around the hit *)
Lemma key_offset_split k0 k1 es n :
  key_offset k0 k1 es = Some n ->
  exists es1 e es2,
    es = es1 ++ e :: es2 /\ n = length (concat es1)
    /\ entry_has_key k0 k1 e = true
    /\ Forall (fun x => entry_has_key k0 k1 x = false) es1
    /\ remove_first_key k0 k1 es = es1 ++ es2
    /\ List.find (entry_has_key k0 k1) es = Some e.
Proof.
  revert n. induction es as [|e es IH]; intros n H; [discriminate|].
  cbn [key_offset remove_first_key List.find] in *.
  destruct (entry_has_key k0 k1 e) eqn:K.
  - inversion H; subst. exists [], e, es. repeat split; auto.
  - destruct (key_offset k0 k1 es) as [m|] eqn:E; [|discriminate].
    inversion H; subst.
    destruct (IH m eq_refl) as (es1 & x & es2 & -> & -> & Kx & Hb & Hr & Hf).
    exists (e :: es1), x, es2. cbn [concat app]. rewrite length_app, Hr.
    repeat split; auto.
Qed.

Lemma key_offset_none k0 k1 es :
  key_offset k0 k1 es = None ->
  remove_first_key k0 k1 es = es /\ List.find (entry_has_key k0 k1) es = None.
Proof.
  induction es as [|e es IH]; intros H; [now split|].
  cbn [key_offset remove_first_key List.find] in *.
  destruct (entry_has_key k0 k1 e); [discriminate|].
  destruct (key_offset k0 k1 es); [discriminate|].
  destruct (IH eq_refl) as [-> ->]. now split.
Qed.

Lemma aux_tag_entries k0 k1 es :
  Forall aux_entry es ->
  aux_tag (concat es) k0 k1 = List.find (entry_has_key k0 k1) es.
Proof.
  intros Hwf. unfold aux_tag. rewrite bam_aux_get_entries by assumption.
  destruct (key_offset k0 k1 es) as [n|] eqn:E.
  - destruct (key_offset_split _ _ _ _ E) as (es1 & e & es2 & -> & -> & K & _ & _ & Hf).
    cbn [option_map]. rewrite concat_app, concat_cons.
    apply Forall_app in Hwf. destruct Hwf as [_ Hwf].
    inversion Hwf as [|? ? He _]; subst.
    rewrite skip_aux_entry by assumption.
    rewrite Nat.add_sub, Nat.add_comm, Nat.add_sub.
    rewrite drop_app_length, take_app_length. now rewrite Hf.
  - cbn [option_map]. now destruct (key_offset_none _ _ _ E) as [_ ->].
Qed.

Lemma aux_drop_entries b k0 k1 es :
  d_aux b = concat es ->
  Forall aux_entry es ->
  d_aux (aux_drop b k0 k1) = concat (remove_first_key k0 k1 es).
Proof.
  intros Hd Hwf. unfold aux_drop. rewrite Hd, bam_aux_get_entries by assumption.
  destruct (key_offset k0 k1 es) as [n|] eqn:E.
  - destruct (key_offset_split _ _ _ _ E) as (es1 & e & es2 & -> & -> & K & _ & Hr & _).
    cbn [option_map with_aux d_aux]. unfold bam_aux_del.
    rewrite concat_app, concat_cons.
    apply Forall_app in Hwf. destruct Hwf as [_ Hwf].
    inversion Hwf as [|? ? He _]; subst.
    rewrite skip_aux_entry by assumption.
    rewrite Nat.add_sub, take_app_length.
    rewrite drop_app_add, drop_app_length.
    now rewrite Hr, concat_app.
  - cbn [option_map]. destruct (key_offset_none _ _ _ E) as [-> _]. exact Hd.
Qed.

Lemma remove_first_key_wf k0 k1 es :
  Forall aux_entry es -> Forall aux_entry (remove_first_key k0 k1 es).
Proof.
  induction 1 as [|e es He Hes IH]; cbn [remove_first_key]; [constructor|].
  destruct (entry_has_key k0 k1 e); [assumption|now constructor].
Qed.

(** removing a tag leaves the tags with another key alone *)
Lemma remove_first_key_other k0 k1 c0 c1 es :
  (forall e, entry_has_key k0 k1 e = true -> entry_has_key c0 c1 e = false) ->
  List.filter (entry_has_key c0 c1) (remove_first_key k0 k1 es)
  = List.filter (entry_has_key c0 c1) es.
Proof.
  intros Hne. induction es as [|e es IH]; [reflexivity|].
  cbn [remove_first_key List.filter].
  destruct (entry_has_key k0 k1 e) eqn:K.
  - now rewrite (Hne e K).
  - cbn [List.filter]. now rewrite IH.
Qed.

Lemma find_filter (f : list byte -> bool) es :
  List.find f es = hd_error (List.filter f es).
Proof.
  induction es as [|e es IH]; [reflexivity|].
  cbn [List.find List.filter]. destruct (f e); [reflexivity|exact IH].
Qed.


Lemma list_byte_of_string_cons ch s :
  list_byte_of_string (String ch s) = byte_of_ascii ch :: list_byte_of_string s.
Proof. reflexivity. Qed.

Lemma uint_text_no_nul d :
  Forall (fun x => x <> x00) (list_byte_of_string (NilEmpty.string_of_uint d)).
Proof.
  induction d; cbn [NilEmpty.string_of_uint];
    [constructor | rewrite list_byte_of_string_cons; constructor;
                   [vm_compute; discriminate | assumption] ..].
Qed.

Lemma kputw_no_nul c : Forall (fun x => x <> x00) (kputw c).
Proof.
  unfold kputw. destruct (Z.to_int (sint32 c)) as [d|d];
    cbn [NilZero.string_of_int].
  - destruct d; try apply uint_text_no_nul.
    repeat constructor. vm_compute. discriminate.
  - rewrite list_byte_of_string_cons. constructor; [vm_compute; discriminate|].
    destruct d; try apply uint_text_no_nul.
    repeat constructor. vm_compute. discriminate.
Qed.

Lemma nth_Forall {A} (P : A -> Prop) l n d : Forall P l -> P d -> P (nth n l d).
Proof.
  intros Hl Hd. revert n. induction Hl; intros [|n]; cbn; auto.
Qed.

Lemma bam_cigar_opchr_no_nul c : bam_cigar_opchr c <> x00.
Proof.
  unfold bam_cigar_opchr.
  apply (nth_Forall (fun x => x <> x00)).
  - repeat (constructor; [vm_compute; discriminate|]). constructor.
  - discriminate.
Qed.

Lemma cigar_text_no_nul cigar : Forall (fun x => x <> x00) (cigar_text cigar).
Proof.
  unfold cigar_text. induction cigar as [|c rest IH]; cbn [flat_map]; [constructor|].
  apply Forall_app. split; [|exact IH].
  apply Forall_app. split; [apply kputw_no_nul|].
  constructor; [apply bam_cigar_opchr_no_nul|constructor].
Qed.

Lemma bam_format_cigar_no_nul b : Forall (fun x => x <> x00) (bam_format_cigar b).
Proof.
  unfold bam_format_cigar. destruct (n_cigar b =? 0).
  - constructor; [discriminate|constructor].
  - apply cigar_text_no_nul.
Qed.

Lemma bam_aux_append_entries b k0 k1 t data es :
  d_aux b = concat es ->
  d_aux (fst (bam_aux_append b k0 k1 t data)) = concat es
  \/ d_aux (fst (bam_aux_append b k0 k1 t data))
     = concat (es ++ [k0 :: k1 :: t :: data]).
Proof.
  intros Hd. unfold bam_aux_append. destruct (INT32_MAX <? _); cbn [fst].
  - now left.
  - right. cbn [with_aux d_aux]. rewrite Hd, concat_app. cbn [concat].
    now rewrite app_nil_r.
Qed.

Lemma mq_not_mc e : entry_has_key "M" "C" e = true -> entry_has_key "M" "Q" e = false.
Proof.
  destruct e as [|a [|b r]]; cbn [entry_has_key]; try discriminate.
  intros H. apply andb_true_iff in H. destruct H as [_ H].
  apply Byte.byte_dec_bl in H. subst b. apply andb_false_r.
Qed.

(** C10.  When the source record is unmapped, the mirroring step leaves
    the MQ tag of a destination with a well-formed tag stream as it was:
    the tag that [bam_aux_get] finds under "MQ" has the same bytes before
    and after (or is absent before and after), the resulting stream is
    again a sequence of well-formed entries whose MQ entries are those of
    the input, in order, and when the destination is unmapped too nothing
    at all changes.  (With a mapped destination only the MC tag is
    replaced.) *)
Theorem sync_mq_mc_unmapped_source src dest es :
  tst (fl src) BAM_FUNMAP = true ->
  d_aux dest = concat es ->
  Forall aux_entry es ->
  aux_tag (d_aux (sync_mq_mc src dest)) "M" "Q" = aux_tag (d_aux dest) "M" "Q"
  /\ (exists es',
        d_aux (sync_mq_mc src dest) = concat es'
        /\ Forall aux_entry es'
        /\ List.filter (entry_has_key "M" "Q") es'
           = List.filter (entry_has_key "M" "Q") es)
  /\ (tst (fl dest) BAM_FUNMAP = true -> sync_mq_mc src dest = dest).
Proof.
  intros Hsrc Hd Hwf.
  assert (Hex : exists es',
             d_aux (sync_mq_mc src dest) = concat es'
             /\ Forall aux_entry es'
             /\ List.filter (entry_has_key "M" "Q") es'
                = List.filter (entry_has_key "M" "Q") es).
  { unfold sync_mq_mc. rewrite Hsrc. cbn [negb orb].
    destruct (negb (tst (fl dest) BAM_FUNMAP)).
    - pose proof (aux_drop_entries dest "M" "C" es Hd Hwf) as Hdrop.
      pose proof (remove_first_key_wf "M" "C" es Hwf) as Hwf'.
      pose proof (remove_first_key_other "M" "C" "M" "Q" es mq_not_mc) as Hmq.
      destruct (bam_aux_append_entries (aux_drop dest "M" "C") "M" "C" "Z"
                  (bam_format_cigar src ++ [x00]) _ Hdrop) as [E|E].
      + eexists. split; [exact E|]. split; assumption.
      + eexists. split; [exact E|]. split.
        * apply Forall_app. split; [assumption|].
          constructor; [|constructor].
          apply aux_string; [now left|apply bam_format_cigar_no_nul].
        * rewrite List.filter_app, Hmq. cbn. apply app_nil_r.
    - exists es. repeat split; assumption. }
  split; [|split; [exact Hex|]].
  - destruct Hex as (es' & Hd' & Hwf' & Hf).
    rewrite Hd', Hd, !aux_tag_entries by assumption.
    now rewrite !find_filter, Hf.
  - intros Hdest. unfold sync_mq_mc. rewrite Hsrc. cbn [negb orb].
    rewrite Hdest. reflexivity.
Qed.


Lemma sync_mq_mc_unmapped_source_witness :
  let es := [list_byte_of_string "MCZ10M" ++ [x00];
             list_byte_of_string "MQi" ++ u32_bytes 20;
             list_byte_of_string "RGZg" ++ [x00]] in
  let src := sample_read "R1" BAM_FUNMAP 0 100 [] [] in
  let dest := sample_read "R1" 0 0 100 [cigar_op 50 BAM_CMATCH] (concat es) in
  aux_tag (d_aux (sync_mq_mc src dest)) "M" "Q"
  = Some (list_byte_of_string "MQi" ++ u32_bytes 20)
  /\ aux_tag (d_aux (sync_mq_mc src dest)) "M" "C"
     = Some (list_byte_of_string "MCZ*" ++ [x00]).
Proof.
  intros es src dest. split; [|vm_compute; reflexivity].
  destruct (sync_mq_mc_unmapped_source src dest es) as [H _].
  - reflexivity.
  - reflexivity.
  - constructor 2.
    { apply (aux_string "M" "C" "Z" (list_byte_of_string "10M")); [now left|].
      repeat (constructor 2; [discriminate|]). constructor 1. }
    constructor 2.
    { apply (aux_fixed "M" "Q" "i" (u32_bytes 20)); reflexivity. }
    constructor 2.
    { apply (aux_string "R" "G" "Z" (list_byte_of_string "g")); [now left|].
      repeat (constructor 2; [discriminate|]). constructor 1. }
    constructor 1.
  - rewrite H. vm_compute. reflexivity.
Defined.

(** ** C9: the proper-pair flag is never set *)

Lemma derived_refl x : derived x x.
Proof. unfold derived. tauto. Qed.

Lemma derived_trans x y z : derived x y -> derived y z -> derived x z.
Proof.
  unfold derived. intros (A1 & A2 & A3 & A4) (B1 & B2 & B3 & B4).
  repeat split; try congruence. auto.
Qed.

(** a change of anything but name, bases, qualities and flags *)
Lemma derived_same_flag x y :
  d_qname y = d_qname x -> d_seq y = d_seq x -> d_qual y = d_qual x ->
  fl y = fl x -> derived x y.
Proof. intros H1 H2 H3 H4. unfold derived, proper. rewrite H4. tauto. Qed.

Lemma derived_flag_or b m : Z.testbit m 1 = false -> derived b (flag_or b m).
Proof.
  intros Hm. unfold derived, proper. repeat split; try reflexivity.
  rewrite fl_flag_or, !tst_proper, Z.lor_spec, Hm, orb_false_r. auto.
Qed.

Lemma derived_flag_clear b m : derived b (flag_clear b m).
Proof.
  unfold derived, proper. repeat split; try reflexivity.
  rewrite fl_flag_clear, !tst_proper, Z.land_spec.
  intros H. now apply andb_true_iff in H.
Qed.

Lemma derived_trim_resize b cg : derived b (trim_resize b cg).
Proof.
  apply derived_same_flag;
    [apply trim_resize_qname|apply trim_resize_seq|apply trim_resize_qual
    |apply trim_resize_fl].
Qed.

Ltac derived_step :=
  first [ apply derived_refl
        | apply derived_flag_clear
        | apply derived_flag_or; reflexivity
        | apply derived_trim_resize
        | apply derived_same_flag; reflexivity ].

Lemma bam_trim_derived b end_ b' : bam_trim b end_ = Ok b' -> derived b b'.
Proof.
  unfold bam_trim. destruct (trim_find _ _ _ _) as [[i p]|].
  2:{ intros H. inversion H. apply derived_refl. }
  destruct (p - _ <? end_); [|destruct (p >? end_)];
    destruct (trim_tail _ _) as [nc| | | |]; try discriminate;
    cbn [rbind]; intros H; inversion H; subst b'.
  - derived_step.
  - eapply derived_trans; [apply (derived_flag_or b BAM_FUNMAP); reflexivity|].
    eapply derived_trans; [apply derived_flag_clear|]. derived_step.
  - derived_step.
Qed.

Lemma sanitize_aux_derived b b' : sanitize_aux b = Ok b' -> derived b b'.
Proof.
  unfold sanitize_aux. destruct (bam_aux_first _).
  - destruct (aux_filter_loop _ _ _ _) as [r| | | |]; try discriminate.
    cbn [rbind]. intros H. inversion H. derived_step.
  - intros H. inversion H. derived_step.
  - intros H. inversion H. derived_step.
Qed.

Lemma sanitize_pos_derived b flags : derived b (sanitize_pos b flags).
Proof.
  unfold sanitize_pos. destruct (_ && _); [|derived_step].
  destruct (tst flags FIX_UNMAP); [|derived_step].
  eapply derived_trans; [|apply derived_flag_or; reflexivity]. derived_step.
Qed.

Lemma sanitize_mapped_derived h b flags b' :
  sanitize_mapped h b flags = Ok b' -> derived b b'.
Proof.
  unfold sanitize_mapped.
  destruct (_ && _); [|intros H; inversion H; derived_step].
  destruct (_ && _); [intros H; inversion H; derived_step|].
  destruct (_ && _).
  - destruct (tst flags FIX_POS); intros H; inversion H.
    + eapply derived_trans; [apply (derived_flag_or b BAM_FUNMAP); reflexivity|].
      derived_step.
    + derived_step.
  - destruct (bam_endpos b >? _); [apply bam_trim_derived|].
    intros H; inversion H; derived_step.
Qed.

Lemma sanitize_unmapped_derived b flags b' :
  sanitize_unmapped b flags = Ok b' -> derived b b'.
Proof.
  unfold sanitize_unmapped. destruct (tst (fl b) BAM_FUNMAP).
  2:{ intros H; inversion H; derived_step. }
  assert (Hc : derived b (sanitize_cigar_qual b flags)).
  { unfold sanitize_cigar_qual.
    destruct (_ && _), (tst flags FIX_MQUAL); derived_step. }
  destruct (tst flags FIX_AUX).
  - intros H. apply sanitize_aux_derived in H. eapply derived_trans; eassumption.
  - intros H; inversion H; subst. exact Hc.
Qed.

Lemma bam_sanitize_derived h b flags b' :
  bam_sanitize h b flags = Ok b' -> derived b b'.
Proof.
  unfold bam_sanitize.
  destruct (sanitize_mapped h (sanitize_pos b flags) flags) as [b1| | | |] eqn:E;
    try discriminate.
  cbn [rbind]. intros H.
  eapply derived_trans; [apply sanitize_pos_derived|].
  eapply derived_trans; [eapply sanitize_mapped_derived; eassumption|].
  eapply sanitize_unmapped_derived; eassumption.
Qed.

Lemma aux_drop_derived b k0 k1 : derived b (aux_drop b k0 k1).
Proof. unfold aux_drop. destruct (bam_aux_get _ _ _); derived_step. Qed.

Lemma bam_aux_append_derived b k0 k1 t data :
  derived b (fst (bam_aux_append b k0 k1 t data)).
Proof. unfold bam_aux_append. destruct (INT32_MAX <? _); derived_step. Qed.

Lemma sync_mq_mc_derived src dest : derived dest (sync_mq_mc src dest).
Proof.
  unfold sync_mq_mc.
  repeat match goal with
         | |- context [if ?c then _ else _] => destruct c
         end;
    repeat first [ apply derived_refl
                 | eapply derived_trans; [|apply bam_aux_append_derived]
                 | eapply derived_trans; [|apply aux_drop_derived] ].
Qed.

Lemma sync_mate_inner_derived src dest : derived dest (sync_mate_inner src dest).
Proof.
  unfold sync_mate_inner.
  destruct (tst (fl src) BAM_FREVERSE), (tst (fl src) BAM_FUNMAP);
    repeat first [ apply derived_same_flag; reflexivity
                 | eapply derived_trans; [|apply derived_flag_or; reflexivity]
                 | eapply derived_trans; [|apply derived_flag_clear] ].
Qed.

Lemma sync_unmapped_pos_inner_derived src dest :
  derived dest (sync_unmapped_pos_inner src dest).
Proof. unfold sync_unmapped_pos_inner. destruct (_ && _); derived_step. Qed.

Lemma sync_mate_derived a b :
  derived a (fst (sync_mate a b)) /\ derived b (snd (sync_mate a b)).
Proof.
  unfold sync_mate. cbn [fst snd]. split.
  - eapply derived_trans; [apply sync_unmapped_pos_inner_derived|].
    eapply derived_trans; [apply sync_mate_inner_derived|].
    apply sync_mq_mc_derived.
  - eapply derived_trans; [apply sync_unmapped_pos_inner_derived|].
    eapply derived_trans; [apply sync_mate_inner_derived|].
    apply sync_mq_mc_derived.
Qed.

Lemma set_tlen_derived a b pe ce :
  derived a (fst (set_tlen a b pe ce)) /\ derived b (snd (set_tlen a b pe ce)).
Proof. unfold set_tlen. destruct (_ && _); split; derived_step. Qed.

Lemma pair_sync_derived pre cur pe ce :
  derived pre (fst (pair_sync pre cur pe ce))
  /\ derived cur (snd (pair_sync pre cur pe ce)).
Proof.
  unfold pair_sync.
  pose proof (sync_mate_derived (flag_or pre BAM_FPAIRED) (flag_or cur BAM_FPAIRED))
    as [Ha Hb].
  destruct (sync_mate _ _) as [a b]. cbn [fst snd] in Ha, Hb.
  destruct (set_tlen_derived a b pe ce) as [Ta Tb].
  split.
  - eapply derived_trans; [apply (derived_flag_or pre BAM_FPAIRED); reflexivity|].
    eapply derived_trans; eassumption.
  - eapply derived_trans; [apply (derived_flag_or cur BAM_FPAIRED); reflexivity|].
    eapply derived_trans; eassumption.
Qed.

Lemma add_mate_score_derived src dest dest' :
  add_mate_score src dest = Ok dest' -> derived dest dest'.
Proof.
  unfold add_mate_score. intros H.
  pose proof (bam_aux_append_derived (aux_drop dest "m" "s") "m" "s" "i"
                (u32_bytes (calc_mate_score src))) as Hd.
  destruct (bam_aux_append _ _ _ _ _) as [d rc]. cbn [fst] in Hd.
  destruct (rc =? -1); [discriminate|]. inversion H; subst dest'.
  eapply derived_trans; [apply aux_drop_derived|exact Hd].
Qed.

Lemma ct_write_derived b1 b2 :
  derived b1 (fst (ct_write b1 b2)) /\ derived b2 (snd (ct_write b1 b2)).
Proof.
  unfold ct_write. cbn [fst snd]. split.
  - eapply derived_trans; [apply aux_drop_derived|apply bam_aux_append_derived].
  - apply aux_drop_derived.
Qed.

Lemma bam_template_cigar_derived b1 b2 :
  derived b1 (fst (bam_template_cigar b1 b2))
  /\ derived b2 (snd (bam_template_cigar b1 b2)).
Proof.
  unfold bam_template_cigar.
  destruct (_ || _); [split; apply derived_refl|].
  destruct (pos (core b1) >? pos (core b2)).
  - pose proof (ct_write_derived b2 b1) as [H1 H2].
    destruct (ct_write b2 b1) as [lo hi]. cbn [fst snd] in *. split; assumption.
  - apply ct_write_derived.
Qed.

Lemma pair_finish_derived cfg pre cur pre' cur' :
  pair_finish cfg pre cur = Ok (pre', cur') ->
  derived pre pre' /\ derived cur cur'.
Proof.
  unfold pair_finish. intros H.
  set (p1 := if add_ct cfg then bam_template_cigar pre cur else (pre, cur)) in H.
  assert (F1 : derived pre (fst p1) /\ derived cur (snd p1)).
  { subst p1. destruct (add_ct cfg); [apply bam_template_cigar_derived|].
    split; apply derived_refl. }
  destruct p1 as [a1 b1]. cbn [fst snd] in F1. destruct F1 as [Fa1 Fb1].
  match type of H with
  | rbind ?r _ = _ => destruct r as [[a2 b2]| | | |] eqn:E2; try discriminate
  end.
  assert (F2 : derived a1 a2 /\ derived b1 b2).
  { destruct (proper_pair_check cfg).
    - destruct (plausibly_properly_paired a1 b1) as [ok| | | |]; try discriminate.
      cbn [rbind] in E2. destruct ok; cbn [negb] in E2; inversion E2; subst.
      + split; apply derived_refl.
      + split; apply derived_flag_clear.
    - inversion E2; subst. split; apply derived_refl. }
  destruct F2 as [Fa2 Fb2]. cbn [rbind] in H.
  match type of H with
  | rbind ?r _ = _ => destruct r as [[a3 b3]| | | |] eqn:E3; try discriminate
  end.
  assert (F3 : derived a2 a3 /\ derived b2 b3).
  { destruct (do_mate_scoring cfg).
    - cbn [fst snd] in E3.
      destruct (add_mate_score a2 b2) as [c'| | | |] eqn:S1; try discriminate.
      cbn [rbind] in E3.
      destruct (add_mate_score c' a2) as [p'| | | |] eqn:S2; try discriminate.
      cbn [rbind] in E3. inversion E3; subst.
      split; eauto using add_mate_score_derived.
    - inversion E3; subst. split; apply derived_refl. }
  destruct F3 as [Fa3 Fb3]. cbn [rbind] in H.
  assert (F4 : derived a3 pre' /\ derived b3 cur').
  { destruct (remove_reads cfg).
    - inversion H; subst. split.
      + destruct (tst (fl (if tst (fl a3) BAM_FUNMAP then _ else _)) BAM_FUNMAP);
          [apply derived_flag_clear|apply derived_refl].
      + destruct (tst (fl a3) BAM_FUNMAP);
          [apply derived_flag_clear|apply derived_refl].
    - inversion H; subst. split; apply derived_refl. }
  destruct F4. split; eauto using derived_trans.
Qed.

Lemma fix_pair_derived cfg pre cur pe ce pre' cur' :
  fix_pair cfg pre cur pe ce = Ok (pre', cur') ->
  derived pre pre' /\ derived cur cur'.
Proof.
  unfold fix_pair. intros H.
  pose proof (pair_sync_derived pre cur pe ce) as [Ha Hb].
  destruct (pair_sync pre cur pe ce) as [a b]. cbn [fst snd] in Ha, Hb.
  apply pair_finish_derived in H. destruct H.
  split; eapply derived_trans; eassumption.
Qed.

Lemma Forall2_derived_refl l : Forall2 derived l l.
Proof. induction l; constructor; auto using derived_refl. Qed.

Lemma Forall2_derived_trans l1 l2 l3 :
  Forall2 derived l1 l2 -> Forall2 derived l2 l3 -> Forall2 derived l1 l3.
Proof.
  intros H. revert l3. induction H as [|x y l1 l2 Hxy _ IH]; intros l3 H3;
    inversion H3; subst; constructor; eauto using derived_trans.
Qed.

(** overwriting slot [i] with a record derived from the source of slot [i] *)
Lemma Forall2_derived_insert l k i x :
  Forall2 derived l k -> derived (slot l i) x -> Forall2 derived l (<[i:=x]> k).
Proof.
  intros H. revert i. induction H as [|a b l k Hab Hlk IH]; intros i Hx.
  - constructor.
  - destruct i as [|i]; cbn.
    + constructor; assumption.
    + constructor; [assumption|]. apply IH. exact Hx.
Qed.

Lemma scan_step_derived cfg st n st' :
  scan_step cfg st n = Ok st' -> Forall2 derived (sc_b st) (sc_b st').
Proof.
  unfold scan_step.
  destruct (tst _ _); [intros H; inversion H; apply Forall2_derived_refl|].
  destruct (sc_prev st) as [prev|];
    [|intros H; inversion H; apply Forall2_derived_refl].
  destruct (fix_pair _ _ _ _ _) as [[a b]| | | |] eqn:E; try discriminate.
  cbn [rbind fst snd]. intros H. inversion H; subst. cbn [sc_b].
  apply fix_pair_derived in E. destruct E as [Ea Eb].
  apply Forall2_derived_insert; [|exact Eb].
  apply Forall2_derived_insert; [apply Forall2_derived_refl|exact Ea].
Qed.

Lemma scan_primaries_derived cfg ns st st' :
  scan_primaries cfg ns st = Ok st' -> Forall2 derived (sc_b st) (sc_b st').
Proof.
  revert st. induction ns as [|n ns IH]; intros st H; cbn in H.
  - inversion H. apply Forall2_derived_refl.
  - destruct (scan_step cfg st n) as [st1| | | |] eqn:E; try discriminate.
    cbn [rbind] in H.
    eapply Forall2_derived_trans; [eapply scan_step_derived; eassumption|].
    now apply IH.
Qed.

Lemma unpaired_fix_derived r : derived r (unpaired_fix r).
Proof.
  unfold unpaired_fix.
  eapply derived_trans; [|apply derived_flag_clear]. derived_step.
Qed.

Lemma fix_template_derived cfg b n b' :
  fix_template cfg b n = Ok b' -> Forall2 derived b b'.
Proof.
  unfold fix_template.
  destruct (scan_primaries cfg (seq 0 n) _) as [st| | | |] eqn:E; try discriminate.
  cbn [rbind]. apply scan_primaries_derived in E. cbn [sc_b] in E.
  unfold unpaired_cleanup. destruct (sc_curr st).
  - intros H. inversion H; subst. exact E.
  - destruct (sc_prev st) as [prev|]; [|discriminate].
    intros H. inversion H; subst.
    eapply Forall2_derived_trans; [exact E|].
    apply Forall2_derived_insert; [apply Forall2_derived_refl|].
    apply unpaired_fix_derived.
Qed.

(** what is written is a sub-sequence of the template, so it has a
    sub-sequence of sources *)
Lemma filter_sources (f : bam1_t -> bool) src l :
  Forall2 derived src l ->
  exists src', sublist src' src /\ Forall2 derived src' (List.filter f l).
Proof.
  induction 1 as [|x y src l Hxy Hl (src' & Hs & Hf)]; cbn [List.filter].
  - exists []. split; constructor.
  - destruct (f y).
    + exists (x :: src'). split; [now constructor|now constructor].
    + exists src'. split; [now constructor|assumption].
Qed.

(** *** Array slots and the batch reader *)

Lemma slot_insert_eq (l : list bam1_t) i x :
  (i < length l)%nat -> slot (<[i:=x]> l) i = x.
Proof.
  revert i. induction l as [|a l IH]; intros [|i] H; cbn in *; try lia; auto.
  apply IH. lia.
Qed.

Lemma slot_insert_ne (l : list bam1_t) i j x :
  i <> j -> slot (<[i:=x]> l) j = slot l j.
Proof.
  revert i j. induction l as [|a l IH]; intros [|i] [|j] H; cbn; try congruence; auto.
  apply IH. congruence.
Qed.

Lemma lookup_slot (l : list bam1_t) i :
  (i < length l)%nat -> l !! i = Some (slot l i).
Proof.
  revert i. induction l as [|a l IH]; intros [|i] H; cbn in *; try lia; auto.
  apply IH. lia.
Qed.

Lemma slot_take (l : list bam1_t) n i :
  (i < n)%nat -> slot (take n l) i = slot l i.
Proof.
  revert n i. induction l as [|a l IH]; intros [|n] [|i] H; cbn; try lia; auto.
  apply IH. lia.
Qed.

Lemma grow_b_array_app b n :
  exists ext, grow_b_array b n = b ++ ext /\ (n <= length (b ++ ext))%nat.
Proof.
  unfold grow_b_array. destruct (Nat.ltb_spec n (length b)).
  - exists []. rewrite app_nil_r. split; [reflexivity|lia].
  - eexists. split; [reflexivity|]. rewrite length_app, length_replicate. lia.
Qed.

(** overwriting a slot with a record derived from what the slot held *)
Lemma Forall2_derived_update l k i x :
  Forall2 derived l k -> derived (slot k i) x -> Forall2 derived l (<[i:=x]> k).
Proof.
  intros H. revert i. induction H as [|a b l k Hab Hlk IH]; intros i Hx.
  - constructor.
  - destruct i as [|i]; cbn.
    + constructor; [|assumption]. eapply derived_trans; eassumption.
    + constructor; [assumption|]. apply IH. exact Hx.
Qed.

Lemma or_minus2_ok {A} (r : result A) a : or_minus2 r = Ok a -> r = Ok a.
Proof. destruct r; cbn; congruence. Qed.

Lemma read_group_sources h f :
  forall inp b n src bs' inp',
    read_group h f inp b n = Ok (bs', inp') ->
    (1 <= n <= length b)%nat ->
    Forall2 derived src (take n b) ->
    exists consumed carry',
      stream_records inp = consumed ++ carry' ++ stream_records inp'
      /\ Forall2 derived (src ++ consumed) (take (bs_n bs') (bs_b bs'))
      /\ carry_inv bs' carry'.
Proof.
  induction inp as [|ev rest IH]; intros b n src bs' inp' H Hn Hsrc;
    cbn [read_group] in H;
    destruct (grow_b_array_app b (n + 1)) as (ext & Hg & Hlen);
    rewrite Hg in H.
  - (* end of stream *)
    destruct (or_minus2 _) as [b0| | | |] eqn:E; try discriminate.
    apply or_minus2_ok in E. apply bam_sanitize_derived in E.
    cbn [rbind] in H. inversion H; subst bs' inp'. clear H.
    exists [], []. cbn [bs_n bs_b app stream_records]. rewrite app_nil_r.
    split; [reflexivity|]. split; [|reflexivity].
    rewrite take_insert_lt by lia. rewrite take_app_le by lia.
    apply Forall2_derived_update; [assumption|].
    rewrite slot_take by lia. now rewrite slot_app_l in E by lia.
  - destruct ev as [r|k]; [|discriminate].
    destruct (or_minus2 _) as [b0| | | |] eqn:E; try discriminate.
    apply or_minus2_ok in E. apply bam_sanitize_derived in E.
    cbn [rbind] in H.
    rewrite slot_insert_ne, slot_app_l in E by lia.
    set (b3 := <[O:=b0]> (<[n:=r]> (b ++ ext))) in *.
    assert (Hlen3 : length b3 = length (b ++ ext))
      by (subst b3; now rewrite !length_insert).
    assert (Htake : Forall2 derived src (take n b3)).
    { subst b3. rewrite take_insert_lt by lia.
      rewrite take_insert. destruct (decide (n < n)%nat); [lia|].
      rewrite take_app_le by lia.
      apply Forall2_derived_update; [assumption|].
      now rewrite slot_take by lia. }
    assert (Hslot : slot b3 n = r).
    { subst b3. rewrite slot_insert_ne by lia. apply slot_insert_eq. lia. }
    destruct (reallocated _ _); [discriminate|].
    destruct (strcmp_ne _ (d_qname (slot b3 n))).
    + inversion H; subst bs' inp'. clear H.
      exists [], [r]. cbn [bs_n bs_b app stream_records]. rewrite app_nil_r.
      split; [reflexivity|]. split; [assumption|].
      unfold carry_inv. cbn [bs_next bs_b]. split; [lia|].
      exists r. split; [reflexivity|]. rewrite Hslot. apply derived_refl.
    + destruct (IH b3 (S n) (src ++ [r]) bs' inp' H ltac:(lia))
        as (consumed & carry' & Hs & Hf & Hc).
      { rewrite (take_S_r b3 n r) by (rewrite lookup_slot by lia; now f_equal).
        apply Forall2_app; [assumption|].
        constructor; [apply derived_refl|constructor]. }
      exists (r :: consumed), carry'. cbn [stream_records app].
      split; [now rewrite Hs|]. split; [|assumption].
      now rewrite <- app_assoc in Hf.
Qed.

Lemma next_template_sources h f bs inp carry bs' inp' :
  next_template h f bs inp = Ok (bs', inp') ->
  carry_inv bs carry ->
  exists grp carry',
    carry ++ stream_records inp = grp ++ carry' ++ stream_records inp'
    /\ Forall2 derived grp (take (bs_n bs') (bs_b bs'))
    /\ carry_inv bs' carry'.
Proof.
  unfold next_template, carry_inv. intros H Hc.
  destruct (bs_eof bs); [discriminate|].
  destruct (bs_next bs) as [k|].
  - (* the record read ahead moves to slot 0 *)
    destruct Hc as (Hk & c & -> & Hd). cbn [rbind] in H.
    set (b1 := <[k:=slot (bs_b bs) 0]> (<[O:=slot (bs_b bs) k]> (bs_b bs))) in *.
    assert (Hlen : length b1 = length (bs_b bs))
      by (subst b1; now rewrite !length_insert).
    destruct (read_group_sources h f inp b1 1 [c] bs' inp' H ltac:(lia))
      as (consumed & carry' & Hs & Hf & Hc').
    { subst b1. destruct (bs_b bs) as [|x l]; [cbn in Hk; lia|].
      destruct k as [|k]; [lia|]. cbn.
      constructor; [exact Hd|constructor]. }
    exists (c :: consumed), carry'. cbn [app]. rewrite Hs.
    split; [reflexivity|]. split; assumption.
  - (* first call: decode into slot 0 and sanitize it *)
    subst carry.
    destruct inp as [|[r|k] rest]; try discriminate.
    destruct (or_minus2 _) as [b0| | | |] eqn:E; try discriminate.
    apply or_minus2_ok in E. apply bam_sanitize_derived in E.
    cbn [rbind] in H.
    destruct (grow_b_array_app (bs_b bs) 1) as (ext & Hg & Hlen).
    rewrite Hg in H.
    destruct (read_group_sources h f rest _ 1 [r] bs' inp' H) as
      (consumed & carry' & Hs & Hf & Hc').
    { rewrite length_insert. lia. }
    { destruct (bs_b bs ++ ext) as [|x l]; [cbn in Hlen; lia|]. cbn.
      constructor; [exact E|constructor]. }
    exists (r :: consumed), carry'. cbn [app stream_records]. rewrite Hs.
    split; [reflexivity|]. split; assumption.
Qed.

Lemma Forall2_derived_slot l k i :
  Forall2 derived l k -> derived (slot l i) (slot k i).
Proof.
  intros H. revert i. induction H; intros [|i]; cbn; auto using derived_refl.
  apply IHForall2.
Qed.

Lemma mating_loop_sources cfg h :
  forall fuel inp bs out carry,
    carry_inv bs carry ->
    exists new ins,
      fst (mating_loop fuel cfg h inp bs out) = out ++ new
      /\ sublist ins (carry ++ stream_records inp)
      /\ Forall2 derived ins new.
Proof.
  assert (Hnone : forall (out : list bam1_t) (l : list bam1_t),
             exists new ins : list bam1_t,
               out = out ++ new /\ sublist ins l /\ Forall2 derived ins new).
  { intros out l. exists [], []. rewrite app_nil_r.
    split; [reflexivity|]. split; [apply sublist_nil_l|constructor]. }
  induction fuel as [|fuel IH]; intros inp bs out carry Hc;
    cbn [mating_loop]; [apply Hnone|].
  destruct (next_template h (sanitize_flags cfg) bs inp) as [[bs' inp']| | | |] eqn:E;
    cbn [fst]; try apply Hnone.
  destruct (next_template_sources _ _ _ _ _ _ _ E Hc)
    as (grp & carry' & Hs & Hg & Hc').
  destruct (fix_template cfg (bs_b bs') (bs_n bs')) as [b2| | | |] eqn:F;
    cbn [fst]; try apply Hnone.
  apply fix_template_derived in F.
  assert (Hc2 : carry_inv (mk_set b2 (bs_n bs') (bs_next bs') (bs_eof bs')) carry').
  { unfold carry_inv in *. cbn [bs_next bs_b].
    destruct (bs_next bs') as [k|]; [|assumption].
    destruct Hc' as (Hk & c & -> & Hd).
    rewrite <- (Forall2_length _ _ _ F). split; [assumption|].
    exists c. split; [reflexivity|].
    eapply derived_trans; [exact Hd|]. now apply Forall2_derived_slot. }
  destruct (IH inp' _ (out ++ written cfg b2 (bs_n bs')) carry' Hc2)
    as (new & ins & Hout & Hsub & Hder).
  assert (Hgrp : Forall2 derived grp (take (bs_n bs') b2))
    by (eapply Forall2_derived_trans; [exact Hg|now apply Forall2_take]).
  destruct (filter_sources
              (fun r => negb (remove_reads cfg
                              && tst (fl r) (Z.lor BAM_FSECONDARY BAM_FUNMAP)))
              _ _ Hgrp) as (ins1 & Hsub1 & Hder1).
  exists (written cfg b2 (bs_n bs') ++ new), (ins1 ++ ins).
  split; [now rewrite Hout, app_assoc|]. split.
  - rewrite Hs. now apply sublist_app.
  - now apply Forall2_app.
Qed.

Lemma proper_unpaired_fix r : proper (unpaired_fix r) = false.
Proof.
  unfold proper, unpaired_fix. rewrite tst_proper, fl_flag_clear.
  rewrite testbit_clear_pair_flags by lia. apply andb_false_r.
Qed.

(** C9.  The core never sets the proper-pair flag.  For every
    configuration, header and input stream, the records written (also by a
    run that ends in an error) correspond one to one, in order, to a
    sub-sequence of the records the stream delivers: same name, bases and
    qualities, and the proper-pair flag set in the written record only if
    it was set in the input record.  The flag is only ever cleared by the
    steps that touch it: the sanitizer with its CIGAR trim, the fix-ups of
    a primary pair (implausible-pair check, removal fix-up), and the
    unpaired-primary clean-up. *)
Theorem proper_pair_only_cleared :
  (forall cfg h inp,
      exists ins,
        sublist ins (stream_records inp)
        /\ Forall2 (fun i o =>
                      d_qname o = d_qname i /\ d_seq o = d_seq i
                      /\ d_qual o = d_qual i
                      /\ (tst (fl o) BAM_FPROPER_PAIR = true ->
                          tst (fl i) BAM_FPROPER_PAIR = true))
                   ins (fst (bam_mating_core cfg h inp)))
  /\ (forall h b flags b',
        bam_sanitize h b flags = Ok b' ->
        tst (fl b') BAM_FPROPER_PAIR = true -> tst (fl b) BAM_FPROPER_PAIR = true)
  /\ (forall b end_ b',
        bam_trim b end_ = Ok b' ->
        tst (fl b') BAM_FPROPER_PAIR = true -> tst (fl b) BAM_FPROPER_PAIR = true)
  /\ (forall cfg pre cur pre_end cur_end pre' cur',
        fix_pair cfg pre cur pre_end cur_end = Ok (pre', cur') ->
        (tst (fl pre') BAM_FPROPER_PAIR = true -> tst (fl pre) BAM_FPROPER_PAIR = true)
        /\ (tst (fl cur') BAM_FPROPER_PAIR = true ->
            tst (fl cur) BAM_FPROPER_PAIR = true))
  /\ (forall r, tst (fl (unpaired_fix r)) BAM_FPROPER_PAIR = false).
Proof.
  split; [|split; [|split; [|split]]].
  - intros cfg h inp. unfold bam_mating_core.
    destruct (mating_loop_sources cfg h (length inp + 2) inp
                (mk_set [] 0 None false) [] [] eq_refl)
      as (new & ins & Hout & Hsub & Hder).
    cbn [app] in Hout, Hsub. rewrite Hout. exists ins. split; assumption.
  - intros h b flags b' H. apply bam_sanitize_derived in H. apply H.
  - intros b end_ b' H. apply bam_trim_derived in H. apply H.
  - intros cfg pre cur pe ce pre' cur' H. apply fix_pair_derived in H.
    destruct H as [Ha Hb]. split; [apply Ha|apply Hb].
  - exact proper_unpaired_fix.
Qed.


(** a proper FR pair keeps its proper-pair flags through the program *)
Example proper_pair_kept :
  map (fun r => tst (fl r) BAM_FPROPER_PAIR)
      (fst (bam_mating_core default_config [1000]
              [RdRec (sample_read "R1" 3 0 100 [cigar_op 50 BAM_CMATCH] []);
               RdRec (sample_read "R1" 19 0 300 [cigar_op 50 BAM_CMATCH] [])]))
  = [true; true].
Proof. vm_compute. reflexivity. Qed.

(** ** The bounds given to the loops of the model suffice *)

Lemma nul_index_lt l k : nul_index l = Some k -> (k < length l)%nat.
Proof.
  revert k. induction l as [|x l IH]; intros k H; cbn in H; [discriminate|].
  destruct (Byte.eqb x x00).
  - inversion H. cbn. lia.
  - destruct (nul_index l) as [m|]; [|discriminate].
    inversion H. specialize (IH m eq_refl). cbn. lia.
Qed.

(** [skip_aux] moves forward and stays inside the record *)
Lemma skip_aux_bounds d s e :
  (s < length d)%nat -> skip_aux d s = Some e -> (s < e <= length d)%nat.
Proof.
  intros Hs. unfold skip_aux.
  replace (length d <=? s)%nat with false by (symmetry; apply Nat.leb_gt; lia).
  set (size := aux_type2size (nth s d x00)).
  destruct ((size =? byteZ "Z") || (size =? byteZ "H")).
  - destruct (nul_index (drop (S s) d)) as [k|] eqn:E; intros H; inversion H; [|lia].
    apply nul_index_lt in E. rewrite length_drop in E. lia.
  - destruct (size =? byteZ "B").
    + destruct (_ <? 5) eqn:E5; [discriminate|].
      destruct ((_ =? 0) || _) eqn:E0; [discriminate|].
      intros H. inversion H. apply orb_false_iff in E0. destruct E0 as [_ E0].
      apply Z.ltb_ge in E0. apply Z.ltb_ge in E5.
      assert (0 <= u32 (aux_type2size (nth (S s) d x00) * le_to_u32 d (S (S s))))
        by (unfold u32; apply Z.mod_pos_bound; lia).
      lia.
    + destruct (size =? 0) eqn:E0; [discriminate|].
      destruct (_ <? size) eqn:E; [discriminate|].
      intros H. inversion H. apply Z.ltb_ge in E. apply Z.eqb_neq in E0.
      assert (0 <= size) by (subst size; destruct (nth s d x00); cbn; lia).
      lia.
Qed.

Lemma bam_aux_next_bounds d s nx :
  (s < length d)%nat -> bam_aux_next d s = AuxAt nx -> (s + 2 < nx < length d)%nat.
Proof.
  intros Hs. unfold bam_aux_next.
  destruct (skip_aux d s) as [e|] eqn:E; [|discriminate].
  apply skip_aux_bounds in E; [|assumption].
  destruct (_ <=? 2) eqn:E2; [discriminate|]. apply Z.leb_gt in E2.
  intros H. inversion H. lia.
Qed.

Lemma length_memmove d dst src len :
  (dst <= src)%nat -> (src + len <= length d)%nat ->
  length (memmove d dst src len) = length d.
Proof.
  intros H1 H2. unfold memmove.
  rewrite !length_app, !length_take, !length_drop. lia.
Qed.

Lemma aux_filter_loop_fueled :
  forall fuel d from to,
    (to + 2 <= from)%nat -> (from < length d)%nat ->
    (length d - from < fuel)%nat ->
    fueled (aux_filter_loop fuel d from to).
Proof.
  unfold fueled.
  induction fuel as [|fuel IH]; intros d from to Hto Hfrom Hfuel; [lia|].
  cbn [aux_filter_loop].
  destruct (bam_aux_next d from) as [nx| |] eqn:E; [| |discriminate].
  - apply bam_aux_next_bounds in E; [|assumption].
    destruct (negb _ && negb _ && negb _ && negb _).
    + destruct (Nat.eqb_spec (from - 2) to) as [Eq|Ne].
      * apply IH; lia.
      * apply IH; [lia| |]; rewrite length_memmove by lia; lia.
    + apply IH; lia.
  - destruct (negb _ && negb _ && negb _ && negb _); discriminate.
Qed.

Lemma sanitize_aux_fueled b : fueled (sanitize_aux b).
Proof.
  unfold sanitize_aux, bam_aux_first.
  destruct (Nat.leb_spec (length (d_aux b)) 2) as [Hle|Hgt]; [discriminate|].
  pose proof (aux_filter_loop_fueled (length (d_aux b)) (d_aux b) 2 (2 - 2)
                ltac:(cbn; lia) ltac:(lia) ltac:(lia)) as Hloop.
  unfold fueled in *.
  destruct (aux_filter_loop _ _ _ _); cbn [rbind]; congruence.
Qed.

Lemma rbind_fueled {A B} (r : result A) (k : A -> result B) :
  fueled r -> (forall a, r = Ok a -> fueled (k a)) -> fueled (rbind r k).
Proof.
  unfold fueled. intros Hr Hk. destruct r; cbn [rbind]; try discriminate; auto.
Qed.

Lemma trim_tail_fueled rest nc : fueled (trim_tail rest nc).
Proof.
  revert nc. induction rest as [|c rest IH]; intros nc; cbn [trim_tail].
  - discriminate.
  - destruct (_ =? _); [apply IH|]. destruct (rev nc); [discriminate|apply IH].
Qed.

Lemma bam_trim_fueled b end_ : fueled (bam_trim b end_).
Proof.
  unfold bam_trim. destruct (trim_find _ _ _ _) as [[i p]|]; [|discriminate].
  destruct (_ <? end_); [|destruct (_ >? end_)];
    (apply rbind_fueled; [apply trim_tail_fueled|discriminate]).
Qed.

Lemma bam_sanitize_fueled h b flags : fueled (bam_sanitize h b flags).
Proof.
  unfold bam_sanitize. apply rbind_fueled.
  - unfold sanitize_mapped.
    repeat match goal with
           | |- fueled (if ?c then _ else _) => destruct c
           end; try discriminate. apply bam_trim_fueled.
  - intros b1 _. unfold sanitize_unmapped.
    repeat match goal with
           | |- fueled (if ?c then _ else _) => destruct c
           end; try discriminate. apply sanitize_aux_fueled.
Qed.

Lemma or_minus2_fueled {A} (r : result A) : fueled r -> fueled (or_minus2 r).
Proof. unfold fueled. destruct r; cbn; congruence. Qed.

Lemma read_group_fueled h f inp :
  forall b n, fueled (read_group h f inp b n).
Proof.
  induction inp as [|[r|k] rest IH]; intros b n; cbn [read_group].
  - apply rbind_fueled; [apply or_minus2_fueled, bam_sanitize_fueled|discriminate].
  - apply rbind_fueled; [apply or_minus2_fueled, bam_sanitize_fueled|].
    intros b0 _. destruct (reallocated _ _); [discriminate|].
    destruct (strcmp_ne _ _); [discriminate|apply IH].
  - discriminate.
Qed.

Lemma next_template_fueled h f bs inp : fueled (next_template h f bs inp).
Proof.
  unfold next_template. destruct (bs_eof bs); [discriminate|].
  apply rbind_fueled.
  - destruct (bs_next bs); [discriminate|].
    destruct inp as [|[r|k] rest]; try discriminate.
    apply rbind_fueled; [apply or_minus2_fueled, bam_sanitize_fueled|discriminate].
  - intros [b inp1] _. apply read_group_fueled.
Qed.

Lemma fix_pair_fueled cfg pre cur pe ce : fueled (fix_pair cfg pre cur pe ce).
Proof.
  unfold fix_pair. destruct (pair_sync pre cur pe ce) as [a b].
  unfold pair_finish. destruct (if add_ct cfg then _ else _) as [a1 b1].
  apply rbind_fueled.
  - destruct (proper_pair_check cfg); [|discriminate].
    apply rbind_fueled.
    + unfold plausibly_properly_paired.
      repeat match goal with
             | |- fueled (if ?c then _ else _) => destruct c
             | |- fueled (let '(_, _) := ?c in _) => destruct c
             end; discriminate.
    + intros ok _. destruct (negb ok); discriminate.
  - intros pc _. apply rbind_fueled.
    + destruct (do_mate_scoring cfg); [|discriminate].
      assert (Hs : forall s d, fueled (add_mate_score s d)).
      { intros s d. unfold add_mate_score.
        destruct (bam_aux_append _ _ _ _ _) as [d' rc].
        destruct (rc =? -1); discriminate. }
      apply rbind_fueled; [apply Hs|]. intros c' _.
      apply rbind_fueled; [apply Hs|discriminate].
    + intros [a3 b3] _. destruct (remove_reads cfg); discriminate.
Qed.

Lemma fix_template_fueled cfg b n : fueled (fix_template cfg b n).
Proof.
  unfold fix_template. apply rbind_fueled.
  - generalize (mk_scan b None None 0). generalize (seq 0 n).
    induction l as [|k l IH]; intros st; cbn [scan_primaries]; [discriminate|].
    apply rbind_fueled; [|intros; apply IH].
    unfold scan_step. destruct (tst _ _); [discriminate|].
    destruct (sc_prev st); [|discriminate].
    apply rbind_fueled; [apply fix_pair_fueled|discriminate].
  - intros st _. unfold unpaired_cleanup.
    destruct (sc_curr st); [discriminate|]. destruct (sc_prev st); discriminate.
Qed.

(** every turn of the main loop uses up an event of the stream or meets
    its end *)
Lemma read_group_progress h f inp :
  forall b n bs' inp',
    read_group h f inp b n = Ok (bs', inp') ->
    (length inp' + (if bs_eof bs' then 0 else 1) <= length inp)%nat.
Proof.
  induction inp as [|[r|k] rest IH]; intros b n bs' inp' H; cbn [read_group] in H.
  - destruct (or_minus2 _); try discriminate. cbn [rbind] in H.
    inversion H; subst. cbn. lia.
  - destruct (or_minus2 _); try discriminate. cbn [rbind] in H.
    destruct (reallocated _ _); [discriminate|].
    destruct (strcmp_ne _ _).
    + inversion H; subst. cbn. lia.
    + apply IH in H. cbn [length]. lia.
  - discriminate.
Qed.

Lemma next_template_progress h f bs inp bs' inp' :
  next_template h f bs inp = Ok (bs', inp') ->
  bs_eof bs = false
  /\ (length inp' + (if bs_eof bs' then 0 else 1) <= length inp)%nat.
Proof.
  unfold next_template. destruct (bs_eof bs); [discriminate|].
  intros H. split; [reflexivity|].
  destruct (bs_next bs).
  - cbn [rbind] in H. now apply read_group_progress in H.
  - destruct inp as [|[r|k] rest]; try discriminate.
    destruct (or_minus2 _); try discriminate. cbn [rbind] in H.
    apply read_group_progress in H. cbn [length]. lia.
Qed.

Lemma mating_loop_fueled cfg h :
  forall fuel inp bs out,
    (length inp + (if bs_eof bs then 0 else 1) < fuel)%nat ->
    fueled (snd (mating_loop fuel cfg h inp bs out)).
Proof.
  induction fuel as [|fuel IH]; intros inp bs out Hfuel; [lia|].
  cbn [mating_loop].
  pose proof (next_template_fueled h (sanitize_flags cfg) bs inp) as Hn.
  destruct (next_template h (sanitize_flags cfg) bs inp) as [[bs' inp']|c| | |] eqn:E;
    cbn [snd]; try discriminate.
  - apply next_template_progress in E. destruct E as [Eeof Hprog].
    rewrite Eeof in Hfuel.
    pose proof (fix_template_fueled cfg (bs_b bs') (bs_n bs')) as Hf.
    destruct (fix_template cfg (bs_b bs') (bs_n bs')); cbn [snd]; try discriminate.
    + apply IH. cbn [bs_eof]. lia.
    + exfalso. now apply Hf.
  - destruct (c <? -1); discriminate.
  - exfalso. now apply Hn.
Qed.

(** The run over a whole stream ends in a program outcome: a return, an
    error return, undefined behaviour or a failed assertion. *)
Theorem bam_mating_core_fueled cfg h inp :
  fueled (snd (bam_mating_core cfg h inp)).
Proof. unfold bam_mating_core. apply mating_loop_fueled. cbn [bs_eof]. lia. Qed.

(** more fuel than the length of the stream does not change what
    [bam_aux_get] finds *)
Lemma aux_get_from_more_fuel d k0 k1 extra :
  forall fuel it,
    match it with
    | AuxAt s => (s < length d)%nat /\ (length d - s < fuel)%nat
    | _ => True
    end ->
    aux_get_from (fuel + extra) d k0 k1 it = aux_get_from fuel d k0 k1 it.
Proof.
  induction fuel as [|fuel IH]; intros it Hit.
  - destruct it as [s| |]; [lia| |]; destruct extra; reflexivity.
  - destruct it as [s| |]; [|reflexivity..].
    destruct Hit as [Hs Hfuel]. cbn [Nat.add aux_get_from].
    destruct (_ && _); [reflexivity|].
    apply IH. destruct (bam_aux_next d s) as [nx| |] eqn:E; [|exact I..].
    apply bam_aux_next_bounds in E; [|assumption]. lia.
Qed.

Lemma bam_aux_get_more_fuel d k0 k1 extra :
  aux_get_from (length d + extra) d k0 k1 (bam_aux_first d) = bam_aux_get d k0 k1.
Proof.
  unfold bam_aux_get. apply aux_get_from_more_fuel.
  unfold bam_aux_first. destruct (Nat.leb_spec (length d) 2); [exact I|lia].
Qed.

(** * Further properties *)

(** ** bam_sanitize_options: the keyword parser *)

Lemma skip_commas_length s : (length (skip_commas s) <= length s)%nat.
Proof.
  induction s as [|x r IH]; simpl; [lia|].
  destruct (Byte.eqb x ","); simpl; lia.
Qed.

Lemma skip_word_length s : (length (skip_word s) <= length s)%nat.
Proof.
  induction s as [|x r IH]; simpl; [lia|].
  destruct (Byte.eqb x ","); simpl; lia.
Qed.

Lemma byte_eqb_eq x y : Byte.eqb x y = true <-> x = y.
Proof.
  split.
  - apply Byte.byte_dec_bl.
  - apply Byte.byte_dec_lb.
Qed.

Lemma byte_eqb_neq x y : Byte.eqb x y = false <-> x <> y.
Proof.
  split.
  - intros H E. apply byte_eqb_eq in E. congruence.
  - intros H. destruct (Byte.eqb x y) eqn:E; [|reflexivity].
    apply byte_eqb_eq in E. contradiction.
Qed.

(** a recognised keyword is not empty, so the scan to the next comma moves *)
Lemma sanitize_keyword_nonempty opt s v :
  sanitize_keyword opt s = Some v -> s <> [].
Proof. intros H E. subst s. discriminate H. Qed.

Lemma skip_commas_head s x r :
  skip_commas s = x :: r -> x <> ","%byte.
Proof.
  induction s as [|y t IH]; simpl; [discriminate|].
  destruct (Byte.eqb y ",") eqn:E; [exact IH|].
  intros [= -> ->]. now apply byte_eqb_neq.
Qed.

Lemma skip_word_after_commas s :
  skip_commas s <> [] ->
  (length (skip_word (skip_commas s)) < length s)%nat.
Proof.
  intros Hne.
  destruct (skip_commas s) as [|x r] eqn:E; [contradiction|].
  pose proof (skip_commas_head _ _ _ E) as Hx.
  pose proof (skip_commas_length s) as Hl. rewrite E in Hl. simpl in Hl.
  simpl. apply byte_eqb_neq in Hx. rewrite Hx.
  pose proof (skip_word_length r). lia.
Qed.

Lemma sanitize_options_loop_S fuel opt x r :
  sanitize_options_loop (S fuel) opt (x :: r)
  = match sanitize_keyword opt (skip_commas (x :: r)) with
    | Some v => sanitize_options_loop fuel v (skip_word (skip_commas (x :: r)))
    | None => Err (-1)
    end.
Proof. reflexivity. Qed.

Lemma sanitize_options_loop_more fuel :
  forall opt s extra,
    (length s < fuel)%nat ->
    sanitize_options_loop (fuel + extra) opt s = sanitize_options_loop fuel opt s.
Proof.
  induction fuel as [|fuel IH]; intros opt s extra Hl; [lia|].
  destruct s as [|x r]; [reflexivity|].
  rewrite Nat.add_succ_l, !sanitize_options_loop_S.
  destruct (sanitize_keyword opt (skip_commas (x :: r))) as [v|] eqn:K;
    [|reflexivity].
  apply IH.
  pose proof (skip_word_after_commas (x :: r)
                (sanitize_keyword_nonempty _ _ _ K)) as H.
  cbn [length] in Hl, H. lia.
Qed.

Lemma sanitize_options_from_step opt x r :
  sanitize_options_from opt (x :: r)
  = match sanitize_keyword opt (skip_commas (x :: r)) with
    | Some v => sanitize_options_from v (skip_word (skip_commas (x :: r)))
    | None => Err (-1)
    end.
Proof.
  unfold sanitize_options_from.
  rewrite sanitize_options_loop_S.
  destruct (sanitize_keyword opt (skip_commas (x :: r))) as [v|] eqn:K;
    [|reflexivity].
  pose proof (skip_word_after_commas (x :: r)
                (sanitize_keyword_nonempty _ _ _ K)) as Hl.
  set (w := skip_word (skip_commas (x :: r))) in *.
  replace (length (x :: r)) with (S (length w) + (length (x :: r) - S (length w)))%nat
    by lia.
  apply sanitize_options_loop_more. lia.
Qed.

Lemma sanitize_options_from_nil opt : sanitize_options_from opt [] = Ok opt.
Proof. reflexivity. Qed.

(** induction along the turns of the loop *)
Lemma sanitize_options_from_ind (P : Z -> list byte -> result Z -> Prop) :
  (forall opt, P opt [] (Ok opt)) ->
  (forall opt x r,
      sanitize_keyword opt (skip_commas (x :: r)) = None ->
      P opt (x :: r) (Err (-1))) ->
  (forall opt x r v,
      sanitize_keyword opt (skip_commas (x :: r)) = Some v ->
      (length (skip_word (skip_commas (x :: r))) < length (x :: r))%nat ->
      P v (skip_word (skip_commas (x :: r)))
        (sanitize_options_from v (skip_word (skip_commas (x :: r)))) ->
      P opt (x :: r) (sanitize_options_from v (skip_word (skip_commas (x :: r))))) ->
  forall opt s, P opt s (sanitize_options_from opt s).
Proof.
  intros Hnil Hbad Hstep opt s.
  remember (length s) as n eqn:Hn.
  revert opt s Hn.
  induction n as [n IH] using lt_wf_ind; intros opt s Hn.
  destruct s as [|x r]; [apply Hnil|].
  rewrite sanitize_options_from_step.
  destruct (sanitize_keyword opt (skip_commas (x :: r))) as [v|] eqn:K.
  - pose proof (skip_word_after_commas (x :: r)
                  (sanitize_keyword_nonempty _ _ _ K)) as Hl.
    apply Hstep; [exact K | exact Hl |].
    eapply IH; [|reflexivity]. lia.
  - now apply Hbad.
Qed.

Lemma cstr_id s : Forall (fun x => x <> x00) s -> cstr s = s.
Proof.
  induction 1 as [|x r Hx _ IH]; [reflexivity|].
  cbn [cstr]. apply byte_eqb_neq in Hx. rewrite Hx. now rewrite IH.
Qed.

Lemma option_mask_lor v m :
  Z.land m FIX_CATEGORIES = m -> option_mask v -> option_mask (Z.lor v m).
Proof.
  intros Hm [->|Hv].
  - left. unfold FIX_ALL.
    apply Z.bits_inj'. intros n Hn. rewrite Z.lor_spec.
    rewrite <- Hm, Z.land_spec.
    destruct (Z_lt_dec n 8) as [Hlt|Hge].
    + assert (n = 0 \/ n = 1 \/ n = 2 \/ n = 3 \/ n = 4 \/ n = 5 \/ n = 6 \/ n = 7)
        as Hc by lia.
      destruct Hc as [->|[->|[->|[->|[->|[->|[->| ->]]]]]]]; reflexivity.
    + replace (Z.testbit 255 n) with false.
      2:{ symmetry. change 255 with (Z.ones 8). apply Z.ones_spec_high. lia. }
      replace (Z.testbit FIX_CATEGORIES n) with false.
      2:{ symmetry. apply Z.bits_above_log2; [vm_compute; discriminate|].
          change (Z.log2 FIX_CATEGORIES) with 5. lia. }
      now rewrite andb_false_r.
  - right. rewrite Z.land_lor_distr_l. now rewrite Hv, Hm.
Qed.

Lemma sanitize_keyword_mask opt s v :
  sanitize_keyword opt s = Some v -> option_mask opt -> option_mask v.
Proof.
  unfold sanitize_keyword. intros H Hopt.
  repeat match type of H with
         | (if ?c then _ else _) = _ => destruct c
         end;
    try discriminate H; injection H as <-;
    try (apply option_mask_lor; [reflexivity | exact Hopt]).
  - now left.
  - now right.
  - now right.
Qed.

Lemma option_mask_range v : option_mask v -> 0 <= v <= 255.
Proof.
  intros [->|Hv]; [vm_compute; split; discriminate|].
  assert (Z.land v (Z.ones 6) = v) as Hm.
  { rewrite <- Hv at 1. rewrite <- Z.land_assoc.
    change (Z.land FIX_CATEGORIES (Z.ones 6)) with FIX_CATEGORIES. exact Hv. }
  rewrite Z.land_ones in Hm by lia.
  pose proof (Z.mod_pos_bound v (2 ^ 6) ltac:(lia)). lia.
Qed.

Lemma sanitize_options_from_mask opt s :
  option_mask opt ->
  sanitize_options_from opt s = Err (-1)
  \/ exists v, sanitize_options_from opt s = Ok v /\ option_mask v.
Proof.
  revert opt s.
  apply (sanitize_options_from_ind
           (fun opt s res =>
              option_mask opt ->
              res = Err (-1) \/ exists v, res = Ok v /\ option_mask v)).
  - intros opt H. right. now exists opt.
  - intros. now left.
  - intros opt x r v K _ IH H. apply IH. eapply sanitize_keyword_mask; eauto.
Qed.

(** X1.  [bam_sanitize_options] returns -1 or a mask between 0 and 255, for every
    argument (the NULL pointer included); a returned mask is [FIX_ALL] or has
    no bit outside the five categories [FIX_POS], [FIX_MQUAL], [FIX_UNMAP],
    [FIX_CIGAR] and [FIX_AUX]. *)
Theorem sanitize_options_result (str : option (list byte)) :
  bam_sanitize_options str = Err (-1)
  \/ exists v,
      bam_sanitize_options str = Ok v
      /\ 0 <= v <= 255
      /\ (v = FIX_ALL \/ Z.land v FIX_CATEGORIES = v).
Proof.
  assert (option_mask 0) as H0 by (now right).
  destruct str as [s|]; cbn [bam_sanitize_options].
  - destruct (sanitize_options_from_mask 0 (cstr s) H0) as [E|(v & E & Hv)].
    + now left.
    + right. exists v. split; [exact E|]. split; [now apply option_mask_range|exact Hv].
  - right. exists 0. split; [reflexivity|]. split; [lia|now right].
Qed.

Lemma skip_commas_snoc s :
  skip_commas (s ++ [","%byte]) = []
  \/ exists s', skip_commas (s ++ [","%byte]) = s' ++ [","%byte].
Proof.
  induction s as [|x r IH]; [now left|].
  cbn [app skip_commas]. destruct (Byte.eqb x ","); [exact IH|].
  right. now exists (x :: r).
Qed.

Lemma skip_word_snoc s :
  exists s', skip_word (s ++ [","%byte]) = s' ++ [","%byte].
Proof.
  induction s as [|x r IH]; [now exists []|].
  cbn [app skip_word]. destruct (Byte.eqb x ","); [|exact IH].
  now exists (x :: r).
Qed.

Lemma sanitize_options_from_trailing_comma s :
  forall opt, sanitize_options_from opt (s ++ [","%byte]) = Err (-1).
Proof.
  remember (length s) as n eqn:Hn. revert s Hn.
  induction n as [n IH] using lt_wf_ind; intros s Hn opt.
  destruct (s ++ [","%byte]) as [|x r] eqn:E.
  { now destruct s. }
  rewrite sanitize_options_from_step, <- E.
  destruct (sanitize_keyword opt (skip_commas (s ++ [","%byte]))) as [v|] eqn:K;
    [|reflexivity].
  pose proof (skip_word_after_commas _ (sanitize_keyword_nonempty _ _ _ K)) as Hl.
  destruct (skip_commas_snoc s) as [E0|(s' & E')].
  { rewrite E0 in K. discriminate K. }
  rewrite E' in Hl |- *.
  destruct (skip_word_snoc s') as (s'' & E'').
  rewrite E'' in Hl |- *.
  rewrite !length_app in Hl. cbn [length] in Hl.
  eapply IH; [|reflexivity]. lia.
Qed.

(** X2.  A keyword list that ends in a comma is rejected: for every text [s]
    without a NUL byte, [bam_sanitize_options] on [s] followed by a comma
    returns -1 (the loop is entered again at the comma and finds an empty
    keyword). *)
Theorem sanitize_options_trailing_comma (s : list byte) :
  Forall (fun x => x <> x00) s ->
  bam_sanitize_options (Some (s ++ [","%byte])) = Err (-1).
Proof.
  intros Hs. cbn [bam_sanitize_options].
  rewrite cstr_id.
  - apply sanitize_options_from_trailing_comma.
  - apply Forall_app. split; [exact Hs|]. repeat constructor. discriminate.
Qed.

Lemma sanitize_options_trailing_comma_witness :
  bam_sanitize_options (Some (list_byte_of_string "pos,")) = Err (-1).
Proof.
  apply (sanitize_options_trailing_comma (list_byte_of_string "pos")).
  repeat constructor; discriminate.
Defined.

Lemma skip_word_word w : Forall word_byte w -> skip_word w = [].
Proof.
  induction 1 as [|x r [_ Hx] _ IH]; [reflexivity|].
  cbn [skip_word]. apply byte_eqb_neq in Hx. now rewrite Hx.
Qed.

Lemma word_byte_no_nul w : Forall word_byte w -> Forall (fun x => x <> x00) w.
Proof. intros H. eapply Forall_impl; [exact H|]. now intros x [? _]. Qed.

(** one keyword followed by characters of the same word *)
Lemma sanitize_one_keyword (kw : string) (w : list byte) (v : Z) :
  Forall word_byte (list_byte_of_string kw) ->
  list_byte_of_string kw <> [] ->
  Forall word_byte w ->
  sanitize_keyword 0 (list_byte_of_string kw ++ w) = Some v ->
  bam_sanitize_options (Some (list_byte_of_string kw ++ w)) = Ok v.
Proof.
  intros Hk Hne Hw K. cbn [bam_sanitize_options].
  assert (Forall word_byte (list_byte_of_string kw ++ w)) as Hall
    by (apply Forall_app; now split).
  rewrite cstr_id by now apply word_byte_no_nul.
  destruct (list_byte_of_string kw ++ w) as [|x r] eqn:E.
  { destruct (list_byte_of_string kw); [contradiction|discriminate]. }
  rewrite sanitize_options_from_step.
  assert (skip_commas (x :: r) = x :: r) as Hsc.
  { cbn [skip_commas]. inversion Hall as [|? ? [_ Hx] _]; subst.
    apply byte_eqb_neq in Hx. now rewrite Hx. }
  rewrite Hsc, K. rewrite skip_word_word by exact Hall. reflexivity.
Qed.

Ltac keyword_word :=
  match goal with
  | Hw : Forall word_byte ?w |- bam_sanitize_options (Some (list_byte_of_string ?kw ++ ?w)) = Ok ?v =>
      apply sanitize_one_keyword;
      [ repeat constructor; discriminate
      | discriminate
      | exact Hw
      | reflexivity ]
  end.

(** X3.  Keywords are recognised by their first characters only ([strncmp] over
    the length of the keyword; a leading star for [all]): each of all, star,
    none, off, on, pos, mqual, unmap, cigar and aux, followed by any bytes
    other than NUL and comma, is accepted and gives the mask of the keyword
    alone. *)
Theorem sanitize_options_keyword_prefix (w : list byte) :
  Forall word_byte w ->
  bam_sanitize_options (Some (list_byte_of_string "all" ++ w)) = Ok FIX_ALL
  /\ bam_sanitize_options (Some (list_byte_of_string "*" ++ w)) = Ok FIX_ALL
  /\ bam_sanitize_options (Some (list_byte_of_string "none" ++ w)) = Ok 0
  /\ bam_sanitize_options (Some (list_byte_of_string "off" ++ w)) = Ok 0
  /\ bam_sanitize_options (Some (list_byte_of_string "on" ++ w))
     = Ok (Z.lor (Z.lor (Z.lor FIX_MQUAL FIX_UNMAP) FIX_CIGAR) FIX_AUX)
  /\ bam_sanitize_options (Some (list_byte_of_string "pos" ++ w)) = Ok FIX_POS
  /\ bam_sanitize_options (Some (list_byte_of_string "mqual" ++ w)) = Ok FIX_MQUAL
  /\ bam_sanitize_options (Some (list_byte_of_string "unmap" ++ w)) = Ok FIX_UNMAP
  /\ bam_sanitize_options (Some (list_byte_of_string "cigar" ++ w)) = Ok FIX_CIGAR
  /\ bam_sanitize_options (Some (list_byte_of_string "aux" ++ w)) = Ok FIX_AUX.
Proof.
  intros Hw. repeat split; keyword_word.
Qed.

Lemma sanitize_options_keyword_prefix_witness :
  bam_sanitize_options (Some (list_byte_of_string "position")) = Ok FIX_POS
  /\ bam_sanitize_options (Some (list_byte_of_string "one")) = Ok 60.
Proof.
  pose proof (sanitize_options_keyword_prefix (list_byte_of_string "ition")
                ltac:(repeat constructor; discriminate)) as H1.
  pose proof (sanitize_options_keyword_prefix (list_byte_of_string "e")
                ltac:(repeat constructor; discriminate)) as H2.
  split; [apply H1 | apply H2].
Defined.

(** a string comparison against a comma-free literal does not see past a
    comma of the text *)
Lemma bytes_eqb_take_comma k :
  Forall (fun c => c <> ","%byte) k ->
  forall s t,
    bytes_eqb (take (length k) (s ++ ","%byte :: t)) k
    = bytes_eqb (take (length k) s) k.
Proof.
  induction 1 as [|c k' Hc _ IH]; intros s t.
  - reflexivity.
  - destruct s as [|y s'].
    + cbn [app take length bytes_eqb].
      apply not_eq_sym in Hc. apply byte_eqb_neq in Hc. now rewrite Hc.
    + cbn [app take length bytes_eqb]. now rewrite IH.
Qed.

Lemma strncmp_eq_comma kw s t :
  Forall (fun c => c <> ","%byte) (list_byte_of_string kw) ->
  length (list_byte_of_string kw) = String.length kw ->
  strncmp_eq (s ++ ","%byte :: t) kw = strncmp_eq s kw.
Proof.
  intros Hk Hl. unfold strncmp_eq. rewrite <- Hl.
  now apply bytes_eqb_take_comma.
Qed.

Lemma sanitize_keyword_comma opt s t :
  s <> [] ->
  sanitize_keyword opt (s ++ ","%byte :: t) = sanitize_keyword opt s.
Proof.
  intros Hs. unfold sanitize_keyword.
  rewrite !strncmp_eq_comma
    by first [ reflexivity | repeat constructor; discriminate ].
  destruct s as [|x r]; [contradiction|]. reflexivity.
Qed.

Lemma skip_commas_app_comma s t :
  skip_commas s <> [] ->
  skip_commas (s ++ ","%byte :: t) = skip_commas s ++ ","%byte :: t.
Proof.
  induction s as [|x r IH]; [contradiction|].
  cbn [app skip_commas]. destruct (Byte.eqb x ","); [exact IH|reflexivity].
Qed.

Lemma skip_word_app_comma s t :
  skip_word (s ++ ","%byte :: t) = skip_word s ++ ","%byte :: t.
Proof.
  induction s as [|x r IH]; [reflexivity|].
  cbn [app skip_word]. destruct (Byte.eqb x ","); [reflexivity|exact IH].
Qed.

(** the text after a comma is parsed from the option word built so far *)
Lemma sanitize_options_from_app s :
  forall opt v t,
    sanitize_options_from opt s = Ok v ->
    t <> [] ->
    sanitize_options_from opt (s ++ ","%byte :: t) = sanitize_options_from v t.
Proof.
  remember (length s) as n eqn:Hn. revert s Hn.
  induction n as [n IH] using lt_wf_ind; intros s Hn opt v t Hs Ht.
  destruct s as [|x r].
  - injection Hs as <-. destruct t as [|y t']; [contradiction|].
    cbn [app]. rewrite !sanitize_options_from_step. reflexivity.
  - rewrite sanitize_options_from_step in Hs.
    change ((x :: r) ++ ","%byte :: t) with (x :: (r ++ ","%byte :: t)).
    rewrite sanitize_options_from_step.
    change (x :: (r ++ ","%byte :: t)) with ((x :: r) ++ ","%byte :: t).
    destruct (sanitize_keyword opt (skip_commas (x :: r))) as [v1|] eqn:K;
      [|discriminate Hs].
    pose proof (sanitize_keyword_nonempty _ _ _ K) as Hne.
    rewrite skip_commas_app_comma by exact Hne.
    rewrite sanitize_keyword_comma by exact Hne.
    rewrite K, skip_word_app_comma.
    pose proof (skip_word_after_commas (x :: r) Hne) as Hl.
    eapply IH; [| reflexivity | exact Hs | exact Ht]. lia.
Qed.

(** X4.  Keywords apply from left to right: if the list [s] gives the mask [v],
    then [s], a comma and a non-empty text [t] give what the loop gives on
    [t] when entered with [v].  In particular a final all gives [FIX_ALL] and
    a final none gives 0 whatever precedes, and a final pos adds [FIX_POS]
    to [v]. *)
Theorem sanitize_options_left_to_right (s t : list byte) (v : Z) :
  Forall (fun x => x <> x00) s ->
  Forall (fun x => x <> x00) t ->
  t <> [] ->
  bam_sanitize_options (Some s) = Ok v ->
  bam_sanitize_options (Some (s ++ ","%byte :: t)) = sanitize_options_from v t
  /\ bam_sanitize_options (Some (s ++ list_byte_of_string ",all")) = Ok FIX_ALL
  /\ bam_sanitize_options (Some (s ++ list_byte_of_string ",none")) = Ok 0
  /\ bam_sanitize_options (Some (s ++ list_byte_of_string ",pos"))
     = Ok (Z.lor v FIX_POS).
Proof.
  intros Hs Ht Hne H. cbn [bam_sanitize_options] in *.
  rewrite cstr_id in H by exact Hs.
  assert (forall u, Forall (fun x => x <> x00) u -> u <> [] ->
            sanitize_options_from 0 (cstr (s ++ ","%byte :: u))
            = sanitize_options_from v u) as Hgen.
  { intros u Hu Hune. rewrite cstr_id.
    - now apply sanitize_options_from_app.
    - apply Forall_app. split; [exact Hs|]. constructor; [discriminate|exact Hu]. }
  split; [now apply Hgen|].
  change (list_byte_of_string ",all") with (","%byte :: list_byte_of_string "all").
  change (list_byte_of_string ",none") with (","%byte :: list_byte_of_string "none").
  change (list_byte_of_string ",pos") with (","%byte :: list_byte_of_string "pos").
  rewrite !Hgen by first [ discriminate | repeat constructor; discriminate ].
  repeat split; reflexivity.
Qed.

Lemma sanitize_options_left_to_right_witness :
  bam_sanitize_options (Some (list_byte_of_string "pos,aux,mqual"))
  = sanitize_options_from FIX_POS (list_byte_of_string "aux,mqual")
  /\ bam_sanitize_options (Some (list_byte_of_string "pos,all")) = Ok FIX_ALL
  /\ bam_sanitize_options (Some (list_byte_of_string "pos,none")) = Ok 0
  /\ bam_sanitize_options (Some (list_byte_of_string "pos,pos")) = Ok FIX_POS.
Proof.
  apply (sanitize_options_left_to_right
           (list_byte_of_string "pos") (list_byte_of_string "aux,mqual") FIX_POS).
  - repeat constructor; discriminate.
  - repeat constructor; discriminate.
  - discriminate.
  - reflexivity.
Defined.

(** ** bam_trim: where the trimmed alignment ends *)

Lemma cigar_word_range c :
  cigar_word c -> 0 <= bam_cigar_oplen c < 2 ^ 28 /\ 0 <= bam_cigar_op c < 16.
Proof.
  intros [H0 H1]. unfold bam_cigar_oplen, bam_cigar_op.
  rewrite Z.shiftr_div_pow2 by lia.
  change 15 with (Z.ones 4). rewrite Z.land_ones by lia.
  split.
  - split; [apply Z.div_pos; lia|].
    apply Z.div_lt_upper_bound; [lia|]. change (2 ^ 4 * 2 ^ 28) with (2 ^ 32). lia.
  - apply Z.mod_pos_bound. lia.
Qed.

Lemma lor_shift4 l o :
  0 <= l -> 0 <= o < 16 -> Z.lor (Z.shiftl l 4) o = l * 16 + o.
Proof.
  intros Hl Ho.
  assert (Hz : Z.land (Z.shiftl l 4) o = 0).
  { apply Z.bits_inj'. intros n Hn. rewrite Z.land_spec, Z.bits_0.
    destruct (Z.lt_ge_cases n 4).
    - rewrite Z.shiftl_spec_low by lia. reflexivity.
    - destruct (Z.eq_dec o 0) as [->|Ho0].
      + rewrite Z.bits_0. apply andb_false_r.
      + assert (Hlog : Z.log2 o < 4) by (apply Z.log2_lt_pow2; lia).
        assert (Hbit : Z.testbit o n = false)
          by (apply Z.bits_above_log2; lia).
        rewrite Hbit. apply andb_false_r. }
  pose proof (Z.add_lor_land (Z.shiftl l 4) o) as H. rewrite Hz in H.
  rewrite Z.shiftl_mul_pow2 in * by lia. change (2 ^ 4) with 16 in *. lia.
Qed.

Lemma cigar_gen_word l o :
  0 <= l < 2 ^ 28 -> 0 <= o < 16 ->
  u32 (bam_cigar_gen l o) = l * 16 + o
  /\ bam_cigar_oplen (u32 (bam_cigar_gen l o)) = l
  /\ bam_cigar_op (u32 (bam_cigar_gen l o)) = o.
Proof.
  intros Hl Ho. unfold bam_cigar_gen, u32.
  rewrite lor_shift4 by lia.
  assert ((l * 16 + o) mod 2 ^ 32 = l * 16 + o) as ->.
  { apply Z.mod_small. change (2 ^ 32) with (2 ^ 28 * 16). lia. }
  split; [reflexivity|]. unfold bam_cigar_oplen, bam_cigar_op.
  rewrite Z.shiftr_div_pow2 by lia.
  change 15 with (Z.ones 4). rewrite Z.land_ones by lia.
  change (2 ^ 4) with 16. split.
  - rewrite Z.div_add_l by lia. rewrite Z.div_small by lia. lia.
  - rewrite Z.add_comm, Z.mod_add by lia. apply Z.mod_small. lia.
Qed.

(** a stored soft clip is a soft clip, whatever its length *)
Lemma soft_clip_op l : bam_cigar_op (u32 (bam_cigar_gen l BAM_CSOFT_CLIP)) = BAM_CSOFT_CLIP.
Proof.
  unfold bam_cigar_op, u32, bam_cigar_gen.
  change 15 with (Z.ones 4).
  rewrite <- (Z.land_ones _ 32) by lia.
  rewrite <- Z.land_assoc.
  change (Z.land (Z.ones 32) (Z.ones 4)) with (Z.ones 4).
  apply Z.bits_inj'. intros n Hn.
  rewrite Z.land_spec, Z.lor_spec.
  destruct (Z.lt_ge_cases n 4).
  - rewrite Z.shiftl_spec_low by lia. rewrite Z.ones_spec_low by lia.
    cbn [orb]. apply andb_true_r.
  - rewrite Z.ones_spec_high by lia. rewrite andb_false_r.
    symmetry. apply Z.bits_above_log2; [vm_compute; discriminate|].
    change (Z.log2 BAM_CSOFT_CLIP) with 2. lia.
Qed.

Lemma soft_clip_no_ref l : consumes_ref (u32 (bam_cigar_gen l BAM_CSOFT_CLIP)) = false.
Proof. unfold consumes_ref. now rewrite soft_clip_op. Qed.

Lemma hard_clip_no_ref c : bam_cigar_op c = BAM_CHARD_CLIP -> consumes_ref c = false.
Proof. unfold consumes_ref. now intros ->. Qed.

Lemma bam_cigar2rlen_app l1 l2 :
  bam_cigar2rlen (l1 ++ l2) = bam_cigar2rlen l1 + bam_cigar2rlen l2.
Proof.
  induction l1 as [|c r IH]; [reflexivity|].
  cbn [app bam_cigar2rlen]. rewrite IH. lia.
Qed.

Lemma bam_cigar2rlen_no_ref l :
  Forall (fun c => consumes_ref c = false) l -> bam_cigar2rlen l = 0.
Proof.
  induction 1 as [|c r Hc _ IH]; [reflexivity|].
  cbn [bam_cigar2rlen]. rewrite Hc, IH. reflexivity.
Qed.

Lemma bam_cigar2rlen_nonneg l : Forall cigar_word l -> 0 <= bam_cigar2rlen l.
Proof.
  induction 1 as [|c r Hc _ IH]; [reflexivity|].
  cbn [bam_cigar2rlen]. pose proof (cigar_word_range c Hc).
  destruct (consumes_ref c); lia.
Qed.

(** the third loop only produces clips *)
Lemma trim_tail_no_ref rest :
  forall acc nc,
    trim_tail rest acc = Ok nc ->
    Forall (fun c => consumes_ref c = false) acc ->
    Forall (fun c => consumes_ref c = false) nc.
Proof.
  induction rest as [|c rest IH]; intros acc nc H Hacc; cbn [trim_tail] in H.
  - now injection H as <-.
  - destruct (bam_cigar_op c =? BAM_CHARD_CLIP) eqn:E.
    + apply (IH _ _ H). apply Forall_app. split; [exact Hacc|].
      constructor; [|constructor]. apply hard_clip_no_ref. now apply Z.eqb_eq.
    + destruct (rev acc) as [|x front] eqn:R; [discriminate|].
      apply (IH _ _ H). apply Forall_app. split.
      * assert (acc = rev front ++ [x]) as Ha.
        { rewrite <- (rev_involutive acc), R. reflexivity. }
        rewrite Ha in Hacc. apply Forall_app in Hacc. tauto.
      * constructor; [|constructor]. apply soft_clip_no_ref.
Qed.

(** what the first loop has seen when it breaks at operation [i] *)
Lemma trim_find_some cigar :
  forall i0 p0 end_ i p,
    Forall cigar_word cigar ->
    trim_find cigar i0 p0 end_ = Some (i, p) ->
    exists k,
      i = (i0 + k)%nat /\ (k < length cigar)%nat
      /\ consumes_ref (nth k cigar 0) = true
      /\ p - bam_cigar_oplen (nth k cigar 0) = p0 + bam_cigar2rlen (take k cigar)
      /\ p <= p0 + bam_cigar2rlen cigar
      /\ end_ < p.
Proof.
  induction cigar as [|c rest IH]; intros i0 p0 end_ i p Hw H;
    cbn [trim_find] in H; [discriminate|].
  inversion Hw as [|? ? Hc Hrest]; subst.
  pose proof (cigar_word_range c Hc) as [Hlen _].
  pose proof (bam_cigar2rlen_nonneg rest Hrest) as Hnn.
  destruct (consumes_ref c) eqn:Ec; cbn [negb] in H.
  - destruct (Z.gtb_spec (p0 + bam_cigar_oplen c) end_) as [Hgt|Hle].
    + injection H as <- <-. exists O.
      cbn [nth take bam_cigar2rlen length]. rewrite Ec.
      repeat split; try lia.
    + destruct (IH _ _ _ _ _ Hrest H) as (k & -> & Hk & Hck & Hp & Hle' & Hgt).
      exists (S k). cbn [nth take bam_cigar2rlen length]. rewrite Ec.
      repeat split; try lia. exact Hck.
  - destruct (IH _ _ _ _ _ Hrest H) as (k & -> & Hk & Hck & Hp & Hle' & Hgt).
    exists (S k). cbn [nth take bam_cigar2rlen length]. rewrite Ec.
    repeat split; try lia. exact Hck.
Qed.

Lemma trim_find_none_inv cigar :
  forall i0 p0 end_,
    Forall cigar_word cigar ->
    trim_find cigar i0 p0 end_ = None ->
    p0 + bam_cigar2rlen cigar <= end_
    \/ Forall (fun c => consumes_ref c = false) cigar.
Proof.
  induction cigar as [|c rest IH]; intros i0 p0 end_ Hw H;
    cbn [trim_find] in H; [right; constructor|].
  inversion Hw as [|? ? Hc Hrest]; subst.
  pose proof (cigar_word_range c Hc) as [Hlen _].
  pose proof (bam_cigar2rlen_nonneg rest Hrest) as Hnn.
  cbn [bam_cigar2rlen].
  destruct (consumes_ref c) eqn:Ec; cbn [negb] in H.
  - destruct (Z.gtb_spec (p0 + bam_cigar_oplen c) end_) as [Hgt|Hle];
      [discriminate|].
    destruct (IH _ _ _ Hrest H) as [Hfit|Hno].
    + left. lia.
    + left. rewrite (bam_cigar2rlen_no_ref _ Hno). lia.
  - destruct (IH _ _ _ Hrest H) as [Hfit|Hno].
    + left. lia.
    + right. now constructor.
Qed.

Lemma bam_trim_cases (b : bam1_t) (end_ : Z) (b' : bam1_t) :
  Forall cigar_word (d_cigar b) ->
  bam_trim b end_ = Ok b' ->
  (b' = b
   /\ (pos (core b) + bam_cigar2rlen (d_cigar b) <= end_
       \/ Forall (fun c => consumes_ref c = false) (d_cigar b)))
  \/ (core b' = core b
      /\ pos (core b) < end_ < pos (core b) + bam_cigar2rlen (d_cigar b)
      /\ pos (core b) + bam_cigar2rlen (d_cigar b') = end_)
  \/ (end_ < pos (core b) + bam_cigar2rlen (d_cigar b)
      /\ pos (core b') = pos (core b)
      /\ tst (fl b') BAM_FUNMAP = true
      /\ tst (fl b') BAM_FPROPER_PAIR = false).
Proof.
  intros Hw H. unfold bam_trim in H.
  destruct (trim_find (d_cigar b) 0 (pos (core b)) end_) as [[i p]|] eqn:F.
  2:{ injection H as <-. left. split; [reflexivity|].
      eapply trim_find_none_inv; eauto. }
  right.
  destruct (trim_find_some _ _ _ _ _ _ Hw F) as (k & -> & Hk & Hck & Hp & Hle & Hgt).
  rewrite Nat.add_0_l in *.
  set (c := nth k (d_cigar b) 0) in *.
  assert (cigar_word c) as Hc.
  { unfold c. apply nth_Forall; [exact Hw|]. unfold cigar_word. lia. }
  pose proof (cigar_word_range c Hc) as [Hlen Hop].
  pose proof (bam_cigar2rlen_nonneg (take k (d_cigar b)) (Forall_take _ _ _ Hw)) as Hnn.
  destruct (Z.ltb_spec (p - bam_cigar_oplen c) end_) as [Hsplit|Hjunction].
  - (* the operation straddles the cutoff *)
    left.
    destruct (trim_tail (drop (S k) (d_cigar b))
                [u32 (bam_cigar_gen (p - end_) BAM_CSOFT_CLIP)]) as [nc| | | |] eqn:T;
      try discriminate H.
    cbn [rbind] in H. injection H as <-.
    split; [apply trim_resize_core|]. split; [lia|].
    rewrite trim_resize_cigar.
    assert (Forall (fun c => consumes_ref c = false) nc) as Hnc.
    { eapply trim_tail_no_ref; [exact T|].
      constructor; [apply soft_clip_no_ref|constructor]. }
    rewrite !bam_cigar2rlen_app, (bam_cigar2rlen_no_ref _ Hnc).
    cbn [bam_cigar2rlen].
    destruct (cigar_gen_word (end_ - (p - bam_cigar_oplen c)) (bam_cigar_op c))
      as (_ & Hl' & Ho'); [lia|lia|].
    assert (consumes_ref (u32 (bam_cigar_gen (end_ - (p - bam_cigar_oplen c))
                                 (bam_cigar_op c))) = true) as Hcr.
    { unfold consumes_ref. rewrite Ho'. exact Hck. }
    rewrite Hcr, Hl'. lia.
  - (* it starts at or after the cutoff *)
    right.
    replace (p >? end_) with true in H by zbool.
    destruct (trim_tail (drop (S k) (d_cigar b)) []) as [nc| | | |] eqn:T;
      try discriminate H.
    cbn [rbind] in H. injection H as <-.
    split; [lia|]. split; [now rewrite trim_resize_core|].
    rewrite trim_resize_fl.
    rewrite fl_flag_clear, fl_flag_or, tst_unmap, tst_proper.
    change BAM_FPROPER_PAIR with (2 ^ 1). change BAM_FUNMAP with (2 ^ 2).
    rewrite !testbit_clear_bit, !testbit_or_bit by lia. simpl.
    rewrite orb_true_r, andb_false_r. split; reflexivity.
Qed.

(** X5.  A call of [bam_trim] that returns, on a record whose CIGAR words are
    32-bit values, has one of three outcomes: the record is unchanged (its
    alignment ends at or before the cutoff, or no operation consumes the
    reference); or the core is unchanged, the cutoff lies strictly inside the
    alignment and the new CIGAR ends exactly at the cutoff; or the alignment
    reached beyond the cutoff and the record comes out flagged unmapped, with
    proper-pair clear and its position kept. *)
Theorem bam_trim_outcome (b : bam1_t) (end_ : Z) (b' : bam1_t) :
  Forall cigar_word (d_cigar b) ->
  bam_trim b end_ = Ok b' ->
  (b' = b
   /\ (pos (core b) + bam_cigar2rlen (d_cigar b) <= end_
       \/ Forall (fun c => consumes_ref c = false) (d_cigar b)))
  \/ (core b' = core b
      /\ pos (core b) < end_ < pos (core b) + bam_cigar2rlen (d_cigar b)
      /\ pos (core b) + bam_cigar2rlen (d_cigar b') = end_)
  \/ (end_ < pos (core b) + bam_cigar2rlen (d_cigar b)
      /\ pos (core b') = pos (core b)
      /\ tst (fl b') BAM_FUNMAP = true
      /\ tst (fl b') BAM_FPROPER_PAIR = false).
Proof. apply bam_trim_cases. Qed.

Lemma bam_trim_outcome_witness :
  let b := sample_read "r" 0 0 0 [cigar_op 100 BAM_CMATCH] [] in
  let b' := with_cigar b [cigar_op 70 BAM_CMATCH; cigar_op 30 BAM_CSOFT_CLIP] in
  (b' = b
   /\ (pos (core b) + bam_cigar2rlen (d_cigar b) <= 70
       \/ Forall (fun c => consumes_ref c = false) (d_cigar b)))
  \/ (core b' = core b
      /\ pos (core b) < 70 < pos (core b) + bam_cigar2rlen (d_cigar b)
      /\ pos (core b) + bam_cigar2rlen (d_cigar b') = 70)
  \/ (70 < pos (core b) + bam_cigar2rlen (d_cigar b)
      /\ pos (core b') = pos (core b)
      /\ tst (fl b') BAM_FUNMAP = true
      /\ tst (fl b') BAM_FPROPER_PAIR = false).
Proof.
  apply (bam_trim_outcome
           (sample_read "r" 0 0 0 [cigar_op 100 BAM_CMATCH] []) 70).
  - repeat constructor; vm_compute; congruence.
  - reflexivity.
Defined.

(** ** bam_trim: the query length *)

Lemma bam_cigar2qlen_app l1 l2 :
  bam_cigar2qlen (l1 ++ l2) = bam_cigar2qlen l1 + bam_cigar2qlen l2.
Proof.
  induction l1 as [|c r IH]; [reflexivity|].
  cbn [app bam_cigar2qlen]. rewrite IH. lia.
Qed.

Lemma hard_clip_no_query c : bam_cigar_op c = BAM_CHARD_CLIP -> consumes_query c = false.
Proof. unfold consumes_query. now intros ->. Qed.

Lemma bam_cigar2qlen_hard l :
  Forall (fun c => bam_cigar_op c = BAM_CHARD_CLIP) l -> bam_cigar2qlen l = 0.
Proof.
  induction 1 as [|c r Hc _ IH]; [reflexivity|].
  cbn [bam_cigar2qlen]. rewrite (hard_clip_no_query c Hc), IH. reflexivity.
Qed.

Lemma bam_cigar2qlen_nonneg l : Forall cigar_word l -> 0 <= bam_cigar2qlen l.
Proof.
  induction 1 as [|c r Hc _ IH]; [reflexivity|].
  cbn [bam_cigar2qlen]. pose proof (cigar_word_range c Hc).
  destruct (consumes_query c); lia.
Qed.

Lemma soft_clip_query l :
  0 <= l < 2 ^ 28 ->
  bam_cigar2qlen [u32 (bam_cigar_gen l BAM_CSOFT_CLIP)] = l.
Proof.
  intros Hl. cbn [bam_cigar2qlen].
  destruct (cigar_gen_word l BAM_CSOFT_CLIP) as (_ & Hlen & Hop);
    [lia|vm_compute; split; congruence|].
  unfold consumes_query. rewrite Hop, Hlen.
  change (tst (bam_cigar_type BAM_CSOFT_CLIP) 1) with true. cbv iota. lia.
Qed.

(** the third loop on query-consuming operations followed by hard clips:
    the lengths are added to the soft clip, the hard clips are kept *)
Lemma trim_tail_soft mid hs :
  forall front x,
    Forall (fun c => cigar_word c /\ consumes_query c = true) mid ->
    Forall (fun c => bam_cigar_op c = BAM_CHARD_CLIP) hs ->
    0 <= x -> x + bam_cigar2qlen mid < 2 ^ 28 ->
    trim_tail (mid ++ hs) (front ++ [u32 (bam_cigar_gen x BAM_CSOFT_CLIP)])
    = Ok (front ++ [u32 (bam_cigar_gen (x + bam_cigar2qlen mid) BAM_CSOFT_CLIP)]
          ++ hs).
Proof.
  induction mid as [|c mid IH]; intros front x Hmid Hhs Hx Hsum.
  - cbn [app bam_cigar2qlen]. rewrite Z.add_0_r.
    rewrite trim_tail_hard_clips by exact Hhs. now rewrite <- app_assoc.
  - inversion Hmid as [|? ? [Hc Hq] Hmid']; subst.
    pose proof (cigar_word_range c Hc) as [Hlen _].
    assert (0 <= bam_cigar2qlen mid) as Hnn.
    { apply bam_cigar2qlen_nonneg. eapply Forall_impl; [exact Hmid'|].
      now intros ? [? _]. }
    cbn [bam_cigar2qlen] in Hsum. rewrite Hq in Hsum.
    cbn [app trim_tail].
    assert ((bam_cigar_op c =? BAM_CHARD_CLIP) = false) as ->.
    { apply Z.eqb_neq. intros E. apply hard_clip_no_query in E. congruence. }
    rewrite rev_app_distr. cbn [rev app]. rewrite rev_involutive.
    destruct (cigar_gen_word x BAM_CSOFT_CLIP) as (_ & Hxl & _);
      [lia|vm_compute; split; congruence|].
    rewrite Hxl.
    rewrite IH; [|exact Hmid'|exact Hhs|lia|lia].
    cbn [bam_cigar2qlen]. rewrite Hq.
    now rewrite Z.add_assoc.
Qed.

Lemma nth_middle_split (l : list Z) k :
  (k < length l)%nat -> l = take k l ++ nth k l 0 :: drop (S k) l.
Proof.
  intros Hk. destruct (lookup_lt_is_Some_2 l k Hk) as [x Hx].
  rewrite (nth_lookup_Some _ _ 0 _ Hx). symmetry. now apply take_drop_middle.
Qed.

(** X6.  If the CIGAR is hard clips, then operations that all consume the query,
    then hard clips, and its query length is below 2^28, a trim that leaves
    the record mapped keeps the query length of the CIGAR: what is cut off
    is counted in the soft clip that replaces it. *)
Theorem bam_trim_query_length (b : bam1_t) (end_ : Z) (b' : bam1_t)
    (hs1 body hs2 : list Z) :
  d_cigar b = hs1 ++ body ++ hs2 ->
  Forall (fun c => bam_cigar_op c = BAM_CHARD_CLIP) hs1 ->
  Forall (fun c => consumes_query c = true) body ->
  Forall (fun c => bam_cigar_op c = BAM_CHARD_CLIP) hs2 ->
  Forall cigar_word (d_cigar b) ->
  bam_cigar2qlen (d_cigar b) < 2 ^ 28 ->
  bam_trim b end_ = Ok b' ->
  tst (fl b') BAM_FUNMAP = false ->
  bam_cigar2qlen (d_cigar b') = bam_cigar2qlen (d_cigar b).
Proof.
  intros Hcg Hh1 Hbody Hh2 Hw Hq H Hmapped. unfold bam_trim in H.
  destruct (trim_find (d_cigar b) 0 (pos (core b)) end_) as [[i p]|] eqn:F.
  2:{ now injection H as <-. }
  destruct (trim_find_some _ _ _ _ _ _ Hw F) as (k & -> & Hk & Hck & Hp & Hle & Hgt).
  rewrite Nat.add_0_l in *.
  set (c := nth k (d_cigar b) 0) in *.
  assert (cigar_word c) as Hc.
  { unfold c. apply nth_Forall; [exact Hw|]. unfold cigar_word. lia. }
  pose proof (cigar_word_range c Hc) as [Hlen Hop].
  destruct (Z.ltb_spec (p - bam_cigar_oplen c) end_) as [Hsplit|Hjunction].
  2:{ (* the record would be flagged unmapped *)
      replace (p >? end_) with true in H by zbool.
      destruct (trim_tail (drop (S k) (d_cigar b)) []) as [nc| | | |];
        try discriminate H.
      cbn [rbind] in H. injection H as <-.
      rewrite trim_resize_fl in Hmapped.
      rewrite fl_flag_clear, fl_flag_or, tst_unmap in Hmapped.
      change BAM_FPROPER_PAIR with (2 ^ 1) in Hmapped.
      change BAM_FUNMAP with (2 ^ 2) in Hmapped.
      rewrite !testbit_clear_bit, !testbit_or_bit in Hmapped by lia.
      simpl in Hmapped. rewrite orb_true_r in Hmapped. discriminate Hmapped. }
  (* where operation [k] lies *)
  assert (length hs1 <= k)%nat as Hk1.
  { destruct (Nat.le_gt_cases (length hs1) k) as [?|Hlt]; [assumption|].
    exfalso. unfold c in Hck. rewrite Hcg, app_nth1 in Hck by exact Hlt.
    assert (consumes_ref (nth k hs1 0) = false) as Hn.
    { apply hard_clip_no_ref.
      pose proof (Forall_nth (fun c => bam_cigar_op c = BAM_CHARD_CLIP) 0 hs1)
        as [Hn _].
      apply Hn; [exact Hh1|lia]. }
    congruence. }
  assert (k < length hs1 + length body)%nat as Hk2.
  { destruct (Nat.le_gt_cases (length hs1 + length body) k) as [Hge|?];
      [|assumption].
    exfalso. unfold c in Hck.
    rewrite Hcg, app_assoc, app_nth2 in Hck by (rewrite length_app; lia).
    assert (consumes_ref (nth (k - length (hs1 ++ body)) hs2 0) = false) as Hn.
    { apply hard_clip_no_ref.
      pose proof (Forall_nth (fun c => bam_cigar_op c = BAM_CHARD_CLIP) 0 hs2)
        as [Hn _].
      apply Hn; [exact Hh2|].
      rewrite Hcg, !length_app in Hk. rewrite length_app. lia. }
    congruence. }
  assert (consumes_query c = true) as Hcq.
  { unfold c. rewrite Hcg, app_nth2 by lia. rewrite app_nth1 by lia.
    pose proof (Forall_nth (fun c => consumes_query c = true) 0 body) as [Hn _].
    apply Hn; [exact Hbody|lia]. }
  assert (drop (S k) (d_cigar b) = drop (S k - length hs1) body ++ hs2) as Hdrop.
  { rewrite Hcg. rewrite drop_app_ge by lia. rewrite drop_app_le by lia.
    reflexivity. }
  set (mid := drop (S k - length hs1) body) in *.
  assert (Forall (fun c => cigar_word c /\ consumes_query c = true) mid) as Hmid.
  { unfold mid. apply Forall_drop. apply Forall_and. split; [|exact Hbody].
    rewrite Hcg in Hw. apply Forall_app in Hw as [_ Hw].
    apply Forall_app in Hw as [Hw _]. exact Hw. }
  (* the query length of the input, split at [k] *)
  pose proof (nth_middle_split (d_cigar b) k Hk) as Hsplit3. fold c in Hsplit3.
  assert (bam_cigar2qlen (d_cigar b)
          = bam_cigar2qlen (take k (d_cigar b)) + bam_cigar_oplen c
            + bam_cigar2qlen mid) as Hq3.
  { rewrite Hsplit3 at 1. rewrite bam_cigar2qlen_app. cbn [bam_cigar2qlen].
    rewrite Hcq, Hdrop, bam_cigar2qlen_app, (bam_cigar2qlen_hard hs2 Hh2). lia. }
  assert (0 <= bam_cigar2qlen (take k (d_cigar b))) as Hnn1
    by (apply bam_cigar2qlen_nonneg, Forall_take, Hw).
  assert (0 <= bam_cigar2rlen (take k (d_cigar b))) as Hnn2
    by (apply bam_cigar2rlen_nonneg, Forall_take, Hw).
  assert (0 <= bam_cigar2qlen mid) as Hnn3.
  { apply bam_cigar2qlen_nonneg. eapply Forall_impl; [exact Hmid|].
    now intros ? [? _]. }
  rewrite Hdrop in H.
  change [u32 (bam_cigar_gen (p - end_) BAM_CSOFT_CLIP)]
    with ([] ++ [u32 (bam_cigar_gen (p - end_) BAM_CSOFT_CLIP)]) in H.
  rewrite trim_tail_soft in H; [|exact Hmid|exact Hh2|lia|lia].
  cbn [rbind app] in H. injection H as <-.
  rewrite trim_resize_cigar.
  rewrite !bam_cigar2qlen_app.
  change (u32 (bam_cigar_gen (p - end_ + bam_cigar2qlen mid) BAM_CSOFT_CLIP) :: hs2)
    with ([u32 (bam_cigar_gen (p - end_ + bam_cigar2qlen mid) BAM_CSOFT_CLIP)]
          ++ hs2).
  rewrite bam_cigar2qlen_app, (bam_cigar2qlen_hard hs2 Hh2).
  rewrite soft_clip_query by lia.
  cbn [bam_cigar2qlen].
  destruct (cigar_gen_word (end_ - (p - bam_cigar_oplen c)) (bam_cigar_op c))
    as (_ & Hl' & Ho'); [lia|lia|].
  assert (consumes_query (u32 (bam_cigar_gen (end_ - (p - bam_cigar_oplen c))
                                 (bam_cigar_op c))) = true) as Hcq'.
  { unfold consumes_query. rewrite Ho'. exact Hcq. }
  rewrite Hcq', Hl', Hq3. lia.
Qed.

Lemma bam_trim_query_length_witness :
  let b := sample_read "r" 0 0 0
             [cigar_op 3 BAM_CHARD_CLIP; cigar_op 80 BAM_CMATCH; cigar_op 2 1;
              cigar_op 18 BAM_CMATCH; cigar_op 4 BAM_CHARD_CLIP] [] in
  bam_trim b 70
  = Ok (with_cigar b [cigar_op 3 BAM_CHARD_CLIP; cigar_op 70 BAM_CMATCH;
                      cigar_op 30 BAM_CSOFT_CLIP; cigar_op 4 BAM_CHARD_CLIP])
  /\ bam_cigar2qlen [cigar_op 3 BAM_CHARD_CLIP; cigar_op 70 BAM_CMATCH;
                     cigar_op 30 BAM_CSOFT_CLIP; cigar_op 4 BAM_CHARD_CLIP]
     = bam_cigar2qlen (d_cigar b).
Proof.
  split; [reflexivity|].
  apply (bam_trim_query_length
           (sample_read "r" 0 0 0
              [cigar_op 3 BAM_CHARD_CLIP; cigar_op 80 BAM_CMATCH; cigar_op 2 1;
               cigar_op 18 BAM_CMATCH; cigar_op 4 BAM_CHARD_CLIP] [])
           70
           (with_cigar (sample_read "r" 0 0 0 [] [])
              [cigar_op 3 BAM_CHARD_CLIP; cigar_op 70 BAM_CMATCH;
               cigar_op 30 BAM_CSOFT_CLIP; cigar_op 4 BAM_CHARD_CLIP])
           [cigar_op 3 BAM_CHARD_CLIP]
           [cigar_op 80 BAM_CMATCH; cigar_op 2 1; cigar_op 18 BAM_CMATCH]
           [cigar_op 4 BAM_CHARD_CLIP]).
  - reflexivity.
  - repeat constructor.
  - repeat constructor.
  - repeat constructor.
  - repeat constructor; vm_compute; congruence.
  - vm_compute. reflexivity.
  - reflexivity.
  - reflexivity.
Defined.

(** ** bam_trim: a cutoff inside an operation *)

Lemma trim_find_app pre rest :
  forall i0 p0 end_,
    Forall cigar_word pre ->
    p0 + bam_cigar2rlen pre <= end_ ->
    trim_find (pre ++ rest) i0 p0 end_
    = trim_find rest (i0 + length pre) (p0 + bam_cigar2rlen pre) end_.
Proof.
  induction pre as [|c pre IH]; intros i0 p0 end_ Hw Hle.
  - cbn [app length bam_cigar2rlen]. now rewrite Nat.add_0_r, Z.add_0_r.
  - inversion Hw as [|? ? Hc Hpre]; subst.
    pose proof (cigar_word_range c Hc) as [Hlen _].
    pose proof (bam_cigar2rlen_nonneg pre Hpre) as Hnn.
    cbn [app trim_find length bam_cigar2rlen] in *.
    destruct (consumes_ref c); cbn [negb].
    + replace (p0 + bam_cigar_oplen c >? end_) with false by zbool.
      rewrite IH by (assumption || lia). f_equal; lia.
    + rewrite IH by (assumption || lia). f_equal; lia.
Qed.

Lemma trim_tail_nonempty rest :
  forall acc nc, acc <> [] -> trim_tail rest acc = Ok nc -> nc <> [].
Proof.
  induction rest as [|c rest IH]; intros acc nc Hne H; cbn [trim_tail] in H.
  - now injection H as <-.
  - destruct (bam_cigar_op c =? BAM_CHARD_CLIP).
    + eapply IH; [|exact H]. now destruct acc.
    + destruct (rev acc) as [|x front]; [discriminate|].
      eapply IH; [|exact H]. now destruct (rev front).
Qed.

(** X7.  When the cutoff falls strictly inside a reference-consuming operation
    [c] of the CIGAR, [bam_trim] returns 0 and the new CIGAR is the
    operations before [c], then [c] shortened to end at the cutoff, then a
    non-empty tail of operations none of which consumes the reference.
    Nothing else of the record changes, except the capacity of the buffer
    when the new CIGAR is longer and does not fit. *)
Theorem bam_trim_inside_operation (b : bam1_t) (end_ : Z) (pre : list Z) (c : Z)
    (post : list Z) :
  d_cigar b = pre ++ c :: post ->
  Forall cigar_word (d_cigar b) ->
  consumes_ref c = true ->
  pos (core b) + bam_cigar2rlen pre < end_ ->
  end_ < pos (core b) + bam_cigar2rlen pre + bam_cigar_oplen c ->
  exists tail,
    bam_trim b end_
    = Ok (trim_resize b
            (pre ++ [u32 (bam_cigar_gen (end_ - (pos (core b) + bam_cigar2rlen pre))
                                        (bam_cigar_op c))] ++ tail))
    /\ Forall (fun x => consumes_ref x = false) tail
    /\ tail <> []
    /\ bam_cigar_oplen
         (u32 (bam_cigar_gen (end_ - (pos (core b) + bam_cigar2rlen pre))
                             (bam_cigar_op c)))
       = end_ - (pos (core b) + bam_cigar2rlen pre).
Proof.
  intros Hcg Hw Hc Hlo Hhi. unfold bam_trim. rewrite Hcg in *.
  apply Forall_app in Hw as [Hwpre Hw].
  inversion Hw as [|? ? Hwc Hwpost]; subst.
  pose proof (cigar_word_range c Hwc) as [Hlen Hop].
  rewrite trim_find_app by (assumption || lia).
  cbn [trim_find]. rewrite Hc. cbn [negb].
  replace (pos (core b) + bam_cigar2rlen pre + bam_cigar_oplen c >? end_)
    with true by zbool.
  rewrite Nat.add_0_l.
  replace (nth (length pre) (pre ++ c :: post) 0) with c
    by (rewrite app_nth2, Nat.sub_diag by lia; reflexivity).
  replace (pos (core b) + bam_cigar2rlen pre + bam_cigar_oplen c
           - bam_cigar_oplen c <? end_) with true by zbool.
  replace (drop (S (length pre)) (pre ++ c :: post)) with post.
  2:{ rewrite drop_app_ge by lia.
      replace (S (length pre) - length pre)%nat with 1%nat by lia.
      reflexivity. }
  rewrite take_app_length.
  replace (pos (core b) + bam_cigar2rlen pre + bam_cigar_oplen c
           - bam_cigar_oplen c) with (pos (core b) + bam_cigar2rlen pre) by lia.
  destruct (trim_tail_defined post
              [u32 (bam_cigar_gen
                      (pos (core b) + bam_cigar2rlen pre + bam_cigar_oplen c - end_)
                      BAM_CSOFT_CLIP)]) as [nc Hnc]; [discriminate|].
  rewrite Hnc. cbn [rbind]. exists nc. rewrite <- app_assoc.
  split; [reflexivity|]. split; [|split].
  - eapply trim_tail_no_ref; [exact Hnc|].
    constructor; [apply soft_clip_no_ref|constructor].
  - eapply trim_tail_nonempty; [|exact Hnc]. discriminate.
  - apply cigar_gen_word; lia.
Qed.

Lemma bam_trim_inside_operation_witness :
  let b := sample_read "r" 0 0 0
             [cigar_op 5 BAM_CSOFT_CLIP; cigar_op 100 BAM_CMATCH;
              cigar_op 3 BAM_CHARD_CLIP] [] in
  exists tail,
    bam_trim b 70
    = Ok (trim_resize b ([cigar_op 5 BAM_CSOFT_CLIP] ++ [cigar_op 70 BAM_CMATCH]
                         ++ tail))
    /\ tail <> [].
Proof.
  intros b.
  destruct (bam_trim_inside_operation b 70 [cigar_op 5 BAM_CSOFT_CLIP]
              (cigar_op 100 BAM_CMATCH) [cigar_op 3 BAM_CHARD_CLIP])
    as (tail & E & _ & Hne & _).
  - reflexivity.
  - repeat constructor; vm_compute; congruence.
  - reflexivity.
  - vm_compute. reflexivity.
  - vm_compute. reflexivity.
  - exists tail. split; [exact E|exact Hne].
Defined.

(** ** bam_sanitize: what it leaves alone *)

Lemma sanitized_from_refl x : sanitized_from x x.
Proof. unfold sanitized_from. repeat split; auto. Qed.

Lemma sanitized_from_trans x y z :
  sanitized_from x y -> sanitized_from y z -> sanitized_from x z.
Proof.
  intros (A1 & A2 & A3 & A4 & A5 & A6 & A7 & A8 & A9 & A10 & A11)
         (B1 & B2 & B3 & B4 & B5 & B6 & B7 & B8 & B9 & B10 & B11).
  unfold sanitized_from.
  repeat match goal with |- _ /\ _ => split end; try congruence.
  - destruct B7 as [->| ->]; auto.
  - destruct B8 as [->| ->]; auto.
  - destruct B9 as [E|(E1 & E2 & E3)]; [|right; auto].
    rewrite E. destruct A9 as [->|(F1 & F2 & F3)]; [now left|].
    right. split; [exact F1|]. split; [|auto].
    destruct B8 as [->|E']; auto.
  - auto.
  - intros n H0 H1 H2. rewrite B11, A11 by assumption. reflexivity.
Qed.

Lemma sanitized_from_core x y :
  core y = core x -> d_qname y = d_qname x -> d_seq y = d_seq x ->
  d_qual y = d_qual x -> sanitized_from x y.
Proof.
  intros Hc H1 H2 H3. unfold sanitized_from, fl. rewrite Hc.
  repeat split; auto.
Qed.

Lemma sanitized_from_unmap x : sanitized_from x (flag_or x BAM_FUNMAP).
Proof.
  unfold sanitized_from. repeat split; auto.
  - intros _. rewrite fl_flag_or, tst_unmap. change BAM_FUNMAP with (2 ^ 2).
    rewrite testbit_or_bit by lia. apply orb_true_r.
  - intros n H0 H1 H2. rewrite fl_flag_or. change BAM_FUNMAP with (2 ^ 2).
    rewrite testbit_or_bit by lia.
    replace (2 =? n) with false by zbool. apply orb_false_r.
Qed.

Lemma sanitized_from_clear_proper x :
  sanitized_from x (flag_clear x BAM_FPROPER_PAIR).
Proof.
  unfold sanitized_from. repeat split; auto.
  - rewrite fl_flag_clear, !tst_unmap. change BAM_FPROPER_PAIR with (2 ^ 1).
    rewrite testbit_clear_bit by lia. intros ->. reflexivity.
  - intros n H0 H1 H2. rewrite fl_flag_clear. change BAM_FPROPER_PAIR with (2 ^ 1).
    rewrite testbit_clear_bit by lia.
    replace (1 =? n) with false by zbool. apply andb_true_r.
Qed.

Lemma sanitized_from_set_pos x : sanitized_from x (set_pos x (-1)).
Proof. unfold sanitized_from. repeat split; auto. Qed.

Lemma sanitized_from_set_qual x : sanitized_from x (set_qual x 0).
Proof. unfold sanitized_from. repeat split; auto. Qed.

Lemma sanitized_from_unset x :
  tst (fl x) BAM_FUNMAP = true ->
  sanitized_from x (set_tid (set_pos x (-1)) (-1)).
Proof. intros H. unfold sanitized_from. repeat split; auto. Qed.

Lemma sanitized_from_resize b cg : sanitized_from b (trim_resize b cg).
Proof.
  apply sanitized_from_core;
    [apply trim_resize_core|apply trim_resize_qname|apply trim_resize_seq
    |apply trim_resize_qual].
Qed.

Lemma bam_trim_sanitized b end_ b' : bam_trim b end_ = Ok b' -> sanitized_from b b'.
Proof.
  unfold bam_trim. destruct (trim_find _ _ _ _) as [[i p]|].
  2:{ intros H. inversion H. apply sanitized_from_refl. }
  destruct (p - _ <? end_); [|destruct (p >? end_)];
    destruct (trim_tail _ _) as [nc| | | |]; try discriminate;
    cbn [rbind]; intros H; inversion H; subst b'.
  - apply sanitized_from_resize.
  - eapply sanitized_from_trans; [apply sanitized_from_unmap|].
    eapply sanitized_from_trans; [apply sanitized_from_clear_proper|].
    apply sanitized_from_resize.
  - apply sanitized_from_resize.
Qed.

Lemma sanitize_pos_sanitized b flags : sanitized_from b (sanitize_pos b flags).
Proof.
  unfold sanitize_pos. destruct (_ && _); [|apply sanitized_from_refl].
  destruct (tst flags FIX_UNMAP); [|apply sanitized_from_set_pos].
  eapply sanitized_from_trans; [apply sanitized_from_set_pos|].
  apply sanitized_from_unmap.
Qed.

Lemma tst_flag_or_unmap b : tst (fl (flag_or b BAM_FUNMAP)) BAM_FUNMAP = true.
Proof.
  rewrite fl_flag_or, tst_unmap. change BAM_FUNMAP with (2 ^ 2).
  rewrite testbit_or_bit by lia. apply orb_true_r.
Qed.

Lemma sanitize_mapped_sanitized h b flags b' :
  sanitize_mapped h b flags = Ok b' -> sanitized_from b b'.
Proof.
  unfold sanitize_mapped.
  destruct (_ && _); [|intros H; inversion H; apply sanitized_from_refl].
  destruct (_ && _); [intros H; inversion H; apply sanitized_from_unmap|].
  destruct (_ && _).
  - destruct (tst flags FIX_POS); intros H; inversion H.
    + eapply sanitized_from_trans; [apply sanitized_from_unmap|].
      apply sanitized_from_unset. apply tst_flag_or_unmap.
    + apply sanitized_from_unmap.
  - destruct (bam_endpos b >? _); [apply bam_trim_sanitized|].
    intros H; inversion H; apply sanitized_from_refl.
Qed.

Lemma sanitize_aux_sanitized b b' : sanitize_aux b = Ok b' -> sanitized_from b b'.
Proof.
  unfold sanitize_aux. destruct (bam_aux_first _).
  - destruct (aux_filter_loop _ _ _ _) as [r| | | |]; try discriminate.
    cbn [rbind]. intros H. inversion H. now apply sanitized_from_core.
  - intros H. inversion H. apply sanitized_from_refl.
  - intros H. inversion H. apply sanitized_from_refl.
Qed.

Lemma sanitize_cigar_qual_sanitized b flags :
  sanitized_from b (sanitize_cigar_qual b flags).
Proof.
  unfold sanitize_cigar_qual.
  destruct (_ && _), (tst flags FIX_MQUAL).
  - eapply sanitized_from_trans; [|apply sanitized_from_set_qual].
    now apply sanitized_from_core.
  - now apply sanitized_from_core.
  - apply sanitized_from_set_qual.
  - apply sanitized_from_refl.
Qed.

Lemma sanitize_unmapped_sanitized b flags b' :
  sanitize_unmapped b flags = Ok b' -> sanitized_from b b'.
Proof.
  unfold sanitize_unmapped. destruct (tst (fl b) BAM_FUNMAP).
  2:{ intros H; inversion H; apply sanitized_from_refl. }
  pose proof (sanitize_cigar_qual_sanitized b flags) as Hc.
  destruct (tst flags FIX_AUX).
  - intros H. apply sanitize_aux_sanitized in H.
    eapply sanitized_from_trans; eassumption.
  - intros H; inversion H; subst. exact Hc.
Qed.

Lemma bam_sanitize_sanitized h b flags b' :
  bam_sanitize h b flags = Ok b' -> sanitized_from b b'.
Proof.
  unfold bam_sanitize.
  destruct (sanitize_mapped h (sanitize_pos b flags) flags) as [b1| | | |] eqn:E;
    try discriminate.
  cbn [rbind]. intros H.
  eapply sanitized_from_trans; [apply sanitize_pos_sanitized|].
  eapply sanitized_from_trans; [eapply sanitize_mapped_sanitized; eassumption|].
  eapply sanitize_unmapped_sanitized; eassumption.
Qed.

(** X8.  [bam_sanitize] never changes the name, the bases, the qualities, the
    mate reference, the mate position or the insert size.  The mapping
    quality is kept or set to 0; the position is kept or set to -1; the
    reference is kept, or set to -1 together with the position on a record
    then flagged unmapped.  The unmapped flag is never cleared, and of the
    flag bits only proper-pair (0x2) and unmapped (0x4) can change. *)
Theorem bam_sanitize_frame (h : sam_hdr_t) (b : bam1_t) (flags : Z) (b' : bam1_t) :
  bam_sanitize h b flags = Ok b' ->
  d_qname b' = d_qname b /\ d_seq b' = d_seq b /\ d_qual b' = d_qual b
  /\ mtid (core b') = mtid (core b) /\ mpos (core b') = mpos (core b)
  /\ isize (core b') = isize (core b)
  /\ (qual (core b') = qual (core b) \/ qual (core b') = 0)
  /\ (pos (core b') = pos (core b) \/ pos (core b') = -1)
  /\ (tid (core b') = tid (core b)
      \/ (tid (core b') = -1 /\ pos (core b') = -1
          /\ tst (fl b') BAM_FUNMAP = true))
  /\ (tst (fl b) BAM_FUNMAP = true -> tst (fl b') BAM_FUNMAP = true)
  /\ (forall n, 0 <= n -> n <> 1 -> n <> 2 ->
        Z.testbit (fl b') n = Z.testbit (fl b) n).
Proof. apply bam_sanitize_sanitized. Qed.

Lemma bam_sanitize_frame_witness :
  let b := sample_read "r" (Z.lor BAM_FPAIRED BAM_FREVERSE) 0 2000
             [cigar_op 50 BAM_CMATCH] [] in
  exists b',
    bam_sanitize [1000] b FIX_ALL = Ok b'
    /\ tst (fl b') BAM_FUNMAP = true /\ tst (fl b') BAM_FREVERSE = true
    /\ tid (core b') = -1 /\ pos (core b') = -1 /\ qual (core b') = 0
    /\ d_qname b' = d_qname b /\ mpos (core b') = mpos (core b).
Proof.
  eexists. split; [reflexivity|].
  pose proof (bam_sanitize_frame [1000]
                (sample_read "r" (Z.lor BAM_FPAIRED BAM_FREVERSE) 0 2000
                   [cigar_op 50 BAM_CMATCH] [])
                FIX_ALL _ eq_refl) as (H1 & _ & _ & _ & H5 & _).
  repeat split; try reflexivity; assumption.
Defined.

(** ** bam_sanitize: what it establishes *)

Lemma bam_trim_aux_cigar b end_ b' :
  bam_trim b end_ = Ok b' -> d_aux b' = d_aux b.
Proof.
  unfold bam_trim. destruct (trim_find _ _ _ _) as [[i p]|].
  2:{ intros H. now inversion H. }
  destruct (p - _ <? end_); [|destruct (p >? end_)];
    destruct (trim_tail _ _) as [nc| | | |]; try discriminate;
    cbn [rbind]; intros H; inversion H; now rewrite trim_resize_aux.
Qed.

Lemma sanitize_pos_data b flags :
  d_aux (sanitize_pos b flags) = d_aux b
  /\ d_cigar (sanitize_pos b flags) = d_cigar b.
Proof.
  unfold sanitize_pos. destruct (_ && _); [|now split].
  destruct (tst flags FIX_UNMAP); now split.
Qed.

Lemma sanitize_mapped_aux h b flags b' :
  sanitize_mapped h b flags = Ok b' -> d_aux b' = d_aux b.
Proof.
  unfold sanitize_mapped.
  destruct (_ && _); [|intros H; now inversion H].
  destruct (_ && _); [intros H; now inversion H|].
  destruct (_ && _).
  - destruct (tst flags FIX_POS); intros H; now inversion H.
  - destruct (bam_endpos b >? _); [apply bam_trim_aux_cigar|].
    intros H; now inversion H.
Qed.

(** the alignment end of a mapped record with a reference span *)
Lemma bam_endpos_mapped b :
  tst (fl b) BAM_FUNMAP = false -> 0 < bam_cigar2rlen (d_cigar b) ->
  bam_endpos b = pos (core b) + bam_cigar2rlen (d_cigar b).
Proof.
  intros Hm Hr. unfold bam_endpos. rewrite Hm.
  replace (bam_cigar2rlen (d_cigar b) =? 0) with false by zbool. reflexivity.
Qed.

Lemma bam_endpos_span b :
  Forall cigar_word (d_cigar b) ->
  (bam_endpos b = pos (core b) + 1
   /\ (tst (fl b) BAM_FUNMAP = true \/ bam_cigar2rlen (d_cigar b) = 0))
  \/ (bam_endpos b = pos (core b) + bam_cigar2rlen (d_cigar b)
      /\ tst (fl b) BAM_FUNMAP = false /\ 0 < bam_cigar2rlen (d_cigar b)).
Proof.
  intros Hw. pose proof (bam_cigar2rlen_nonneg _ Hw) as Hnn.
  unfold bam_endpos. destruct (tst (fl b) BAM_FUNMAP).
  - left. cbn. split; [reflexivity|now left].
  - destruct (Z.eqb_spec (bam_cigar2rlen (d_cigar b)) 0) as [E|E].
    + left. split; [reflexivity|now right].
    + right. repeat split; lia.
Qed.

(** The second block on a record that it leaves mapped: the record is
    inside its reference, and the block would not change it again. *)
Lemma sanitize_mapped_bounds h b flags b' :
  Forall cigar_word (d_cigar b) ->
  tst flags FIX_CIGAR = true ->
  sanitize_mapped h b flags = Ok b' ->
  tst (fl b') BAM_FUNMAP = false ->
  tid (core b') = tid (core b) /\ pos (core b') = pos (core b)
  /\ (tst flags FIX_UNMAP = true ->
      0 <= pos (core b') < sam_hdr_tid2len h (tid (core b'))
      /\ bam_endpos b' <= sam_hdr_tid2len h (tid (core b'))).
Proof.
  intros Hw Hcg H Hm. unfold sanitize_mapped in H. rewrite Hcg in H.
  destruct (tst (fl b) BAM_FUNMAP) eqn:Hb; cbn [negb andb] in H.
  { injection H as <-. congruence. }
  destruct (Z.ltb_spec (pos (core b)) 0) as [Hneg|Hpos]; cbn [andb] in H.
  - destruct (tst flags FIX_UNMAP) eqn:Hu.
    { injection H as <-. rewrite tst_flag_or_unmap in Hm. discriminate. }
    assert (((pos (core b) >=? sam_hdr_tid2len h (tid (core b))) && false) = false)
      as Hf by apply andb_false_r.
    rewrite Hf in H.
    destruct (bam_endpos b >? _).
    + destruct (bam_trim_cases _ _ _ Hw H) as [(-> & _)|[(Hc & _)|(_ & _ & Hx & _)]].
      * repeat split; discriminate.
      * rewrite Hc. repeat split; discriminate.
      * congruence.
    + injection H as <-. repeat split; discriminate.
  - destruct (Z.geb_spec (pos (core b)) (sam_hdr_tid2len h (tid (core b))))
      as [Hge|Hlt]; cbn [andb] in H.
    + destruct (tst flags FIX_UNMAP) eqn:Hu.
      { destruct (tst flags FIX_POS); injection H as <-;
          [change (fl (set_tid (set_pos ?x _) _)) with (fl x) in Hm|];
          rewrite tst_flag_or_unmap in Hm; discriminate. }
      destruct (bam_endpos b >? _).
      * destruct (bam_trim_cases _ _ _ Hw H) as [(-> & _)|[(Hc & _)|(_ & _ & Hx & _)]].
        -- repeat split; discriminate.
        -- rewrite Hc. repeat split; discriminate.
        -- congruence.
      * injection H as <-. repeat split; discriminate.
    + destruct (Z.gtb_spec (bam_endpos b) (sam_hdr_tid2len h (tid (core b))))
        as [Hend|Hend].
      * destruct (bam_trim_cases _ _ _ Hw H)
          as [(-> & Hfit)|[(Hc & Hrange & Hcut)|(_ & _ & Hx & _)]].
        -- exfalso.
           destruct (bam_endpos_span b Hw) as [(E & _)|(E & _ & Hr)].
           ++ lia.
           ++ destruct Hfit as [Hfit|Hno]; [lia|].
              rewrite (bam_cigar2rlen_no_ref _ Hno) in Hr. lia.
        -- rewrite Hc. repeat split; try lia.
           rewrite bam_endpos_mapped; [rewrite Hc; lia|exact Hm|lia].
        -- congruence.
      * injection H as <-. repeat split; lia.
Qed.

Lemma sam_hdr_tid2len_pos h t : 0 < sam_hdr_tid2len h t -> 0 <= t.
Proof.
  unfold sam_hdr_tid2len. destruct (Z.ltb_spec t 0); lia.
Qed.

Lemma sanitize_unmapped_flag b flags b' :
  sanitize_unmapped b flags = Ok b' -> fl b' = fl b.
Proof.
  unfold sanitize_unmapped. destruct (tst (fl b) BAM_FUNMAP).
  2:{ intros H; now inversion H. }
  pose proof (sanitize_cigar_qual_frame b flags) as [_ Hf].
  destruct (tst flags FIX_AUX).
  - unfold sanitize_aux. destruct (bam_aux_first _).
    + destruct (aux_filter_loop _ _ _ _) as [r| | | |]; try discriminate.
      cbn [rbind]. intros H. inversion H. exact Hf.
    + intros H. inversion H. subst. exact Hf.
    + intros H. inversion H. subst. exact Hf.
  - intros H. inversion H. subst. exact Hf.
Qed.

Lemma sanitize_unmapped_mapped b flags :
  tst (fl b) BAM_FUNMAP = false -> sanitize_unmapped b flags = Ok b.
Proof. intros H. unfold sanitize_unmapped. now rewrite H. Qed.

Lemma sanitize_pos_mapped b flags :
  tst flags FIX_UNMAP = true ->
  tst (fl (sanitize_pos b flags)) BAM_FUNMAP = false ->
  sanitize_pos b flags = b.
Proof.
  intros Hu. unfold sanitize_pos. destruct (_ && _); [|reflexivity].
  rewrite Hu, tst_flag_or_unmap. discriminate.
Qed.

(** X9.  With [FIX_CIGAR] and [FIX_UNMAP] set, a record that [bam_sanitize]
    returns without the unmapped flag has a valid reference, a position
    inside that reference and an alignment end ([bam_endpos]) not beyond the
    length of the reference; its reference and position are those of the
    input. *)
Theorem sanitize_mapped_in_bounds (h : sam_hdr_t) (b : bam1_t) (flags : Z)
    (b' : bam1_t) :
  tst flags FIX_CIGAR = true ->
  tst flags FIX_UNMAP = true ->
  Forall cigar_word (d_cigar b) ->
  bam_sanitize h b flags = Ok b' ->
  tst (fl b') BAM_FUNMAP = false ->
  0 <= tid (core b')
  /\ 0 <= pos (core b') < sam_hdr_tid2len h (tid (core b'))
  /\ bam_endpos b' <= sam_hdr_tid2len h (tid (core b'))
  /\ tid (core b') = tid (core b) /\ pos (core b') = pos (core b).
Proof.
  intros Hcg Hu Hw H Hm. unfold bam_sanitize in H.
  destruct (sanitize_mapped h (sanitize_pos b flags) flags) as [b1| | | |] eqn:E;
    try discriminate.
  cbn [rbind] in H.
  pose proof (sanitize_unmapped_flag _ _ _ H) as Hfl.
  assert (tst (fl b1) BAM_FUNMAP = false) as Hm1 by (now rewrite <- Hfl).
  rewrite (sanitize_unmapped_mapped _ _ Hm1) in H. injection H as <-.
  assert (tst (fl (sanitize_pos b flags)) BAM_FUNMAP = false) as Hm0.
  { destruct (tst (fl (sanitize_pos b flags)) BAM_FUNMAP) eqn:E0; [|reflexivity].
    pose proof (sanitize_mapped_sanitized _ _ _ _ E)
      as (_ & _ & _ & _ & _ & _ & _ & _ & _ & Hmono & _).
    rewrite Hmono in Hm1 by exact E0. discriminate. }
  rewrite (sanitize_pos_mapped _ _ Hu Hm0) in E.
  destruct (sanitize_mapped_bounds h b flags b1 Hw Hcg E Hm1) as (Ht & Hp & Hb).
  destruct (Hb Hu) as [Hpos Hend].
  split; [apply (sam_hdr_tid2len_pos h); lia|]. tauto.
Qed.

Lemma sanitize_mapped_in_bounds_witness :
  let b := sample_read "r" 0 0 950 [cigar_op 100 BAM_CMATCH] [] in
  exists b',
    bam_sanitize [1000] b FIX_ALL = Ok b'
    /\ 0 <= tid (core b')
    /\ 0 <= pos (core b') < 1000
    /\ bam_endpos b' <= 1000.
Proof.
  eexists. split; [reflexivity|].
  pose proof (sanitize_mapped_in_bounds [1000]
                (sample_read "r" 0 0 950 [cigar_op 100 BAM_CMATCH] [])
                FIX_ALL _ eq_refl eq_refl
                ltac:(repeat constructor; vm_compute; congruence)
                eq_refl eq_refl) as (H1 & H2 & H3 & _).
  repeat split; first [apply H1 | apply H2 | apply H3].
Defined.

(** ** bam_sanitize: unmapped records *)

Lemma sanitize_cigar_qual_result b flags :
  (tst flags FIX_CIGAR = true -> d_cigar (sanitize_cigar_qual b flags) = [])
  /\ (tst flags FIX_MQUAL = true -> qual (core (sanitize_cigar_qual b flags)) = 0).
Proof.
  unfold sanitize_cigar_qual. split; intros ->; cbn [andb].
  - assert (d_cigar (if n_cigar b >? 0 then clear_cigar b else b) = []) as Hx.
    { destruct (Z.gtb_spec (n_cigar b) 0) as [Hgt|Hle]; [reflexivity|].
      unfold n_cigar in Hle. destruct (d_cigar b); [reflexivity|].
      cbn [length] in Hle. lia. }
    destruct (tst flags FIX_MQUAL); exact Hx.
  - reflexivity.
Qed.

Lemma sanitize_aux_cigar_core b b' :
  sanitize_aux b = Ok b' -> d_cigar b' = d_cigar b /\ core b' = core b.
Proof.
  unfold sanitize_aux. destruct (bam_aux_first _).
  - destruct (aux_filter_loop _ _ _ _) as [r| | | |]; try discriminate.
    cbn [rbind]. intros H. inversion H. now split.
  - intros H. inversion H. now split.
  - intros H. inversion H. now split.
Qed.

Lemma key_offset_absent k0 k1 es :
  Forall (fun e => entry_has_key k0 k1 e = false) es -> key_offset k0 k1 es = None.
Proof.
  induction 1 as [|e es He _ IH]; [reflexivity|].
  rewrite key_offset_cons, He, IH. reflexivity.
Qed.

Lemma kept_entries_keys es :
  Forall (fun e => sanitized_away e = false) (kept_entries es).
Proof.
  induction es as [|e es IH]; [constructor|].
  rewrite kept_entries_cons. destruct (sanitized_away e) eqn:E; cbn [negb].
  - exact IH.
  - now constructor.
Qed.

Lemma kept_entries_wf es : Forall aux_entry es -> Forall aux_entry (kept_entries es).
Proof.
  induction 1 as [|e es He _ IH]; [constructor|].
  rewrite kept_entries_cons. destruct (sanitized_away e); cbn [negb];
    [exact IH|now constructor].
Qed.

Lemma kept_entries_idem es : kept_entries (kept_entries es) = kept_entries es.
Proof.
  induction es as [|e es IH]; [reflexivity|].
  rewrite kept_entries_cons. destruct (sanitized_away e) eqn:E; cbn [negb].
  - exact IH.
  - rewrite kept_entries_cons, E. cbn [negb]. now rewrite IH.
Qed.

(** the third block on a record flagged unmapped *)
Lemma sanitize_unmapped_result b flags b' es :
  tst (fl b) BAM_FUNMAP = true ->
  d_aux b = concat es ->
  Forall aux_entry es ->
  sanitize_unmapped b flags = Ok b' ->
  (tst flags FIX_CIGAR = true -> d_cigar b' = [])
  /\ (tst flags FIX_MQUAL = true -> qual (core b') = 0)
  /\ d_aux b' = concat (if tst flags FIX_AUX then kept_entries es else es).
Proof.
  intros Hu Hd Hwf H. unfold sanitize_unmapped in H. rewrite Hu in H.
  pose proof (sanitize_cigar_qual_result b flags) as [Hc Hq].
  pose proof (sanitize_cigar_qual_frame b flags) as [Ha _].
  destruct (tst flags FIX_AUX).
  - rewrite (sanitize_aux_entries _ es) in H by first [assumption | rewrite Ha; assumption].
    injection H as <-. repeat split; auto.
  - injection H as <-. repeat split; auto. now rewrite Ha.
Qed.

(** X10.  For a record that [bam_sanitize] returns flagged unmapped (the tags of
    the input being well formed): with [FIX_CIGAR] its CIGAR is empty, with
    [FIX_MQUAL] its mapping quality is 0, and with [FIX_AUX] its tags are
    the entries of the input without NM, MD, CG and SM, none of which is
    found any more. *)
Theorem sanitize_unmapped_output (h : sam_hdr_t) (b : bam1_t) (flags : Z)
    (b' : bam1_t) (es : list (list byte)) :
  d_aux b = concat es ->
  Forall aux_entry es ->
  bam_sanitize h b flags = Ok b' ->
  tst (fl b') BAM_FUNMAP = true ->
  (tst flags FIX_CIGAR = true -> d_cigar b' = [])
  /\ (tst flags FIX_MQUAL = true -> qual (core b') = 0)
  /\ (tst flags FIX_AUX = true ->
      d_aux b' = concat (kept_entries es)
      /\ bam_aux_get (d_aux b') "N" "M" = None
      /\ bam_aux_get (d_aux b') "M" "D" = None
      /\ bam_aux_get (d_aux b') "C" "G" = None
      /\ bam_aux_get (d_aux b') "S" "M" = None).
Proof.
  intros Hd Hwf H Hu. unfold bam_sanitize in H.
  destruct (sanitize_mapped h (sanitize_pos b flags) flags) as [b1| | | |] eqn:E;
    try discriminate.
  cbn [rbind] in H.
  pose proof (sanitize_unmapped_flag _ _ _ H) as Hfl.
  assert (tst (fl b1) BAM_FUNMAP = true) as Hu1 by (now rewrite <- Hfl).
  assert (d_aux b1 = concat es) as Hd1.
  { rewrite (sanitize_mapped_aux _ _ _ _ E).
    now rewrite (proj1 (sanitize_pos_data b flags)). }
  destruct (sanitize_unmapped_result b1 flags b' es Hu1 Hd1 Hwf H) as (Hc & Hq & Ha).
  split; [exact Hc|]. split; [exact Hq|].
  intros Hx. rewrite Hx in Ha. split; [exact Ha|].
  rewrite Ha.
  pose proof (kept_entries_wf es Hwf) as Hkw.
  pose proof (kept_entries_keys es) as Hkk.
  rewrite !bam_aux_get_entries by exact Hkw.
  rewrite !key_offset_absent; [repeat split; reflexivity| | | |];
    (eapply Forall_impl; [exact Hkk|]); intros e He; unfold sanitized_away in He;
    repeat match type of He with
           | _ || _ = false => apply orb_false_iff in He; destruct He as [He ?]
           end; assumption.
Qed.

Lemma sanitize_unmapped_output_witness :
  let es := [list_byte_of_string "NMC" ++ [x05];
             list_byte_of_string "RGZg" ++ [x00];
             list_byte_of_string "MDZ1" ++ [x00]] in
  let b := sample_read "r" 0 (-1) 5 [cigar_op 100 BAM_CMATCH] (concat es) in
  exists b',
    bam_sanitize [1000] b FIX_ALL = Ok b'
    /\ d_cigar b' = [] /\ qual (core b') = 0
    /\ d_aux b' = list_byte_of_string "RGZg" ++ [x00]
    /\ bam_aux_get (d_aux b') "N" "M" = None.
Proof.
  eexists. split; [reflexivity|].
  match goal with
  | |- d_cigar ?b' = [] /\ _ =>
      destruct (sanitize_unmapped_output [1000]
                  (sample_read "r" 0 (-1) 5 [cigar_op 100 BAM_CMATCH]
                     (concat [list_byte_of_string "NMC" ++ [x05];
                              list_byte_of_string "RGZg" ++ [x00];
                              list_byte_of_string "MDZ1" ++ [x00]]))
                  FIX_ALL b'
                  [list_byte_of_string "NMC" ++ [x05];
                   list_byte_of_string "RGZg" ++ [x00];
                   list_byte_of_string "MDZ1" ++ [x00]]
                  eq_refl) as (H1 & H2 & H3)
  end.
  - constructor 2.
    { apply (aux_fixed "N" "M" "C" [x05]); reflexivity. }
    constructor 2.
    { apply (aux_string "R" "G" "Z" (list_byte_of_string "g")); [now left|].
      repeat (constructor 2; [discriminate|]). constructor 1. }
    constructor 2.
    { apply (aux_string "M" "D" "Z" (list_byte_of_string "1")); [now left|].
      repeat (constructor 2; [discriminate|]). constructor 1. }
    constructor 1.
  - reflexivity.
  - reflexivity.
  - destruct (H3 eq_refl) as (H4 & H5 & _).
    split; [apply H1; reflexivity|]. split; [apply H2; reflexivity|].
    split; [reflexivity|exact H5].
Defined.

(** ** bam_sanitize: a second run changes nothing *)

Lemma set_pos_same b : set_pos b (pos (core b)) = b.
Proof. destruct b as [[] ? ? ? ? ?]. reflexivity. Qed.

Lemma set_qual_same b : set_qual b (qual (core b)) = b.
Proof. destruct b as [[] ? ? ? ? ?]. reflexivity. Qed.

Lemma set_flag_same b : set_flag b (fl b) = b.
Proof. destruct b as [[] ? ? ? ? ?]. reflexivity. Qed.

Lemma lor_unmap_set x : tst x BAM_FUNMAP = true -> Z.lor x BAM_FUNMAP = x.
Proof.
  rewrite tst_unmap. intros H. apply Z.bits_inj'. intros n Hn.
  change BAM_FUNMAP with (2 ^ 2). rewrite testbit_or_bit by lia.
  destruct (Z.eqb_spec 2 n) as [<-|_].
  - rewrite H. reflexivity.
  - apply orb_false_r.
Qed.

Lemma flag_or_unmap_same b : tst (fl b) BAM_FUNMAP = true -> flag_or b BAM_FUNMAP = b.
Proof.
  intros H. unfold flag_or. rewrite (lor_unmap_set _ H). apply set_flag_same.
Qed.

(** the first block has nothing to do on a record without reference whose
    position is unset and which is flagged unmapped when that is asked *)
Lemma sanitize_pos_fix b flags :
  (tst flags FIX_POS && (tid (core b) <? 0) = true ->
   pos (core b) = -1
   /\ (tst flags FIX_UNMAP = true -> tst (fl b) BAM_FUNMAP = true)) ->
  sanitize_pos b flags = b.
Proof.
  intros H. unfold sanitize_pos.
  destruct (tst flags FIX_POS && (tid (core b) <? 0)); [|reflexivity].
  destruct (H eq_refl) as [Hp Hu]. rewrite <- Hp, set_pos_same.
  destruct (tst flags FIX_UNMAP); [|reflexivity].
  apply flag_or_unmap_same. now apply Hu.
Qed.

Lemma sanitize_pos_done b flags :
  let b0 := sanitize_pos b flags in
  tst flags FIX_POS && (tid (core b0) <? 0) = true ->
  pos (core b0) = -1
  /\ (tst flags FIX_UNMAP = true -> tst (fl b0) BAM_FUNMAP = true).
Proof.
  unfold sanitize_pos.
  destruct (tst flags FIX_POS && (tid (core b) <? 0)) eqn:C.
  - destruct (tst flags FIX_UNMAP); cbn zeta; intros _.
    + split; [reflexivity|]. intros _. apply tst_flag_or_unmap.
    + split; [reflexivity|discriminate].
  - cbn zeta. rewrite C. discriminate.
Qed.

Lemma sanitize_pos_done_later x y flags :
  sanitized_from x y ->
  (tst flags FIX_POS && (tid (core x) <? 0) = true ->
   pos (core x) = -1
   /\ (tst flags FIX_UNMAP = true -> tst (fl x) BAM_FUNMAP = true)) ->
  tst flags FIX_POS && (tid (core y) <? 0) = true ->
  pos (core y) = -1
  /\ (tst flags FIX_UNMAP = true -> tst (fl y) BAM_FUNMAP = true).
Proof.
  intros (_ & _ & _ & _ & _ & _ & _ & Hp & Ht & Hu & _) Hx Hy.
  destruct Ht as [Ht|(_ & Hp' & Hu')]; [|now split].
  rewrite Ht in Hy. destruct (Hx Hy) as [Hxp Hxu].
  split.
  - destruct Hp as [-> | ->]; [exact Hxp|reflexivity].
  - intros Hf. apply Hu. now apply Hxu.
Qed.

Lemma sanitize_mapped_skip h b flags :
  tst (fl b) BAM_FUNMAP = true -> sanitize_mapped h b flags = Ok b.
Proof.
  intros H. unfold sanitize_mapped. rewrite H. cbn [negb].
  now rewrite andb_false_r.
Qed.

Lemma sanitize_mapped_idem h b flags b1 :
  Forall cigar_word (d_cigar b) ->
  sanitize_mapped h b flags = Ok b1 ->
  sanitize_mapped h b1 flags = Ok b1.
Proof.
  intros Hw H0.
  destruct (tst (fl b1) BAM_FUNMAP) eqn:Hm1; [now apply sanitize_mapped_skip|].
  pose proof H0 as H. unfold sanitize_mapped in H.
  destruct (tst flags FIX_CIGAR) eqn:Hcg; cbn [andb] in H.
  2:{ injection H as <-. exact H0. }
  destruct (tst (fl b) BAM_FUNMAP) eqn:Hb; cbn [negb andb] in H.
  { injection H as <-. exact H0. }
  destruct ((pos (core b) <? 0) && tst flags FIX_UNMAP) eqn:EA.
  { injection H as <-. rewrite tst_flag_or_unmap in Hm1. discriminate. }
  destruct ((pos (core b) >=? sam_hdr_tid2len h (tid (core b)))
            && tst flags FIX_UNMAP) eqn:EB.
  { destruct (tst flags FIX_POS); injection H as <-;
      [change (fl (set_tid (set_pos ?x _) _)) with (fl x) in Hm1|];
      rewrite tst_flag_or_unmap in Hm1; discriminate. }
  destruct (Z.gtb_spec (bam_endpos b) (sam_hdr_tid2len h (tid (core b))))
    as [Hend|Hend].
  2:{ injection H as <-. exact H0. }
  destruct (bam_trim_cases _ _ _ Hw H)
    as [(-> & _)|[(Hc & Hrange & Hcut)|(_ & _ & Hx & _)]].
  - exact H0.
  - unfold sanitize_mapped. unfold fl in *. rewrite Hc, Hcg, Hb. cbn [negb andb].
    rewrite EA, EB.
    assert (bam_endpos b1 = sam_hdr_tid2len h (tid (core b))) as He.
    { rewrite bam_endpos_mapped; [rewrite Hc; lia | unfold fl; now rewrite Hc | lia]. }
    rewrite He.
    replace (sam_hdr_tid2len h (tid (core b)) >? sam_hdr_tid2len h (tid (core b)))
      with false by zbool.
    reflexivity.
  - congruence.
Qed.

Lemma sanitize_cigar_qual_fix b flags :
  (tst flags FIX_CIGAR = true -> d_cigar b = []) ->
  (tst flags FIX_MQUAL = true -> qual (core b) = 0) ->
  sanitize_cigar_qual b flags = b.
Proof.
  intros Hc Hq. unfold sanitize_cigar_qual.
  assert ((tst flags FIX_CIGAR && (n_cigar b >? 0)) = false) as ->.
  { destruct (tst flags FIX_CIGAR); [|reflexivity]. cbn [andb].
    unfold n_cigar. now rewrite Hc. }
  destruct (tst flags FIX_MQUAL); [|reflexivity].
  rewrite <- Hq by reflexivity. apply set_qual_same.
Qed.

Lemma sanitize_unmapped_idem b flags b' es :
  d_aux b = concat es ->
  Forall aux_entry es ->
  sanitize_unmapped b flags = Ok b' ->
  sanitize_unmapped b' flags = Ok b'.
Proof.
  intros Hd Hwf H.
  destruct (tst (fl b) BAM_FUNMAP) eqn:Hu.
  2:{ rewrite (sanitize_unmapped_mapped _ _ Hu) in H. injection H as <-.
      now apply sanitize_unmapped_mapped. }
  pose proof (sanitize_unmapped_flag _ _ _ H) as Hfl.
  destruct (sanitize_unmapped_result b flags b' es Hu Hd Hwf H) as (Hc & Hq & Ha).
  unfold sanitize_unmapped. rewrite Hfl, Hu.
  rewrite (sanitize_cigar_qual_fix b' flags Hc Hq).
  destruct (tst flags FIX_AUX); [|reflexivity].
  rewrite (sanitize_aux_entries b' (kept_entries es) Ha (kept_entries_wf es Hwf)).
  rewrite kept_entries_idem, <- Ha. now rewrite with_aux_same.
Qed.

Lemma bam_sanitize_idem (h : sam_hdr_t) (b : bam1_t) (flags : Z)
    (b' : bam1_t) (es : list (list byte)) :
  Forall cigar_word (d_cigar b) ->
  d_aux b = concat es ->
  Forall aux_entry es ->
  bam_sanitize h b flags = Ok b' ->
  bam_sanitize h b' flags = Ok b'.
Proof.
  intros Hw Hd Hwf H. unfold bam_sanitize in H.
  destruct (sanitize_mapped h (sanitize_pos b flags) flags) as [b1| | | |] eqn:E;
    try discriminate.
  cbn [rbind] in H.
  pose proof (sanitize_pos_data b flags) as [Ha0 Hc0].
  assert (sanitize_pos b' flags = b') as Hp.
  { apply sanitize_pos_fix.
    apply (sanitize_pos_done_later (sanitize_pos b flags) b').
    - eapply sanitized_from_trans; [eapply sanitize_mapped_sanitized; exact E|].
      eapply sanitize_unmapped_sanitized; exact H.
    - apply sanitize_pos_done. }
  assert (sanitize_mapped h b' flags = Ok b') as Hmm.
  { destruct (tst (fl b') BAM_FUNMAP) eqn:Hu; [now apply sanitize_mapped_skip|].
    pose proof (sanitize_unmapped_flag _ _ _ H) as Hfl.
    assert (tst (fl b1) BAM_FUNMAP = false) as Hm1 by (now rewrite <- Hfl).
    rewrite (sanitize_unmapped_mapped _ _ Hm1) in H. injection H as <-.
    eapply sanitize_mapped_idem; [|exact E]. now rewrite Hc0. }
  unfold bam_sanitize. rewrite Hp, Hmm. cbn [rbind].
  eapply sanitize_unmapped_idem; [| exact Hwf | exact H].
  rewrite (sanitize_mapped_aux _ _ _ _ E), Ha0. exact Hd.
Qed.

(** X11.  Sanitizing is idempotent: if [bam_sanitize] returns 0 and leaves the
    record [b'], then running it again on [b'] with the same header and
    flags returns 0 and changes nothing. *)
Theorem bam_sanitize_idempotent (h : sam_hdr_t) (b : bam1_t) (flags : Z)
    (b' : bam1_t) (es : list (list byte)) :
  Forall cigar_word (d_cigar b) ->
  d_aux b = concat es ->
  Forall aux_entry es ->
  bam_sanitize h b flags = Ok b' ->
  bam_sanitize h b' flags = Ok b'.
Proof. apply bam_sanitize_idem. Qed.

Lemma bam_sanitize_idempotent_witness :
  let b := sample_read "r" 0 0 950 [cigar_op 100 BAM_CMATCH]
             (list_byte_of_string "NMC" ++ [x05]) in
  let b' := with_cigar b [cigar_op 50 BAM_CMATCH; cigar_op 50 BAM_CSOFT_CLIP] in
  bam_sanitize [1000] b FIX_ALL = Ok b'
  /\ bam_sanitize [1000] b' FIX_ALL = Ok b'.
Proof.
  split; [reflexivity|].
  apply (bam_sanitize_idempotent [1000]
           (sample_read "r" 0 0 950 [cigar_op 100 BAM_CMATCH]
              (list_byte_of_string "NMC" ++ [x05]))
           FIX_ALL _ [list_byte_of_string "NMC" ++ [x05]]).
  - repeat constructor; vm_compute; congruence.
  - reflexivity.
  - constructor 2; [|constructor 1].
    apply (aux_fixed "N" "M" "C" [x05]); reflexivity.
  - reflexivity.
Defined.

(** ** Replacing a tag: delete, then append *)

Lemma aux_drop_data b k0 k1 :
  d_qname (aux_drop b k0 k1) = d_qname b /\ d_seq (aux_drop b k0 k1) = d_seq b
  /\ d_qual (aux_drop b k0 k1) = d_qual b.
Proof. unfold aux_drop. destruct (bam_aux_get _ _ _); repeat split. Qed.

Lemma remove_first_key_length k0 k1 es :
  (length (concat (remove_first_key k0 k1 es)) <= length (concat es))%nat.
Proof.
  induction es as [|e es IH]; [reflexivity|].
  cbn [remove_first_key]. destruct (entry_has_key k0 k1 e);
    rewrite ?concat_cons, !length_app; lia.
Qed.

Lemma aux_drop_l_data b k0 k1 es :
  d_aux b = concat es -> Forall aux_entry es ->
  l_data (aux_drop b k0 k1) <= l_data b.
Proof.
  intros Hd Hwf. unfold l_data, n_cigar.
  destruct (aux_drop_data b k0 k1) as (-> & -> & ->).
  rewrite (proj2 (aux_drop_frame b k0 k1)).
  rewrite (aux_drop_entries b k0 k1 es Hd Hwf), Hd.
  pose proof (remove_first_key_length k0 k1 es). lia.
Qed.

Lemma bam_aux_append_ok b k0 k1 t data :
  l_data b + 3 + Z.of_nat (length data) <= INT32_MAX ->
  bam_aux_append b k0 k1 t data
  = (with_m_data (with_aux b (d_aux b ++ k0 :: k1 :: t :: data))
       (Z.max (m_data b) (l_data b + 3 + Z.of_nat (length data))), 0).
Proof.
  intros H. unfold bam_aux_append.
  replace (INT32_MAX <? l_data b + 3 + Z.of_nat (length data)) with false by zbool.
  reflexivity.
Qed.

(** delete the first tag with the key, then append a new one *)
Lemma aux_replace_entries b k0 k1 t data es :
  d_aux b = concat es ->
  Forall aux_entry es ->
  aux_entry (k0 :: k1 :: t :: data) ->
  l_data b + 3 + Z.of_nat (length data) <= INT32_MAX ->
  (exists m,
     bam_aux_append (aux_drop b k0 k1) k0 k1 t data
     = (with_m_data
          (with_aux (aux_drop b k0 k1)
             (concat (remove_first_key k0 k1 es ++ [k0 :: k1 :: t :: data]))) m,
        0))
  /\ Forall aux_entry (remove_first_key k0 k1 es ++ [k0 :: k1 :: t :: data]).
Proof.
  intros Hd Hwf He Hsz. split.
  - rewrite bam_aux_append_ok
      by (pose proof (aux_drop_l_data b k0 k1 es Hd Hwf); lia).
    eexists.
    rewrite (aux_drop_entries b k0 k1 es Hd Hwf), concat_app.
    cbn [concat]. now rewrite app_nil_r.
  - apply Forall_app. split; [now apply remove_first_key_wf|].
    constructor; [exact He|constructor].
Qed.

Lemma remove_first_key_count k0 k1 es :
  (key_count k0 k1 es <= 1)%nat ->
  List.filter (entry_has_key k0 k1) (remove_first_key k0 k1 es) = [].
Proof.
  unfold key_count. induction es as [|e es IH]; intros H; [reflexivity|].
  cbn [remove_first_key List.filter] in *.
  destruct (entry_has_key k0 k1 e) eqn:K.
  - cbn [length] in H. destruct (List.filter _ es); [reflexivity|].
    cbn [length] in H. lia.
  - cbn [List.filter]. rewrite K. now apply IH.
Qed.

Lemma byte_eqb_refl x : Byte.eqb x x = true.
Proof. now apply Byte.byte_dec_lb. Qed.

Lemma entry_has_key_same k0 k1 r : entry_has_key k0 k1 (k0 :: k1 :: r) = true.
Proof. cbn [entry_has_key]. now rewrite !byte_eqb_refl. Qed.

Lemma entry_has_key_other k0 k1 c0 c1 e :
  (k0, k1) <> (c0, c1) ->
  entry_has_key k0 k1 e = true -> entry_has_key c0 c1 e = false.
Proof.
  intros Hne. destruct e as [|a [|b r]]; cbn [entry_has_key]; try discriminate.
  intros H. apply andb_true_iff in H. destruct H as [H0 H1].
  apply Byte.byte_dec_bl in H0, H1. subst a b.
  destruct (Byte.eqb k0 c0) eqn:E0; [|reflexivity].
  destruct (Byte.eqb k1 c1) eqn:E1; [|reflexivity].
  apply Byte.byte_dec_bl in E0, E1. subst. contradiction.
Qed.

(** the new tag is the one found under its key *)
Lemma find_replaced k0 k1 r es :
  (key_count k0 k1 es <= 1)%nat ->
  List.find (entry_has_key k0 k1) (remove_first_key k0 k1 es ++ [k0 :: k1 :: r])
  = Some (k0 :: k1 :: r).
Proof.
  intros H. rewrite find_filter, List.filter_app, remove_first_key_count by exact H.
  cbn [app List.filter]. now rewrite entry_has_key_same.
Qed.

(** the tags under every other key are found as before *)
Lemma find_not_replaced k0 k1 c0 c1 r es :
  (k0, k1) <> (c0, c1) ->
  List.find (entry_has_key c0 c1) (remove_first_key k0 k1 es ++ [k0 :: k1 :: r])
  = List.find (entry_has_key c0 c1) es.
Proof.
  intros Hne. rewrite !find_filter, List.filter_app.
  rewrite (remove_first_key_other k0 k1 c0 c1)
    by (intros e; now apply entry_has_key_other).
  cbn [List.filter].
  rewrite (entry_has_key_other k0 k1 c0 c1 _ Hne (entry_has_key_same k0 k1 r)).
  now rewrite app_nil_r.
Qed.

Lemma key_count_not_replaced k0 k1 c0 c1 r es :
  (k0, k1) <> (c0, c1) ->
  key_count c0 c1 (remove_first_key k0 k1 es ++ [k0 :: k1 :: r])
  = key_count c0 c1 es.
Proof.
  intros Hne. unfold key_count. rewrite List.filter_app.
  rewrite (remove_first_key_other k0 k1 c0 c1)
    by (intros e; now apply entry_has_key_other).
  cbn [List.filter].
  rewrite (entry_has_key_other k0 k1 c0 c1 _ Hne (entry_has_key_same k0 k1 r)).
  now rewrite app_nil_r.
Qed.

Lemma key_count_replaced k0 k1 r es :
  (key_count k0 k1 es <= 1)%nat ->
  key_count k0 k1 (remove_first_key k0 k1 es ++ [k0 :: k1 :: r]) = 1%nat.
Proof.
  intros H. unfold key_count.
  rewrite List.filter_app, remove_first_key_count by exact H.
  cbn [app List.filter]. now rewrite entry_has_key_same.
Qed.

(** ** sync_mq_mc with a mapped source *)

Lemma mq_entry v : aux_entry ("M" :: "Q" :: "i" :: u32_bytes v)%byte.
Proof. apply aux_fixed; [reflexivity|]. now rewrite length_u32_bytes. Qed.

Lemma mc_entry src :
  aux_entry ("M" :: "C" :: "Z" :: bam_format_cigar src ++ [x00])%byte.
Proof. apply aux_string; [now left|apply bam_format_cigar_no_nul]. Qed.

Lemma sync_mq_mc_mapped_entries src dest es :
  tst (fl src) BAM_FUNMAP = false ->
  d_aux dest = concat es ->
  Forall aux_entry es ->
  l_data dest + 11 + Z.of_nat (length (bam_format_cigar src)) <= INT32_MAX ->
  let es1 := remove_first_key "M" "Q" es
             ++ [("M" :: "Q" :: "i" :: u32_bytes (qual (core src)))%byte] in
  let es2 := remove_first_key "M" "C" es1
             ++ [("M" :: "C" :: "Z" :: bam_format_cigar src ++ [x00])%byte] in
  d_aux (sync_mq_mc src dest) = concat es2 /\ Forall aux_entry es2.
Proof.
  intros Hsrc Hd Hwf Hsz es1 es2. unfold sync_mq_mc. rewrite Hsrc.
  cbn [negb orb].
  destruct (aux_replace_entries dest "M" "Q" "i" (u32_bytes (qual (core src))) es
              Hd Hwf (mq_entry _)) as [[m1 E1] W1].
  { rewrite length_u32_bytes. lia. }
  rewrite E1. cbn [fst]. fold es1.
  set (d1 := with_m_data (with_aux (aux_drop dest "M" "Q") (concat es1)) m1).
  assert (l_data d1 <= l_data dest + 7) as Hl1.
  { pose proof (aux_drop_l_data dest "M" "Q" es Hd Hwf) as Hl.
    unfold d1, l_data, n_cigar in *.
    cbn [with_m_data with_aux d_qname d_cigar d_seq d_qual d_aux].
    rewrite (aux_drop_entries dest "M" "Q" es Hd Hwf) in Hl.
    unfold es1. rewrite concat_app, length_app. cbn [concat].
    rewrite app_nil_r. cbn [length]. rewrite length_u32_bytes. lia. }
  destruct (aux_replace_entries d1 "M" "C" "Z" (bam_format_cigar src ++ [x00]) es1
              eq_refl W1 (mc_entry src)) as [[m2 E2] W2].
  { rewrite length_app. cbn [length]. lia. }
  rewrite E2. cbn [fst d_aux with_aux with_m_data]. split; [reflexivity|exact W2].
Qed.

(** X12.  When the source is mapped, [sync_mq_mc] leaves the destination with MQ
    as an [i] entry holding the mapping quality of the source, MC as a [Z]
    entry holding the CIGAR text of the source, and every other tag as it
    was (for a destination with well-formed tags, at most one MQ and one MC
    entry, and room for the new ones). *)
Theorem sync_mq_mc_mapped_source (src dest : bam1_t) (es : list (list byte)) :
  tst (fl src) BAM_FUNMAP = false ->
  d_aux dest = concat es ->
  Forall aux_entry es ->
  (key_count "M" "Q" es <= 1)%nat ->
  (key_count "M" "C" es <= 1)%nat ->
  l_data dest + 11 + Z.of_nat (length (bam_format_cigar src)) <= INT32_MAX ->
  aux_tag (d_aux (sync_mq_mc src dest)) "M" "Q"
  = Some ("M" :: "Q" :: "i" :: u32_bytes (qual (core src)))%byte
  /\ aux_tag (d_aux (sync_mq_mc src dest)) "M" "C"
     = Some ("M" :: "C" :: "Z" :: bam_format_cigar src ++ [x00])%byte
  /\ (forall k0 k1,
        (k0, k1) <> ("M", "Q")%byte -> (k0, k1) <> ("M", "C")%byte ->
        aux_tag (d_aux (sync_mq_mc src dest)) k0 k1 = aux_tag (d_aux dest) k0 k1).
Proof.
  intros Hsrc Hd Hwf Hq Hc Hsz.
  destruct (sync_mq_mc_mapped_entries src dest es Hsrc Hd Hwf Hsz) as [E W].
  cbv zeta in E, W. rewrite E, Hd.
  rewrite !aux_tag_entries by assumption.
  split; [|split].
  - rewrite find_not_replaced by congruence. now apply find_replaced.
  - apply find_replaced. rewrite key_count_not_replaced by congruence. exact Hc.
  - intros k0 k1 N1 N2. rewrite !aux_tag_entries by assumption.
    rewrite !find_not_replaced by congruence. reflexivity.
Qed.

Lemma sync_mq_mc_mapped_source_witness :
  let es := [list_byte_of_string "MQi" ++ u32_bytes 20;
             list_byte_of_string "RGZg" ++ [x00]] in
  let src := sample_read "R1" 0 0 100 [cigar_op 50 BAM_CMATCH] [] in
  let dest := sample_read "R1" 0 0 300 [cigar_op 50 BAM_CMATCH] (concat es) in
  aux_tag (d_aux (sync_mq_mc src dest)) "M" "Q"
  = Some (list_byte_of_string "MQi" ++ u32_bytes 30)
  /\ aux_tag (d_aux (sync_mq_mc src dest)) "M" "C"
     = Some (list_byte_of_string "MCZ50M" ++ [x00])
  /\ aux_tag (d_aux (sync_mq_mc src dest)) "R" "G"
     = Some (list_byte_of_string "RGZg" ++ [x00]).
Proof.
  intros es src dest.
  destruct (sync_mq_mc_mapped_source src dest es) as (H1 & H2 & H3).
  - reflexivity.
  - reflexivity.
  - constructor 2.
    { apply (aux_fixed "M" "Q" "i" (u32_bytes 20)); reflexivity. }
    constructor 2.
    { apply (aux_string "R" "G" "Z" (list_byte_of_string "g")); [now left|].
      repeat (constructor 2; [discriminate|]). constructor 1. }
    constructor 1.
  - vm_compute. lia.
  - vm_compute. lia.
  - vm_compute. discriminate.
  - split; [exact H1|]. split; [exact H2|].
    rewrite (H3 "R" "G")%byte by discriminate. reflexivity.
Defined.

(** ** The mate score *)

Lemma u32_idem x : u32 (u32 x) = u32 x.
Proof. unfold u32. apply Z.mod_mod. lia. Qed.

Lemma u32_add_l x y : u32 (u32 x + y) = u32 (x + y).
Proof. unfold u32. apply Zplus_mod_idemp_l. Qed.

Lemma u32_small x : 0 <= x < 2 ^ 32 -> u32 x = x.
Proof. intros H. unfold u32. now apply Z.mod_small. Qed.

Lemma calc_mate_score_fold quals :
  forall acc,
    acc = u32 acc ->
    fold_left (fun score q => if byteZ q >=? MD_MIN_QUALITY then u32 (score + byteZ q)
                              else score) quals acc
    = u32 (acc + good_quality_sum quals).
Proof.
  unfold good_quality_sum.
  induction quals as [|q quals IH]; intros acc Hacc.
  - cbn [fold_left List.filter map fold_right]. rewrite Z.add_0_r. exact Hacc.
  - cbn [fold_left List.filter]. destruct (byteZ q >=? MD_MIN_QUALITY).
    + rewrite IH by (now rewrite u32_idem).
      cbn [map fold_right]. rewrite u32_add_l. f_equal. lia.
    + now apply IH.
Qed.

Lemma good_quality_sum_bound quals :
  0 <= good_quality_sum quals <= 255 * Z.of_nat (length quals).
Proof.
  unfold good_quality_sum. induction quals as [|q quals IH].
  - cbn. lia.
  - cbn [List.filter length]. pose proof (byteZ_range q).
    destruct (byteZ q >=? MD_MIN_QUALITY); cbn [map fold_right]; lia.
Qed.

Lemma ms_entry v : aux_entry ("m" :: "s" :: "i" :: u32_bytes v)%byte.
Proof. apply aux_fixed; [reflexivity|]. now rewrite length_u32_bytes. Qed.

(** X13.  For a destination whose tags are well formed and hold at most one
    ms entry: [calc_mate_score] is the sum of the base qualities of at least
    15, reduced modulo 2^32, and the exact sum for reads of fewer than 2^24
    bases; [add_mate_score] returns -1 when the new entry does not fit under
    the size limit of [bam_aux_append] (the record without its old ms entry,
    plus 7 bytes, would exceed INT32_MAX); and when the record plus 7 bytes
    stays within INT32_MAX, the destination is left with ms as an [i] entry
    holding the score of the source and every other tag as it was.
    ([add_mate_score] deletes the first ms entry only, hence the condition
    on their number.) *)
Theorem add_mate_score_tag (src dest : bam1_t) (es : list (list byte)) :
  d_aux dest = concat es ->
  Forall aux_entry es ->
  (key_count "m" "s" es <= 1)%nat ->
  calc_mate_score src = good_quality_sum (d_qual src) mod 2 ^ 32
  /\ (l_qseq src < 2 ^ 24 -> calc_mate_score src = good_quality_sum (d_qual src))
  /\ (INT32_MAX < l_data (aux_drop dest "m" "s") + 7 ->
      add_mate_score src dest = Err (-1))
  /\ (l_data dest + 7 <= INT32_MAX ->
      exists dest',
        add_mate_score src dest = Ok dest'
        /\ aux_tag (d_aux dest') "m" "s"
           = Some ("m" :: "s" :: "i" :: u32_bytes (calc_mate_score src))%byte
        /\ (forall k0 k1,
              (k0, k1) <> ("m", "s")%byte ->
              aux_tag (d_aux dest') k0 k1 = aux_tag (d_aux dest) k0 k1)).
Proof.
  intros Hd Hwf Hc.
  assert (calc_mate_score src = good_quality_sum (d_qual src) mod 2 ^ 32) as Hs.
  { unfold calc_mate_score. rewrite calc_mate_score_fold by reflexivity.
    reflexivity. }
  split; [exact Hs|]. split; [|split].
  - intros Hl. rewrite Hs. apply Z.mod_small.
    pose proof (good_quality_sum_bound (d_qual src)). unfold l_qseq in Hl.
    change (2 ^ 32) with (256 * 2 ^ 24). lia.
  - intros Hbig. unfold add_mate_score, bam_aux_append.
    rewrite length_u32_bytes.
    replace (INT32_MAX <? l_data (aux_drop dest "m" "s") + 3 + Z.of_nat 4)
      with true by zbool.
    reflexivity.
  - intros Hsz.
    destruct (aux_replace_entries dest "m" "s" "i"
                (u32_bytes (calc_mate_score src)) es Hd Hwf (ms_entry _))
      as [[m E] W].
    { rewrite length_u32_bytes. lia. }
    eexists. unfold add_mate_score. rewrite E.
    split; [reflexivity|]. cbn [d_aux with_aux with_m_data]. rewrite Hd.
    rewrite !aux_tag_entries by assumption.
    split; [now apply find_replaced|].
    intros k0 k1 N. rewrite !aux_tag_entries by assumption.
    apply find_not_replaced. congruence.
Qed.

Lemma add_mate_score_tag_witness :
  let src := sample_read "R1" 0 0 100 [cigar_op 50 BAM_CMATCH] [] in
  let dest := sample_read "R1" 0 0 300 [cigar_op 50 BAM_CMATCH]
                (list_byte_of_string "msi" ++ u32_bytes 7) in
  calc_mate_score src = 3000
  /\ exists dest',
      add_mate_score src dest = Ok dest'
      /\ aux_tag (d_aux dest') "m" "s"
         = Some (list_byte_of_string "msi" ++ u32_bytes 3000).
Proof.
  intros src dest.
  destruct (add_mate_score_tag src dest [list_byte_of_string "msi" ++ u32_bytes 7])
    as (_ & H2 & _ & H4).
  - reflexivity.
  - constructor 2; [|constructor 1].
    apply (aux_fixed "m" "s" "i" (u32_bytes 7)); reflexivity.
  - vm_compute. lia.
  - split; [reflexivity|].
    destruct H4 as (dest' & E & T & _); [vm_compute; discriminate|].
    exists dest'. split; [exact E|]. exact T.
Defined.

(** ** The template CIGAR tag *)

Lemma ct_side_no_nul b : Forall (fun x => x <> x00) (ct_side b).
Proof.
  unfold ct_side. apply Forall_app. split; [|apply cigar_text_no_nul].
  constructor; [destruct (tst (fl b) BAM_FREAD1); discriminate|].
  constructor; [destruct (tst (fl b) BAM_FREVERSE); discriminate|].
  constructor.
Qed.

(** the text of the tag for the pair [lo], [hi] *)
Lemma ct_text_no_nul lo hi :
  Forall (fun x => x <> x00)
    (ct_side lo ++ kputw (pos (core hi) - bam_endpos lo) ++ ["T"%byte] ++ ct_side hi).
Proof.
  apply Forall_app. split; [apply ct_side_no_nul|].
  apply Forall_app. split; [apply kputw_no_nul|].
  apply Forall_app. split; [|apply ct_side_no_nul].
  constructor; [discriminate|constructor].
Qed.

Lemma find_after_drop k0 k1 es :
  (key_count k0 k1 es <= 1)%nat ->
  List.find (entry_has_key k0 k1) (remove_first_key k0 k1 es) = None.
Proof.
  intros H. rewrite find_filter, remove_first_key_count by exact H. reflexivity.
Qed.

Lemma ct_write_tags lo hi es1 es2 :
  d_aux lo = concat es1 -> Forall aux_entry es1 -> (key_count "c" "t" es1 <= 1)%nat ->
  d_aux hi = concat es2 -> Forall aux_entry es2 -> (key_count "c" "t" es2 <= 1)%nat ->
  let text := ct_side lo ++ kputw (pos (core hi) - bam_endpos lo) ++ ["T"%byte]
              ++ ct_side hi in
  l_data lo + 4 + Z.of_nat (length text) <= INT32_MAX ->
  aux_tag (d_aux (fst (ct_write lo hi))) "c" "t"
  = Some ("c" :: "t" :: "Z" :: text ++ [x00])%byte
  /\ aux_tag (d_aux (snd (ct_write lo hi))) "c" "t" = None.
Proof.
  intros Hd1 Hw1 Hc1 Hd2 Hw2 Hc2 text Hsz. unfold ct_write. fold text.
  cbn [fst snd].
  assert (aux_entry ("c" :: "t" :: "Z" :: text ++ [x00])%byte) as He.
  { apply aux_string; [now left|apply ct_text_no_nul]. }
  destruct (aux_replace_entries lo "c" "t" "Z" (text ++ [x00]) es1 Hd1 Hw1 He)
    as [[m E] W].
  { rewrite length_app. cbn [length]. lia. }
  rewrite E. cbn [fst d_aux with_aux with_m_data]. split.
  - rewrite aux_tag_entries by exact W. now apply find_replaced.
  - rewrite (aux_drop_entries hi "c" "t" es2 Hd2 Hw2).
    rewrite aux_tag_entries by (now apply remove_first_key_wf).
    now apply find_after_drop.
Qed.

(** X14.  For two records whose tags are well formed and hold at most one ct
    entry each, and when the record that is to take the new ct entry stays
    within INT32_MAX bytes with it: [bam_template_cigar] does nothing when
    the two records are on different references, have no reference or a
    negative position, or one of them is unmapped.  Otherwise the record
    with the lower position (the first one on a tie) gets a ct tag whose text
    is its own segment, strand and CIGAR, the distance from its alignment
    end to the start of the other, the letter T, and the segment, strand and
    CIGAR of the other; the other record has no ct tag afterwards.
    ([bam_template_cigar] deletes the first ct entry of each record only,
    hence the condition on their number.) *)
Theorem bam_template_cigar_tag (b1 b2 : bam1_t) (es1 es2 : list (list byte)) :
  d_aux b1 = concat es1 -> Forall aux_entry es1 -> (key_count "c" "t" es1 <= 1)%nat ->
  d_aux b2 = concat es2 -> Forall aux_entry es2 -> (key_count "c" "t" es2 <= 1)%nat ->
  let lo := if pos (core b1) >? pos (core b2) then b2 else b1 in
  let hi := if pos (core b1) >? pos (core b2) then b1 else b2 in
  let lo' := if pos (core b1) >? pos (core b2)
             then snd (bam_template_cigar b1 b2) else fst (bam_template_cigar b1 b2) in
  let hi' := if pos (core b1) >? pos (core b2)
             then fst (bam_template_cigar b1 b2) else snd (bam_template_cigar b1 b2) in
  let text := ct_side lo ++ kputw (pos (core hi) - bam_endpos lo) ++ ["T"%byte]
              ++ ct_side hi in
  l_data lo + 4 + Z.of_nat (length text) <= INT32_MAX ->
  (tid (core b1) <> tid (core b2) \/ tid (core b1) < 0
   \/ pos (core b1) < 0 \/ pos (core b2) < 0
   \/ tst (fl b1) BAM_FUNMAP = true \/ tst (fl b2) BAM_FUNMAP = true ->
   bam_template_cigar b1 b2 = (b1, b2))
  /\ (tid (core b1) = tid (core b2) -> 0 <= tid (core b1) ->
      0 <= pos (core b1) -> 0 <= pos (core b2) ->
      tst (fl b1) BAM_FUNMAP = false -> tst (fl b2) BAM_FUNMAP = false ->
      aux_tag (d_aux lo') "c" "t" = Some ("c" :: "t" :: "Z" :: text ++ [x00])%byte
      /\ aux_tag (d_aux hi') "c" "t" = None).
Proof.
  intros Hd1 Hw1 Hc1 Hd2 Hw2 Hc2 lo hi lo' hi' text Hsz. split.
  - intros H. unfold bam_template_cigar.
    assert (negb (tid (core b1) =? tid (core b2)) || (tid (core b1) <? 0)
            || (pos (core b1) <? 0) || (pos (core b2) <? 0)
            || tst (fl b1) BAM_FUNMAP || tst (fl b2) BAM_FUNMAP = true) as ->;
      [|reflexivity].
    destruct H as [H|[H|[H|[H|[H|H]]]]].
    + replace (tid (core b1) =? tid (core b2)) with false by zbool. reflexivity.
    + replace (tid (core b1) <? 0) with true by zbool. now rewrite orb_true_r.
    + replace (pos (core b1) <? 0) with true by zbool. now rewrite !orb_true_r.
    + replace (pos (core b2) <? 0) with true by zbool. now rewrite !orb_true_r.
    + rewrite H. now rewrite !orb_true_r.
    + rewrite H. now rewrite !orb_true_r.
  - intros Ht Ht0 Hp1 Hp2 Hm1 Hm2.
    assert (bam_template_cigar b1 b2
            = if pos (core b1) >? pos (core b2)
              then (snd (ct_write b2 b1), fst (ct_write b2 b1))
              else ct_write b1 b2) as E.
    { unfold bam_template_cigar. rewrite Hm1, Hm2.
      replace (tid (core b1) =? tid (core b2)) with true by zbool.
      replace (tid (core b1) <? 0) with false by zbool.
      replace (pos (core b1) <? 0) with false by zbool.
      replace (pos (core b2) <? 0) with false by zbool.
      cbn [negb orb]. destruct (pos (core b1) >? pos (core b2)); [|reflexivity].
      now destruct (ct_write b2 b1). }
    subst lo hi lo' hi' text. rewrite E. clear E. revert Hsz.
    destruct (pos (core b1) >? pos (core b2)); cbn [fst snd]; intros Hsz.
    + apply (ct_write_tags b2 b1 es2 es1); assumption.
    + apply (ct_write_tags b1 b2 es1 es2); assumption.
Qed.

Lemma bam_template_cigar_tag_witness :
  let b1 := sample_read "R1" (Z.lor BAM_FREAD1 BAM_FREVERSE) 0 300
              [cigar_op 50 BAM_CMATCH] [] in
  let b2 := sample_read "R1" 0 0 100 [cigar_op 50 BAM_CMATCH] [] in
  aux_tag (d_aux (snd (bam_template_cigar b1 b2))) "c" "t"
  = Some (list_byte_of_string "ctZ2F50M150T1R50M" ++ [x00])
  /\ aux_tag (d_aux (fst (bam_template_cigar b1 b2))) "c" "t" = None.
Proof.
  intros b1 b2.
  assert (key_count "c" "t" [] <= 1)%nat as Hc by (cbn; lia).
  destruct (bam_template_cigar_tag b1 b2 [] [] eq_refl (List.Forall_nil _) Hc
              eq_refl (List.Forall_nil _) Hc) as [_ H].
  - vm_compute. discriminate.
  - apply H; try reflexivity; vm_compute; discriminate.
Defined.

(** ** The pair fix-up: what the two records say of each other *)

Lemma same_alignment_refl x : same_alignment x x.
Proof. unfold same_alignment. tauto. Qed.

Lemma same_alignment_trans x y z :
  same_alignment x y -> same_alignment y z -> same_alignment x z.
Proof.
  unfold same_alignment.
  intros (A1 & A2 & A3 & A4 & A5 & A6 & A7 & A8 & A9 & A10)
         (B1 & B2 & B3 & B4 & B5 & B6 & B7 & B8 & B9 & B10).
  repeat split; congruence.
Qed.

Lemma same_alignment_core x y :
  core y = core x -> d_qname y = d_qname x -> d_cigar y = d_cigar x ->
  d_seq y = d_seq x -> d_qual y = d_qual x -> same_alignment x y.
Proof. intros Hc ? ? ? ?. unfold same_alignment. rewrite Hc. tauto. Qed.

Lemma same_alignment_flag x v : same_alignment x (set_flag x v).
Proof. unfold same_alignment. cbn. tauto. Qed.

Lemma pair_kept_refl x : pair_kept x x.
Proof. split; [apply same_alignment_refl|]. split; auto. Qed.

Lemma pair_kept_trans x y z : pair_kept x y -> pair_kept y z -> pair_kept x z.
Proof.
  intros (A & A1 & A2) (B & B1 & B2). split; [eapply same_alignment_trans; eauto|].
  split.
  - intros n Hn H. apply A1; [exact Hn|]. now apply B1.
  - intros n H0 H1 H2 H3. rewrite B2, A2 by assumption. reflexivity.
Qed.

Lemma pair_kept_core x y :
  core y = core x -> d_qname y = d_qname x -> d_cigar y = d_cigar x ->
  d_seq y = d_seq x -> d_qual y = d_qual x -> pair_kept x y.
Proof.
  intros Hc ? ? ? ?. split; [now apply same_alignment_core|].
  unfold fl. rewrite Hc. split; auto.
Qed.

Lemma pair_kept_clear_proper x : pair_kept x (flag_clear x BAM_FPROPER_PAIR).
Proof.
  split; [apply same_alignment_flag|]. rewrite fl_flag_clear. split.
  - intros n Hn. rewrite Z.land_spec. intros H.
    now apply andb_true_iff in H.
  - intros n H0 H1 H2 H3. change BAM_FPROPER_PAIR with (2 ^ 1).
    rewrite testbit_clear_bit by lia.
    replace (1 =? n) with false by zbool. apply andb_true_r.
Qed.

Lemma pair_kept_clear_pair_flags x : pair_kept x (flag_clear x PAIR_FLAGS).
Proof.
  split; [apply same_alignment_flag|]. rewrite fl_flag_clear. split.
  - intros n Hn. rewrite Z.land_spec. intros H.
    now apply andb_true_iff in H.
  - intros n H0 H1 H2 H3. rewrite testbit_clear_pair_flags by lia.
    replace (n =? 0) with false by zbool.
    replace (n =? 1) with false by zbool.
    replace (n =? 5) with false by zbool. apply andb_true_r.
Qed.

(** the tag helpers change the tag stream only *)
Lemma aux_drop_only b k0 k1 :
  core (aux_drop b k0 k1) = core b /\ d_qname (aux_drop b k0 k1) = d_qname b
  /\ d_cigar (aux_drop b k0 k1) = d_cigar b /\ d_seq (aux_drop b k0 k1) = d_seq b
  /\ d_qual (aux_drop b k0 k1) = d_qual b.
Proof. unfold aux_drop. destruct (bam_aux_get _ _ _); repeat split. Qed.

Lemma bam_aux_append_only b k0 k1 t data :
  let b' := fst (bam_aux_append b k0 k1 t data) in
  core b' = core b /\ d_qname b' = d_qname b /\ d_cigar b' = d_cigar b
  /\ d_seq b' = d_seq b /\ d_qual b' = d_qual b.
Proof. unfold bam_aux_append. destruct (INT32_MAX <? _); repeat split. Qed.

Lemma replace_only b k0 k1 t data :
  let b' := fst (bam_aux_append (aux_drop b k0 k1) k0 k1 t data) in
  core b' = core b /\ d_qname b' = d_qname b /\ d_cigar b' = d_cigar b
  /\ d_seq b' = d_seq b /\ d_qual b' = d_qual b.
Proof.
  cbv zeta.
  destruct (bam_aux_append_only (aux_drop b k0 k1) k0 k1 t data)
    as (-> & -> & -> & -> & ->).
  apply aux_drop_only.
Qed.

Lemma add_mate_score_only src dest dest' :
  add_mate_score src dest = Ok dest' ->
  core dest' = core dest /\ d_qname dest' = d_qname dest
  /\ d_cigar dest' = d_cigar dest /\ d_seq dest' = d_seq dest
  /\ d_qual dest' = d_qual dest.
Proof.
  unfold add_mate_score. intros H.
  pose proof (replace_only dest "m" "s" "i" (u32_bytes (calc_mate_score src))) as F.
  cbv zeta in F.
  destruct (bam_aux_append (aux_drop dest "m" "s") "m" "s" "i"
              (u32_bytes (calc_mate_score src))) as [d rc].
  destruct (rc =? -1); [discriminate|]. inversion H; subst dest'. exact F.
Qed.

Lemma ct_write_only b1 b2 :
  (core (fst (ct_write b1 b2)) = core b1
   /\ d_qname (fst (ct_write b1 b2)) = d_qname b1
   /\ d_cigar (fst (ct_write b1 b2)) = d_cigar b1
   /\ d_seq (fst (ct_write b1 b2)) = d_seq b1
   /\ d_qual (fst (ct_write b1 b2)) = d_qual b1)
  /\ (core (snd (ct_write b1 b2)) = core b2
      /\ d_qname (snd (ct_write b1 b2)) = d_qname b2
      /\ d_cigar (snd (ct_write b1 b2)) = d_cigar b2
      /\ d_seq (snd (ct_write b1 b2)) = d_seq b2
      /\ d_qual (snd (ct_write b1 b2)) = d_qual b2).
Proof.
  unfold ct_write. cbn [fst snd]. split; [apply replace_only|apply aux_drop_only].
Qed.

Lemma bam_template_cigar_only b1 b2 :
  (core (fst (bam_template_cigar b1 b2)) = core b1
   /\ d_qname (fst (bam_template_cigar b1 b2)) = d_qname b1
   /\ d_cigar (fst (bam_template_cigar b1 b2)) = d_cigar b1
   /\ d_seq (fst (bam_template_cigar b1 b2)) = d_seq b1
   /\ d_qual (fst (bam_template_cigar b1 b2)) = d_qual b1)
  /\ (core (snd (bam_template_cigar b1 b2)) = core b2
      /\ d_qname (snd (bam_template_cigar b1 b2)) = d_qname b2
      /\ d_cigar (snd (bam_template_cigar b1 b2)) = d_cigar b2
      /\ d_seq (snd (bam_template_cigar b1 b2)) = d_seq b2
      /\ d_qual (snd (bam_template_cigar b1 b2)) = d_qual b2).
Proof.
  unfold bam_template_cigar.
  destruct (_ || _); [repeat split|].
  destruct (pos (core b1) >? pos (core b2)).
  - pose proof (ct_write_only b2 b1) as [H1 H2].
    destruct (ct_write b2 b1) as [lo hi]. cbn [fst snd] in *. now split.
  - apply ct_write_only.
Qed.

(** [pair_finish] in two halves: the tag and the proper-pair check, then
    the mate scores and the removal fix-up *)
Lemma pair_finish_split cfg pre cur :
  pair_finish cfg pre cur
  = do pc <-
      (let '(a, b) :=
         if add_ct cfg then bam_template_cigar pre cur else (pre, cur) in
       if proper_pair_check cfg then
         do ok <- plausibly_properly_paired a b;
         if negb ok then
           Ok (flag_clear a BAM_FPROPER_PAIR, flag_clear b BAM_FPROPER_PAIR)
         else Ok (a, b)
       else Ok (a, b));
    pair_finish (mk_config (remove_reads cfg) false false (do_mate_scoring cfg)
                   (sanitize_flags cfg)) (fst pc) (snd pc).
Proof.
  unfold pair_finish. cbn [add_ct proper_pair_check do_mate_scoring remove_reads].
  destruct (if add_ct cfg then bam_template_cigar pre cur else (pre, cur)) as [a b].
  destruct (if proper_pair_check cfg then _ else _) as [[a2 b2]| | | |];
    reflexivity.
Qed.

(** a relation that the tag steps and the flag clearings respect holds
    across [pair_finish] *)
Lemma pair_finish_rel (R : bam1_t -> bam1_t -> Prop) cfg pre cur pre' cur' :
  (forall x, R x x) ->
  (forall x y z, R x y -> R y z -> R x z) ->
  (forall x y, core y = core x -> d_qname y = d_qname x -> d_cigar y = d_cigar x ->
               d_seq y = d_seq x -> d_qual y = d_qual x -> R x y) ->
  (proper_pair_check cfg = true -> forall x, R x (flag_clear x BAM_FPROPER_PAIR)) ->
  (remove_reads cfg = true -> forall x, R x (flag_clear x PAIR_FLAGS)) ->
  pair_finish cfg pre cur = Ok (pre', cur') ->
  R pre pre' /\ R cur cur'.
Proof.
  intros Rrefl Rtrans Raux Rproper Rpair H. unfold pair_finish in H.
  set (p1 := if add_ct cfg then bam_template_cigar pre cur else (pre, cur)) in H.
  assert (F1 : R pre (fst p1) /\ R cur (snd p1)).
  { subst p1. destruct (add_ct cfg); [|split; apply Rrefl].
    destruct (bam_template_cigar_only pre cur)
      as [(? & ? & ? & ? & ?) (? & ? & ? & ? & ?)].
    split; now apply Raux. }
  destruct p1 as [a1 b1]. cbn [fst snd] in F1. destruct F1 as [Fa1 Fb1].
  match type of H with
  | rbind ?r _ = _ => destruct r as [[a2 b2]| | | |] eqn:E2; try discriminate
  end.
  assert (F2 : R a1 a2 /\ R b1 b2).
  { destruct (proper_pair_check cfg).
    - destruct (plausibly_properly_paired a1 b1) as [ok| | | |]; try discriminate.
      cbn [rbind] in E2. destruct ok; cbn [negb] in E2; inversion E2; subst.
      + split; apply Rrefl.
      + split; now apply Rproper.
    - inversion E2; subst. split; apply Rrefl. }
  destruct F2 as [Fa2 Fb2]. cbn [rbind] in H.
  match type of H with
  | rbind ?r _ = _ => destruct r as [[a3 b3]| | | |] eqn:E3; try discriminate
  end.
  assert (F3 : R a2 a3 /\ R b2 b3).
  { destruct (do_mate_scoring cfg).
    - cbn [fst snd] in E3.
      destruct (add_mate_score a2 b2) as [c'| | | |] eqn:S1; try discriminate.
      cbn [rbind] in E3.
      destruct (add_mate_score c' a2) as [p'| | | |] eqn:S2; try discriminate.
      cbn [rbind] in E3. inversion E3; subst.
      destruct (add_mate_score_only _ _ _ S1) as (? & ? & ? & ? & ?).
      destruct (add_mate_score_only _ _ _ S2) as (? & ? & ? & ? & ?).
      split; now apply Raux.
    - inversion E3; subst. split; apply Rrefl. }
  destruct F3 as [Fa3 Fb3]. cbn [rbind] in H.
  assert (F4 : R a3 pre' /\ R b3 cur').
  { destruct (remove_reads cfg).
    - inversion H; subst. split.
      + destruct (tst (fl (if tst (fl a3) BAM_FUNMAP then _ else _)) BAM_FUNMAP);
          [now apply Rpair|apply Rrefl].
      + destruct (tst (fl a3) BAM_FUNMAP); [now apply Rpair|apply Rrefl].
    - inversion H; subst. split; apply Rrefl. }
  destruct F4. split; eauto.
Qed.

Lemma pair_finish_kept cfg pre cur pre' cur' :
  pair_finish cfg pre cur = Ok (pre', cur') ->
  pair_kept pre pre' /\ pair_kept cur cur'.
Proof.
  apply pair_finish_rel.
  - apply pair_kept_refl.
  - apply pair_kept_trans.
  - apply pair_kept_core.
  - intros _. apply pair_kept_clear_proper.
  - intros _. apply pair_kept_clear_pair_flags.
Qed.

Lemma sync_mate_inner_facts src dest :
  let d := sync_mate_inner src dest in
  mtid (core d) = tid (core src) /\ mpos (core d) = pos (core src)
  /\ pos (core d) = pos (core dest) /\ tid (core d) = tid (core dest)
  /\ tst (fl d) BAM_FMREVERSE = tst (fl src) BAM_FREVERSE
  /\ (tst (fl src) BAM_FUNMAP = true -> tst (fl d) BAM_FMUNMAP = true)
  /\ (forall n, 0 <= n -> n <> 3 -> n <> 5 ->
        Z.testbit (fl d) n = Z.testbit (fl dest) n).
Proof.
  cbv zeta. unfold sync_mate_inner.
  destruct (tst (fl src) BAM_FREVERSE) eqn:R, (tst (fl src) BAM_FUNMAP) eqn:U;
    (split; [reflexivity|]); (split; [reflexivity|]); (split; [reflexivity|]);
    (split; [reflexivity|]); (split; [flag_bits; reflexivity|]);
    (split; [first [intros _; flag_bits; reflexivity | discriminate]|]);
    intros n H0 H3 H5; rewrite ?fl_flag_or, ?fl_flag_clear;
    change (fl (set_mpos (set_mtid dest ?a) ?b)) with (fl dest);
    change BAM_FMUNMAP with (2 ^ 3); change BAM_FMREVERSE with (2 ^ 5);
    rewrite ?testbit_or_bit, ?testbit_clear_bit by lia;
    replace (3 =? n) with false by zbool; replace (5 =? n) with false by zbool;
    rewrite ?orb_false_r, ?andb_true_r; reflexivity.
Qed.

Lemma sync_unmapped_pos_inner_facts src dest :
  let d := sync_unmapped_pos_inner src dest in
  fl d = fl dest
  /\ mtid (core d) = mtid (core dest) /\ mpos (core d) = mpos (core dest)
  /\ tid (core d)
     = (if tst (fl dest) BAM_FUNMAP && negb (tst (fl src) BAM_FUNMAP)
        then tid (core src) else tid (core dest))
  /\ pos (core d)
     = (if tst (fl dest) BAM_FUNMAP && negb (tst (fl src) BAM_FUNMAP)
        then pos (core src) else pos (core dest)).
Proof.
  cbv zeta. unfold sync_unmapped_pos_inner.
  destruct (tst (fl dest) BAM_FUNMAP && negb (tst (fl src) BAM_FUNMAP));
    repeat split.
Qed.

Lemma sync_mate_cores a b :
  let b1 := sync_unmapped_pos_inner a b in
  let a1 := sync_unmapped_pos_inner b1 a in
  let b2 := sync_mate_inner a1 b1 in
  let a2 := sync_mate_inner b2 a1 in
  core (fst (sync_mate a b)) = core a2 /\ core (snd (sync_mate a b)) = core b2.
Proof.
  intros b1 a1 b2 a2. unfold sync_mate. cbv zeta. cbn [fst snd].
  fold b1. fold a1. fold b2. fold a2.
  split; rewrite (proj1 (sync_mq_mc_frame _ _)); reflexivity.
Qed.

Lemma sync_mate_facts a b :
  let a' := fst (sync_mate a b) in
  let b' := snd (sync_mate a b) in
  (tid (core a') = placed_tid a b /\ pos (core a') = placed_pos a b
   /\ tid (core b') = placed_tid b a /\ pos (core b') = placed_pos b a)
  /\ (mtid (core a') = tid (core b') /\ mpos (core a') = pos (core b')
      /\ mtid (core b') = tid (core a') /\ mpos (core b') = pos (core a'))
  /\ (tst (fl a') BAM_FMREVERSE = tst (fl b) BAM_FREVERSE
      /\ tst (fl b') BAM_FMREVERSE = tst (fl a) BAM_FREVERSE)
  /\ ((tst (fl b) BAM_FUNMAP = true -> tst (fl a') BAM_FMUNMAP = true)
      /\ (tst (fl a) BAM_FUNMAP = true -> tst (fl b') BAM_FMUNMAP = true))
  /\ (forall n, 0 <= n -> n <> 3 -> n <> 5 ->
        Z.testbit (fl a') n = Z.testbit (fl a) n
        /\ Z.testbit (fl b') n = Z.testbit (fl b) n).
Proof.
  intros a' b'.
  destruct (sync_mate_cores a b) as [Ca Cb]. cbv zeta in Ca, Cb.
  fold a' in Ca. fold b' in Cb.
  set (b1 := sync_unmapped_pos_inner a b) in *.
  set (a1 := sync_unmapped_pos_inner b1 a) in *.
  set (b2 := sync_mate_inner a1 b1) in *.
  set (a2 := sync_mate_inner b2 a1) in *.
  assert (fl a' = fl a2) as Fa by (unfold fl; now rewrite Ca).
  assert (fl b' = fl b2) as Fb by (unfold fl; now rewrite Cb).
  rewrite Ca, Cb, Fa, Fb. clearbody a' b'. clear Ca Cb Fa Fb a' b'.
  destruct (sync_unmapped_pos_inner_facts a b) as (Fb1 & _ & _ & Tb1 & Pb1).
  destruct (sync_unmapped_pos_inner_facts b1 a) as (Fa1 & _ & _ & Ta1 & Pa1).
  cbv zeta in Fb1, Tb1, Pb1, Fa1, Ta1, Pa1.
  fold b1 in Fb1, Tb1, Pb1. fold a1 in Fa1, Ta1, Pa1.
  destruct (sync_mate_inner_facts a1 b1) as (Mb2 & Qb2 & Pb2 & Tb2 & Rb2 & Ub2 & Nb2).
  cbv zeta in Mb2, Qb2, Pb2, Tb2, Rb2, Ub2, Nb2.
  fold b2 in Mb2, Qb2, Pb2, Tb2, Rb2, Ub2, Nb2.
  destruct (sync_mate_inner_facts b2 a1) as (Ma2 & Qa2 & Pa2 & Ta2 & Ra2 & Ua2 & Na2).
  cbv zeta in Ma2, Qa2, Pa2, Ta2, Ra2, Ua2, Na2.
  fold a2 in Ma2, Qa2, Pa2, Ta2, Ra2, Ua2, Na2.
  clearbody a2 b2. clearbody a1 b1.
  assert (tst (fl b2) BAM_FREVERSE = tst (fl b) BAM_FREVERSE) as Rb.
  { rewrite !tst_reverse, Nb2 by lia. now rewrite Fb1. }
  assert (tst (fl b2) BAM_FUNMAP = tst (fl b) BAM_FUNMAP) as Ub.
  { rewrite !tst_unmap, Nb2 by lia. now rewrite Fb1. }
  split; [|split; [|split; [|split]]].
  - rewrite Ta2, Pa2, Tb2, Pb2, Ta1, Pa1, Tb1, Pb1, Fb1.
    unfold placed_tid, placed_pos.
    destruct (tst (fl a) BAM_FUNMAP), (tst (fl b) BAM_FUNMAP);
      cbn [negb andb]; repeat split.
  - rewrite Ma2, Qa2, Mb2, Qb2, Ta2, Pa2. repeat split.
  - rewrite Ra2, Rb2, Rb, Fa1. split; reflexivity.
  - split.
    + intros H. apply Ua2. now rewrite Ub.
    + intros H. apply Ub2. now rewrite Fa1.
  - intros n H0 H3 H5. rewrite Na2, Nb2 by assumption. now rewrite Fa1, Fb1.
Qed.

Lemma set_tlen_facts a b pe ce :
  same_alignment (set_isize a 0) (set_isize (fst (set_tlen a b pe ce)) 0)
  /\ same_alignment (set_isize b 0) (set_isize (snd (set_tlen a b pe ce)) 0)
  /\ fl (fst (set_tlen a b pe ce)) = fl a
  /\ fl (snd (set_tlen a b pe ce)) = fl b.
Proof.
  unfold set_tlen. destruct (_ && _); cbn [fst snd]; repeat split.
Qed.

Lemma pair_sync_facts pre cur pe ce :
  let a' := fst (pair_sync pre cur pe ce) in
  let b' := snd (pair_sync pre cur pe ce) in
  (tid (core a') = placed_tid pre cur /\ pos (core a') = placed_pos pre cur
   /\ tid (core b') = placed_tid cur pre /\ pos (core b') = placed_pos cur pre)
  /\ (mtid (core a') = tid (core b') /\ mpos (core a') = pos (core b')
      /\ mtid (core b') = tid (core a') /\ mpos (core b') = pos (core a'))
  /\ (tst (fl a') BAM_FMREVERSE = tst (fl cur) BAM_FREVERSE
      /\ tst (fl b') BAM_FMREVERSE = tst (fl pre) BAM_FREVERSE)
  /\ ((tst (fl cur) BAM_FUNMAP = true -> tst (fl a') BAM_FMUNMAP = true)
      /\ (tst (fl pre) BAM_FUNMAP = true -> tst (fl b') BAM_FMUNMAP = true))
  /\ (tst (fl a') BAM_FPAIRED = true /\ tst (fl b') BAM_FPAIRED = true)
  /\ (forall n, 0 <= n -> n <> 0 -> n <> 3 -> n <> 5 ->
        Z.testbit (fl a') n = Z.testbit (fl pre) n
        /\ Z.testbit (fl b') n = Z.testbit (fl cur) n).
Proof.
  intros a' b'. subst a' b'. unfold pair_sync.
  pose proof (sync_mate_facts (flag_or pre BAM_FPAIRED) (flag_or cur BAM_FPAIRED))
    as (Hpl & Hm & Hr & Hu & Hn).
  cbv zeta in Hpl, Hm, Hr, Hu, Hn.
  destruct (sync_mate (flag_or pre BAM_FPAIRED) (flag_or cur BAM_FPAIRED))
    as [a b].
  cbn [fst snd] in *.
  destruct (set_tlen_facts a b pe ce) as (Sa & Sb & Fa & Fb).
  destruct Sa as (Sa1 & Sa2 & _ & Sa4 & Sa5 & _).
  destruct Sb as (Sb1 & Sb2 & _ & Sb4 & Sb5 & _).
  cbn [set_isize with_core core pos tid mtid mpos] in Sa1, Sa2, Sa4, Sa5,
    Sb1, Sb2, Sb4, Sb5.
  rewrite Fa, Fb, Sa1, Sa2, Sa4, Sa5, Sb1, Sb2, Sb4, Sb5.
  assert (forall x, tst (fl (flag_or x BAM_FPAIRED)) BAM_FUNMAP = tst (fl x) BAM_FUNMAP)
    as HU by (intros x; flag_bits; reflexivity).
  assert (forall x, tst (fl (flag_or x BAM_FPAIRED)) BAM_FREVERSE
                    = tst (fl x) BAM_FREVERSE)
    as HR by (intros x; flag_bits; reflexivity).
  assert (forall x y, placed_tid (flag_or x BAM_FPAIRED) (flag_or y BAM_FPAIRED)
                      = placed_tid x y) as HT.
  { intros x y. unfold placed_tid. now rewrite !HU. }
  assert (forall x y, placed_pos (flag_or x BAM_FPAIRED) (flag_or y BAM_FPAIRED)
                      = placed_pos x y) as HP.
  { intros x y. unfold placed_pos. now rewrite !HU. }
  rewrite !HT, !HP, !HR, !HU in *.
  split; [exact Hpl|]. split; [exact Hm|]. split; [exact Hr|]. split; [exact Hu|].
  split.
  - rewrite !tst_paired. destruct (Hn 0) as [-> ->]; try lia.
    rewrite !fl_flag_or. change BAM_FPAIRED with (2 ^ 0).
    rewrite !testbit_or_bit by lia. now rewrite !orb_true_r.
  - intros n H0 Hn0 H3 H5. destruct (Hn n) as [-> ->]; try lia.
    rewrite !fl_flag_or. change BAM_FPAIRED with (2 ^ 0).
    rewrite !testbit_or_bit by lia.
    replace (0 =? n) with false by zbool. now rewrite !orb_false_r.
Qed.

Lemma pair_kept_tst x y m k :
  pair_kept x y -> m = 2 ^ k -> 0 <= k -> k <> 0 -> k <> 1 -> k <> 5 ->
  tst (fl y) m = tst (fl x) m.
Proof.
  intros (_ & _ & H) -> H0 H1 H2 H3. rewrite !tst_bit by lia. now apply H.
Qed.

Lemma fix_pair_mates_facts (cfg : config) (pre cur : bam1_t) (pre_end cur_end : Z)
    (pre' cur' : bam1_t) :
  fix_pair cfg pre cur pre_end cur_end = Ok (pre', cur') ->
  (mtid (core pre') = tid (core cur') /\ mpos (core pre') = pos (core cur')
   /\ mtid (core cur') = tid (core pre') /\ mpos (core cur') = pos (core pre'))
  /\ (tid (core pre') = placed_tid pre cur /\ pos (core pre') = placed_pos pre cur
      /\ tid (core cur') = placed_tid cur pre /\ pos (core cur') = placed_pos cur pre)
  /\ (tst (fl pre') BAM_FUNMAP = tst (fl pre) BAM_FUNMAP
      /\ tst (fl cur') BAM_FUNMAP = tst (fl cur) BAM_FUNMAP
      /\ tst (fl pre') BAM_FREVERSE = tst (fl pre) BAM_FREVERSE
      /\ tst (fl cur') BAM_FREVERSE = tst (fl cur) BAM_FREVERSE)
  /\ ((tst (fl cur) BAM_FUNMAP = true -> tst (fl pre') BAM_FMUNMAP = true)
      /\ (tst (fl pre) BAM_FUNMAP = true -> tst (fl cur') BAM_FMUNMAP = true))
  /\ (remove_reads cfg = false ->
      tst (fl pre') BAM_FPAIRED = true /\ tst (fl cur') BAM_FPAIRED = true
      /\ tst (fl pre') BAM_FMREVERSE = tst (fl cur') BAM_FREVERSE
      /\ tst (fl cur') BAM_FMREVERSE = tst (fl pre') BAM_FREVERSE).
Proof.
  unfold fix_pair. intros H.
  pose proof (pair_sync_facts pre cur pre_end cur_end)
    as (Hpl & Hm & Hr & Hu & Hp & Hn).
  cbv zeta in Hpl, Hm, Hr, Hu, Hp, Hn.
  destruct (pair_sync pre cur pre_end cur_end) as [a b]. cbn [fst snd] in *.
  pose proof (pair_finish_kept _ _ _ _ _ H) as [Ka Kb].
  pose proof Ka as ((A1 & A2 & _ & A4 & A5 & _) & _ & _).
  pose proof Kb as ((B1 & B2 & _ & B4 & B5 & _) & _ & _).
  assert (tst (fl pre') BAM_FUNMAP = tst (fl pre) BAM_FUNMAP) as U1.
  { rewrite (pair_kept_tst a pre' BAM_FUNMAP 2 Ka) by (reflexivity || lia).
    rewrite !tst_unmap. now destruct (Hn 2) as [-> _]; try lia. }
  assert (tst (fl cur') BAM_FUNMAP = tst (fl cur) BAM_FUNMAP) as U2.
  { rewrite (pair_kept_tst b cur' BAM_FUNMAP 2 Kb) by (reflexivity || lia).
    rewrite !tst_unmap. now destruct (Hn 2) as [_ ->]; try lia. }
  assert (tst (fl pre') BAM_FREVERSE = tst (fl pre) BAM_FREVERSE) as R1.
  { rewrite (pair_kept_tst a pre' BAM_FREVERSE 4 Ka) by (reflexivity || lia).
    rewrite !tst_reverse. now destruct (Hn 4) as [-> _]; try lia. }
  assert (tst (fl cur') BAM_FREVERSE = tst (fl cur) BAM_FREVERSE) as R2.
  { rewrite (pair_kept_tst b cur' BAM_FREVERSE 4 Kb) by (reflexivity || lia).
    rewrite !tst_reverse. now destruct (Hn 4) as [_ ->]; try lia. }
  split; [rewrite A4, A5, B4, B5, A1, A2, B1, B2; exact Hm|].
  split; [rewrite A1, A2, B1, B2; exact Hpl|].
  split; [tauto|].
  split.
  { rewrite (pair_kept_tst a pre' BAM_FMUNMAP 3 Ka) by (reflexivity || lia).
    rewrite (pair_kept_tst b cur' BAM_FMUNMAP 3 Kb) by (reflexivity || lia).
    exact Hu. }
  intros Hrm.
  assert ((forall n, 0 <= n -> n <> 1 -> Z.testbit (fl pre') n = Z.testbit (fl a) n)
          /\ (forall n, 0 <= n -> n <> 1 ->
                Z.testbit (fl cur') n = Z.testbit (fl b) n)) as [Ea Eb].
  { apply (pair_finish_rel
             (fun x y => forall n, 0 <= n -> n <> 1 ->
                           Z.testbit (fl y) n = Z.testbit (fl x) n)
             cfg a b pre' cur'); try exact H.
    - reflexivity.
    - intros x y z Hxy Hyz n H0 H1. rewrite Hyz, Hxy by assumption. reflexivity.
    - intros x y Hc _ _ _ _ n _ _. unfold fl. now rewrite Hc.
    - intros _ x n H0 H1. rewrite fl_flag_clear.
      change BAM_FPROPER_PAIR with (2 ^ 1). rewrite testbit_clear_bit by lia.
      replace (1 =? n) with false by zbool. apply andb_true_r.
    - rewrite Hrm. discriminate. }
  rewrite R1, R2. rewrite !tst_paired, !tst_mreverse, !Ea, !Eb by lia.
  rewrite <- !tst_paired, <- !tst_mreverse. tauto.
Qed.

(** X15.  After the pair fix-up of [bam_mating_core] each of the two primary
    records describes its mate: its mate reference and mate position are the
    reference and position of the other.  A record's own reference and
    position are those it came with, or those of its mate if it was unmapped
    and the mate was not.  The unmapped and reverse flags are unchanged, and
    mate-unmapped is set on the mate of an unmapped record.  Without read
    removal both records are flagged paired and the mate-reverse flag of each
    equals the reverse flag of the other. *)
Theorem fix_pair_mates (cfg : config) (pre cur : bam1_t) (pre_end cur_end : Z)
    (pre' cur' : bam1_t) :
  fix_pair cfg pre cur pre_end cur_end = Ok (pre', cur') ->
  (mtid (core pre') = tid (core cur') /\ mpos (core pre') = pos (core cur')
   /\ mtid (core cur') = tid (core pre') /\ mpos (core cur') = pos (core pre'))
  /\ (tid (core pre') = placed_tid pre cur /\ pos (core pre') = placed_pos pre cur
      /\ tid (core cur') = placed_tid cur pre /\ pos (core cur') = placed_pos cur pre)
  /\ (tst (fl pre') BAM_FUNMAP = tst (fl pre) BAM_FUNMAP
      /\ tst (fl cur') BAM_FUNMAP = tst (fl cur) BAM_FUNMAP
      /\ tst (fl pre') BAM_FREVERSE = tst (fl pre) BAM_FREVERSE
      /\ tst (fl cur') BAM_FREVERSE = tst (fl cur) BAM_FREVERSE)
  /\ ((tst (fl cur) BAM_FUNMAP = true -> tst (fl pre') BAM_FMUNMAP = true)
      /\ (tst (fl pre) BAM_FUNMAP = true -> tst (fl cur') BAM_FMUNMAP = true))
  /\ (remove_reads cfg = false ->
      tst (fl pre') BAM_FPAIRED = true /\ tst (fl cur') BAM_FPAIRED = true
      /\ tst (fl pre') BAM_FMREVERSE = tst (fl cur') BAM_FREVERSE
      /\ tst (fl cur') BAM_FMREVERSE = tst (fl pre') BAM_FREVERSE).
Proof. apply fix_pair_mates_facts. Qed.

Lemma fix_pair_mates_witness :
  let pre := sample_read "R1" BAM_FUNMAP (-1) (-1) [] [] in
  let cur := sample_read "R1" BAM_FREVERSE 0 300 [cigar_op 50 BAM_CMATCH] [] in
  exists pre' cur',
    fix_pair default_config pre cur 0 350 = Ok (pre', cur')
    /\ tid (core pre') = 0 /\ pos (core pre') = 300
    /\ mtid (core cur') = 0 /\ mpos (core cur') = 300
    /\ tst (fl cur') BAM_FMUNMAP = true
    /\ tst (fl pre') BAM_FMREVERSE = true.
Proof.
  intros pre cur.
  destruct (fix_pair default_config pre cur 0 350) as [[pre' cur']| | | |] eqn:E;
    try (vm_compute in E; discriminate E).
  exists pre', cur'. split; [reflexivity|].
  destruct (fix_pair_mates default_config pre cur 0 350 pre' cur' E)
    as ((_ & _ & M3 & M4) & (T1 & P1 & _) & (_ & _ & _ & R4) & (_ & U2) & F).
  destruct (F eq_refl) as (_ & _ & F3 & _).
  rewrite M3, M4, T1, P1, F3, R4.
  repeat split; try reflexivity. now apply U2.
Defined.

(** ** The proper-pair check *)

Lemma plausibly_properly_paired_true a b :
  plausibly_properly_paired a b = Ok true ->
  tst (fl a) BAM_FUNMAP = false /\ tst (fl b) BAM_FUNMAP = false
  /\ 0 <= tid (core a) /\ tid (core a) = tid (core b)
  /\ ((tst (fl a) BAM_FREVERSE = false /\ tst (fl b) BAM_FREVERSE = true
       /\ five_prime a <= five_prime b)
      \/ (tst (fl a) BAM_FREVERSE = true /\ tst (fl b) BAM_FREVERSE = false
          /\ five_prime b < five_prime a)).
Proof.
  unfold plausibly_properly_paired, five_prime.
  destruct (tst (fl a) BAM_FUNMAP), (tst (fl b) BAM_FUNMAP); cbn [orb];
    try discriminate.
  destruct (Z.geb_spec (tid (core a)) 0) as [Ht|Ht]; cbn [negb]; [|discriminate].
  destruct (Z.eqb_spec (tid (core a)) (tid (core b))) as [Et|Et]; cbn [negb];
    [|discriminate].
  destruct (tst (fl a) BAM_FREVERSE) eqn:Ra, (tst (fl b) BAM_FREVERSE) eqn:Rb;
    match goal with
    | |- context [?x >? ?y] => destruct (Z.gtb_spec x y) as [Hgt|Hle]
    end;
    cbv beta iota; rewrite ?Ra, ?Rb; cbn [negb andb]; intros Hres;
    try discriminate Hres;
    (split; [reflexivity|]); (split; [reflexivity|]); (split; [lia|]);
    (split; [exact Et|]);
    first [ left; repeat split; lia | right; repeat split; lia ].
Qed.

Lemma fixed_from_five_prime x y : fixed_from x y -> five_prime y = five_prime x.
Proof.
  intros (A1 & A2 & A3 & A4 & A5 & A6 & A7 & _).
  unfold five_prime. rewrite A7, A1. now rewrite (bam_endpos_ext y x).
Qed.

Lemma fixed_from_sym_facts x y :
  fixed_from x y ->
  tst (fl y) BAM_FUNMAP = tst (fl x) BAM_FUNMAP
  /\ tst (fl y) BAM_FREVERSE = tst (fl x) BAM_FREVERSE
  /\ tid (core y) = tid (core x).
Proof. intros (A1 & A2 & A3 & A4 & A5 & A6 & A7 & _). tauto. Qed.

(** a pair that keeps a proper-pair flag through the check was found
    plausible *)
Lemma pair_finish_checked cfg pre cur pre' cur' :
  pair_finish cfg pre cur = Ok (pre', cur') ->
  proper_pair_check cfg = true ->
  proper pre' = true \/ proper cur' = true ->
  exists a b,
    fixed_from pre a /\ fixed_from cur b
    /\ plausibly_properly_paired a b = Ok true.
Proof.
  intros H Hchk Hprop. rewrite pair_finish_split, Hchk in H.
  pose proof (bam_template_cigar_fixed pre cur) as Hct.
  destruct (if add_ct cfg then bam_template_cigar pre cur else (pre, cur))
    as [a b] eqn:E1.
  assert (fixed_from pre a /\ fixed_from cur b) as [Fa Fb].
  { destruct (add_ct cfg).
    - rewrite E1 in Hct. exact Hct.
    - injection E1 as <- <-. split; apply fixed_from_refl. }
  exists a, b. split; [exact Fa|]. split; [exact Fb|].
  destruct (plausibly_properly_paired a b) as [ok| | | |]; try discriminate H.
  cbn [rbind] in H. destruct ok; [reflexivity|]. exfalso.
  cbn [negb rbind fst snd] in H.
  apply pair_finish_derived in H. destruct H as [(_ & _ & _ & Ha) (_ & _ & _ & Hb)].
  assert (forall x, proper (flag_clear x BAM_FPROPER_PAIR) = false) as Hclr.
  { intros x. unfold proper. flag_bits. reflexivity. }
  destruct Hprop as [Hp|Hp].
  - apply Ha in Hp. rewrite Hclr in Hp. discriminate.
  - apply Hb in Hp. rewrite Hclr in Hp. discriminate.
Qed.

(** X16.  With the proper-pair check on, a record leaves the pair fix-up with the
    proper-pair flag only if both records are mapped, on the same valid
    reference, and the one whose 5' end comes first (the first record on a
    tie) is on the forward strand and the other on the reverse strand. *)
Theorem fix_pair_proper_is_plausible (cfg : config) (pre cur : bam1_t)
    (pre_end cur_end : Z) (pre' cur' : bam1_t) :
  fix_pair cfg pre cur pre_end cur_end = Ok (pre', cur') ->
  proper_pair_check cfg = true ->
  tst (fl pre') BAM_FPROPER_PAIR = true \/ tst (fl cur') BAM_FPROPER_PAIR = true ->
  tst (fl pre') BAM_FUNMAP = false /\ tst (fl cur') BAM_FUNMAP = false
  /\ 0 <= tid (core pre') /\ tid (core pre') = tid (core cur')
  /\ ((tst (fl pre') BAM_FREVERSE = false /\ tst (fl cur') BAM_FREVERSE = true
       /\ five_prime pre' <= five_prime cur')
      \/ (tst (fl pre') BAM_FREVERSE = true /\ tst (fl cur') BAM_FREVERSE = false
          /\ five_prime cur' < five_prime pre')).
Proof.
  unfold fix_pair. intros H Hchk Hprop.
  destruct (pair_sync pre cur pre_end cur_end) as [p c].
  destruct (pair_finish_checked _ _ _ _ _ H Hchk Hprop) as (a & b & Fa & Fb & Hok).
  destruct (pair_finish_fixed _ _ _ _ _ H) as [Fp Fc].
  apply plausibly_properly_paired_true in Hok.
  destruct (fixed_from_sym_facts _ _ Fa) as (Ua & Ra & Ta).
  destruct (fixed_from_sym_facts _ _ Fb) as (Ub & Rb & Tb).
  destruct (fixed_from_sym_facts _ _ Fp) as (Up & Rp & Tp).
  destruct (fixed_from_sym_facts _ _ Fc) as (Uc & Rc & Tc).
  rewrite (fixed_from_five_prime _ _ Fp), (fixed_from_five_prime _ _ Fc).
  rewrite <- (fixed_from_five_prime _ _ Fa), <- (fixed_from_five_prime _ _ Fb).
  rewrite Up, Uc, Rp, Rc, Tp, Tc. rewrite <- Ua, <- Ub, <- Ra, <- Rb, <- Ta, <- Tb.
  exact Hok.
Qed.

Lemma fix_pair_proper_is_plausible_witness :
  let pre := sample_read "R1" 3 0 100 [cigar_op 50 BAM_CMATCH] [] in
  let cur := sample_read "R1" 19 0 300 [cigar_op 50 BAM_CMATCH] [] in
  exists pre' cur',
    fix_pair default_config pre cur 150 350 = Ok (pre', cur')
    /\ tst (fl pre') BAM_FPROPER_PAIR = true
    /\ tst (fl pre') BAM_FREVERSE = false /\ tst (fl cur') BAM_FREVERSE = true
    /\ five_prime pre' <= five_prime cur'.
Proof.
  intros pre cur.
  destruct (fix_pair default_config pre cur 150 350) as [[pre' cur']| | | |] eqn:E;
    try (vm_compute in E; discriminate E).
  exists pre', cur'. split; [reflexivity|].
  assert (tst (fl pre') BAM_FPROPER_PAIR = true) as Hp.
  { vm_compute in E. injection E as <- <-. reflexivity. }
  split; [exact Hp|].
  destruct (fix_pair_proper_is_plausible default_config pre cur 150 350 pre' cur'
              E eq_refl (or_introl Hp)) as (_ & _ & _ & _ & [H|H]).
  - exact H.
  - exfalso. destruct H as (H & _). vm_compute in E. injection E as <- <-.
    discriminate H.
Defined.

(** ** Removal of unmapped reads *)

(** the last step of [pair_finish] when reads are removed *)
Lemma pair_finish_last cfg pre cur pre' cur' :
  remove_reads cfg = true ->
  pair_finish cfg pre cur = Ok (pre', cur') ->
  exists a3 b3,
    cur' = (if tst (fl a3) BAM_FUNMAP then flag_clear b3 PAIR_FLAGS else b3)
    /\ pre' = (if tst (fl cur') BAM_FUNMAP then flag_clear a3 PAIR_FLAGS else a3).
Proof.
  intros Hrm H. unfold pair_finish in H.
  destruct (if add_ct cfg then bam_template_cigar pre cur else (pre, cur))
    as [a1 b1].
  match type of H with
  | rbind ?r _ = _ => destruct r as [[a2 b2]| | | |]; try discriminate
  end.
  cbn [rbind] in H.
  match type of H with
  | rbind ?r _ = _ => destruct r as [[a3 b3]| | | |]; try discriminate
  end.
  cbn [rbind] in H. rewrite Hrm in H. injection H as <- <-.
  exists a3, b3. split; reflexivity.
Qed.

Lemma flag_clear_pair_flags_bits x :
  tst (fl (flag_clear x PAIR_FLAGS)) BAM_FUNMAP = tst (fl x) BAM_FUNMAP
  /\ tst (fl (flag_clear x PAIR_FLAGS)) BAM_FPAIRED = false
  /\ tst (fl (flag_clear x PAIR_FLAGS)) BAM_FMREVERSE = false
  /\ tst (fl (flag_clear x PAIR_FLAGS)) BAM_FPROPER_PAIR = false.
Proof.
  rewrite fl_flag_clear, !tst_unmap, tst_paired, tst_mreverse, tst_proper.
  rewrite !testbit_clear_pair_flags by lia.
  change ((2 =? 0) || (2 =? 1) || (2 =? 5)) with false.
  change ((0 =? 0) || (0 =? 1) || (0 =? 5)) with true.
  change ((5 =? 0) || (5 =? 1) || (5 =? 5)) with true.
  change ((1 =? 0) || (1 =? 1) || (1 =? 5)) with true.
  cbn [negb]. rewrite andb_true_r, !andb_false_r. repeat split.
Qed.

Lemma fix_pair_unmapped_kept cfg pre cur pre_end cur_end pre' cur' :
  fix_pair cfg pre cur pre_end cur_end = Ok (pre', cur') ->
  tst (fl pre') BAM_FUNMAP = tst (fl pre) BAM_FUNMAP
  /\ tst (fl cur') BAM_FUNMAP = tst (fl cur) BAM_FUNMAP.
Proof.
  unfold fix_pair. intros H.
  pose proof (pair_sync_facts pre cur pre_end cur_end) as (_ & _ & _ & _ & _ & Hn).
  cbv zeta in Hn.
  destruct (pair_sync pre cur pre_end cur_end) as [a b]. cbn [fst snd] in Hn.
  pose proof (pair_finish_kept _ _ _ _ _ H) as [Ka Kb].
  rewrite (pair_kept_tst a pre' BAM_FUNMAP 2 Ka) by (reflexivity || lia).
  rewrite (pair_kept_tst b cur' BAM_FUNMAP 2 Kb) by (reflexivity || lia).
  rewrite !tst_unmap. destruct (Hn 2) as [E1 E2]; try lia.
  rewrite E1, E2. now split.
Qed.

(** X17.  With read removal on, after the pair fix-up the mate of a record that
    is flagged unmapped has the paired, mate-reverse and proper-pair flags
    clear. *)
Theorem fix_pair_removal (cfg : config) (pre cur : bam1_t) (pre_end cur_end : Z)
    (pre' cur' : bam1_t) :
  remove_reads cfg = true ->
  fix_pair cfg pre cur pre_end cur_end = Ok (pre', cur') ->
  (tst (fl pre) BAM_FUNMAP = true ->
   tst (fl cur') BAM_FPAIRED = false /\ tst (fl cur') BAM_FMREVERSE = false
   /\ tst (fl cur') BAM_FPROPER_PAIR = false)
  /\ (tst (fl cur) BAM_FUNMAP = true ->
      tst (fl pre') BAM_FPAIRED = false /\ tst (fl pre') BAM_FMREVERSE = false
      /\ tst (fl pre') BAM_FPROPER_PAIR = false).
Proof.
  intros Hrm H.
  destruct (fix_pair_unmapped_kept _ _ _ _ _ _ _ H) as [U1 U2].
  rewrite <- U1, <- U2. clear U1 U2.
  rewrite fix_pair_eq in H.
  destruct (pair_finish_last _ _ _ _ _ Hrm H) as (a3 & b3 & Ec & Ep).
  clear H.
  destruct (flag_clear_pair_flags_bits a3) as (Ua3 & Pa3 & Ma3 & Ra3).
  destruct (flag_clear_pair_flags_bits b3) as (Ub3 & Pb3 & Mb3 & Rb3).
  assert (tst (fl cur') BAM_FUNMAP = tst (fl b3) BAM_FUNMAP) as Hb.
  { rewrite Ec. destruct (tst (fl a3) BAM_FUNMAP); [exact Ub3|reflexivity]. }
  assert (tst (fl pre') BAM_FUNMAP = tst (fl a3) BAM_FUNMAP) as Ha.
  { rewrite Ep. destruct (tst (fl cur') BAM_FUNMAP); [exact Ua3|reflexivity]. }
  split.
  - intros Hu. rewrite Ha in Hu. rewrite Ec, Hu.
    split; [exact Pb3|]. split; [exact Mb3|exact Rb3].
  - intros Hu. rewrite Ep, Hu.
    split; [exact Pa3|]. split; [exact Ma3|exact Ra3].
Qed.

Lemma fix_pair_removal_witness :
  let pre := sample_read "R1" BAM_FUNMAP (-1) (-1) [] [] in
  let cur := sample_read "R1" (Z.lor BAM_FPROPER_PAIR BAM_FREVERSE) 0 300
               [cigar_op 50 BAM_CMATCH] [] in
  let cfg := mk_config true true false false FIX_ALL in
  exists pre' cur',
    fix_pair cfg pre cur 0 350 = Ok (pre', cur')
    /\ tst (fl cur') BAM_FPAIRED = false
    /\ tst (fl cur') BAM_FPROPER_PAIR = false.
Proof.
  intros pre cur cfg.
  destruct (fix_pair cfg pre cur 0 350) as [[pre' cur']| | | |] eqn:E;
    try (vm_compute in E; discriminate E).
  exists pre', cur'. split; [reflexivity|].
  destruct (fix_pair_removal cfg pre cur 0 350 pre' cur' eq_refl E) as [H _].
  destruct (H eq_refl) as (H1 & _ & H3). now split.
Defined.

(** ** The records written *)

Lemma written_keep cfg b n :
  remove_reads cfg = false -> written cfg b n = take n b.
Proof.
  intros H. unfold written. rewrite H. cbn [andb negb].
  induction (take n b) as [|x l IH]; [reflexivity|].
  cbn [List.filter]. now rewrite IH.
Qed.

Lemma written_removed cfg b n :
  remove_reads cfg = true ->
  Forall (fun r => tst (fl r) BAM_FSECONDARY = false
                   /\ tst (fl r) BAM_FUNMAP = false) (written cfg b n).
Proof.
  intros H. unfold written. rewrite H. cbn [andb].
  induction (take n b) as [|x l IH]; [constructor|].
  cbn [List.filter]. destruct (tst (fl x) (Z.lor BAM_FSECONDARY BAM_FUNMAP)) eqn:E;
    cbn [negb]; [exact IH|].
  constructor; [|exact IH]. rewrite tst_lor in E.
  now apply orb_false_iff in E.
Qed.

Lemma mating_loop_written (P : bam1_t -> Prop) cfg h :
  (forall b n, Forall P (written cfg b n)) ->
  forall fuel inp bs out,
    Forall P out -> Forall P (fst (mating_loop fuel cfg h inp bs out)).
Proof.
  intros Hw. induction fuel as [|fuel IH]; intros inp bs out Hout;
    cbn [mating_loop]; [exact Hout|].
  destruct (next_template h (sanitize_flags cfg) bs inp) as [[bs' inp']| | | |];
    cbn [fst]; try exact Hout.
  destruct (fix_template cfg (bs_b bs') (bs_n bs')) as [b2| | | |];
    cbn [fst]; try exact Hout.
  apply IH. apply Forall_app. split; [exact Hout|apply Hw].
Qed.

(** X18.  With read removal on, no record written by [bam_mating_core] is
    flagged secondary or unmapped, whatever the input and however the run
    ends. *)
Theorem removal_output (cfg : config) (h : sam_hdr_t) (inp : samFile) :
  remove_reads cfg = true ->
  Forall (fun r => tst (fl r) BAM_FSECONDARY = false
                   /\ tst (fl r) BAM_FUNMAP = false)
         (fst (bam_mating_core cfg h inp)).
Proof.
  intros H. unfold bam_mating_core. apply mating_loop_written; [|constructor].
  intros b n. now apply written_removed.
Qed.

Lemma removal_output_witness :
  let cfg := mk_config true true false false FIX_ALL in
  let inp := [RdRec (sample_read "R1" 0 0 100 [cigar_op 50 BAM_CMATCH] []);
              RdRec (sample_read "R1" BAM_FUNMAP (-1) (-1) [] []);
              RdRec (sample_read "R1" BAM_FSECONDARY 0 700 [cigar_op 50 BAM_CMATCH] [])] in
  length (fst (bam_mating_core cfg [1000] inp)) = 1%nat
  /\ Forall (fun r => tst (fl r) BAM_FSECONDARY = false
                      /\ tst (fl r) BAM_FUNMAP = false)
            (fst (bam_mating_core cfg [1000] inp)).
Proof.
  split; [vm_compute; reflexivity|].
  apply (removal_output (mk_config true true false false FIX_ALL)). reflexivity.
Defined.

(** ** Without read removal every record is written *)

Lemma read_group_eof h f :
  forall inp b n bs' inp',
    read_group h f inp b n = Ok (bs', inp') ->
    if bs_eof bs' then inp' = [] /\ bs_next bs' = None
    else exists k, bs_next bs' = Some k.
Proof.
  induction inp as [|ev rest IH]; intros b n bs' inp' H; cbn [read_group] in H.
  - destruct (or_minus2 _) as [b0| | | |]; try discriminate.
    cbn [rbind] in H. injection H as <- <-. cbn. now split.
  - destruct ev as [r|k]; [|discriminate].
    destruct (or_minus2 _) as [b0| | | |]; try discriminate.
    cbn [rbind] in H.
    destruct (reallocated _ _); [discriminate|].
    destruct (strcmp_ne _ _).
    + injection H as <- <-. cbn. now exists n.
    + eapply IH; exact H.
Qed.

Lemma next_template_eof h f bs inp bs' inp' :
  next_template h f bs inp = Ok (bs', inp') ->
  if bs_eof bs' then inp' = [] /\ bs_next bs' = None
  else exists k, bs_next bs' = Some k.
Proof.
  unfold next_template. destruct (bs_eof bs); [discriminate|].
  intros H.
  match type of H with
  | rbind ?r _ = _ => destruct r as [[b1 inp1]| | | |]; try discriminate
  end.
  cbn [rbind] in H. eapply read_group_eof; exact H.
Qed.

Lemma or_minus2_err {A} (r : result A) c : or_minus2 r = Err c -> c = -2.
Proof. destruct r; cbn; intros H; try discriminate. now injection H as <-. Qed.

Lemma read_group_err h f :
  forall inp b n c, read_group h f inp b n = Err c -> c < -1.
Proof.
  induction inp as [|ev rest IH]; intros b n c H; cbn [read_group] in H.
  - destruct (or_minus2 _) as [b0| | | |] eqn:E; try discriminate.
    cbn [rbind] in H. injection H as <-. apply or_minus2_err in E. lia.
  - destruct ev as [r|k]; [|injection H as <-; lia].
    destruct (or_minus2 _) as [b0| | | |] eqn:E; try discriminate.
    + cbn [rbind] in H. destruct (reallocated _ _); [discriminate|].
    destruct (strcmp_ne _ _); [discriminate|].
      eapply IH; exact H.
    + cbn [rbind] in H. injection H as <-. apply or_minus2_err in E. lia.
Qed.

(** [next_template] returns -1 only at the end of the stream *)
Lemma next_template_end h f bs inp c :
  next_template h f bs inp = Err c ->
  -1 <= c ->
  bs_eof bs = true \/ (bs_next bs = None /\ inp = []).
Proof.
  unfold next_template. destruct (bs_eof bs); [now left|]. intros H Hc. right.
  destruct (bs_next bs) as [k|].
  - cbn [rbind] in H. apply read_group_err in H. lia.
  - destruct inp as [|[r|k] rest].
    + now split.
    + destruct (or_minus2 _) as [b0| | | |] eqn:E; try discriminate.
      * cbn [rbind] in H. apply read_group_err in H. lia.
      * cbn [rbind] in H. injection H as <-. apply or_minus2_err in E. lia.
    + cbn [rbind] in H. injection H as <-. lia.
Qed.

Lemma mating_loop_complete cfg h :
  remove_reads cfg = false ->
  forall fuel inp bs out carry,
    carry_inv bs carry ->
    (bs_eof bs = true -> inp = [] /\ bs_next bs = None) ->
    snd (mating_loop fuel cfg h inp bs out) = Ok tt ->
    exists new,
      fst (mating_loop fuel cfg h inp bs out) = out ++ new
      /\ Forall2 derived (carry ++ stream_records inp) new.
Proof.
  intros Hrm. induction fuel as [|fuel IH]; intros inp bs out carry Hc Heof H;
    cbn [mating_loop] in *; [discriminate H|].
  destruct (next_template h (sanitize_flags cfg) bs inp) as [[bs' inp']|c| | |] eqn:E;
    cbn [fst snd] in *; try discriminate H.
  - destruct (next_template_sources _ _ _ _ _ _ _ E Hc)
      as (grp & carry' & Hs & Hg & Hc').
    pose proof (next_template_eof _ _ _ _ _ _ E) as He.
    destruct (fix_template cfg (bs_b bs') (bs_n bs')) as [b2| | | |] eqn:F;
      cbn [fst snd] in *; try discriminate H.
    apply fix_template_derived in F.
    assert (Hc2 : carry_inv (mk_set b2 (bs_n bs') (bs_next bs') (bs_eof bs')) carry').
    { unfold carry_inv in *. cbn [bs_next bs_b].
      destruct (bs_next bs') as [k|]; [|assumption].
      destruct Hc' as (Hk & c & -> & Hd).
      rewrite <- (Forall2_length _ _ _ F). split; [assumption|].
      exists c. split; [reflexivity|].
      eapply derived_trans; [exact Hd|]. now apply Forall2_derived_slot. }
    destruct (IH inp' _ (out ++ written cfg b2 (bs_n bs')) carry' Hc2)
      as (new & Hout & Hder).
    { cbn [bs_eof bs_next]. intros Ht. now rewrite Ht in He. }
    { exact H. }
    assert (Hgrp : Forall2 derived grp (take (bs_n bs') b2))
      by (eapply Forall2_derived_trans; [exact Hg|now apply Forall2_take]).
    exists (written cfg b2 (bs_n bs') ++ new).
    split; [now rewrite Hout, app_assoc|].
    rewrite Hs, written_keep by exact Hrm. now apply Forall2_app.
  - destruct (Z.ltb_spec c (-1)) as [Hlt|Hge]; [discriminate H|].
    exists []. rewrite app_nil_r. split; [reflexivity|].
    assert (carry ++ stream_records inp = []) as ->; [|constructor].
    destruct (next_template_end _ _ _ _ _ E Hge) as [Ht|[Hn ->]].
    + destruct (Heof Ht) as [-> Hn]. unfold carry_inv in Hc. rewrite Hn in Hc.
      now subst carry.
    + unfold carry_inv in Hc. rewrite Hn in Hc. now subst carry.
Qed.

(** X19.  Without read removal, a run of [bam_mating_core] that returns 0 writes
    exactly one record for each record of the input, in the order of the
    input, with the name, bases and qualities of that record, and with the
    proper-pair flag only if that record had it. *)
Theorem all_records_written (cfg : config) (h : sam_hdr_t) (inp : samFile) :
  remove_reads cfg = false ->
  snd (bam_mating_core cfg h inp) = Ok tt ->
  length (fst (bam_mating_core cfg h inp)) = length (stream_records inp)
  /\ Forall2 (fun i o =>
                d_qname o = d_qname i /\ d_seq o = d_seq i
                /\ d_qual o = d_qual i
                /\ (tst (fl o) BAM_FPROPER_PAIR = true ->
                    tst (fl i) BAM_FPROPER_PAIR = true))
             (stream_records inp) (fst (bam_mating_core cfg h inp)).
Proof.
  intros Hrm H. unfold bam_mating_core in *.
  destruct (mating_loop_complete cfg h Hrm (length inp + 2) inp
              (mk_set [] 0 None false) [] [] eq_refl) as (new & Hout & Hder).
  - cbn. discriminate.
  - exact H.
  - cbn [app] in Hout, Hder. rewrite Hout. split; [|exact Hder].
    symmetry. eapply Forall2_length. exact Hder.
Qed.

Lemma all_records_written_witness :
  let inp := [RdRec (sample_read "R1" 0 0 100 [cigar_op 50 BAM_CMATCH] []);
              RdRec (sample_read "R1" BAM_FSECONDARY 0 700 [cigar_op 50 BAM_CMATCH] []);
              RdRec (sample_read "R2" BAM_FUNMAP (-1) (-1) [] [])] in
  length (fst (bam_mating_core default_config [1000] inp)) = 3%nat
  /\ map d_qname (fst (bam_mating_core default_config [1000] inp))
     = map d_qname (stream_records inp).
Proof.
  intros inp.
  destruct (all_records_written default_config [1000] inp eq_refl) as [Hl Hf].
  - vm_compute. reflexivity.
  - split; [exact Hl|]. vm_compute. reflexivity.
Defined.

(** ** The batches of the reader *)

Lemma bytes_eqb_eq s1 s2 : bytes_eqb s1 s2 = true <-> s1 = s2.
Proof.
  revert s2. induction s1 as [|x r IH]; intros [|y t]; cbn [bytes_eqb];
    try (split; [discriminate|discriminate]); [tauto|].
  rewrite andb_true_iff, IH. split.
  - intros [Hx ->]. apply Byte.byte_dec_bl in Hx. now subst.
  - intros [= -> ->]. split; [now apply Byte.byte_dec_lb|reflexivity].
Qed.

Lemma strcmp_ne_spec s1 s2 :
  if strcmp_ne s1 s2 then cstr s1 <> cstr s2 else cstr s1 = cstr s2.
Proof.
  unfold strcmp_ne. destruct (bytes_eqb (cstr s1) (cstr s2)) eqn:E; cbn [negb].
  - now apply bytes_eqb_eq.
  - intros H. apply bytes_eqb_eq in H. congruence.
Qed.

Lemma slot_replicate_zero k i : slot (replicate k bam_zero) i = bam_zero.
Proof.
  unfold slot. revert i. induction k as [|k IH]; intros [|i]; cbn; auto.
Qed.

Lemma slot_beyond (l : list bam1_t) i : (length l <= i)%nat -> slot l i = bam_zero.
Proof. intros H. unfold slot. now apply nth_overflow. Qed.

(** growing the array does not change what a slot index reads in the model *)
Lemma slot_grow b n i : slot (grow_b_array b n) i = slot b i.
Proof.
  unfold grow_b_array. destruct (n <? length b)%nat; [reflexivity|].
  destruct (Nat.lt_ge_cases i (length b)) as [Hlt|Hge].
  - now apply slot_app_l.
  - rewrite slot_app_r by exact Hge. rewrite slot_replicate_zero.
    symmetry. now apply slot_beyond.
Qed.

Lemma length_grow b n : (n <= length (grow_b_array b n))%nat.
Proof.
  unfold grow_b_array. destruct (Nat.ltb_spec n (length b)); [lia|].
  rewrite length_app, length_replicate. lia.
Qed.

Lemma read_group_names h f name :
  forall inp b n bs' inp',
    read_group h f inp b n = Ok (bs', inp') ->
    (1 <= n)%nat ->
    (forall i, (i < n)%nat -> cstr (d_qname (slot b i)) = cstr name) ->
    (n <= bs_n bs')%nat
    /\ (forall i, (i < bs_n bs')%nat ->
          cstr (d_qname (slot (bs_b bs') i)) = cstr name)
    /\ match bs_next bs' with
       | Some k => k = bs_n bs'
                   /\ cstr (d_qname (slot (bs_b bs') k)) <> cstr name
       | None => True
       end.
Proof.
  induction inp as [|ev rest IH]; intros b n bs' inp' H Hn Hnames;
    cbn [read_group] in H;
    pose proof (length_grow b (n + 1)) as Hlen;
    pose proof (slot_grow b (n + 1)) as Hslot;
    set (g := grow_b_array b (n + 1)) in *.
  - destruct (or_minus2 _) as [b0| | | |] eqn:E; try discriminate.
    apply or_minus2_ok in E. apply bam_sanitize_derived in E.
    cbn [rbind] in H. injection H as <- <-. cbn [bs_n bs_b bs_next].
    split; [lia|]. split; [|exact I].
    intros i Hi. destruct i as [|i].
    + rewrite slot_insert_eq by lia. destruct E as (-> & _).
      rewrite Hslot. apply Hnames. lia.
    + rewrite slot_insert_ne by lia. rewrite Hslot. now apply Hnames.
  - destruct ev as [r|k]; [|discriminate].
    destruct (or_minus2 _) as [b0| | | |] eqn:E; try discriminate.
    apply or_minus2_ok in E. apply bam_sanitize_derived in E.
    cbn [rbind] in H.
    rewrite slot_insert_ne in E by lia. rewrite Hslot in E.
    set (b3 := <[O:=b0]> (<[n:=r]> g)) in *.
    assert (Hn3 : slot b3 n = r).
    { subst b3. rewrite slot_insert_ne by lia. apply slot_insert_eq. lia. }
    assert (Hlow : forall i, (i < n)%nat -> cstr (d_qname (slot b3 i)) = cstr name).
    { intros i Hi. subst b3. destruct i as [|i].
      - rewrite slot_insert_eq by (rewrite length_insert; lia).
        destruct E as (-> & _). apply Hnames. lia.
      - rewrite !slot_insert_ne by lia. rewrite Hslot. now apply Hnames. }
    pose proof (strcmp_ne_spec (d_qname (slot b3 0)) (d_qname (slot b3 n)))
      as Hcmp.
    rewrite (Hlow O) in Hcmp by lia.
    destruct (reallocated _ _); [discriminate|].
    destruct (strcmp_ne (d_qname (slot b3 0)) (d_qname (slot b3 n))).
    + injection H as <- <-. cbn [bs_n bs_b bs_next].
      split; [lia|]. split; [exact Hlow|]. split; [reflexivity|].
      intros Heq. now apply Hcmp.
    + destruct (IH b3 (S n) bs' inp' H ltac:(lia)) as (Hle & Hall & Hnext).
      { intros i Hi. destruct (Nat.eq_dec i n) as [->|Hne].
        - now symmetry.
        - apply Hlow. lia. }
      split; [lia|]. split; assumption.
Qed.

(** X20.  A batch returned by [next_template] holds at least one record, and all
    its records have the name of the first.  Either a record with another
    name is stored right behind the batch as look-ahead and the end of the
    file is not set, or the end of the file is set and the input is used up. *)
Theorem next_template_group (h : sam_hdr_t) (f : Z) (bs : bam_set)
    (inp : samFile) (bs' : bam_set) (inp' : samFile) :
  next_template h f bs inp = Ok (bs', inp') ->
  (1 <= bs_n bs')%nat
  /\ (forall i, (i < bs_n bs')%nat ->
        cstr (d_qname (slot (bs_b bs') i)) = cstr (d_qname (slot (bs_b bs') 0)))
  /\ match bs_next bs' with
     | Some k =>
         k = bs_n bs' /\ bs_eof bs' = false
         /\ cstr (d_qname (slot (bs_b bs') k))
            <> cstr (d_qname (slot (bs_b bs') 0))
     | None => bs_eof bs' = true /\ inp' = []
     end.
Proof.
  intros H. pose proof (next_template_eof _ _ _ _ _ _ H) as He.
  unfold next_template in H. destruct (bs_eof bs); [discriminate|].
  match type of H with
  | rbind ?r _ = _ => destruct r as [[b1 inp1]| | | |]; try discriminate
  end.
  cbn [rbind] in H.
  destruct (read_group_names _ _ (d_qname (slot b1 0)) _ _ _ _ _ H ltac:(lia))
    as (Hle & Hall & Hnext).
  { intros i Hi. replace i with O by lia. reflexivity. }
  assert (cstr (d_qname (slot (bs_b bs') 0)) = cstr (d_qname (slot b1 0))) as H0
    by (apply Hall; lia).
  split; [exact Hle|]. split.
  - intros i Hi. rewrite H0. now apply Hall.
  - destruct (bs_next bs') as [k|].
    + destruct Hnext as [-> Hne]. split; [reflexivity|].
      destruct (bs_eof bs'); [destruct He as [_ He]; discriminate He|].
      split; [reflexivity|]. now rewrite H0.
    + destruct (bs_eof bs').
      * destruct He as [-> _]. now split.
      * destruct He as [k Hk]. discriminate Hk.
Qed.

Lemma next_template_group_witness :
  let inp := [RdRec (sample_read "R1" 0 0 100 [cigar_op 50 BAM_CMATCH] []);
              RdRec (sample_read "R1" BAM_FSECONDARY 0 700 [cigar_op 50 BAM_CMATCH] []);
              RdRec (sample_read "R2" BAM_FUNMAP (-1) (-1) [] [])] in
  exists bs' inp',
    next_template [1000] FIX_ALL (mk_set [] 0 None false) inp = Ok (bs', inp')
    /\ bs_n bs' = 2%nat /\ bs_next bs' = Some 2%nat
    /\ cstr (d_qname (slot (bs_b bs') 1)) = cstr (d_qname (slot (bs_b bs') 0))
    /\ cstr (d_qname (slot (bs_b bs') 2)) <> cstr (d_qname (slot (bs_b bs') 0)).
Proof.
  intros inp.
  destruct (next_template [1000] FIX_ALL (mk_set [] 0 None false) inp)
    as [[bs' inp']| | | |] eqn:E; try (vm_compute in E; discriminate E).
  exists bs', inp'. split; [reflexivity|].
  destruct (next_template_group _ _ _ _ _ _ E) as (_ & Hall & Hnext).
  assert (bs_n bs' = 2%nat /\ bs_next bs' = Some 2%nat) as [Hn Hx].
  { vm_compute in E. injection E as <- <-. now split. }
  rewrite Hx in Hnext. destruct Hnext as (_ & _ & Hne).
  split; [exact Hn|]. split; [exact Hx|]. split; [|exact Hne].
  apply Hall. lia.
Defined.

(** ** Secondary and supplementary records *)

Lemma is_primary_bits x y :
  Z.testbit (fl y) 8 = Z.testbit (fl x) 8 ->
  Z.testbit (fl y) 11 = Z.testbit (fl x) 11 ->
  is_primary y = is_primary x.
Proof.
  intros H8 H11. unfold is_primary. rewrite !tst_lor.
  change BAM_FSECONDARY with (2 ^ 8). change BAM_FSUPPLEMENTARY with (2 ^ 11).
  rewrite !tst_bit by lia. now rewrite H8, H11.
Qed.

Lemma fix_pair_primary cfg pre cur pe ce pre' cur' :
  fix_pair cfg pre cur pe ce = Ok (pre', cur') ->
  is_primary pre' = is_primary pre /\ is_primary cur' = is_primary cur.
Proof.
  rewrite fix_pair_eq. intros H.
  pose proof (pair_sync_facts pre cur pe ce) as (_ & _ & _ & _ & _ & Hn).
  cbv zeta in Hn.
  destruct (pair_finish_kept _ _ _ _ _ H) as [(_ & _ & Ka) (_ & _ & Kb)].
  destruct (Hn 8) as [A8 B8]; try lia. destruct (Hn 11) as [A11 B11]; try lia.
  split; apply is_primary_bits.
  - rewrite Ka by lia. exact A8.
  - rewrite Ka by lia. exact A11.
  - rewrite Kb by lia. exact B8.
  - rewrite Kb by lia. exact B11.
Qed.

Lemma unpaired_fix_primary r : is_primary (unpaired_fix r) = is_primary r.
Proof.
  apply is_primary_bits; unfold unpaired_fix; rewrite fl_flag_clear;
    rewrite testbit_clear_pair_flags by lia; apply andb_true_r.
Qed.

Lemma slot_insert_cases (l : list bam1_t) i j x :
  slot (<[i:=x]> l) j = x /\ i = j \/ slot (<[i:=x]> l) j = slot l j.
Proof.
  destruct (Nat.eq_dec i j) as [->|Hne].
  - destruct (Nat.lt_ge_cases j (length l)) as [Hlt|Hge].
    + left. split; [now apply slot_insert_eq|reflexivity].
    + right. now rewrite list_insert_ge.
  - right. now apply slot_insert_ne.
Qed.

Lemma scan_keeps_insert b0 N b n v :
  scan_keeps b0 N b ->
  is_primary (slot b0 n) = true ->
  is_primary v = true ->
  (n < N)%nat ->
  scan_keeps b0 N (<[n:=v]> b).
Proof.
  intros (Hl & Hp & Hs & Hb) Hn Hv HN. unfold scan_keeps.
  rewrite length_insert. split; [exact Hl|]. split; [|split].
  - intros i. destruct (slot_insert_cases b n i v) as [[-> <-]| ->];
      [congruence|apply Hp].
  - intros i Hi. destruct (slot_insert_cases b n i v) as [[_ <-]| ->];
      [congruence|now apply Hs].
  - intros i Hi. destruct (slot_insert_cases b n i v) as [[_ <-]| ->];
      [lia|now apply Hb].
Qed.

Lemma scan_step_keeps cfg b0 N st n st' :
  scan_step cfg st n = Ok st' ->
  (n < N)%nat ->
  scan_keeps b0 N (sc_b st) ->
  (forall p, sc_prev st = Some p -> is_primary (slot b0 p) = true /\ (p < N)%nat) ->
  scan_keeps b0 N (sc_b st')
  /\ (forall p, sc_prev st' = Some p ->
        is_primary (slot b0 p) = true /\ (p < N)%nat).
Proof.
  intros H Hn Hk Hprev. unfold scan_step in H.
  pose proof Hk as (Hl & Hp & Hs & Hb).
  fold (is_primary (slot (sc_b st) n)) in H.
  destruct (tst (fl (slot (sc_b st) n)) (Z.lor BAM_FSECONDARY BAM_FSUPPLEMENTARY))
    eqn:E.
  { injection H as <-. now split. }
  assert (is_primary (slot b0 n) = true) as Hpn.
  { rewrite <- Hp. unfold is_primary. now rewrite E. }
  destruct (sc_prev st) as [prev|] eqn:Eprev.
  - destruct (fix_pair cfg (slot (sc_b st) prev) (slot (sc_b st) n) (sc_pre_end st)
                (end_if_mapped (slot (sc_b st) n))) as [[p' c']| | | |] eqn:F;
      try discriminate H.
    cbn [rbind fst snd] in H. injection H as <-. cbn [sc_b sc_prev].
    destruct (Hprev prev eq_refl) as [Hpp HpN].
    destruct (fix_pair_primary _ _ _ _ _ _ _ F) as [P1 P2].
    split.
    + apply scan_keeps_insert; [|exact Hpn| |exact Hn].
      * apply scan_keeps_insert; [exact Hk|exact Hpp| |exact HpN].
        rewrite P1, Hp. exact Hpp.
      * rewrite P2, Hp. exact Hpn.
    + intros p [= <-]. now split.
  - injection H as <-. cbn [sc_b sc_prev]. split; [exact Hk|].
    intros p [= <-]. now split.
Qed.

Lemma scan_primaries_keeps cfg b0 N ns :
  forall st st',
    scan_primaries cfg ns st = Ok st' ->
    Forall (fun n => (n < N)%nat) ns ->
    scan_keeps b0 N (sc_b st) ->
    (forall p, sc_prev st = Some p -> is_primary (slot b0 p) = true /\ (p < N)%nat) ->
    scan_keeps b0 N (sc_b st')
    /\ (forall p, sc_prev st' = Some p ->
          is_primary (slot b0 p) = true /\ (p < N)%nat).
Proof.
  induction ns as [|n ns IH]; intros st st' H Hns Hk Hprev;
    cbn [scan_primaries] in H.
  - injection H as <-. now split.
  - destruct (scan_step cfg st n) as [st1| | | |] eqn:E; try discriminate H.
    cbn [rbind] in H. inversion Hns as [|? ? Hn Hns']; subst.
    destruct (scan_step_keeps _ b0 N _ _ _ E Hn Hk Hprev) as [Hk1 Hp1].
    eapply IH; eassumption.
Qed.

(** X21.  The primary scan and the unpaired clean-up of [bam_mating_core] keep
    the length of the array and which of its records are primary, leave
    every secondary or supplementary record as it is, and touch no slot at or
    beyond the number of records of the template. *)
Theorem fix_template_keeps_others (cfg : config) (b : list bam1_t) (n : nat)
    (b' : list bam1_t) :
  fix_template cfg b n = Ok b' ->
  length b' = length b
  /\ (forall i, is_primary (slot b' i) = is_primary (slot b i))
  /\ (forall i, is_primary (slot b i) = false -> slot b' i = slot b i)
  /\ (forall i, (n <= i)%nat -> slot b' i = slot b i).
Proof.
  unfold fix_template. intros H.
  destruct (scan_primaries cfg (seq 0 n) (mk_scan b None None 0))
    as [st| | | |] eqn:E; try discriminate H.
  cbn [rbind] in H.
  destruct (scan_primaries_keeps cfg b n (seq 0 n) _ _ E) as [Hk Hprev].
  { apply List.Forall_forall. intros x Hx. apply in_seq in Hx. lia. }
  { cbn [sc_b]. unfold scan_keeps. repeat split; reflexivity. }
  { cbn [sc_prev]. discriminate. }
  unfold unpaired_cleanup in H.
  destruct (sc_curr st); [injection H as <-; exact Hk|].
  destruct (sc_prev st) as [prev|] eqn:Ep; [|discriminate H].
  injection H as <-.
  destruct (Hprev prev eq_refl) as [Hpp HpN].
  apply (scan_keeps_insert b n); [exact Hk|exact Hpp| |exact HpN].
  fold (unpaired_fix (slot (sc_b st) prev)).
  rewrite unpaired_fix_primary.
  destruct Hk as (_ & Hp & _). rewrite Hp. exact Hpp.
Qed.

Lemma fix_template_keeps_others_witness :
  let sec := sample_read "R1" BAM_FSECONDARY 0 7 [] [] in
  let sup := sample_read "R1" BAM_FSUPPLEMENTARY 0 900 [] [] in
  let b := [sec; sample_read "R1" 0 0 100 [cigar_op 50 BAM_CMATCH] [];
            sup; sample_read "R1" 16 0 300 [cigar_op 50 BAM_CMATCH] []] in
  exists b',
    fix_template default_config b 4 = Ok b'
    /\ slot b' 0 = sec /\ slot b' 2 = sup /\ slot b' 1 <> slot b 1.
Proof.
  intros sec sup b.
  destruct (fix_template default_config b 4) as [b'| | | |] eqn:E;
    try (vm_compute in E; discriminate E).
  exists b'. split; [reflexivity|].
  destruct (fix_template_keeps_others _ _ _ _ E) as (_ & _ & Hs & _).
  split; [apply (Hs 0%nat); reflexivity|].
  split; [apply (Hs 2%nat); reflexivity|].
  vm_compute in E. injection E as <-. vm_compute. discriminate.
Defined.

(** ** Read failures *)

Lemma readable_cons r inp : readable inp -> readable (RdRec r :: inp).
Proof. unfold readable. cbn [stream_records map]. now intros <-. Qed.

Lemma read_group_readable h f :
  forall inp b n bs' inp',
    read_group h f inp b n = Ok (bs', inp') ->
    readable inp' -> readable inp.
Proof.
  induction inp as [|ev rest IH]; intros b n bs' inp' H Hr; cbn [read_group] in H.
  - reflexivity.
  - destruct ev as [r|k]; [|discriminate].
    destruct (or_minus2 _) as [b0| | | |]; try discriminate.
    cbn [rbind] in H. apply readable_cons.
    destruct (reallocated _ _); [discriminate|].
    destruct (strcmp_ne _ _).
    + now injection H as _ <-.
    + eapply IH; eassumption.
Qed.

Lemma next_template_readable h f bs inp bs' inp' :
  next_template h f bs inp = Ok (bs', inp') ->
  readable inp' -> readable inp.
Proof.
  unfold next_template. destruct (bs_eof bs); [discriminate|]. intros H Hr.
  destruct (bs_next bs) as [k|].
  - cbn [rbind] in H. eapply read_group_readable; eassumption.
  - destruct inp as [|[r|k] rest]; try discriminate.
    destruct (or_minus2 _) as [b0| | | |]; try discriminate.
    cbn [rbind] in H. apply readable_cons.
    eapply read_group_readable; eassumption.
Qed.

Lemma mating_loop_readable cfg h :
  forall fuel inp bs out,
    (bs_eof bs = true -> inp = []) ->
    snd (mating_loop fuel cfg h inp bs out) = Ok tt ->
    readable inp.
Proof.
  induction fuel as [|fuel IH]; intros inp bs out Heof H;
    cbn [mating_loop] in H; [discriminate H|].
  destruct (next_template h (sanitize_flags cfg) bs inp) as [[bs' inp']|c| | |] eqn:E;
    cbn [snd] in H; try discriminate H.
  - pose proof (next_template_eof _ _ _ _ _ _ E) as He.
    destruct (fix_template cfg (bs_b bs') (bs_n bs')) as [b2| | | |];
      cbn [snd] in H; try discriminate H.
    eapply next_template_readable; [exact E|].
    eapply IH; [|exact H]. cbn [bs_eof]. intros Ht. rewrite Ht in He. tauto.
  - destruct (Z.ltb_spec c (-1)) as [Hlt|Hge]; [discriminate H|].
    destruct (next_template_end _ _ _ _ _ E Hge) as [Ht|[_ ->]].
    + now rewrite (Heof Ht).
    + reflexivity.
Qed.

(** X22.  If the input holds a read that fails (an error other than the end of
    the file), [bam_mating_core] does not return 0: the batch reader passes
    the failure on and the run ends through [read_fail], unless it has failed
    before. *)
Theorem read_failure_fails (cfg : config) (h : sam_hdr_t) (inp : samFile) (k : nat) :
  In (RdErr k) inp ->
  snd (bam_mating_core cfg h inp) <> Ok tt.
Proof.
  intros Hin H.
  assert (readable inp) as Hr.
  { unfold bam_mating_core in H. eapply mating_loop_readable; [|exact H].
    cbn. discriminate. }
  unfold readable in Hr. rewrite Hr in Hin.
  apply in_map_iff in Hin. destruct Hin as (x & Hx & _). discriminate Hx.
Qed.

Lemma read_failure_fails_witness :
  let inp := [RdRec (sample_read "R1" 0 0 100 [cigar_op 50 BAM_CMATCH] []);
              RdRec (sample_read "R2" BAM_FUNMAP (-1) (-1) [] []);
              RdErr 0] in
  snd (bam_mating_core default_config [1000] inp) <> Ok tt
  /\ snd (bam_mating_core default_config [1000] inp) = Err (-2)
  /\ length (fst (bam_mating_core default_config [1000] inp)) = 1%nat.
Proof.
  intros inp. split.
  - apply (read_failure_fails default_config [1000] inp 0).
    right. right. now left.
  - split; vm_compute; reflexivity.
Defined.

(** ** What a batch holds *)

Lemma strcmp_ne_false s1 s2 : cstr s1 = cstr s2 -> strcmp_ne s1 s2 = false.
Proof.
  intros H. pose proof (strcmp_ne_spec s1 s2) as Hs.
  destruct (strcmp_ne s1 s2); [contradiction|reflexivity].
Qed.

Lemma strcmp_ne_true s1 s2 : cstr s1 <> cstr s2 -> strcmp_ne s1 s2 = true.
Proof.
  intros H. pose proof (strcmp_ne_spec s1 s2) as Hs.
  destruct (strcmp_ne s1 s2); [reflexivity|contradiction].
Qed.

Lemma reallocated_false r r0 : m_data r0 = m_data r -> reallocated r r0 = false.
Proof. unfold reallocated. intros ->. now rewrite Z.eqb_refl. Qed.

Lemma reallocated_true r r0 : m_data r0 <> m_data r -> reallocated r r0 = true.
Proof. unfold reallocated. intros H. apply Z.eqb_neq in H. now rewrite H. Qed.

Lemma read_group_run h f name r0 :
  bam_sanitize h r0 f = Ok r0 ->
  cstr (d_qname r0) = cstr name ->
  forall rs b n tail,
    bam_sanitize h (slot b 0) f = Ok r0 ->
    m_data r0 = m_data (slot b 0) ->
    (1 <= n)%nat ->
    Forall (fun x => cstr (d_qname x) = cstr name) rs ->
    batch_end name tail ->
    exists bs',
      read_group h f (map RdRec rs ++ tail) b n = Ok (bs', tl tail)
      /\ bs_n bs' = (n + length rs)%nat
      /\ slot (bs_b bs') 0 = r0
      /\ (forall i, (1 <= i < n)%nat -> slot (bs_b bs') i = slot b i)
      /\ (forall j, (j < length rs)%nat ->
            slot (bs_b bs') (n + j) = nth j rs bam_zero)
      /\ match tail with
         | RdRec r' :: _ =>
             bs_next bs' = Some (n + length rs)%nat /\ bs_eof bs' = false
             /\ slot (bs_b bs') (n + length rs) = r'
         | _ => bs_next bs' = None /\ bs_eof bs' = true
         end.
Proof.
  intros Hfix Hname.
  induction rs as [|r rs IH]; intros b n tail H0 Hm Hn Hnames Hend;
    pose proof (length_grow b (n + 1)) as Hlen;
    pose proof (slot_grow b (n + 1)) as Hslot.
  - cbn [map app length]. rewrite Nat.add_0_r.
    destruct Hend as [->|(r' & t & -> & Hne)]; cbn [read_group tl].
    + rewrite Hslot, H0. cbn [or_minus2 rbind]. eexists. split; [reflexivity|].
      cbn [bs_n bs_b bs_next bs_eof].
      split; [reflexivity|]. split; [apply slot_insert_eq; lia|].
      split; [|split; [intros j Hj; lia|now split]].
      intros i Hi. rewrite slot_insert_ne by lia. apply Hslot.
    + cbv zeta. rewrite slot_insert_ne by lia. rewrite Hslot, H0.
      cbn [or_minus2 rbind]. rewrite (reallocated_false _ _ Hm).
      set (b3 := <[O:=r0]> (<[n:=r']> (grow_b_array b (n + 1)))).
      assert (slot b3 n = r') as Hn3.
      { subst b3. rewrite slot_insert_ne by lia. apply slot_insert_eq. lia. }
      assert (slot b3 0 = r0) as H03.
      { subst b3. apply slot_insert_eq. rewrite length_insert. lia. }
      rewrite Hn3, H03, strcmp_ne_true by (rewrite Hname; now apply not_eq_sym).
      eexists. split; [reflexivity|]. cbn [bs_n bs_b bs_next bs_eof].
      split; [reflexivity|]. split; [exact H03|].
      split; [|split; [intros j Hj; lia|now repeat split]].
      intros i Hi. subst b3. rewrite !slot_insert_ne by lia. apply Hslot.
  - inversion Hnames as [|? ? Hr Hrs]; subst.
    cbn [map app read_group length]. cbv zeta.
    rewrite slot_insert_ne by lia. rewrite Hslot, H0. cbn [or_minus2 rbind].
    rewrite (reallocated_false _ _ Hm).
    set (b3 := <[O:=r0]> (<[n:=r]> (grow_b_array b (n + 1)))).
    assert (slot b3 n = r) as Hn3.
    { subst b3. rewrite slot_insert_ne by lia. apply slot_insert_eq. lia. }
    assert (slot b3 0 = r0) as H03.
    { subst b3. apply slot_insert_eq. rewrite length_insert. lia. }
    rewrite Hn3, H03, strcmp_ne_false by (now rewrite Hname, Hr).
    destruct (IH b3 (S n) tail) as (bs' & E & En & E0 & Elow & Ers & Etail);
      [now rewrite H03 | now rewrite H03 | lia | exact Hrs | exact Hend |].
    exists bs'. split; [exact E|]. split; [lia|]. split; [exact E0|].
    split; [|split].
    + intros i Hi. rewrite Elow by lia. subst b3.
      rewrite !slot_insert_ne by lia. apply Hslot.
    + intros j Hj. destruct j as [|j].
      * rewrite Nat.add_0_r, Elow by lia. exact Hn3.
      * replace (n + S j)%nat with (S n + j)%nat by lia.
        cbn [nth]. apply Ers. lia.
    + replace (n + S (length rs))%nat with (S n + length rs)%nat by lia.
      exact Etail.
Qed.

(** the first turn of the loop after a reallocation: [strcmp] reads the
    name through the pointer taken before *)
Lemma read_group_stale h f r0 x rest b n :
  bam_sanitize h (slot b 0) f = Ok r0 ->
  m_data r0 <> m_data (slot b 0) ->
  (1 <= n)%nat ->
  read_group h f (RdRec x :: rest) b n = Undef.
Proof.
  intros H0 Hm Hn.
  pose proof (slot_grow b (n + 1)) as Hslot.
  cbn [read_group]. cbv zeta. rewrite slot_insert_ne by lia.
  rewrite Hslot, H0. cbn [or_minus2 rbind].
  now rewrite (reallocated_true _ _ Hm).
Qed.

(** X23.  On records of one name followed by the end of the input or by a
    record with another name, [next_template], when it reads the first
    record itself, returns a batch that holds the first record sanitized
    and the others exactly as read, and keeps the record with the other
    name as look-ahead.  When the first record is the look-ahead of the
    previous call, the same holds provided that sanitizing it does not
    reallocate its buffer (the capacity is unchanged) or that the input ends
    right behind it; if sanitizing it reallocates the buffer and a record
    follows, [strcmp] reads the name in the released buffer and the
    behaviour is undefined.  (The reader has not met the end of the input;
    the first record has 32-bit CIGAR words and well-formed tags, and the
    sanitizer returns 0 on it.) *)
Theorem next_template_batch (h : sam_hdr_t) (f : Z) (bs : bam_set)
    (r r0 : bam1_t) (es : list (list byte)) (rs : list bam1_t) (tail : samFile) :
  bs_eof bs = false ->
  Forall cigar_word (d_cigar r) ->
  d_aux r = concat es ->
  Forall aux_entry es ->
  bam_sanitize h r f = Ok r0 ->
  Forall (fun x => cstr (d_qname x) = cstr (d_qname r)) rs ->
  batch_end (d_qname r) tail ->
  (bs_next bs = None ->
   exists bs',
     next_template h f bs (RdRec r :: map RdRec rs ++ tail) = Ok (bs', tl tail)
     /\ batch_as_read bs' r0 rs tail)
  /\ (forall k,
        bs_next bs = Some k -> (1 <= k < length (bs_b bs))%nat ->
        slot (bs_b bs) k = r ->
        (m_data r0 = m_data r \/ (rs = [] /\ tail = []) ->
         exists bs',
           next_template h f bs (map RdRec rs ++ tail) = Ok (bs', tl tail)
           /\ batch_as_read bs' r0 rs tail)
        /\ (m_data r0 <> m_data r -> rs <> [] \/ tail <> [] ->
            next_template h f bs (map RdRec rs ++ tail) = Undef)).
Proof.
  intros Heof Hw Hd Hwf Hs Hnames Hend.
  pose proof (bam_sanitize_idem h r f r0 es Hw Hd Hwf Hs) as Hfix.
  pose proof (bam_sanitize_derived _ _ _ _ Hs) as (Hq & _).
  split.
  - intros Hnone. unfold next_template. rewrite Heof, Hnone, Hs.
    cbn [or_minus2 rbind].
    pose proof (length_grow (bs_b bs) 1) as Hlen.
    set (b1 := <[O:=r0]> (grow_b_array (bs_b bs) 1)).
    assert (slot b1 0 = r0) as H0 by (subst b1; apply slot_insert_eq; lia).
    destruct (read_group_run h f (d_qname r) r0 Hfix ltac:(now rewrite Hq)
                rs b1 1 tail)
      as (bs' & E & En & E0 & _ & Ers & Etail);
      [now rewrite H0 | now rewrite H0 | lia | exact Hnames | exact Hend |].
    exists bs'. split; [exact E|].
    unfold batch_as_read. split; [exact En|]. split; [exact E0|].
    split; [exact Ers|exact Etail].
  - intros k Hk Hrange Hslot.
    set (b1 := <[k:=slot (bs_b bs) 0]> (<[O:=slot (bs_b bs) k]> (bs_b bs))).
    assert (slot b1 0 = r) as H0.
    { subst b1. rewrite slot_insert_ne by lia. rewrite slot_insert_eq by lia.
      exact Hslot. }
    assert (next_template h f bs (map RdRec rs ++ tail)
            = read_group h f (map RdRec rs ++ tail) b1 1) as Hnt.
    { unfold next_template. rewrite Heof, Hk. reflexivity. }
    rewrite Hnt. split.
    + intros [Hm|[-> ->]].
      * destruct (read_group_run h f (d_qname r) r0 Hfix ltac:(now rewrite Hq)
                    rs b1 1 tail)
          as (bs' & E & En & E0 & _ & Ers & Etail);
          [now rewrite H0 | now rewrite H0 | lia | exact Hnames | exact Hend |].
        exists bs'. split; [exact E|].
        unfold batch_as_read. split; [exact En|]. split; [exact E0|].
        split; [exact Ers|exact Etail].
      * pose proof (length_grow b1 2) as Hlen.
        pose proof (slot_grow b1 2) as Hsl.
        cbn [map app read_group tl Nat.add]. rewrite Hsl, H0, Hs.
        cbn [or_minus2 rbind]. eexists. split; [reflexivity|].
        unfold batch_as_read. cbn [bs_n bs_b bs_next bs_eof length].
        split; [reflexivity|]. split; [apply slot_insert_eq; lia|].
        split; [intros j Hj; lia|now split].
    + intros Hm Hmore.
      assert (exists x rest, map RdRec rs ++ tail = RdRec x :: rest)
        as (x & rest & ->).
      { destruct rs as [|x rs']; [|now exists x, (map RdRec rs' ++ tail)].
        destruct Hend as [->|(r' & t & -> & _)].
        - destruct Hmore as [Hx|Hx]; now contradiction Hx.
        - now exists r', t. }
      apply (read_group_stale h f r0); [now rewrite H0|now rewrite H0|lia].
Qed.

Lemma next_template_batch_witness :
  let r1 := sample_read "R1" 0 0 100 [cigar_op 50 BAM_CMATCH] [] in
  let r2 := sample_read "R1" 0 (-1) 5 [cigar_op 50 BAM_CMATCH] [] in
  let r3 := sample_read "R2" 0 0 100 [cigar_op 50 BAM_CMATCH] [] in
  let long := sample_read "R2" 0 0 0 [cigar_op 100 BAM_CMATCH] [] in
  let tight := with_m_data long (l_data long) in
  let r4 := sample_read "R3" 0 0 10 [cigar_op 50 BAM_CMATCH] [] in
  (exists bs',
      next_template [1000] FIX_ALL (mk_set [] 0 None false)
        [RdRec r1; RdRec r2; RdRec r3] = Ok (bs', [])
      /\ bs_n bs' = 2%nat /\ slot (bs_b bs') 0 = r1 /\ slot (bs_b bs') 1 = r2
      /\ bs_next bs' = Some 2%nat /\ slot (bs_b bs') 2 = r3)
  /\ (exists bs',
        next_template [70] FIX_ALL (mk_set [r1; long] 1 (Some 1%nat) false)
          [RdRec r4] = Ok (bs', [])
        /\ bs_n bs' = 1%nat
        /\ d_cigar (slot (bs_b bs') 0)
           = [cigar_op 70 BAM_CMATCH; cigar_op 30 BAM_CSOFT_CLIP])
  /\ next_template [70] FIX_ALL (mk_set [r1; tight] 1 (Some 1%nat) false)
       [RdRec r4] = Undef
  /\ snd (bam_mating_core default_config [70]
            [RdRec r1; RdRec tight; RdRec r4]) = Undef.
Proof.
  intros r1 r2 r3 long tight r4. split; [|split; [|split]].
  - destruct (next_template_batch [1000] FIX_ALL (mk_set [] 0 None false)
                r1 r1 [] [r2] [RdRec r3]) as [H _].
    + reflexivity.
    + repeat constructor; vm_compute; congruence.
    + reflexivity.
    + constructor.
    + reflexivity.
    + repeat constructor.
    + right. exists r3, []. split; [reflexivity|]. vm_compute. discriminate.
    + destruct (H eq_refl) as (bs' & E & Hn & H0 & Hrs & Hx & _ & Hc).
      exists bs'. split; [exact E|]. split; [exact Hn|]. split; [exact H0|].
      split; [apply (Hrs 0%nat); cbn; lia|]. split; [exact Hx|exact Hc].
  - destruct (next_template_batch [70] FIX_ALL
                (mk_set [r1; long] 1 (Some 1%nat) false) long
                (with_cigar long [cigar_op 70 BAM_CMATCH; cigar_op 30 BAM_CSOFT_CLIP])
                [] [] [RdRec r4]) as [_ H].
    + reflexivity.
    + repeat constructor; vm_compute; congruence.
    + reflexivity.
    + constructor.
    + reflexivity.
    + constructor.
    + right. exists r4, []. split; [reflexivity|]. vm_compute. discriminate.
    + destruct (H 1%nat eq_refl) as [Hok _]; [cbn; lia|reflexivity|].
      destruct Hok as (bs' & E & Hn & H0 & _); [left; reflexivity|].
      exists bs'. split; [exact E|]. split; [exact Hn|]. now rewrite H0.
  - destruct (next_template_batch [70] FIX_ALL
                (mk_set [r1; tight] 1 (Some 1%nat) false) tight
                (with_m_data
                   (with_cigar long
                      [cigar_op 70 BAM_CMATCH; cigar_op 30 BAM_CSOFT_CLIP])
                   (l_data long + 4))
                [] [] [RdRec r4]) as [_ H].
    + reflexivity.
    + repeat constructor; vm_compute; congruence.
    + reflexivity.
    + constructor.
    + reflexivity.
    + constructor.
    + right. exists r4, []. split; [reflexivity|]. vm_compute. discriminate.
    + destruct (H 1%nat eq_refl) as [_ Hbad]; [cbn; lia|reflexivity|].
      apply Hbad; [vm_compute; discriminate|right; discriminate].
  - vm_compute. reflexivity.
Defined.

(** ** Templates with more than two primary records *)

Lemma scan_step_prev cfg st n st' p :
  scan_step cfg st n = Ok st' -> sc_prev st = Some p -> sc_prev st' = Some p.
Proof.
  unfold scan_step. intros H Hp. rewrite Hp in H.
  destruct (tst _ _); [now injection H as <-|].
  destruct (fix_pair _ _ _ _ _) as [pc| | | |]; try discriminate H.
  cbn [rbind] in H. now injection H as <-.
Qed.

Lemma scan_primaries_prev cfg ns :
  forall st st' p,
    scan_primaries cfg ns st = Ok st' -> sc_prev st = Some p ->
    sc_prev st' = Some p.
Proof.
  induction ns as [|n ns IH]; intros st st' p H Hp; cbn [scan_primaries] in H.
  - now injection H as <-.
  - destruct (scan_step cfg st n) as [st1| | | |] eqn:E; try discriminate H.
    cbn [rbind] in H. eapply IH; [exact H|]. eapply scan_step_prev; eassumption.
Qed.

Lemma seq_split3 p c n :
  (p < c < n)%nat ->
  seq 0 n = seq 0 p ++ [p] ++ seq (S p) (c - S p) ++ [c] ++ seq (S c) (n - S c).
Proof.
  intros H.
  replace n with (p + (1 + ((c - S p) + (1 + (n - S c)))))%nat at 1 by lia.
  rewrite seq_app. f_equal. cbn [Nat.add seq app]. f_equal.
  rewrite seq_app. f_equal.
  replace (S p + (c - S p))%nat with c by lia. reflexivity.
Qed.

(** X24.  In a template with more than one primary record the first primary
    record ends up paired with the last one: after the fix-ups their mate
    references and mate positions mirror each other, whatever primary
    records lie between them. *)
Theorem fix_template_first_with_last (cfg : config) (b : list bam1_t)
    (n p c : nat) (b' : list bam1_t) :
  (p < c < n)%nat -> (n <= length b)%nat ->
  is_primary (slot b p) = true ->
  is_primary (slot b c) = true ->
  (forall i, (i < p)%nat -> is_primary (slot b i) = false) ->
  (forall i, (c < i < n)%nat -> is_primary (slot b i) = false) ->
  fix_template cfg b n = Ok b' ->
  mtid (core (slot b' p)) = tid (core (slot b' c))
  /\ mpos (core (slot b' p)) = pos (core (slot b' c))
  /\ mtid (core (slot b' c)) = tid (core (slot b' p))
  /\ mpos (core (slot b' c)) = pos (core (slot b' p)).
Proof.
  intros Hpc Hn Hp Hc Hbefore Hafter H. unfold fix_template in H.
  rewrite (seq_split3 p c n Hpc) in H.
  rewrite scan_primaries_app in H.
  rewrite scan_primaries_skip in H.
  2:{ intros i Hi. apply in_seq in Hi. cbn [sc_b]. apply Hbefore. lia. }
  cbn [rbind] in H.
  rewrite scan_primaries_app in H.
  assert (scan_primaries cfg [p] (mk_scan b None None 0)
          = Ok (mk_scan b (Some p) None (end_if_mapped (slot b p)))) as E1.
  { cbn [scan_primaries]. unfold scan_step. cbn [sc_b sc_prev sc_curr].
    fold (is_primary (slot b p)). unfold is_primary in Hp.
    apply negb_true_iff in Hp. rewrite Hp. reflexivity. }
  rewrite E1 in H. cbn [rbind] in H.
  rewrite scan_primaries_app in H.
  destruct (scan_primaries cfg (seq (S p) (c - S p))
              (mk_scan b (Some p) None (end_if_mapped (slot b p))))
    as [st2| | | |] eqn:E2; try discriminate H.
  cbn [rbind] in H.
  pose proof (scan_primaries_prev _ _ _ _ p E2 eq_refl) as Hprev2.
  destruct (scan_primaries_keeps cfg b n _ _ _ E2) as [Hk2 _].
  { apply List.Forall_forall. intros x Hx. apply in_seq in Hx. lia. }
  { cbn [sc_b]. unfold scan_keeps. repeat split; reflexivity. }
  { cbn [sc_prev]. intros q [= <-]. split; [exact Hp|lia]. }
  pose proof Hk2 as (Hl2 & Hp2 & _ & _).
  rewrite scan_primaries_app in H.
  destruct (scan_primaries cfg [c] st2) as [st3| | | |] eqn:E3; try discriminate H.
  cbn [rbind] in H.
  cbn [scan_primaries] in E3.
  destruct (scan_step cfg st2 c) as [st3'| | | |] eqn:E3'; try discriminate E3.
  cbn [rbind] in E3. injection E3 as ->.
  pose proof E3' as Hstep. unfold scan_step in Hstep.
  assert (tst (fl (slot (sc_b st2) c)) (Z.lor BAM_FSECONDARY BAM_FSUPPLEMENTARY)
          = false) as Hc2.
  { pose proof (Hp2 c) as Hx. rewrite Hc in Hx. unfold is_primary in Hx.
    now apply negb_true_iff in Hx. }
  rewrite Hc2, Hprev2 in Hstep.
  destruct (fix_pair cfg (slot (sc_b st2) p) (slot (sc_b st2) c) (sc_pre_end st2)
              (end_if_mapped (slot (sc_b st2) c))) as [[p' c']| | | |] eqn:F;
    try discriminate Hstep.
  cbn [rbind fst snd] in Hstep. injection Hstep as <-.
  destruct (fix_pair_mates_facts _ _ _ _ _ _ _ F) as (Hm & _).
  set (b3 := <[c:=c']> (<[p:=p']> (sc_b st2))) in *.
  assert (slot b3 p = p') as Sp.
  { subst b3. rewrite slot_insert_ne by lia. apply slot_insert_eq. lia. }
  assert (slot b3 c = c') as Sc.
  { subst b3. apply slot_insert_eq. rewrite length_insert. lia. }
  assert (forall i, is_primary (slot b3 i) = is_primary (slot b i)) as Hp3.
  { assert (forall q, sc_prev st2 = Some q ->
                      is_primary (slot b q) = true /\ (q < n)%nat) as Hq.
    { rewrite Hprev2. intros q [= <-]. split; [exact Hp|lia]. }
    destruct (scan_step_keeps cfg b n st2 c _ E3' ltac:(lia) Hk2 Hq)
      as [(_ & Hx & _) _].
    exact Hx. }
  rewrite scan_primaries_skip in H.
  2:{ intros i Hi. apply in_seq in Hi. cbn [sc_b].
      rewrite Hp3. apply Hafter. lia. }
  cbn [rbind] in H. unfold unpaired_cleanup in H. cbn [sc_curr sc_b] in H.
  injection H as <-. rewrite Sp, Sc. exact Hm.
Qed.

Lemma fix_template_first_with_last_witness :
  let r1 := sample_read "R1" 0 0 100 [cigar_op 50 BAM_CMATCH] [] in
  let r2 := sample_read "R1" 16 0 300 [cigar_op 50 BAM_CMATCH] [] in
  let r3 := sample_read "R1" 16 0 500 [cigar_op 50 BAM_CMATCH] [] in
  exists b',
    fix_template default_config [r1; r2; r3] 3 = Ok b'
    /\ mpos (core (slot b' 0)) = 500 /\ mpos (core (slot b' 2)) = 100
    /\ mpos (core (slot b' 1)) = 100.
Proof.
  intros r1 r2 r3.
  destruct (fix_template default_config [r1; r2; r3] 3) as [b'| | | |] eqn:E;
    try (vm_compute in E; discriminate E).
  exists b'. split; [reflexivity|].
  destruct (fix_template_first_with_last default_config [r1; r2; r3] 3 0 2 b')
    as (_ & H2 & _ & H4);
    [lia | cbn; lia | reflexivity | reflexivity | intros i Hi; lia
    | intros i Hi; lia | exact E |].
  rewrite H2, H4. vm_compute in E. injection E as <-.
  repeat split; reflexivity.
Defined.

(** ** C3: the insert sizes that the primary scan leaves *)

Lemma keeps_aln_fixed x y : fixed_from x y -> keeps_aln x y.
Proof.
  intros (P & _ & _ & C & U & _). split; [exact U|].
  intros _. now apply bam_endpos_ext.
Qed.

Lemma keeps_aln_set_isize x v : keeps_aln x (set_isize x v).
Proof. split; [reflexivity|]. intros _. reflexivity. Qed.

Lemma set_tlen_keeps_aln a b pe ce :
  keeps_aln a (fst (set_tlen a b pe ce)) /\ keeps_aln b (snd (set_tlen a b pe ce)).
Proof.
  unfold set_tlen. destruct (_ && _ && _); cbn [fst snd];
    split; apply keeps_aln_set_isize.
Qed.

Lemma pair_sync_keeps_aln pre cur pe ce :
  keeps_aln pre (fst (pair_sync pre cur pe ce))
  /\ keeps_aln cur (snd (pair_sync pre cur pe ce)).
Proof.
  unfold pair_sync.
  pose proof (sync_mate_keeps_aln (flag_or pre BAM_FPAIRED) (flag_or cur BAM_FPAIRED))
    as [Ka Kb].
  destruct (sync_mate (flag_or pre BAM_FPAIRED) (flag_or cur BAM_FPAIRED))
    as [a b]. cbn [fst snd] in Ka, Kb.
  pose proof (set_tlen_keeps_aln a b pe ce) as [Ta Tb].
  split.
  - eapply keeps_aln_trans; [apply keeps_aln_paired|].
    eapply keeps_aln_trans; [exact Ka|exact Ta].
  - eapply keeps_aln_trans; [apply keeps_aln_paired|].
    eapply keeps_aln_trans; [exact Kb|exact Tb].
Qed.

(** The pair fix-up moves neither end of a mapped record. *)
Lemma fix_pair_keeps_aln cfg pre cur pe ce pre' cur' :
  fix_pair cfg pre cur pe ce = Ok (pre', cur') ->
  keeps_aln pre pre' /\ keeps_aln cur cur'.
Proof.
  rewrite fix_pair_eq. intros H. apply pair_finish_fixed in H.
  destruct H as [Fa Fb]. apply keeps_aln_fixed in Fa, Fb.
  destruct (pair_sync_keeps_aln pre cur pe ce) as [Sa Sb].
  split; eapply keeps_aln_trans; eassumption.
Qed.

Lemma end_if_mapped_keeps x y : keeps_aln x y -> end_if_mapped y = end_if_mapped x.
Proof.
  intros [U E]. unfold end_if_mapped. rewrite U.
  destruct (tst (fl x) BAM_FUNMAP); cbn [negb]; [reflexivity|now apply E].
Qed.

(** Along the scan [pre_end] stays the end that [pre] has, if mapped: it is
    computed when [pre] is selected, and the fix-ups of [pre] that follow
    keep it. *)
Lemma scan_step_pre_end cfg st n st' :
  scan_step cfg st n = Ok st' ->
  (n < length (sc_b st))%nat ->
  (forall p, sc_prev st = Some p ->
     (p < n)%nat /\ sc_pre_end st = end_if_mapped (slot (sc_b st) p)) ->
  length (sc_b st') = length (sc_b st)
  /\ (forall p, sc_prev st' = Some p ->
        (p < S n)%nat /\ sc_pre_end st' = end_if_mapped (slot (sc_b st') p)).
Proof.
  intros H Hn Hinv. unfold scan_step in H.
  destruct (tst (fl (slot (sc_b st) n)) (Z.lor BAM_FSECONDARY BAM_FSUPPLEMENTARY)).
  { injection H as <-. split; [reflexivity|].
    intros p Hp. destruct (Hinv p Hp) as [Hlt He]. split; [lia|exact He]. }
  destruct (sc_prev st) as [prev|] eqn:Eprev.
  - destruct (Hinv prev eq_refl) as [Hlt He].
    destruct (fix_pair cfg (slot (sc_b st) prev) (slot (sc_b st) n) (sc_pre_end st)
                (end_if_mapped (slot (sc_b st) n))) as [[p' c']| | | |] eqn:F;
      try discriminate H.
    cbn [rbind fst snd] in H. injection H as <-. cbn [sc_b sc_prev sc_pre_end].
    split; [now rewrite !length_insert|].
    intros p [= <-]. split; [lia|].
    rewrite slot_insert_ne by lia. rewrite slot_insert_eq by lia.
    destruct (fix_pair_keeps_aln _ _ _ _ _ _ _ F) as [Kp _].
    rewrite (end_if_mapped_keeps _ _ Kp). exact He.
  - injection H as <-. cbn [sc_b sc_prev sc_pre_end]. split; [reflexivity|].
    intros p [= <-]. split; [lia|reflexivity].
Qed.

Lemma scan_primaries_pre_end cfg :
  forall k a st st',
    scan_primaries cfg (seq a k) st = Ok st' ->
    (a + k <= length (sc_b st))%nat ->
    (forall p, sc_prev st = Some p ->
       (p < a)%nat /\ sc_pre_end st = end_if_mapped (slot (sc_b st) p)) ->
    length (sc_b st') = length (sc_b st)
    /\ (forall p, sc_prev st' = Some p ->
          (p < a + k)%nat /\ sc_pre_end st' = end_if_mapped (slot (sc_b st') p)).
Proof.
  induction k as [|k IH]; intros a st st' H Hlen Hinv; cbn [seq scan_primaries] in H.
  - injection H as <-. split; [reflexivity|].
    intros p Hp. destruct (Hinv p Hp) as [Hlt He]. split; [lia|exact He].
  - destruct (scan_step cfg st a) as [st1| | | |] eqn:E; try discriminate H.
    cbn [rbind] in H.
    destruct (scan_step_pre_end cfg st a st1 E ltac:(lia) Hinv) as [Hl1 Hinv1].
    destruct (IH (S a) st1 st' H ltac:(lia) Hinv1) as [Hl2 Hinv2].
    split; [congruence|].
    intros p Hp. destruct (Hinv2 p Hp) as [Hlt He]. split; [lia|exact He].
Qed.

(** One turn of the scan that pairs [pre] with the record at [k]. *)
Lemma scan_step_tlen cfg st k st' p :
  scan_step cfg st k = Ok st' ->
  (k < length (sc_b st))%nat ->
  sc_prev st = Some p ->
  (p < k)%nat ->
  sc_pre_end st = end_if_mapped (slot (sc_b st) p) ->
  is_primary (slot (sc_b st) k) = true ->
  tlen_synced (slot (sc_b st') p) (slot (sc_b st') k)
  /\ sc_curr st' = Some k.
Proof.
  intros H Hk Hprev Hlt He Hprim. unfold scan_step in H.
  unfold is_primary in Hprim. apply negb_true_iff in Hprim.
  rewrite Hprim, Hprev in H.
  destruct (fix_pair cfg (slot (sc_b st) p) (slot (sc_b st) k) (sc_pre_end st)
              (end_if_mapped (slot (sc_b st) k))) as [[p' c']| | | |] eqn:F;
    try discriminate H.
  cbn [rbind fst snd] in H. injection H as <-. cbn [sc_b sc_curr].
  split; [|reflexivity].
  rewrite slot_insert_ne by lia. rewrite slot_insert_eq by lia.
  rewrite slot_insert_eq by (rewrite length_insert; lia).
  destruct (fix_pair_tlen cfg (slot (sc_b st) p) (slot (sc_b st) k) (sc_pre_end st)
              (end_if_mapped (slot (sc_b st) k))) as [_ T].
  - intros U. rewrite He. unfold end_if_mapped. now rewrite U.
  - intros U. unfold end_if_mapped. now rewrite U.
  - now apply T.
Qed.

(** C3 (amended).  [b] is the array that holds the [n] records of a
    template.  (1) Whenever the primary scan pairs the first primary record
    [pre] with a later primary record, the two records leave that turn of
    the loop with consistent insert sizes: if both are mapped, on the same
    reference and neither carries the mate-unmapped flag, each insert size
    is the 5' coordinate of the other minus its own, so they are negatives
    of each other; if they are on different references, or either is
    unmapped, or either carries the mate-unmapped flag, both insert sizes
    are 0.  The ends used are those that the scan itself computes.  (2) The
    same holds, when all fix-ups of the template are done, of its first and
    its last primary record. *)
Theorem pair_tlen_synced (cfg : config) (b : list bam1_t) (n : nat) :
  (n <= length b)%nat ->
  (forall k st st' p,
      (k < n)%nat ->
      scan_primaries cfg (seq 0 k) (mk_scan b None None 0) = Ok st ->
      sc_prev st = Some p ->
      is_primary (slot (sc_b st) k) = true ->
      scan_step cfg st k = Ok st' ->
      tlen_synced (slot (sc_b st') p) (slot (sc_b st') k))
  /\ (forall p c b',
        (p < c < n)%nat ->
        is_primary (slot b p) = true ->
        is_primary (slot b c) = true ->
        (forall i, (i < p)%nat -> is_primary (slot b i) = false) ->
        (forall i, (c < i < n)%nat -> is_primary (slot b i) = false) ->
        fix_template cfg b n = Ok b' ->
        tlen_synced (slot b' p) (slot b' c)).
Proof.
  intros Hn.
  assert (forall k st,
             (k <= n)%nat ->
             scan_primaries cfg (seq 0 k) (mk_scan b None None 0) = Ok st ->
             length (sc_b st) = length b
             /\ (forall p, sc_prev st = Some p ->
                   (p < k)%nat
                   /\ sc_pre_end st = end_if_mapped (slot (sc_b st) p))) as Hreach.
  { intros k st Hk E.
    destruct (scan_primaries_pre_end cfg k 0 _ st E) as [Hl Hinv].
    - cbn [sc_b]. lia.
    - cbn [sc_prev]. discriminate.
    - split; [exact Hl|]. intros p Hp. destruct (Hinv p Hp). now split. }
  assert (forall k st st' p,
             (k < n)%nat ->
             scan_primaries cfg (seq 0 k) (mk_scan b None None 0) = Ok st ->
             sc_prev st = Some p ->
             is_primary (slot (sc_b st) k) = true ->
             scan_step cfg st k = Ok st' ->
             tlen_synced (slot (sc_b st') p) (slot (sc_b st') k)
             /\ sc_curr st' = Some k) as Hstep.
  { intros k st st' p Hk E Hp Hprim S.
    destruct (Hreach k st ltac:(lia) E) as [Hl Hinv].
    destruct (Hinv p Hp) as [Hlt He].
    apply (scan_step_tlen cfg st k st' p S); try assumption. lia. }
  split.
  - intros k st st' p Hk E Hp Hprim S.
    now destruct (Hstep k st st' p Hk E Hp Hprim S).
  - intros p c b' Hpc Hp Hc Hbefore Hafter H. unfold fix_template in H.
    replace n with (c + (1 + (n - S c)))%nat in H at 1 by lia.
    rewrite seq_app, scan_primaries_app in H.
    destruct (scan_primaries cfg (seq 0 c) (mk_scan b None None 0))
      as [st2| | | |] eqn:E2; try discriminate H.
    cbn [rbind] in H. rewrite seq_app, scan_primaries_app in H.
    cbn [seq scan_primaries Nat.add] in H.
    destruct (scan_step cfg st2 c) as [st3| | | |] eqn:E3; try discriminate H.
    cbn [rbind] in H.
    (* the state before the turn at [c] *)
    destruct (scan_primaries_keeps cfg b n _ _ _ E2) as [Hk2 Hq2].
    { apply List.Forall_forall. intros x Hx. apply in_seq in Hx. lia. }
    { cbn [sc_b]. unfold scan_keeps. repeat split; reflexivity. }
    { cbn [sc_prev]. discriminate. }
    pose proof Hk2 as (Hl2 & Hp2 & _ & _).
    assert (sc_prev st2 = Some p) as Hprev2.
    { replace c with (p + (1 + (c - S p)))%nat in E2 by lia.
      rewrite seq_app, scan_primaries_app in E2.
      rewrite scan_primaries_skip in E2.
      2:{ intros i Hi. apply in_seq in Hi. cbn [sc_b]. apply Hbefore. lia. }
      cbn [rbind] in E2. rewrite seq_app, scan_primaries_app in E2.
      cbn [seq scan_primaries Nat.add] in E2.
      assert (scan_step cfg (mk_scan b None None 0) p
              = Ok (mk_scan b (Some p) None (end_if_mapped (slot b p)))) as E1.
      { unfold scan_step. cbn [sc_b sc_prev sc_curr].
        unfold is_primary in Hp. apply negb_true_iff in Hp. now rewrite Hp. }
      rewrite E1 in E2. cbn [rbind] in E2.
      eapply scan_primaries_prev; [exact E2|reflexivity]. }
    assert (is_primary (slot (sc_b st2) c) = true) as Hc2 by (now rewrite Hp2).
    destruct (Hstep c st2 st3 p ltac:(lia) E2 Hprev2 Hc2 E3) as [T Hcur].
    destruct (scan_step_keeps cfg b n st2 c _ E3 ltac:(lia) Hk2 Hq2)
      as [(_ & Hp3 & _) _].
    rewrite scan_primaries_skip in H.
    2:{ intros i Hi. apply in_seq in Hi. rewrite Hp3. apply Hafter. lia. }
    cbn [rbind] in H.
    unfold unpaired_cleanup in H. rewrite Hcur in H. injection H as <-.
    exact T.
Qed.

Lemma pair_tlen_synced_witness :
  let r1 := sample_read "R1" 0 0 100 [cigar_op 50 BAM_CMATCH] [] in
  let r2 := sample_read "R1" BAM_FREVERSE 0 300 [cigar_op 50 BAM_CMATCH] [] in
  (exists b',
      fix_template default_config [r1; r2] 2 = Ok b'
      /\ five_prime (slot b' 0) = 100 /\ five_prime (slot b' 1) = 350
      /\ isize (core (slot b' 0)) = 250 /\ isize (core (slot b' 1)) = -250)
  /\ (exists st st',
        scan_primaries default_config (seq 0 1) (mk_scan [r1; r2] None None 0)
        = Ok st
        /\ sc_pre_end st = bam_endpos r1
        /\ scan_step default_config st 1 = Ok st'
        /\ isize (core (slot (sc_b st') 0)) = 250
        /\ isize (core (slot (sc_b st') 1)) = -250).
Proof.
  intros r1 r2. split.
  - destruct (fix_template default_config [r1; r2] 2) as [b'| | | |] eqn:E;
      try (vm_compute in E; discriminate E).
    exists b'. split; [reflexivity|].
    destruct (pair_tlen_synced default_config [r1; r2] 2) as [_ H2];
      [cbn; lia|].
    destruct (H2 0%nat 1%nat b') as [T _];
      [lia | reflexivity | reflexivity | intros i Hi; lia | intros i Hi; lia
      | exact E |].
    vm_compute in E. injection E as <-.
    destruct T as (A & B & _); try reflexivity.
    split; [reflexivity|]. split; [reflexivity|]. split; [exact A|exact B].
  - destruct (scan_primaries default_config (seq 0 1)
                (mk_scan [r1; r2] None None 0)) as [st| | | |] eqn:E0;
      try (vm_compute in E0; discriminate E0).
    destruct (scan_step default_config st 1) as [st'| | | |] eqn:E;
      try (vm_compute in E0; injection E0 as <-; vm_compute in E; discriminate E).
    exists st, st'. split; [reflexivity|].
    destruct (pair_tlen_synced default_config [r1; r2] 2) as [H1 _];
      [cbn; lia|].
    destruct (H1 1%nat st st' 0%nat) as [T _];
      [lia | exact E0
      | vm_compute in E0; injection E0 as <-; reflexivity
      | vm_compute in E0; injection E0 as <-; reflexivity
      | exact E |].
    split; [vm_compute in E0; injection E0 as <-; reflexivity|].
    split; [exact E|].
    vm_compute in E0. injection E0 as <-.
    vm_compute in E. injection E as <-.
    destruct T as (A & B & _); try reflexivity.
    split; [exact A|exact B].
Defined.

(** ** The capacity of the buffer *)

Lemma trim_find_index cigar :
  forall i0 p0 end_ i p,
    trim_find cigar i0 p0 end_ = Some (i, p) ->
    (i0 <= i < i0 + length cigar)%nat.
Proof.
  induction cigar as [|c rest IH]; intros i0 p0 end_ i p H;
    cbn [trim_find] in H; [discriminate|].
  cbn [length].
  destruct (consumes_ref c); cbn [negb] in H.
  - destruct (_ >? end_).
    + injection H as <- _. lia.
    + apply IH in H. lia.
  - apply IH in H. lia.
Qed.

(** The third loop never makes [new_cigar] longer than what it held plus
    what it reads. *)
Lemma trim_tail_length rest :
  forall acc nc,
    trim_tail rest acc = Ok nc -> (length nc <= length acc + length rest)%nat.
Proof.
  induction rest as [|c rest IH]; intros acc nc H; cbn [trim_tail] in H.
  - injection H as <-. lia.
  - cbn [length]. destruct (bam_cigar_op c =? BAM_CHARD_CLIP).
    + apply IH in H. rewrite length_app in H. cbn [length] in H. lia.
    + destruct (rev acc) as [|x front] eqn:R; [discriminate|].
      apply IH in H. rewrite length_app, length_rev in H. cbn [length] in H.
      assert (length acc = S (length front)) as Hl.
      { rewrite <- (length_rev acc), R. reflexivity. }
      lia.
Qed.

Lemma trim_resize_m_data b cg :
  let nshift := 4 * (Z.of_nat (length cg) - n_cigar b) in
  m_data (trim_resize b cg)
  = if (0 <? nshift) && (l_data b + nshift >? m_data b)
    then l_data b + nshift else m_data b.
Proof. cbv zeta. unfold trim_resize. destruct (_ && _); reflexivity. Qed.

Lemma trim_resize_l_data b cg :
  l_data (trim_resize b cg)
  = l_data b + 4 * (Z.of_nat (length cg) - n_cigar b).
Proof.
  unfold l_data, n_cigar.
  rewrite trim_resize_qname, trim_resize_cigar, trim_resize_seq,
    trim_resize_qual, trim_resize_aux. lia.
Qed.

Lemma bam_trim_capacity b end_ b' :
  bam_trim b end_ = Ok b' ->
  n_cigar b' <= n_cigar b + 1
  /\ (m_data b' = m_data b
      \/ (m_data b < l_data b' /\ m_data b' = l_data b'
          /\ n_cigar b' = n_cigar b + 1 /\ fl b' = fl b)).
Proof.
  unfold bam_trim. intros H.
  destruct (trim_find (d_cigar b) 0 (pos (core b)) end_) as [[i p]|] eqn:F.
  2:{ injection H as <-. split; [lia|now left]. }
  apply trim_find_index in F.
  assert (length (take i (d_cigar b)) = i) as Ht by (rewrite length_take; lia).
  assert (length (drop (S i) (d_cigar b)) = (length (d_cigar b) - S i)%nat) as Hd
    by apply length_drop.
  assert (forall b1 cg,
             m_data b1 = m_data b -> n_cigar b1 = n_cigar b ->
             l_data b1 = l_data b -> fl b1 = fl b \/ (length cg <= length (d_cigar b))%nat ->
             (length cg <= length (d_cigar b) + 1)%nat ->
             n_cigar (trim_resize b1 cg) <= n_cigar b + 1
             /\ (m_data (trim_resize b1 cg) = m_data b
                 \/ (m_data b < l_data (trim_resize b1 cg)
                     /\ m_data (trim_resize b1 cg) = l_data (trim_resize b1 cg)
                     /\ n_cigar (trim_resize b1 cg) = n_cigar b + 1
                     /\ fl (trim_resize b1 cg) = fl b))) as Hres.
  { intros b1 cg Hm1 Hn1 Hl1 Hfl Hlen.
    rewrite trim_resize_l_data, trim_resize_fl.
    pose proof (trim_resize_m_data b1 cg) as Hm. cbv zeta in Hm. rewrite Hm.
    clear Hm. unfold n_cigar in *. rewrite trim_resize_cigar.
    rewrite Hm1, Hl1.
    split; [lia|].
    destruct ((0 <? _) && (_ >? _)) eqn:Ec; [|now left].
    apply andb_true_iff in Ec. destruct Ec as [Hg Hr].
    apply Z.ltb_lt in Hg. rewrite Z.gtb_ltb in Hr. apply Z.ltb_lt in Hr.
    right. destruct Hfl as [Hfl|Hfl]; [|lia].
    split; [lia|]. split; [lia|]. split; [lia|exact Hfl]. }
  destruct (p - _ <? end_); [|destruct (p >? end_)];
    destruct (trim_tail _ _) as [nc| | | |] eqn:T; try discriminate H;
    cbn [rbind] in H; injection H as <-;
    apply trim_tail_length in T; cbn [length] in T;
    apply Hres; try reflexivity;
    rewrite ?length_app, ?Ht; cbn [length]; try (left; reflexivity);
    try (right; lia); lia.
Qed.

Lemma sanitize_pos_capacity b flags :
  m_data (sanitize_pos b flags) = m_data b
  /\ n_cigar (sanitize_pos b flags) = n_cigar b.
Proof.
  unfold sanitize_pos. destruct (_ && _); [|now split].
  destruct (tst flags FIX_UNMAP); now split.
Qed.

Lemma sanitize_unmapped_capacity b flags b' :
  sanitize_unmapped b flags = Ok b' -> m_data b' = m_data b.
Proof.
  unfold sanitize_unmapped. destruct (tst (fl b) BAM_FUNMAP).
  2:{ intros H. now injection H as <-. }
  assert (m_data (sanitize_cigar_qual b flags) = m_data b) as Hq.
  { unfold sanitize_cigar_qual. destruct (_ && _), (tst flags FIX_MQUAL);
      reflexivity. }
  destruct (tst flags FIX_AUX).
  2:{ intros H. injection H as <-. exact Hq. }
  unfold sanitize_aux. destruct (bam_aux_first _).
  - destruct (aux_filter_loop _ _ _ _) as [r| | | |]; try discriminate.
    cbn [rbind]. intros H. injection H as <-. exact Hq.
  - intros H. injection H as <-. exact Hq.
  - intros H. injection H as <-. exact Hq.
Qed.

(** X25.  [bam_sanitize] changes the capacity of the buffer only through the
    [realloc] of [bam_trim]: when it returns 0, either the capacity is as
    before, or the trim has lengthened the CIGAR by exactly one operation,
    the data no longer fitted in the old capacity, and the record comes out
    mapped in a buffer whose capacity is exactly its new data length. *)
Theorem bam_sanitize_capacity (h : sam_hdr_t) (b : bam1_t) (flags : Z)
    (b' : bam1_t) :
  bam_sanitize h b flags = Ok b' ->
  m_data b' = m_data b
  \/ (m_data b < l_data b' /\ m_data b' = l_data b'
      /\ n_cigar b' = n_cigar b + 1
      /\ tst (fl b') BAM_FUNMAP = false).
Proof.
  unfold bam_sanitize. intros H.
  destruct (sanitize_pos_capacity b flags) as [Hm0 Hn0].
  set (b0 := sanitize_pos b flags) in *.
  destruct (sanitize_mapped h b0 flags) as [b1| | | |] eqn:M; try discriminate H.
  cbn [rbind] in H.
  pose proof (sanitize_unmapped_capacity _ _ _ H) as Hu.
  unfold sanitize_mapped in M.
  destruct (tst (fl b0) BAM_FUNMAP) eqn:U0.
  { rewrite andb_false_r in M. injection M as <-. left. congruence. }
  destruct (tst flags FIX_CIGAR); cbn [negb andb] in M.
  2:{ injection M as <-. left. congruence. }
  destruct (_ && _).
  { injection M as <-. left. rewrite Hu. exact Hm0. }
  destruct (_ && _).
  { destruct (tst flags FIX_POS); injection M as <-; left; rewrite Hu; exact Hm0. }
  destruct (_ >? _).
  2:{ injection M as <-. left. congruence. }
  destruct (bam_trim_capacity _ _ _ M) as [_ [Hs|(G1 & G2 & G3 & G4)]].
  { left. congruence. }
  assert (tst (fl b1) BAM_FUNMAP = false) as U1 by (now rewrite G4).
  unfold sanitize_unmapped in H. rewrite U1 in H. injection H as <-.
  right. rewrite <- Hm0, <- Hn0. now repeat split.
Qed.

Lemma bam_sanitize_capacity_witness :
  let long := sample_read "R2" 0 0 0 [cigar_op 100 BAM_CMATCH] [] in
  let tight := with_m_data long (l_data long) in
  exists b1 b2,
    bam_sanitize [70] long FIX_ALL = Ok b1 /\ m_data b1 = m_data long
    /\ bam_sanitize [70] tight FIX_ALL = Ok b2
    /\ m_data b2 = l_data tight + 4 /\ m_data b2 = l_data b2
    /\ n_cigar b2 = 2.
Proof.
  intros long tight.
  destruct (bam_sanitize [70] long FIX_ALL) as [b1| | | |] eqn:E1;
    try (vm_compute in E1; discriminate E1).
  destruct (bam_sanitize [70] tight FIX_ALL) as [b2| | | |] eqn:E2;
    try (vm_compute in E2; discriminate E2).
  exists b1, b2. split; [reflexivity|].
  destruct (bam_sanitize_capacity _ _ _ _ E2) as [Hs|(G1 & G2 & G3 & G4)].
  - exfalso. vm_compute in E2. injection E2 as <-. vm_compute in Hs.
    discriminate Hs.
  - split; [vm_compute in E1; injection E1 as <-; reflexivity|].
    split; [reflexivity|]. split; [|split; [exact G2|exact G3]].
    vm_compute in E2. injection E2 as <-. reflexivity.
Defined.
